(** * The descriptor-ring engine of the inside-secure SafeXcel driver

    A shallow embedding of [drivers/crypto/inside-secure/safexcel_ring.c]
    and of the admission and completion pipeline of [safexcel.c] and
    [safexcel_hash.c], with the properties of the design document proved
    about it.

    Conventions.  Pointers are byte addresses in [Z]; all descriptor
    accesses are aligned 32-bit words, so device memory is a function from
    the address of a word to its value.  C [int] and [u32] arithmetic is
    written with its wrap-around ([s32], [u32]).  A C function that mutates
    a structure takes the structure and returns the new one. *)

From Stdlib Require Import ZArith List Bool Lia Finite.
Import ListNotations.
Local Open Scope Z_scope.

(** ** C integers and kernel constants *)

Definition u32 (z : Z) : Z := z mod 2 ^ 32.
Definition s32 (z : Z) : Z := (z + 2 ^ 31) mod 2 ^ 32 - 2 ^ 31.
Definition BIT (n : Z) : Z := Z.shiftl 1 n.

(** errno values of the kernel ABI (include/uapi/asm-generic/errno*.h). *)
Definition ENOENT : Z := 2.
Definition EIO : Z := 5.
Definition ENOMEM : Z := 12.
Definition EINVAL : Z := 22.
Definition EBADMSG : Z := 74.
Definition EINPROGRESS : Z := 115.

(** safexcel.h *)
Definition EIP197_MAX_BATCH_SZ : Z := 65535.
Definition EIP197_RD_OWN_WORD : bool := true.
Definition EIP197_OWN_POLL_COUNT : nat := 10.
Definition EIP197_OWNERSHIP_MAGIC : Z := 0xAAAAAAAA.
Definition EIP197_AVOID_DEV_READ : bool := true.

(** A pointer-valued result: a valid pointer or [ERR_PTR(e)]. *)
Inductive ptr_or_err : Type :=
| Ptr (p : Z)
| ERR_PTR (e : Z).

Definition IS_ERR (p : ptr_or_err) : bool :=
  match p with Ptr _ => false | ERR_PTR _ => true end.

(** [struct safexcel_config], the fields the ring code reads. *)
Record safexcel_config : Type := mk_config {
  rings : Z;
  ring_entries : Z;
  cd_offset : Z;
  rd_offset : Z;
  res_offset : Z;
  own_offset : Z
}.

(** [struct safexcel_desc_ring] ([base_dma] is not used by the cursors). *)
Record safexcel_desc_ring : Type := mk_ring {
  base : Z;
  base_end : Z;
  write : Z;
  read : Z
}.

Definition set_base (r : safexcel_desc_ring) (b : Z) : safexcel_desc_ring :=
  mk_ring b (base_end r) (write r) (read r).
Definition set_write (r : safexcel_desc_ring) (w : Z) : safexcel_desc_ring :=
  mk_ring (base r) (base_end r) w (read r).
Definition set_read (r : safexcel_desc_ring) (p : Z) : safexcel_desc_ring :=
  mk_ring (base r) (base_end r) (write r) p.

(** Device memory: 32-bit words by byte address. *)
Definition mem : Type := Z -> Z.
Definition store32 (m : mem) (a v : Z) : mem :=
  fun x => if x =? a then u32 v else m x.

Module Ring.

(** [safexcel_init_ring_descriptors]; [cdr_base] and [rdr_base] are what
    the two [dmam_alloc_coherent] calls return (0 is NULL).  Returns the
    status and the two rings. *)
Definition safexcel_init_ring_descriptors (cfg : safexcel_config)
    (cdr_base rdr_base : Z) (cdr rdr : safexcel_desc_ring)
  : Z * safexcel_desc_ring * safexcel_desc_ring :=
  if cdr_base =? 0 then (- ENOMEM, set_base cdr cdr_base, rdr)
  else
    let cdr' := mk_ring cdr_base
                  (cdr_base + u32 (cd_offset cfg * u32 (ring_entries cfg - 1)))
                  cdr_base cdr_base in
    if rdr_base =? 0 then (- ENOMEM, cdr', set_base rdr rdr_base)
    else
      let rdr' := mk_ring rdr_base
                    (rdr_base + u32 (rd_offset cfg * u32 (ring_entries cfg - 1)))
                    rdr_base rdr_base in
      (0, cdr', rdr').

(** [safexcel_select_ring]: [atomic_inc_return] on the [int] counter
    [ring_used], then [%] against the [u32] ring count, which converts the
    counter to [u32]; the result is returned as [int].  Returns the index
    and the new counter. *)
Definition atomic_inc_return (v : Z) : Z * Z := (s32 (v + 1), s32 (v + 1)).

Definition safexcel_select_ring (cfg : safexcel_config) (ring_used : Z) : Z * Z :=
  let '(v, ring_used') := atomic_inc_return ring_used in
  (s32 (u32 v mod rings cfg), ring_used').

Definition safexcel_cdr_next_wptr (cfg : safexcel_config) (ring : safexcel_desc_ring)
  : ptr_or_err * safexcel_desc_ring :=
  let ptr := write ring in
  if (write ring =? read ring - cd_offset cfg) ||
     ((read ring =? base ring) && (write ring =? base_end ring))
  then (ERR_PTR (- ENOMEM), ring)
  else if write ring =? base_end ring
       then (Ptr ptr, set_write ring (base ring))
       else (Ptr ptr, set_write ring (write ring + cd_offset cfg)).

Definition safexcel_rdr_next_wptr (cfg : safexcel_config) (ring : safexcel_desc_ring)
  : ptr_or_err * safexcel_desc_ring :=
  let ptr := write ring in
  if (write ring =? read ring - rd_offset cfg) ||
     ((read ring =? base ring) && (write ring =? base_end ring))
  then (ERR_PTR (- ENOMEM), ring)
  else if write ring =? base_end ring
       then (Ptr ptr, set_write ring (base ring))
       else (Ptr ptr, set_write ring (write ring + rd_offset cfg)).

Definition safexcel_cdr_next_rptr (cfg : safexcel_config) (ring : safexcel_desc_ring)
  : Z * safexcel_desc_ring :=
  let ptr := read ring in
  if read ring =? base_end ring
  then (ptr, set_read ring (base ring))
  else (ptr, set_read ring (read ring + cd_offset cfg)).

(** The bounded poll of the ownership word in [safexcel_rdr_next_rptr]:
    the counter is decremented first and, when it is still nonzero, the
    ownership word is loaded and compared with the magic value; the loop
    goes on while both tests hold.  [cnt] is the C counter, which starts at
    the positive constant [EIP197_OWN_POLL_COUNT] and therefore stays a
    natural number.  The word
    is written by the device, so each load sees the memory after the
    device's activity [dev t] since the previous load, [t] counting the
    loads.  Returns the final [cnt], the number of loads done and the
    memory as last seen. *)
Fixpoint own_poll (cnt : nat) (own : Z) (dev : nat -> mem -> mem) (t : nat) (m : mem)
  : nat * nat * mem :=
  match cnt with
  | O => (O, t, m)
  | S cnt' =>
      match cnt' with
      | O => (O, t, m)
      | S _ =>
          let m1 := dev t m in
          if negb (m1 own =? EIP197_OWNERSHIP_MAGIC)
          then own_poll cnt' own dev (S t) m1
          else (cnt', S t, m1)
      end
  end.

(** [~EIP197_OWNERSHIP_MAGIC] as a [u32]. *)
Definition not32 (v : Z) : Z := Z.lxor v 0xFFFFFFFF.

(** [safexcel_rdr_next_rptr]; [rd] is the caller's cursor, which C passes
    by reference.  Returns the result, the memory and the new cursor. *)
Definition safexcel_rdr_next_rptr (cfg : safexcel_config) (ring : safexcel_desc_ring)
    (rd : Z) (dev : nat -> mem -> mem) (m : mem)
  : ptr_or_err * mem * Z :=
  let ptr := rd in
  let advance (m' : mem) :=
    if ptr =? base_end ring
    then (Ptr ptr, m', base ring)
    else (Ptr ptr, m', rd + rd_offset cfg) in
  if EIP197_RD_OWN_WORD then
    let own := ptr + own_offset cfg in
    let '(cnt, _, m1) := own_poll EIP197_OWN_POLL_COUNT own dev 0 m in
    match cnt with
    | O => (ERR_PTR (- ENOENT), m1, rd)
    | S _ => advance (store32 m1 own (not32 EIP197_OWNERSHIP_MAGIC))
    end
  else advance m.

(** [rdesc->last_seg]: bit 22 of the first word of a
    [struct safexcel_result_desc] (after [particle_size:17], [rsvd0:3],
    [descriptor_overflow:1], [buffer_overflow:1]). *)
Definition rdesc_last_seg (m : mem) (rdesc : Z) : bool := Z.testbit (m rdesc) 22.

(** [safexcel_rdr_scan_next].  The loop has no bound of its own; [fuel]
    bounds the number of slots visited and [None] means it was exhausted.
    The function writes neither the ring nor the memory. *)
Fixpoint scan_loop (fuel : nat) (cfg : safexcel_config) (ring : safexcel_desc_ring)
    (m : mem) (rdesc own : Z) : option bool :=
  match fuel with
  | O => None
  | S fuel' =>
      if m own =? EIP197_OWNERSHIP_MAGIC then
        if rdesc_last_seg m rdesc then Some true
        else if rdesc =? base_end ring
             then scan_loop fuel' cfg ring m (base ring) (base ring + own_offset cfg)
             else scan_loop fuel' cfg ring m (own + 4) (own + rd_offset cfg)
      else Some false
  end.

Definition safexcel_rdr_scan_next (fuel : nat) (cfg : safexcel_config)
    (ring : safexcel_desc_ring) (m : mem) : option bool :=
  let rdesc := read ring in
  let own := rdesc + own_offset cfg in
  scan_loop fuel cfg ring m rdesc own.

Definition safexcel_cdr_rollback_wptr (cfg : safexcel_config) (ring : safexcel_desc_ring)
  : safexcel_desc_ring :=
  if write ring =? read ring then ring
  else if write ring =? base ring
       then set_write ring (base_end ring)
       else set_write ring (write ring - cd_offset cfg).

Definition safexcel_rdr_rollback_wptr (cfg : safexcel_config) (ring : safexcel_desc_ring)
  : safexcel_desc_ring :=
  if write ring =? read ring then ring
  else if write ring =? base ring
       then set_write ring (base_end ring)
       else set_write ring (write ring - rd_offset cfg).

(** *** The ring operations of the design document, by ring kind

    The command and the result ring run the same cursor code with their
    own stride. *)

Inductive ring_kind : Type := CDR | RDR.

Definition stride (k : ring_kind) (cfg : safexcel_config) : Z :=
  match k with CDR => cd_offset cfg | RDR => rd_offset cfg end.

Definition next_write_slot (k : ring_kind) (cfg : safexcel_config)
    (ring : safexcel_desc_ring) : ptr_or_err * safexcel_desc_ring :=
  match k with
  | CDR => safexcel_cdr_next_wptr cfg ring
  | RDR => safexcel_rdr_next_wptr cfg ring
  end.

Definition rollback_write (k : ring_kind) (cfg : safexcel_config)
    (ring : safexcel_desc_ring) : safexcel_desc_ring :=
  match k with
  | CDR => safexcel_cdr_rollback_wptr cfg ring
  | RDR => safexcel_rdr_rollback_wptr cfg ring
  end.

(** A memory in which the device has completed every slot, and a device
    that stays quiet during a call. *)
Definition all_done : mem := fun _ => EIP197_OWNERSHIP_MAGIC.
Definition quiet : nat -> mem -> mem := fun _ m => m.

(** Consuming one slot.  On the result ring this is a read of a slot the
    device has completed, whose new cursor the caller stores back into the
    ring (as [safexcel_handle_req_result] does). *)
Definition next_read_slot (k : ring_kind) (cfg : safexcel_config)
    (ring : safexcel_desc_ring) : safexcel_desc_ring :=
  match k with
  | CDR => snd (safexcel_cdr_next_rptr cfg ring)
  | RDR => let '(_, _, rd) :=
             safexcel_rdr_next_rptr cfg ring (read ring) quiet all_done in
           set_read ring rd
  end.

(** The ring of kind [k] as [safexcel_init_ring_descriptors] leaves it
    when both allocations succeed, the ring's at address [b]. *)
Definition ring_zero : safexcel_desc_ring := mk_ring 0 0 0 0.

Definition fresh_ring (k : ring_kind) (cfg : safexcel_config) (b : Z)
  : safexcel_desc_ring :=
  let '(_, cdr, rdr) := safexcel_init_ring_descriptors cfg b b ring_zero ring_zero in
  match k with CDR => cdr | RDR => rdr end.

(** Sequences of calls on one ring, with the number of reserved and not
    yet consumed slots kept beside the ring: a successful reservation adds
    one, a rollback takes the latest reservation back if there is one, and
    the single reader consumes only slots that were reserved. *)
Inductive ring_op : Type := OpNextWrite | OpRollback | OpNextRead.

Definition ring_step (k : ring_kind) (cfg : safexcel_config) (op : ring_op)
    (st : safexcel_desc_ring * Z) : option (safexcel_desc_ring * Z) :=
  let '(r, n) := st in
  match op with
  | OpNextWrite =>
      match next_write_slot k cfg r with
      | (Ptr _, r') => Some (r', n + 1)
      | (ERR_PTR _, r') => Some (r', n)
      end
  | OpRollback => Some (rollback_write k cfg r, if 0 <? n then n - 1 else n)
  | OpNextRead => if 0 <? n then Some (next_read_slot k cfg r, n - 1) else None
  end.

Fixpoint ring_run (k : ring_kind) (cfg : safexcel_config) (ops : list ring_op)
    (st : safexcel_desc_ring * Z) : option (safexcel_desc_ring * Z) :=
  match ops with
  | [] => Some st
  | op :: ops' =>
      match ring_step k cfg op st with
      | Some st' => ring_run k cfg ops' st'
      | None => None
      end
  end.

(** The configurations the driver sets up: a positive stride, at least one
    entry, and a ring whose byte size fits the [u32] arithmetic of
    [safexcel_init_ring_descriptors]. *)
Definition ring_params_ok (k : ring_kind) (cfg : safexcel_config) : Prop :=
  0 < stride k cfg /\ 1 <= ring_entries cfg /\
  stride k cfg * (ring_entries cfg - 1) < 2 ^ 32.

(** The full test in the words of the design document: advancing the write
    cursor by one stride would make it equal to the read cursor minus one
    stride, or write is at the last slot and read at the first. *)
Definition spec_full (k : ring_kind) (cfg : safexcel_config)
    (r : safexcel_desc_ring) : Prop :=
  write r + stride k cfg = read r - stride k cfg \/
  (write r = base_end r /\ read r = base r).

(** The full test of the code. *)
Definition code_full (k : ring_kind) (cfg : safexcel_config)
    (r : safexcel_desc_ring) : Prop :=
  write r = read r - stride k cfg \/
  (write r = base_end r /\ read r = base r).

(** Cursors on slot boundaries [wi] and [ri] of a ring of [cap] slots of
    [off] bytes, [n] slots apart. *)
Definition on_slots (off cap : Z) (r : safexcel_desc_ring) (n : Z) : Prop :=
  exists wi ri,
    0 <= wi < cap /\ 0 <= ri < cap /\
    write r = base r + off * wi /\ read r = base r + off * ri /\
    base_end r = base r + off * (cap - 1) /\
    n = (if ri <=? wi then wi - ri else wi - ri + cap).

(** [n] reservations in a row, all of which succeed, and [n] rollbacks in a
    row (the [cdesc_rollback] loop of [safexcel_ahash_send_req]). *)
Fixpoint reserve (k : ring_kind) (cfg : safexcel_config) (n : nat)
    (r : safexcel_desc_ring) : option safexcel_desc_ring :=
  match n with
  | O => Some r
  | S n' =>
      match next_write_slot k cfg r with
      | (Ptr _, r') => reserve k cfg n' r'
      | (ERR_PTR _, _) => None
      end
  end.

Fixpoint rollback_n (k : ring_kind) (cfg : safexcel_config) (n : nat)
    (r : safexcel_desc_ring) : safexcel_desc_ring :=
  match n with
  | O => r
  | S n' => rollback_n k cfg n' (rollback_write k cfg r)
  end.

(** [n] consecutive calls of [safexcel_select_ring]: the indices returned,
    in order, and the counter afterwards. *)
Fixpoint select_run (cfg : safexcel_config) (n : nat) (ring_used : Z)
  : list Z * Z :=
  match n with
  | O => ([], ring_used)
  | S n' =>
      let '(i, c) := safexcel_select_ring cfg ring_used in
      let '(l, c') := select_run cfg n' c in
      (i :: l, c')
  end.

(** The memory after the device's activity before loads [t], ...,
    [t + n - 1]. *)
Fixpoint dev_run (dev : nat -> mem -> mem) (t n : nat) (m : mem) : mem :=
  match n with
  | O => m
  | S n' => dev_run dev (S t) n' (dev t m)
  end.

(** Walking the result ring forward from a slot, wrapping at the end: the
    slot after [p], and the [n] slots from [p] on. *)
Definition next_slot (cfg : safexcel_config) (ring : safexcel_desc_ring)
    (p : Z) : Z :=
  if p =? base_end ring then base ring else p + rd_offset cfg.

Fixpoint walk (cfg : safexcel_config) (ring : safexcel_desc_ring) (n : nat)
    (p : Z) : list Z :=
  match n with
  | O => []
  | S n' => p :: walk cfg ring n' (next_slot cfg ring p)
  end.

(** A slot is ownership-confirmed when its marker is the magic value. *)
Definition owned (cfg : safexcel_config) (m : mem) (p : Z) : bool :=
  m (p + own_offset cfg) =? EIP197_OWNERSHIP_MAGIC.

Fixpoint take_while {A : Type} (f : A -> bool) (l : list A) : list A :=
  match l with
  | [] => []
  | x :: l' => if f x then x :: take_while f l' else []
  end.

(** The run of consecutive ownership-confirmed slots from the read cursor,
    looking at [n] slots at most, and whether one of them is the last
    segment of a result. *)
Definition magic_run (cfg : safexcel_config) (ring : safexcel_desc_ring)
    (m : mem) (n : nat) : list Z :=
  take_while (owned cfg m) (walk cfg ring n (read ring)).

Definition packet_ready (cfg : safexcel_config) (ring : safexcel_desc_ring)
    (m : mem) (n : nat) : bool :=
  existsb (rdesc_last_seg m) (magic_run cfg ring m n).

(** A slot that is confirmed and is not a last segment: the scan goes past
    it. *)
Definition passed (cfg : safexcel_config) (m : mem) (q : Z) : bool :=
  owned cfg m q && negb (rdesc_last_seg m q).

End Ring.

(** Configurations used in the examples: four entries per ring, command
    descriptors of 32 bytes, result slots of 64 bytes with the ownership
    word last; one ring, and three rings. *)
Definition cfg4 : safexcel_config := mk_config 1 4 32 64 16 60.
Definition cfg3r : safexcel_config := mk_config 3 4 32 64 16 60.

(** A result ring of [cfg4] at address 8192 with the read cursor on its
    second slot, and a memory in which the device has completed the second
    and the third slot, the third being a last segment. *)
Definition rdr4 : safexcel_desc_ring := mk_ring 8192 8384 8192 8256.
Definition mem4 : mem :=
  fun a => if a =? 8256 + 60 then EIP197_OWNERSHIP_MAGIC
           else if a =? 8320 + 60 then EIP197_OWNERSHIP_MAGIC
           else if a =? 8320 then BIT 22
           else 0.

(** A memory whose result-data words all carry the error code [code]. *)
Definition mem_with_error (code : Z) : mem := fun _ => Z.shiftl code 17.

(** ** The admission and completion pipeline ([safexcel.c]) *)

Module Engine.

(** safexcel.h *)
Definition EIP197_HIA_RDR_THRESH_PROC_PKT (n : Z) : Z := n.
Definition EIP197_HIA_RDR_THRESH_PKT_MODE : Z := BIT 23.
Definition EIP197_xDR_PROC_xD_PKT_OFFSET : Z := 24.
Definition EIP197_xDR_PROC_xD_PKT_MASK : Z := 127.
Definition EIP197_xDR_PROC_xD_PKT (n : Z) : Z := Z.shiftl n 24.
Definition EIP197_xDR_ERR : Z := BIT 2.
Definition EIP197_xDR_THRESH : Z := BIT 4.

(** The error code of a [struct result_data_desc]: the 15 bits above
    [packet_length:17] in its first word. *)
Definition result_data_error_code (m : mem) (result_data : Z) : Z :=
  Z.land (Z.shiftr (m result_data) 17) 0x7fff.

(** [safexcel_rdesc_check_errors], on the error code it reads. *)
Definition rdesc_check_error_code (error_code : Z) : Z :=
  if error_code =? 0 then 0
  else if negb (Z.land error_code 0x407f =? 0) then - EIO
  else if error_code =? BIT 9 then - EBADMSG
  else - EINVAL.

Definition safexcel_rdesc_check_errors (cfg : safexcel_config) (m : mem)
    (rdesc : Z) : Z :=
  let result_data := rdesc + res_offset cfg in
  rdesc_check_error_code (result_data_error_code m result_data).

(** [cdesc->last_seg]: bit 22 of the first word of a
    [struct safexcel_command_desc] (after [particle_size:17], [rsvd0:5]). *)
Definition cdesc_last_seg (m : mem) (cdesc : Z) : bool := Z.testbit (m cdesc) 22.

(** [safexcel_complete]: acknowledge command descriptors up to and
    including the one with [last_seg].  [fuel] bounds the iterations of the
    do-while loop. *)
Fixpoint safexcel_complete (fuel : nat) (cfg : safexcel_config) (m : mem)
    (cdr : safexcel_desc_ring) : option safexcel_desc_ring :=
  match fuel with
  | O => None
  | S fuel' =>
      let '(cdesc, cdr') := Ring.safexcel_cdr_next_rptr cfg cdr in
      if negb (cdesc_last_seg m cdesc)
      then safexcel_complete fuel' cfg m cdr'
      else Some cdr'
  end.

(** The device registers the pipeline writes. *)
Inductive reg : Type :=
| CDR_PREP_COUNT
| RDR_THRESH
| RDR_PREP_COUNT
| RDR_PROC_COUNT
| RDR_STAT.

Section Pipeline.
(** Requests are handles of type [request].  The state the two callbacks
    of a request work on (descriptor rings, device memory, the request
    itself) is [W]; the fields of [struct safexcel_ring] that only the
    pipeline writes are kept apart from it. *)
Variable request : Type.
Variable W : Type.
Variable cfg : safexcel_config.

(** [ctx->send(req, ring, &commands, &results)]: the status and the two
    counts (meaningful when the status is 0). *)
Variable send : request -> W -> (Z * Z * Z) * W.
(** [ctx->handle_result(priv, ring, req, &should_complete, &ret)]: the
    number of descriptors handled, [should_complete] and [ret]. *)
Variable handle_result : request -> W -> (Z * bool * Z) * W.
(** [safexcel_rdr_req_get]: the request recorded for the slot at the read
    cursor of the result ring. *)
Variable safexcel_rdr_req_get : W -> request.
(** [safexcel_rdr_scan_next] on the result ring; [None] when it does not
    return. *)
Variable scan_next : W -> option bool.

(** What the pipeline does that others can see, in program order:
    register writes, stores to the in-flight counter, calls of the two
    callbacks with what they returned, and completions. *)
Inductive event : Type :=
| EvWritel (r : reg) (v : Z)
| EvSend (rq : request) (ret commands results : Z)
| EvBacklog (rq : request) (err : Z)
| EvRequests (v : Z)
| EvHandleResult (rq : request) (ndesc : Z) (should_complete : bool) (ret : Z)
| EvComplete (rq : request) (err : Z)
| EvDevErr.

(** Modelled from the spec: [crypto_get_backlog] and
    [crypto_dequeue_request] (crypto/algapi.c) are not among the sources.
    The admission queue is FIFO, and a pop yields the next request and, if
    present, a backlog notification target; the queue is the sequence of
    the pops it will serve. *)
Definition crypto_queue : Type := list (option request * request).

(** [struct safexcel_ring]: the pipeline's own fields, the callbacks'
    state, and the events so far. *)
Record safexcel_ring : Type := mk_sring {
  world : W;
  queue : crypto_queue;
  requests : Z;
  thresh_written : Z;
  busy : bool;
  req : option request;
  backlog : option request;
  trace : list event
}.

Definition emit (st : safexcel_ring) (e : event) : safexcel_ring :=
  mk_sring (world st) (queue st) (requests st) (thresh_written st) (busy st)
           (req st) (backlog st) (trace st ++ [e]).
Definition set_world (st : safexcel_ring) (w : W) : safexcel_ring :=
  mk_sring w (queue st) (requests st) (thresh_written st) (busy st)
           (req st) (backlog st) (trace st).
Definition set_queue (st : safexcel_ring) (q : crypto_queue) : safexcel_ring :=
  mk_sring (world st) q (requests st) (thresh_written st) (busy st)
           (req st) (backlog st) (trace st).
Definition set_requests (st : safexcel_ring) (v : Z) : safexcel_ring :=
  mk_sring (world st) (queue st) v (thresh_written st) (busy st)
           (req st) (backlog st) (trace st).
Definition set_thresh_written (st : safexcel_ring) (v : Z) : safexcel_ring :=
  mk_sring (world st) (queue st) (requests st) v (busy st)
           (req st) (backlog st) (trace st).
Definition set_busy (st : safexcel_ring) (b : bool) : safexcel_ring :=
  mk_sring (world st) (queue st) (requests st) (thresh_written st) b
           (req st) (backlog st) (trace st).
Definition set_stalled (st : safexcel_ring) (r b : option request)
  : safexcel_ring :=
  mk_sring (world st) (queue st) (requests st) (thresh_written st) (busy st)
           r b (trace st).

(** [safexcel_try_push_requests]. *)
Definition safexcel_try_push_requests (st : safexcel_ring) : safexcel_ring :=
  let coal := Z.min (requests st) EIP197_MAX_BATCH_SZ in
  let st := emit st (EvWritel RDR_THRESH
                       (u32 (Z.lor EIP197_HIA_RDR_THRESH_PKT_MODE
                                   (EIP197_HIA_RDR_THRESH_PROC_PKT coal)))) in
  if EIP197_AVOID_DEV_READ && negb (busy st)
  then set_thresh_written st coal
  else st.

(** The loop of [safexcel_dequeue], entered at [handle_req] with the
    request [r] and backlog target [b] in hand and [q] left in the queue.
    [acc] is [(nreq, cdesc, rdesc)]. *)
Fixpoint dequeue_handle_req (q : crypto_queue) (r : request)
    (b : option request) (st : safexcel_ring) (acc : Z * Z * Z)
  : safexcel_ring * (Z * Z * Z) :=
  let '(nreq, cdesc, rdesc) := acc in
  let '((ret, commands, results), w) := send r (world st) in
  let st := emit (set_world st w) (EvSend r ret commands results) in
  if negb (ret =? 0) then
    (* request_failed *)
    (set_stalled (set_queue st q) (Some r) b, acc)
  else
    let st := match b with
              | Some bl => emit st (EvBacklog bl (- EINPROGRESS))
              | None => st
              end in
    let acc' := if (commands =? 0) && (results =? 0) then acc
                else (s32 (nreq + 1), s32 (cdesc + commands),
                      s32 (rdesc + results)) in
    match q with
    | [] => (set_stalled (set_queue st []) None None, acc')
    | (b', r') :: q' => dequeue_handle_req q' r' b' st acc'
    end.

(** [safexcel_dequeue]. *)
Definition safexcel_dequeue (st : safexcel_ring) : safexcel_ring :=
  let st := emit st (EvWritel RDR_THRESH (u32 EIP197_HIA_RDR_THRESH_PKT_MODE)) in
  let '(st, (nreq, cdesc, rdesc)) :=
    match req st with
    | Some r => dequeue_handle_req (queue st) r (backlog st) st (0, 0, 0)
    | None =>
        match queue st with
        | [] => (set_stalled st None None, (0, 0, 0))
        | (b, r) :: q => dequeue_handle_req q r b st (0, 0, 0)
        end
    end in
  (* finalize *)
  let st := emit st (EvWritel CDR_PREP_COUNT (u32 (cdesc * cd_offset cfg))) in
  let st := set_requests st (s32 (requests st + nreq)) in
  let st := emit st (EvRequests (requests st)) in
  let st := emit st (EvWritel RDR_PREP_COUNT (u32 (rdesc * rd_offset cfg))) in
  if negb (requests st =? 0)
  then set_busy (safexcel_try_push_requests st) true
  else st.

(** The result loop of [safexcel_handle_result_descriptor], from its
    loop test.  When the test fails the next packet is looked for, and if
    it is there the loop body is entered again with [nreq = 1]: the jump
    to [one_more_req] is the loop test passing on that value.  Returns
    [handled], [tot_descs] and the state at [err_finish]; [None] when
    [fuel] runs out or [scan_next] does not return. *)
Fixpoint result_loop (fuel : nat) (nreq handled tot_descs : Z)
    (st : safexcel_ring) : option (Z * Z * safexcel_ring) :=
  match fuel with
  | O => None
  | S fuel' =>
      if negb (nreq =? 0) then
        let rq := safexcel_rdr_req_get (world st) in
        let '((ndesc, should_complete, ret), w) := handle_result rq (world st) in
        let st := emit (set_world st w)
                       (EvHandleResult rq ndesc should_complete ret) in
        if should_complete then
          let st := emit st (EvComplete rq ret) in
          result_loop fuel' (s32 (nreq - 1)) handled (s32 (tot_descs + ndesc)) st
        else if EIP197_RD_OWN_WORD && (ndesc =? 0) then
          Some (s32 (handled - nreq), tot_descs, st)
        else
          result_loop fuel' (s32 (nreq - 1)) handled (s32 (tot_descs + ndesc)) st
      else if EIP197_RD_OWN_WORD then
        match scan_next (world st) with
        | None => None
        | Some true => result_loop fuel' 1 (s32 (handled + 1)) tot_descs st
        | Some false => Some (handled, tot_descs, st)
        end
      else Some (handled, tot_descs, st)
  end.

(** The acknowledgement of full batches of
    [EIP197_xDR_PROC_xD_PKT_MASK] packets; [n] bounds the iterations and
    [Z.to_nat i] is always enough. *)
Fixpoint ack_batches (n : nat) (i : Z) (st : safexcel_ring)
  : Z * safexcel_ring :=
  match n with
  | O => (i, st)
  | S n' =>
      if EIP197_xDR_PROC_xD_PKT_MASK <? i
      then ack_batches n' (s32 (i - EIP197_xDR_PROC_xD_PKT_MASK))
             (emit st (EvWritel RDR_PROC_COUNT
                         (u32 (EIP197_xDR_PROC_xD_PKT EIP197_xDR_PROC_xD_PKT_MASK))))
      else (i, st)
  end.

(** [safexcel_handle_result_descriptor]; [stat] and [proc_count] are what
    the reads of the status and of the processed-count register return. *)
Definition safexcel_handle_result_descriptor (fuel : nat) (stat proc_count : Z)
    (st : safexcel_ring) : option safexcel_ring :=
  let thresh_irq := negb (Z.land stat EIP197_xDR_THRESH =? 0) in
  let after_loop :=
    if EIP197_AVOID_DEV_READ && negb thresh_irq then
      (* no_thresh_irq *)
      Some (0, st)
    else
      let nreq := if EIP197_AVOID_DEV_READ then thresh_written st
                  else Z.shiftr (s32 proc_count) EIP197_xDR_PROC_xD_PKT_OFFSET in
      match result_loop fuel nreq nreq 0 st with
      | None => None
      | Some (handled, tot_descs, st) =>
          (* err_finish *)
          if negb (handled =? 0) then
            let '(i, st) := if EIP197_AVOID_DEV_READ
                            then ack_batches (Z.to_nat handled) handled st
                            else (handled, st) in
            Some (handled,
                  emit st (EvWritel RDR_PROC_COUNT
                             (u32 (Z.lor (EIP197_xDR_PROC_xD_PKT i)
                                         (u32 (tot_descs * rd_offset cfg))))))
          else Some (handled, st)
      end in
  match after_loop with
  | None => None
  | Some (handled, st) =>
      let st := set_requests st (s32 (requests st - handled)) in
      let st := emit st (EvRequests (requests st)) in
      let st := set_busy st false in
      let st := emit st (EvWritel RDR_STAT 0xff) in
      let st := if negb (requests st =? 0)
                then set_busy (safexcel_try_push_requests st) true
                else st in
      Some (if negb (Z.land stat EIP197_xDR_ERR =? 0) then emit st EvDevErr else st)
  end.

(** Runs of the two engines on one ring context, one after the other.
    A dequeue run finds the requests that were enqueued since the last
    one at the end of the queue. *)
Inductive run : Type :=
| RunDequeue (arrived : crypto_queue)
| RunCompletion (fuel : nat) (stat proc_count : Z).

Definition exec_run (r : run) (st : safexcel_ring) : option safexcel_ring :=
  match r with
  | RunDequeue arrived =>
      Some (safexcel_dequeue (set_queue st (queue st ++ arrived)))
  | RunCompletion fuel stat proc_count =>
      safexcel_handle_result_descriptor fuel stat proc_count st
  end.

Fixpoint exec_runs (rs : list run) (st : safexcel_ring) : option safexcel_ring :=
  match rs with
  | [] => Some st
  | r :: rs' =>
      match exec_run r st with
      | Some st' => exec_runs rs' st'
      | None => None
      end
  end.

(** Requests admitted to the engine: sends that succeeded and produced
    descriptors.  Requests fully completed: results the callback handled,
    that is, all but those it reported as not yet written. *)
Definition is_admission (e : event) : bool :=
  match e with
  | EvSend _ ret commands results =>
      (ret =? 0) && negb ((commands =? 0) && (results =? 0))
  | _ => false
  end.

Definition is_completion (e : event) : bool :=
  match e with
  | EvHandleResult _ ndesc should_complete _ =>
      should_complete || negb (EIP197_RD_OWN_WORD && (ndesc =? 0))
  | _ => false
  end.

Definition count (f : event -> bool) (tr : list event) : Z :=
  Z.of_nat (length (filter f tr)).

Definition admissions (tr : list event) : Z := count is_admission tr.
Definition completions (tr : list event) : Z := count is_completion tr.

(** The ring context as the probe leaves it. *)
Definition ring_context_init (w : W) : safexcel_ring :=
  mk_sring w [] 0 0 false None None [].

(** The work a dequeue run finds: the stalled request with its backlog
    target, if there is one, and then the queue. *)
Definition pending (st : safexcel_ring) : crypto_queue :=
  match req st with
  | Some r => (backlog st, r) :: queue st
  | None => queue st
  end.

(** The calls of [send] in a trace, in order: the request and the status
    returned. *)
Fixpoint sent (tr : list event) : list (request * Z) :=
  match tr with
  | [] => []
  | EvSend r ret _ _ :: tr' => (r, ret) :: sent tr'
  | _ :: tr' => sent tr'
  end.

Definition is_send_or_backlog (e : event) : bool :=
  match e with
  | EvSend _ _ _ _ | EvBacklog _ _ => true
  | _ => false
  end.

Definition is_result_or_complete (e : event) : bool :=
  match e with
  | EvHandleResult _ _ _ _ | EvComplete _ _ => true
  | _ => false
  end.

Definition is_complete (e : event) : bool :=
  match e with EvComplete _ _ => true | _ => false end.

Definition is_rdr_prep_write (e : event) : bool :=
  match e with EvWritel RDR_PREP_COUNT _ => true | _ => false end.

Definition is_proc_count_write (e : event) : bool :=
  match e with EvWritel RDR_PROC_COUNT _ => true | _ => false end.

(** The value the interrupt-coalescing threshold register holds after a
    trace: the last write to it, [d] if there is none. *)
Fixpoint threshold_after (tr : list event) (d : option Z) : option Z :=
  match tr with
  | [] => d
  | EvWritel RDR_THRESH v :: tr' => threshold_after tr' (Some v)
  | _ :: tr' => threshold_after tr' d
  end.

End Pipeline.

Arguments EvWritel {request}.
Arguments EvSend {request}.
Arguments EvBacklog {request}.
Arguments EvRequests {request}.
Arguments EvHandleResult {request}.
Arguments EvComplete {request}.
Arguments EvDevErr {request}.
Arguments RunDequeue {request}.
Arguments RunCompletion {request}.
Arguments is_admission {request}.
Arguments is_completion {request}.
Arguments count {request}.
Arguments admissions {request}.
Arguments completions {request}.
Arguments sent {request}.
Arguments is_send_or_backlog {request}.
Arguments is_result_or_complete {request}.
Arguments is_complete {request}.
Arguments is_rdr_prep_write {request}.
Arguments is_proc_count_write {request}.
Arguments threshold_after {request}.
Arguments mk_sring {request W}.
Arguments world {request W}.
Arguments queue {request W}.
Arguments requests {request W}.
Arguments thresh_written {request W}.
Arguments busy {request W}.
Arguments req {request W}.
Arguments backlog {request W}.
Arguments trace {request W}.
Arguments emit {request W}.
Arguments set_world {request W}.
Arguments set_queue {request W}.
Arguments set_requests {request W}.
Arguments set_thresh_written {request W}.
Arguments set_busy {request W}.
Arguments set_stalled {request W}.
Arguments safexcel_try_push_requests {request W}.
Arguments dequeue_handle_req {request W}.
Arguments safexcel_dequeue {request W}.
Arguments result_loop {request W}.
Arguments ack_batches {request W}.
Arguments safexcel_handle_result_descriptor {request W}.
Arguments exec_run {request W}.
Arguments exec_runs {request W}.
Arguments ring_context_init {request W}.
Arguments pending {request W}.

End Engine.

(** ** The hash requests ([safexcel_hash.c]) *)

Module Hash.

(** safexcel.h *)
Definition CONTEXT_CONTROL_DIGEST_PRECOMPUTED : Z := Z.shiftl 0x1 21.
Definition CONTEXT_CONTROL_DIGEST_HMAC : Z := Z.shiftl 0x3 21.
Definition CONTEXT_CONTROL_CRYPTO_ALG_MD5 : Z := Z.shiftl 0x0 23.
Definition CONTEXT_CONTROL_CRYPTO_ALG_SHA1 : Z := Z.shiftl 0x2 23.
Definition CONTEXT_CONTROL_CRYPTO_ALG_SHA224 : Z := Z.shiftl 0x4 23.
Definition CONTEXT_CONTROL_CRYPTO_ALG_SHA256 : Z := Z.shiftl 0x3 23.
Definition CONTEXT_CONTROL_CRYPTO_ALG_SHA384 : Z := Z.shiftl 0x6 23.
Definition CONTEXT_CONTROL_CRYPTO_ALG_SHA512 : Z := Z.shiftl 0x5 23.

(** Digest sizes in bytes (crypto/md5.h, crypto/sha.h). *)
Definition MD5_DIGEST_SIZE : nat := 16.
Definition SHA1_DIGEST_SIZE : nat := 20.
Definition SHA224_DIGEST_SIZE : nat := 28.
Definition SHA256_DIGEST_SIZE : nat := 32.
Definition SHA384_DIGEST_SIZE : nat := 48.
Definition SHA512_DIGEST_SIZE : nat := 64.

(** The two descriptor rings of a ring context and the device memory. *)
Record rings_mem : Type := mk_rings_mem {
  cdr : safexcel_desc_ring;
  rdr : safexcel_desc_ring;
  dmem : mem
}.

(** [safexcel_handle_req_result], as far as the rings and the device
    memory go: the read of the result slot, the error check, the
    acknowledgement of the command descriptors and the store of the new
    read cursor.  What follows in the C function (unmapping the DMA
    buffers, copying the digest and the cached bytes) works on the request
    only and is left out.  [EIP197_RD_OWN_WORD] is set, and only then can
    the read fail.  Returns the number of descriptors handled,
    [should_complete] and [ret]; [None] when [safexcel_complete] runs out
    of [fuel]. *)
Definition safexcel_handle_req_result (fuel : nat) (cfg : safexcel_config)
    (dev : nat -> mem -> mem) (h : rings_mem)
  : option ((Z * bool * Z) * rings_mem) :=
  let rd := read (rdr h) in
  let '(rdesc, m, rd') := Ring.safexcel_rdr_next_rptr cfg (rdr h) rd dev (dmem h) in
  match rdesc with
  | ERR_PTR e =>
      (* RD not written yet, try again later *)
      Some ((0, false, e), mk_rings_mem (cdr h) (rdr h) m)
  | Ptr p =>
      let ret := Engine.safexcel_rdesc_check_errors cfg m p in
      match Engine.safexcel_complete fuel cfg m (cdr h) with
      | None => None
      | Some cdr' => Some ((1, true, ret), mk_rings_mem cdr' (set_read (rdr h) rd') m)
      end
  end.

(** [memcpy(dst, src, n)] on byte lists. *)
Definition memcpy (dst src : list Z) (n : nat) : list Z :=
  firstn n src ++ skipn n dst.

(** The fields of [struct safexcel_ahash_req], [struct ahash_request] and
    [struct safexcel_ahash_ctx] that [safexcel_ahash_final] and
    [safexcel_ahash_enqueue] use. *)
Record safexcel_ahash_req : Type := mk_sreq {
  last_req : bool;
  finish : bool;
  needs_inv : bool;
  digest : Z;
  len : Z * Z;
  processed : Z * Z
}.

Record ahash_request : Type := mk_areq {
  nbytes : Z;
  result : list Z
}.

Record safexcel_ahash_ctx : Type := mk_ctx {
  alg : Z;
  ctxr : Z;
  base_needs_inv : bool
}.

(** What reaches the rings from the hash layer: a request put on the
    admission queue of a ring, and the dequeue work of a ring scheduled. *)
Inductive action : Type :=
| ActEnqueue (ring : Z)
| ActQueueWork (ring : Z).

(** The driver state outside the request: the ring-selection counter and
    the actions so far. *)
Record driver : Type := mk_driver {
  ring_used : Z;
  actions : list action
}.

Section Final.
Variable cfg : safexcel_config.
(** [priv->feat_flags & EIP197_NEED_INV]. *)
Variable need_inv : bool.
(** The empty-message digests of the kernel's hash library
    (crypto/md5.h, crypto/sha.h), which are not among the sources. *)
Variables md5_zero_message_hash sha1_zero_message_hash
          sha224_zero_message_hash sha256_zero_message_hash
          sha384_zero_message_hash sha512_zero_message_hash : list Z.
(** What [dma_pool_zalloc] returns (0 is NULL), what
    [crypto_enqueue_request] returns on a ring, and what
    [safexcel_ahash_needs_inv_get] finds when it compares the context
    record with the state of the request. *)
Variable dma_pool_zalloc : Z.
Variable crypto_enqueue_request : Z -> Z.
Variable safexcel_ahash_needs_inv_get : bool.

Definition set_needs_inv (r : safexcel_ahash_req) (b : bool) : safexcel_ahash_req :=
  mk_sreq (last_req r) (finish r) b (digest r) (len r) (processed r).

(** [safexcel_ahash_enqueue]. *)
Definition safexcel_ahash_enqueue (ctx : safexcel_ahash_ctx)
    (areq : ahash_request) (req : safexcel_ahash_req) (d : driver)
  : Z * ahash_request * safexcel_ahash_req * safexcel_ahash_ctx * driver :=
  let req := set_needs_inv req false in
  let alloc :=
    if negb (ctxr ctx =? 0) then
      let ctx :=
        if need_inv && negb (base_needs_inv ctx) &&
           (negb (fst (processed req) =? 0) || negb (snd (processed req) =? 0)) &&
           (digest req =? CONTEXT_CONTROL_DIGEST_PRECOMPUTED)
        then mk_ctx (alg ctx) (ctxr ctx) safexcel_ahash_needs_inv_get
        else ctx in
      if base_needs_inv ctx
      then Some (mk_ctx (alg ctx) (ctxr ctx) false, set_needs_inv req true)
      else Some (ctx, req)
    else
      let ctx := mk_ctx (alg ctx) dma_pool_zalloc (base_needs_inv ctx) in
      if ctxr ctx =? 0 then None else Some (ctx, req) in
  match alloc with
  | None =>
      (- ENOMEM, areq, req, mk_ctx (alg ctx) dma_pool_zalloc (base_needs_inv ctx), d)
  | Some (ctx, req) =>
      let '(ring, used) := Ring.safexcel_select_ring cfg (ring_used d) in
      let ret := crypto_enqueue_request ring in
      (ret, areq, req, ctx,
       mk_driver used (actions d ++ [ActEnqueue ring; ActQueueWork ring]))
  end.

(** [safexcel_ahash_final]. *)
Definition safexcel_ahash_final (ctx : safexcel_ahash_ctx)
    (areq : ahash_request) (req : safexcel_ahash_req) (d : driver)
  : Z * ahash_request * safexcel_ahash_req * safexcel_ahash_ctx * driver :=
  let req := mk_sreq true true (needs_inv req) (digest req) (len req)
                     (processed req) in
  if (fst (len req) =? 0) && (snd (len req) =? 0) && (nbytes areq =? 0) then
    let copy (h : list Z) (n : nat) :=
      mk_areq (nbytes areq) (memcpy (result areq) h n) in
    let areq :=
      if alg ctx =? CONTEXT_CONTROL_CRYPTO_ALG_MD5
      then copy md5_zero_message_hash MD5_DIGEST_SIZE
      else if alg ctx =? CONTEXT_CONTROL_CRYPTO_ALG_SHA1
      then copy sha1_zero_message_hash SHA1_DIGEST_SIZE
      else if alg ctx =? CONTEXT_CONTROL_CRYPTO_ALG_SHA224
      then copy sha224_zero_message_hash SHA224_DIGEST_SIZE
      else if alg ctx =? CONTEXT_CONTROL_CRYPTO_ALG_SHA256
      then copy sha256_zero_message_hash SHA256_DIGEST_SIZE
      else if alg ctx =? CONTEXT_CONTROL_CRYPTO_ALG_SHA384
      then copy sha384_zero_message_hash SHA384_DIGEST_SIZE
      else if alg ctx =? CONTEXT_CONTROL_CRYPTO_ALG_SHA512
      then copy sha512_zero_message_hash SHA512_DIGEST_SIZE
      else areq in
    (0, areq, req, ctx, d)
  else safexcel_ahash_enqueue ctx areq req d.

End Final.

End Hash.

(** The empty-message digests of MD5 and SHA-1, and a request whose result
    buffer has room for the largest digest. *)
Definition md5_empty : list Z :=
  [0xd4; 0x1d; 0x8c; 0xd9; 0x8f; 0x00; 0xb2; 0x04;
   0xe9; 0x80; 0x09; 0x98; 0xec; 0xf8; 0x42; 0x7e].
Definition sha1_empty : list Z :=
  [0xda; 0x39; 0xa3; 0xee; 0x5e; 0x6b; 0x4b; 0x0d; 0x32; 0x55;
   0xbf; 0xef; 0x95; 0x60; 0x18; 0x90; 0xaf; 0xd8; 0x07; 0x09].
Definition empty_final_request : Hash.ahash_request :=
  Hash.mk_areq 0 (repeat 0 64).
Definition fresh_sha1_req : Hash.safexcel_ahash_req :=
  Hash.mk_sreq false false false Hash.CONTEXT_CONTROL_DIGEST_PRECOMPUTED (0, 0) (0, 0).

(** An example pipeline: requests are numbers, the callbacks keep no state,
    [send] fails with -EINVAL on request 1 and otherwise produces one
    command and one result descriptor, and every result is handled. *)
Definition send_ex (r : nat) (w : unit) : (Z * Z * Z) * unit :=
  if Nat.eqb r 1 then ((- EINVAL, 0, 0), w) else ((0, 1, 1), w).
Definition handle_result_ex (r : nat) (w : unit) : (Z * bool * Z) * unit :=
  ((1, true, 0), w).
Definition rdr_req_get_ex (w : unit) : nat := 0%nat.
Definition scan_next_ex (w : unit) : option bool := Some false.

(** ** More of [safexcel_ring.c]: the order of slots, slot indices *)

Module RingOrder.
Import Ring.

(** [n] reservations in a row, all of which succeed, with the slots that
    were handed out, in order. *)
Fixpoint reserve_slots (k : ring_kind) (cfg : safexcel_config) (n : nat)
    (r : safexcel_desc_ring) : option (list Z * safexcel_desc_ring) :=
  match n with
  | O => Some ([], r)
  | S n' =>
      match next_write_slot k cfg r with
      | (Ptr p, r') =>
          match reserve_slots k cfg n' r' with
          | Some (ps, r'') => Some (p :: ps, r'')
          | None => None
          end
      | (ERR_PTR _, _) => None
      end
  end.

(** One read: what the call returns and the ring with the cursor stored.
    On the result ring the device has completed the slot. *)
Definition read_slot (k : ring_kind) (cfg : safexcel_config)
    (r : safexcel_desc_ring) : ptr_or_err * safexcel_desc_ring :=
  match k with
  | CDR => let '(p, r') := safexcel_cdr_next_rptr cfg r in (Ptr p, r')
  | RDR => let '(res, _, rd) :=
             safexcel_rdr_next_rptr cfg r (read r) quiet all_done in
           (res, set_read r rd)
  end.

Fixpoint read_slots (k : ring_kind) (cfg : safexcel_config) (n : nat)
    (r : safexcel_desc_ring) : list ptr_or_err * safexcel_desc_ring :=
  match n with
  | O => ([], r)
  | S n' =>
      let '(p, r') := read_slot k cfg r in
      let '(ps, r'') := read_slots k cfg n' r' in
      (p :: ps, r'')
  end.

(** [safexcel_ring_first_rdr_index] and [safexcel_ring_rdr_rdesc_index]:
    the pointer difference is divided as a signed 64-bit number and the
    quotient returned as [int]. *)
Definition safexcel_ring_first_rdr_index (cfg : safexcel_config)
    (rdr : safexcel_desc_ring) : Z :=
  s32 (Z.quot (read rdr - base rdr) (rd_offset cfg)).

Definition safexcel_ring_rdr_rdesc_index (cfg : safexcel_config)
    (rdr : safexcel_desc_ring) (rdesc : Z) : Z :=
  s32 (Z.quot (rdesc - base rdr) (rd_offset cfg)).

Section SideTable.
(** The array [rdr_req] of a ring context, one request pointer per result
    slot, as a function of the index; [None] is NULL. *)
Variable request : Type.

Definition rdr_req_table : Type := Z -> option request.

(** [safexcel_rdr_req_set] and [safexcel_rdr_req_get]. *)
Definition safexcel_rdr_req_set (cfg : safexcel_config) (rdr : safexcel_desc_ring)
    (t : rdr_req_table) (rdesc : Z) (rq : request) : rdr_req_table :=
  let i := safexcel_ring_rdr_rdesc_index cfg rdr rdesc in
  fun j => if j =? i then Some rq else t j.

Definition safexcel_rdr_req_get (cfg : safexcel_config) (rdr : safexcel_desc_ring)
    (t : rdr_req_table) : option request :=
  let i := safexcel_ring_first_rdr_index cfg rdr in
  t i.

(** A result slot reserved for each request of [qs] and the request
    recorded for it, as the send functions do. *)
Fixpoint record_requests (cfg : safexcel_config) (qs : list request)
    (rdr : safexcel_desc_ring) (t : rdr_req_table)
  : option (safexcel_desc_ring * rdr_req_table) :=
  match qs with
  | [] => Some (rdr, t)
  | q :: qs' =>
      match safexcel_rdr_next_wptr cfg rdr with
      | (Ptr p, rdr') =>
          record_requests cfg qs' rdr' (safexcel_rdr_req_set cfg rdr' t p q)
      | (ERR_PTR _, _) => None
      end
  end.

(** [n] results in a row: the request looked up at the read cursor, then
    the slot consumed. *)
Fixpoint lookup_requests (cfg : safexcel_config) (n : nat)
    (rdr : safexcel_desc_ring) (t : rdr_req_table) : list (option request) :=
  match n with
  | O => []
  | S n' =>
      safexcel_rdr_req_get cfg rdr t
      :: lookup_requests cfg n' (next_read_slot RDR cfg rdr) t
  end.

End SideTable.

Arguments safexcel_rdr_req_set {request}.
Arguments safexcel_rdr_req_get {request}.
Arguments record_requests {request}.
Arguments lookup_requests {request}.

End RingOrder.

(** ** The descriptor writers of [safexcel_ring.c] and
    [safexcel_invalidate_cache] *)

Module Desc.
Import Ring RingOrder Hash.

(** A bit field of [w] bits at bit [lo] of the 32-bit word at [a].  The
    fields of the packed descriptor structures are laid out from bit 0 of a
    little-endian word upwards in the order of their declaration, which is
    the layout the engine reads; a store to a field keeps the other bits of
    the word and drops the bits of the value above the field's width. *)
Definition store_bits (m : mem) (a lo w v : Z) : mem :=
  store32 m a (Z.lor (Z.ldiff (m a) (Z.shiftl (Z.ones w) lo))
                     (Z.shiftl (Z.land v (Z.ones w)) lo)).

Definition load_bits (m : mem) (a lo w : Z) : Z :=
  Z.land (Z.shiftr (m a) lo) (Z.ones w).

(** [memset(p, 0, 4 * words)] on the word memory. *)
Fixpoint memset0 (m : mem) (p : Z) (words : nat) : mem :=
  match words with
  | O => m
  | S n => memset0 (store32 m p 0) (p + 4) n
  end.

(** [sizeof(struct safexcel_result_desc)] and
    [sizeof(struct safexcel_command_desc)] in 32-bit words
    ([EIP197_RD64_FETCH_SIZE], [EIP197_CD64_FETCH_SIZE]): one word of bit
    fields, [rsvd1], [data_lo], [data_hi]; the command descriptor goes on
    with the control data, two words of fields, [context_hi], [control0],
    [control1] and eight token words between them. *)
Definition EIP197_RD64_FETCH_SIZE : nat := 4.
Definition EIP197_CD64_FETCH_SIZE : nat := 18.

Definition lower_32_bits (n : Z) : Z := u32 n.
Definition upper_32_bits (n : Z) : Z := u32 (Z.shiftr (Z.shiftr n 16) 16).
Definition GENMASK (h l : Z) : Z := Z.shiftl (Z.ones (h - l + 1)) l.

Definition EIP197_MAX_TOKENS : nat := 8.
Definition EIP197_TOKEN_OPCODE_INSERT : Z := 0x2.
Definition EIP197_TOKEN_OPCODE_NOOP : Z := EIP197_TOKEN_OPCODE_INSERT.
Definition EIP197_PTRTYPE_NULL : Z := 0.
Definition EIP197_PTRTYPE_XFORM_SMALL : Z := 2.
Definition EIP197_OPTION_MAGIC_VALUE : Z := BIT 0.
Definition EIP197_OPTION_64BIT_CTX : Z := BIT 1.
Definition EIP197_OPTION_CTX_CTRL_IN_CMD : Z := BIT 8.
Definition EIP197_TYPE_EXTENDED : Z := 0x3.
Definition CONTEXT_CONTROL_INV_TR : Z := Z.shiftl 0x6 24.

Definition b2z (b : bool) : Z := if b then 1 else 0.

(** Byte offsets of the words of a descriptor and of the control data
    inside a command descriptor. *)
Definition data_lo_ofs : Z := 8.
Definition data_hi_ofs : Z := 12.
Definition control_data_ofs : Z := 16.
Definition context_ofs : Z := 24.
Definition context_hi_ofs : Z := 28.
Definition control0_ofs : Z := 32.
Definition control1_ofs : Z := 36.
Definition token_ofs : Z := 40.

(** [eip197_noop_token]: [opcode:4] sits above [packet_length:17],
    [stat:2] and [instructions:9]. *)
Definition eip197_noop_token (m : mem) (token : Z) : mem :=
  let m := store_bits m token 28 4 EIP197_TOKEN_OPCODE_NOOP in
  store_bits m token 0 17 (BIT 2).

Fixpoint noop_tokens (m : mem) (token : Z) (n : nat) : mem :=
  match n with
  | O => m
  | S n' => noop_tokens (eip197_noop_token m token) (token + 4) n'
  end.

(** [safexcel_add_rdesc] on the result ring of [h]. *)
Definition safexcel_add_rdesc (cfg : safexcel_config) (first last : bool)
    (data len : Z) (h : rings_mem) : ptr_or_err * rings_mem :=
  match safexcel_rdr_next_wptr cfg (rdr h) with
  | (ERR_PTR e, rdr') => (ERR_PTR e, mk_rings_mem (cdr h) rdr' (dmem h))
  | (Ptr rdesc, rdr') =>
      let m := memset0 (dmem h) rdesc EIP197_RD64_FETCH_SIZE in
      let m := store_bits m rdesc 23 1 (b2z first) in
      let m := store_bits m rdesc 22 1 (b2z last) in
      let m := store_bits m rdesc 0 17 len in
      let m := store32 m (rdesc + data_lo_ofs) (lower_32_bits data) in
      let m := store32 m (rdesc + data_hi_ofs) (upper_32_bits data) in
      (Ptr rdesc, mk_rings_mem (cdr h) rdr' m)
  end.

(** [safexcel_add_cdesc] on the command ring of [h]. *)
Definition safexcel_add_cdesc (cfg : safexcel_config) (first last : bool)
    (data data_len full_data_len context : Z) (h : rings_mem)
  : ptr_or_err * rings_mem :=
  match safexcel_cdr_next_wptr cfg (cdr h) with
  | (ERR_PTR e, cdr') => (ERR_PTR e, mk_rings_mem cdr' (rdr h) (dmem h))
  | (Ptr cdesc, cdr') =>
      let m := memset0 (dmem h) cdesc EIP197_CD64_FETCH_SIZE in
      let m := store_bits m cdesc 23 1 (b2z first) in
      let m := store_bits m cdesc 22 1 (b2z last) in
      let m := store_bits m cdesc 0 17 data_len in
      let m := store32 m (cdesc + data_lo_ofs) (lower_32_bits data) in
      let m := store32 m (cdesc + data_hi_ofs) (upper_32_bits data) in
      let m :=
        if first && negb (context =? 0) then
          let cd := cdesc + control_data_ofs in
          let m := store_bits m cd 0 17 full_data_len in
          let m := store_bits m cd 17 13
                     (Z.lor (Z.lor EIP197_OPTION_MAGIC_VALUE
                                   EIP197_OPTION_64BIT_CTX)
                            EIP197_OPTION_CTX_CTRL_IN_CMD) in
          let m := store_bits m (cdesc + context_ofs) 2 30
                     (Z.shiftr (Z.land (lower_32_bits context) (GENMASK 31 2))
                               2) in
          let m := store32 m (cdesc + context_hi_ofs) (upper_32_bits context) in
          let m := store_bits m (cdesc + context_ofs) 0 2
                     EIP197_PTRTYPE_XFORM_SMALL in
          noop_tokens m (cdesc + token_ofs) EIP197_MAX_TOKENS
        else m in
      (Ptr cdesc, mk_rings_mem cdr' (rdr h) m)
  end.

(** The fields of a descriptor that the theorems read back. *)
Definition desc_particle_size (m : mem) (d : Z) : Z := load_bits m d 0 17.
Definition desc_first_seg (m : mem) (d : Z) : bool := Z.testbit (m d) 23.
Definition desc_data (m : mem) (d : Z) : Z :=
  m (d + data_lo_ofs) + 2 ^ 32 * m (d + data_hi_ofs).
Definition cdesc_packet_length (m : mem) (d : Z) : Z :=
  load_bits m (d + control_data_ofs) 0 17.
Definition cdesc_options (m : mem) (d : Z) : Z :=
  load_bits m (d + control_data_ofs) 17 13.
Definition cdesc_type (m : mem) (d : Z) : Z :=
  load_bits m (d + control_data_ofs) 30 2.
Definition cdesc_ptrtype (m : mem) (d : Z) : Z :=
  load_bits m (d + context_ofs) 0 2.
(** The context record's address as the engine forms it from
    [context_lo:30] and [context_hi]. *)
Definition cdesc_context (m : mem) (d : Z) : Z :=
  4 * load_bits m (d + context_ofs) 2 30 + 2 ^ 32 * m (d + context_hi_ofs).

Section Invalidate.
Variable request : Type.

(** [safexcel_invalidate_cache]: returns the status, the rings and memory
    and the request table of the ring. *)
Definition safexcel_invalidate_cache (cfg : safexcel_config) (async : request)
    (ctxr_dma : Z) (h : rings_mem) (t : rdr_req_table request)
  : Z * rings_mem * rdr_req_table request :=
  match safexcel_add_cdesc cfg true true 0 0 0 ctxr_dma h with
  | (ERR_PTR e, h1) => (e, h1, t)
  | (Ptr cdesc, h1) =>
      let m := dmem h1 in
      let m := store_bits m (cdesc + control_data_ofs) 30 2
                 EIP197_TYPE_EXTENDED in
      let m := store_bits m (cdesc + control_data_ofs) 17 13 0 in
      let m := store_bits m (cdesc + context_ofs) 0 2 EIP197_PTRTYPE_NULL in
      let m := store32 m (cdesc + control0_ofs) CONTEXT_CONTROL_INV_TR in
      let h2 := mk_rings_mem (cdr h1) (rdr h1) m in
      match safexcel_add_rdesc cfg true true 0 0 h2 with
      | (ERR_PTR e, h3) =>
          (e, mk_rings_mem (safexcel_cdr_rollback_wptr cfg (cdr h3))
                (rdr h3) (dmem h3), t)
      | (Ptr rdesc, h3) =>
          (0, h3, safexcel_rdr_req_set cfg (rdr h3) t rdesc async)
      end
  end.

End Invalidate.

Arguments safexcel_invalidate_cache {request}.

End Desc.

(** The offsets of a four-entry ring on an engine with a 32-bit bus and no
    PCI rounding: 18 words per command slot, and per result slot the four
    descriptor words, four result-token words and the ownership word. *)
Definition cfg_eip : safexcel_config := mk_config 1 4 72 36 16 32.

(** ** What the pipeline tells the device and the backlog *)

Module EngineCounts.
Import Engine.

Section Counts.
Variable request : Type.

(** The command and result descriptors of the sends of a trace that
    succeeded, added up. *)
Fixpoint prepared (tr : list (event request)) : Z * Z :=
  match tr with
  | [] => (0, 0)
  | EvSend _ ret commands results :: tr' =>
      let '(c, r) := prepared tr' in
      if ret =? 0 then (commands + c, results + r) else (c, r)
  | _ :: tr' => prepared tr'
  end.

(** The backlog notifications of a trace, in order, and the backlog
    targets that came with a list of queue entries. *)
Fixpoint notified (tr : list (event request)) : list (request * Z) :=
  match tr with
  | [] => []
  | EvBacklog b err :: tr' => (b, err) :: notified tr'
  | _ :: tr' => notified tr'
  end.

Definition targets (done : list (option request * request)) : list request :=
  flat_map (fun e => match fst e with Some b => [b] | None => [] end) done.

(** The descriptors the calls of [handle_result] of a trace reported. *)
Fixpoint handled_descs (tr : list (event request)) : Z :=
  match tr with
  | [] => 0
  | EvHandleResult _ ndesc _ _ :: tr' => ndesc + handled_descs tr'
  | _ :: tr' => handled_descs tr'
  end.

(** The two fields of a word written to the processed-count register:
    the packet count above [EIP197_xDR_PROC_xD_PKT_OFFSET] and the
    descriptor bytes below it; and the packets and bytes acknowledged by
    the writes of a trace, added up. *)
Definition proc_pkt (v : Z) : Z := Z.shiftr v EIP197_xDR_PROC_xD_PKT_OFFSET.
Definition proc_bytes (v : Z) : Z :=
  Z.land v (Z.ones EIP197_xDR_PROC_xD_PKT_OFFSET).

Fixpoint acked (tr : list (event request)) : Z * Z :=
  match tr with
  | [] => (0, 0)
  | EvWritel RDR_PROC_COUNT v :: tr' =>
      let '(p, b) := acked tr' in (proc_pkt v + p, proc_bytes v + b)
  | _ :: tr' => acked tr'
  end.

(** The packet count of a write to the processed-count register fits the
    field of [EIP197_xDR_PROC_xD_PKT_MASK]. *)
Definition pkt_fits (e : event request) : Prop :=
  match e with
  | EvWritel RDR_PROC_COUNT v => 0 <= proc_pkt v <= EIP197_xDR_PROC_xD_PKT_MASK
  | _ => True
  end.

(** The events of the end of a completion run: the store to the counter,
    the acknowledgement of the interrupt, the new threshold and the report
    of a fatal error. *)
Definition is_bookkeeping (e : event request) : bool :=
  match e with
  | EvRequests _ | EvWritel RDR_STAT _ | EvWritel RDR_THRESH _ | EvDevErr => true
  | _ => false
  end.

(** The bookkeeping of a ring context between runs: the ring is marked
    busy exactly when requests are in flight, and the threshold remembered
    for the next completion run is at least one and at most the number of
    requests in flight and the largest batch. *)
Definition ring_ok (W : Type) (st : safexcel_ring request W) : Prop :=
  (busy st = true <-> requests st <> 0) /\
  (0 < requests st ->
   1 <= thresh_written st <= Z.min (requests st) EIP197_MAX_BATCH_SZ).

End Counts.

Arguments prepared {request}.
Arguments notified {request}.
Arguments targets {request}.
Arguments handled_descs {request}.
Arguments acked {request}.
Arguments pkt_fits {request}.
Arguments is_bookkeeping {request}.
Arguments ring_ok {request W}.

End EngineCounts.

(** ** The request state of the hash layer: update, caching, export and
    import ([safexcel_hash.c]) *)

Module HashState.
Import Hash.

Definition u64 (z : Z) : Z := z mod 2 ^ 64.
Definition E2BIG : Z := 7.

(** [struct safexcel_ahash_req]: the fields of [Hash.safexcel_ahash_req]
    and the others.  [state] is the array of state words as bytes, [cache]
    and [cache_next] are byte buffers. *)
Record hash_req : Type := mk_hreq {
  core : safexcel_ahash_req;
  hmac : bool;
  nents : Z;
  result_dma : Z;
  state_sz : Z;
  state : list Z;
  cache : list Z;
  cache_dma : Z;
  cache_sz : Z;
  cache_next : list Z
}.

Definition set_core (r : hash_req) (c : safexcel_ahash_req) : hash_req :=
  mk_hreq c (hmac r) (nents r) (result_dma r) (state_sz r) (state r)
          (cache r) (cache_dma r) (cache_sz r) (cache_next r).
Definition set_cache (r : hash_req) (c : list Z) : hash_req :=
  mk_hreq (core r) (hmac r) (nents r) (result_dma r) (state_sz r) (state r)
          c (cache_dma r) (cache_sz r) (cache_next r).
Definition set_state (r : hash_req) (s : list Z) : hash_req :=
  mk_hreq (core r) (hmac r) (nents r) (result_dma r) (state_sz r) s
          (cache r) (cache_dma r) (cache_sz r) (cache_next r).
Definition set_len (c : safexcel_ahash_req) (l : Z * Z) : safexcel_ahash_req :=
  mk_sreq (last_req c) (finish c) (needs_inv c) (digest c) l (processed c).
Definition set_processed (c : safexcel_ahash_req) (p : Z * Z)
  : safexcel_ahash_req :=
  mk_sreq (last_req c) (finish c) (needs_inv c) (digest c) (len c) p.
Definition set_digest (c : safexcel_ahash_req) (dg : Z) : safexcel_ahash_req :=
  mk_sreq (last_req c) (finish c) (needs_inv c) dg (len c) (processed c).
Definition set_last_finish (c : safexcel_ahash_req) : safexcel_ahash_req :=
  mk_sreq true true (needs_inv c) (digest c) (len c) (processed c).

(** [safexcel_queued_len]; the fields are [u64]. *)
Definition safexcel_queued_len (req : safexcel_ahash_req) : Z :=
  if snd (processed req) <? snd (len req)
  then u64 (0xffffffff - u64 (fst (len req) - fst (processed req)))
  else u64 (fst (len req) - fst (processed req)).

(** [n] bytes of [data] written into [buf] from offset [ofs] on. *)
Definition buf_write (buf : list Z) (ofs : nat) (data : list Z) : list Z :=
  firstn ofs buf ++ data ++ skipn (ofs + length data) buf.

(** [struct safexcel_ahash_export_state]. *)
Record safexcel_ahash_export_state : Type := mk_export {
  ex_len : Z * Z;
  ex_processed : Z * Z;
  ex_digest : Z;
  ex_state : list Z;
  ex_cache : list Z
}.

Section Update.
Variable cfg : safexcel_config.
Variable need_inv : bool.
Variables md5_zero_message_hash sha1_zero_message_hash
          sha224_zero_message_hash sha256_zero_message_hash
          sha384_zero_message_hash sha512_zero_message_hash : list Z.
Variable dma_pool_zalloc : Z.
Variable crypto_enqueue_request : Z -> Z.
Variable safexcel_ahash_needs_inv_get : bool.
(** [crypto_ahash_blocksize(ahash)], and the bytes of the scatterlist
    [areq->src]. *)
Variable blocksize : Z.
Variable src : list Z.
(** [crypto_ahash_init(areq)], the init function of the request's
    algorithm, on the request state. *)
Variable crypto_ahash_init : hash_req -> Z * hash_req.

(** [safexcel_ahash_cache]; [sg_pcopy_to_buffer] copies the first
    [nbytes] bytes of the source, as many as there are. *)
Definition safexcel_ahash_cache (areq : ahash_request) (req : hash_req)
  : Z * hash_req :=
  let queued := safexcel_queued_len (core req) in
  let cache_len := u64 (queued - nbytes areq) in
  if u64 (cache_len + nbytes areq) <=? blocksize then
    (s32 (nbytes areq),
     set_cache req (buf_write (cache req) (Z.to_nat cache_len)
                      (firstn (Z.to_nat (nbytes areq)) src)))
  else (- E2BIG, req).

Definition lift_core
    (res : Z * ahash_request * safexcel_ahash_req * safexcel_ahash_ctx * driver)
    (req : hash_req)
  : Z * ahash_request * hash_req * safexcel_ahash_ctx * driver :=
  let '(ret, areq, c, ctx, d) := res in (ret, areq, set_core req c, ctx, d).

Definition enqueue (ctx : safexcel_ahash_ctx) (areq : ahash_request)
    (req : hash_req) (d : driver)
  : Z * ahash_request * hash_req * safexcel_ahash_ctx * driver :=
  lift_core
    (Hash.safexcel_ahash_enqueue cfg need_inv dma_pool_zalloc
       crypto_enqueue_request safexcel_ahash_needs_inv_get ctx areq (core req) d)
    req.

(** [safexcel_ahash_update]. *)
Definition safexcel_ahash_update (ctx : safexcel_ahash_ctx)
    (areq : ahash_request) (req : hash_req) (d : driver)
  : Z * ahash_request * hash_req * safexcel_ahash_ctx * driver :=
  if nbytes areq =? 0 then (0, areq, req, ctx, d)
  else
    let len0 := u64 (fst (len (core req)) + nbytes areq) in
    let len1 := if len0 <? nbytes areq
                then u64 (snd (len (core req)) + 1)
                else snd (len (core req)) in
    let req := set_core req (set_len (core req) (len0, len1)) in
    let '(_, req) := safexcel_ahash_cache areq req in
    if digest (core req) =? CONTEXT_CONTROL_DIGEST_HMAC
    then (0, areq, req, ctx, d)
    else if hmac req then enqueue ctx areq req d
    else if negb (last_req (core req)) &&
            (blocksize <? safexcel_queued_len (core req))
    then enqueue ctx areq req d
    else (0, areq, req, ctx, d).

(** [safexcel_ahash_final] on the whole request state. *)
Definition final (ctx : safexcel_ahash_ctx) (areq : ahash_request)
    (req : hash_req) (d : driver)
  : Z * ahash_request * hash_req * safexcel_ahash_ctx * driver :=
  lift_core
    (Hash.safexcel_ahash_final cfg need_inv md5_zero_message_hash
       sha1_zero_message_hash sha224_zero_message_hash
       sha256_zero_message_hash sha384_zero_message_hash
       sha512_zero_message_hash dma_pool_zalloc crypto_enqueue_request
       safexcel_ahash_needs_inv_get ctx areq (core req) d)
    req.

(** [safexcel_ahash_finup]. *)
Definition safexcel_ahash_finup (ctx : safexcel_ahash_ctx)
    (areq : ahash_request) (req : hash_req) (d : driver)
  : Z * ahash_request * hash_req * safexcel_ahash_ctx * driver :=
  let req := set_core req (set_last_finish (core req)) in
  let '(_, areq, req, ctx, d) := safexcel_ahash_update ctx areq req d in
  final ctx areq req d.

(** [safexcel_ahash_export]. *)
Definition safexcel_ahash_export (req : hash_req)
    (out : safexcel_ahash_export_state) : Z * safexcel_ahash_export_state :=
  (0, mk_export (len (core req)) (processed (core req)) (digest (core req))
        (memcpy (ex_state out) (state req) (Z.to_nat (state_sz req)))
        (memcpy (ex_cache out) (cache req) (Z.to_nat blocksize))).

(** [safexcel_ahash_import]. *)
Definition safexcel_ahash_import (req : hash_req)
    (export : safexcel_ahash_export_state) : Z * hash_req :=
  let '(ret, req) := crypto_ahash_init req in
  if negb (ret =? 0) then (ret, req)
  else
    let c := set_len (core req) (ex_len export) in
    let c := set_processed c (ex_processed export) in
    let c := set_digest c (ex_digest export) in
    let req := set_core req c in
    let req := set_cache req
                 (memcpy (cache req) (ex_cache export) (Z.to_nat blocksize)) in
    let req := set_state req
                 (memcpy (state req) (ex_state export)
                    (Z.to_nat (state_sz req))) in
    (0, req).

End Update.

(** [safexcel_sha1_init] on the request state: everything cleared, the
    five initial state words of SHA-1 (crypto/sha.h) stored as
    little-endian bytes, the digest type and the state size set. *)
Definition sha1_init_state : list Z :=
  [0x01; 0x23; 0x45; 0x67; 0x89; 0xab; 0xcd; 0xef; 0xfe; 0xdc; 0xba; 0x98;
   0x76; 0x54; 0x32; 0x10; 0xf0; 0xe1; 0xd2; 0xc3] ++ repeat 0 44.

Definition safexcel_sha1_init (req : hash_req) : Z * hash_req :=
  (0, mk_hreq (mk_sreq false false false CONTEXT_CONTROL_DIGEST_PRECOMPUTED
                 (0, 0) (0, 0))
        false 0 0 (Z.of_nat SHA1_DIGEST_SIZE) sha1_init_state
        (repeat 0 128) 0 0 (repeat 0 128)).

End HashState.

(** A fresh SHA-1 request, ten bytes of input, no context record yet. *)
Definition sha1_req : HashState.hash_req :=
  snd (HashState.safexcel_sha1_init
         (HashState.mk_hreq (Hash.mk_sreq false false false 0 (0, 0) (0, 0))
            false 0 0 0 [] [] 0 0 [])).
Definition ten_bytes : list Z := repeat 0x61 10.
Definition areq10 : Hash.ahash_request := Hash.mk_areq 10 (repeat 0 64).
Definition sha1_ctx : Hash.safexcel_ahash_ctx :=
  Hash.mk_ctx Hash.CONTEXT_CONTROL_CRYPTO_ALG_SHA1 0 false.
Definition enq_ex (ring : Z) : Z := - EINPROGRESS.

(** ** [safexcel_configure] *)

Module Configure.
Import Ring.

Definition EIP197_AVG_DESC_PER_PKT : Z := 4.
Definition EIP197_PKTS_PER_PE : Z := 40.
Definition EIP197_PKTS_PER_PE_OCE : Z := 100.
(** [sizeof(struct safexcel_command_desc) / sizeof(u32)],
    [sizeof(struct safexcel_result_desc) / sizeof(u32)] and
    [sizeof(struct result_data_desc) / sizeof(u32)]; the last structure
    has between 16 and 19 bytes whatever the packing, so the quotient is
    4. *)
Definition EIP197_CD64_FETCH_SIZE : Z := 18.
Definition EIP197_RD64_FETCH_SIZE : Z := 4.
Definition EIP197_RD64_RESULT_SIZE : Z := 4.

(** What the probe read from the device before it calls
    [safexcel_configure]: the fields of [struct safexcel_crypto_priv] the
    function reads, with the two flags it tests. *)
Record hw_info : Type := mk_hw {
  hwnumpes : Z;
  hwnumrings : Z;
  hwnumraic : Z;
  hwdataw : Z;
  feat_oce : bool;
  device_is_pci : bool
}.

(** The fields of [struct safexcel_config] that [safexcel_config] of the
    ring model leaves out. *)
Record config_sizes : Type := mk_sizes {
  pes : Z;
  queue_entries : Z;
  cd_size : Z;
  rd_size : Z
}.

Definition min_t_u32 (a b : Z) : Z := Z.min (u32 a) (u32 b).

Section Params.
(** The module parameters [max_rings], [ring_entries] and
    [queue_entries] (all [u32]) and what [cache_line_size()] returns. *)
Variables max_rings ring_entries_param queue_entries_param : Z.
Variable cache_line_size : Z.

(** [safexcel_configure]: the configuration, and [max_rings] as the
    function leaves it. *)
Definition safexcel_configure (hw : hw_info)
  : safexcel_config * config_sizes * Z :=
  let pes := u32 (hwnumpes hw) in
  let max_rings := if max_rings <? 0 then 1 else max_rings in
  let rings := min_t_u32 (hwnumrings hw) max_rings in
  let rings := min_t_u32 rings (hwnumraic hw) in
  let pedepth := if feat_oce hw then EIP197_PKTS_PER_PE_OCE
                 else EIP197_PKTS_PER_PE in
  let ring_entries :=
    if ring_entries_param =? 0
    then u32 (u32 (u32 (EIP197_AVG_DESC_PER_PKT * pedepth) + rings) - 1) / rings
    else ring_entries_param in
  let queue_entries :=
    if queue_entries_param =? 0
    then u32 (u32 (pedepth + rings) - 1) / rings
    else queue_entries_param in
  let mask := u32 (BIT (hwdataw hw) - 1) in
  let cd_size := EIP197_CD64_FETCH_SIZE in
  let cd_offset :=
    u32 (Z.shiftl (Z.land (u32 (cd_size + mask)) (not32 mask)) 2) in
  let res_offset := Z.land (u32 (EIP197_RD64_FETCH_SIZE + mask)) (not32 mask) in
  let rd_size := u32 (res_offset + EIP197_RD64_RESULT_SIZE) in
  let rd_offset := Z.land (u32 (rd_size + mask)) (not32 mask) in
  let rd_offset := if EIP197_RD_OWN_WORD then u32 (rd_offset + u32 (mask + 1))
                   else rd_offset in
  let rd_offset := u32 (Z.shiftl rd_offset 2) in
  let rd_offset :=
    if device_is_pci hw then
      let mask := u32 (cache_line_size - 1) in
      Z.land (u32 (rd_offset + mask)) (not32 mask)
    else rd_offset in
  let res_offset := u32 (Z.shiftl res_offset 2) in
  let own_offset := u32 (rd_offset - 4) in
  (mk_config rings ring_entries cd_offset rd_offset res_offset own_offset,
   mk_sizes pes queue_entries cd_size rd_size, max_rings).

End Params.

End Configure.

(** ** Sending a hash request: [safexcel_context_control],
    [safexcel_hash_token] and [safexcel_ahash_send_req] *)

Module Send.
Import Ring RingOrder Hash HashState Desc.

Definition CONTEXT_CONTROL_TYPE_HASH_OUT : Z := 0x2.
Definition CONTEXT_CONTROL_RESTART_HASH : Z := BIT 4.
Definition CONTEXT_CONTROL_NO_FINISH_HASH : Z := BIT 5.
Definition CONTEXT_CONTROL_SIZE (n : Z) : Z := Z.shiftl n 8.
Definition CONTEXT_CONTROL_DIGEST_CNT : Z := BIT 9.
Definition EIP197_COUNTER_BLOCK_SIZE : Z := 64.
Definition EIP197_TOKEN_STAT_LAST_HASH : Z := BIT 0.
Definition EIP197_TOKEN_STAT_LAST_PACKET : Z := BIT 1.
Definition EIP197_TOKEN_OPCODE_DIRECTION : Z := 0x0.
Definition EIP197_TOKEN_INS_INSERT_HASH_DIGEST : Z := 0x1c.
Definition EIP197_TOKEN_INS_TYPE_OUTPUT : Z := BIT 5.
Definition EIP197_TOKEN_INS_TYPE_HASH : Z := BIT 6.

(** [struct safexcel_ahash_ctx]: the fields of [Hash.safexcel_ahash_ctx],
    the bus address of the context record, and the two pads.  The [data]
    array of the context record is passed beside it, as its bytes.  The
    CPU is little-endian: [cpu_to_le32] changes nothing and a word is
    stored as its four bytes, lowest first. *)
Record hash_ctx : Type := mk_hctx {
  hbase : safexcel_ahash_ctx;
  ctxr_dma : Z;
  ipad : list Z;
  opad : list Z
}.

Definition le32_bytes (v : Z) : list Z :=
  [Z.land v 0xff; Z.land (Z.shiftr v 8) 0xff;
   Z.land (Z.shiftr v 16) 0xff; Z.land (Z.shiftr v 24) 0xff].

(** [*(u32 * )a |= v]. *)
Definition or32 (m : mem) (a v : Z) : mem := store32 m a (Z.lor (m a) v).

(** The number of 64-byte blocks processed, as both
    [safexcel_context_control] and [safexcel_ahash_needs_inv_get] compute
    it from the two words of [processed]. *)
Definition processed_blocks (c : safexcel_ahash_req) : Z :=
  u64 (u64 (fst (processed c) / EIP197_COUNTER_BLOCK_SIZE) +
       u64 ((0xffffffff / EIP197_COUNTER_BLOCK_SIZE) * snd (processed c))).

(** [safexcel_context_control]: the device memory (the two control words
    of the first command descriptor) and the bytes of the context
    record's data. *)
Definition safexcel_context_control (ctx : hash_ctx) (ctxr_data : list Z)
    (req : hash_req) (cdesc digestsize : Z) (m : mem) : mem * list Z :=
  let c0 := cdesc + control0_ofs in
  let c1 := cdesc + control1_ofs in
  let a := alg (hbase ctx) in
  let c := core req in
  let m := or32 m c0 CONTEXT_CONTROL_TYPE_HASH_OUT in
  let m := or32 m c0 a in
  let m := or32 m c0 (digest c) in
  let some_processed :=
    negb (fst (processed c) =? 0) || negb (snd (processed c) =? 0) in
  if digest c =? CONTEXT_CONTROL_DIGEST_PRECOMPUTED then
    let m :=
      if some_processed then
        let m :=
          if a =? CONTEXT_CONTROL_CRYPTO_ALG_MD5
          then or32 m c0 (CONTEXT_CONTROL_SIZE 5)
          else if a =? CONTEXT_CONTROL_CRYPTO_ALG_SHA1
          then or32 m c0 (CONTEXT_CONTROL_SIZE 6)
          else if (a =? CONTEXT_CONTROL_CRYPTO_ALG_SHA224) ||
                  (a =? CONTEXT_CONTROL_CRYPTO_ALG_SHA256)
          then or32 m c0 (CONTEXT_CONTROL_SIZE 9)
          else if (a =? CONTEXT_CONTROL_CRYPTO_ALG_SHA384) ||
                  (a =? CONTEXT_CONTROL_CRYPTO_ALG_SHA512)
          then or32 m c0 (CONTEXT_CONTROL_SIZE 17)
          else m in
        or32 m c1 CONTEXT_CONTROL_DIGEST_CNT
      else or32 m c0 CONTEXT_CONTROL_RESTART_HASH in
    let m := if negb (finish c) then or32 m c0 CONTEXT_CONTROL_NO_FINISH_HASH
             else m in
    if some_processed then
      let words := Z.to_nat (digestsize / 4) in
      let data := buf_write ctxr_data 0%nat
                    (firstn (4 * words)%nat (state req)) in
      if finish c then
        let count := processed_blocks c in
        if negb (Z.land count 0xffff0000 =? 0) then (m, data)
        else (m, buf_write data (4 * words)%nat (le32_bytes (u32 count)))
      else (m, data)
    else (m, ctxr_data)
  else if digest c =? CONTEXT_CONTROL_DIGEST_HMAC then
    let m := or32 m c0 (CONTEXT_CONTROL_SIZE (2 * state_sz req / 4)) in
    let data := memcpy ctxr_data (ipad ctx) (Z.to_nat (state_sz req)) in
    let data := buf_write data (4 * Z.to_nat (state_sz req / 4))%nat
                  (firstn (Z.to_nat (state_sz req)) (opad ctx)) in
    (m, data)
  else (m, ctxr_data).

(** [safexcel_ahash_needs_inv_get]: whether the context record differs
    from the state of the request. *)
Definition safexcel_ahash_needs_inv_get (ctxr_data : list Z)
    (req : hash_req) : bool :=
  let state_w_sz := Z.to_nat (state_sz req / 4) in
  let count := processed_blocks (core req) in
  if list_eq_dec Z.eq_dec
       (firstn (4 * state_w_sz)%nat ctxr_data)
       (firstn (4 * state_w_sz)%nat (state req))
  then
    if list_eq_dec Z.eq_dec
         (firstn 4 (skipn (4 * state_w_sz)%nat ctxr_data))
         (le32_bytes (u32 count))
    then false else true
  else true.

(** [safexcel_hash_token]: the first two tokens of the descriptor. *)
Definition safexcel_hash_token (cdesc input_length result_length : Z)
    (m : mem) : mem :=
  let t0 := cdesc + token_ofs in
  let t1 := cdesc + token_ofs + 4 in
  let m := store_bits m t0 28 4 EIP197_TOKEN_OPCODE_DIRECTION in
  let m := store_bits m t0 0 17 input_length in
  let m := store_bits m t0 17 2 EIP197_TOKEN_STAT_LAST_HASH in
  let m := store_bits m t0 19 9 EIP197_TOKEN_INS_TYPE_HASH in
  let m := store_bits m t1 28 4 EIP197_TOKEN_OPCODE_INSERT in
  let m := store_bits m t1 0 17 result_length in
  let m := store_bits m t1 17 2
             (Z.lor EIP197_TOKEN_STAT_LAST_HASH
                    EIP197_TOKEN_STAT_LAST_PACKET) in
  store_bits m t1 19 9
    (Z.lor EIP197_TOKEN_INS_TYPE_OUTPUT EIP197_TOKEN_INS_INSERT_HASH_DIGEST).

(** What the kernel hands to [safexcel_ahash_send_req]: the block size
    of the algorithm, the bytes of the request's source, and what the DMA
    mapping calls return: the bus address of the cache and of the state
    with their error status, and the mapped scatterlist as the address and
    length of each entry ([dma_map_sg] returns their number, 0 when it
    fails). *)
Record send_env : Type := mk_env {
  blocksize : Z;
  src : list Z;
  map_cache : Z;
  map_cache_error : bool;
  sg : list (Z * Z);
  map_result : Z;
  map_result_error : bool
}.

Definition set_cache_map (r : hash_req) (dma sz : Z) : hash_req :=
  mk_hreq (core r) (hmac r) (nents r) (result_dma r) (state_sz r) (state r)
          (cache r) dma sz (cache_next r).
Definition set_cache_next (r : hash_req) (b : list Z) : hash_req :=
  mk_hreq (core r) (hmac r) (nents r) (result_dma r) (state_sz r) (state r)
          (cache r) (cache_dma r) (cache_sz r) b.
Definition set_nents (r : hash_req) (n : Z) : hash_req :=
  mk_hreq (core r) (hmac r) n (result_dma r) (state_sz r) (state r)
          (cache r) (cache_dma r) (cache_sz r) (cache_next r).
Definition set_result_dma (r : hash_req) (a : Z) : hash_req :=
  mk_hreq (core r) (hmac r) (nents r) a (state_sz r) (state r)
          (cache r) (cache_dma r) (cache_sz r) (cache_next r).

(** The exits of [safexcel_ahash_send_req]: [cdesc_rollback] takes back
    the [n_cdesc] command descriptors, [unmap_cache] forgets the size of a
    mapped cache. *)
Definition cdesc_rollback (cfg : safexcel_config) (n_cdesc : Z)
    (h : rings_mem) : rings_mem :=
  mk_rings_mem (rollback_n CDR cfg (Z.to_nat n_cdesc) (cdr h)) (rdr h) (dmem h).

Definition unmap_cache (r : hash_req) : hash_req :=
  if negb (cache_dma r =? 0) then set_cache_map r (cache_dma r) 0 else r.

(** The loop over the mapped scatterlist.  [inl] is the exit through
    [unmap_sg] with the error of [safexcel_add_cdesc]; [inr] is the arrival
    at [send_command].  Both carry [n_cdesc]; [inr] carries [first_cdesc]
    too. *)
Fixpoint sg_loop (cfg : safexcel_config) (ctxr len : Z) (sgs : list (Z * Z))
    (queued n_cdesc first_cdesc : Z) (h : rings_mem)
  : (Z * Z * rings_mem) + (Z * Z * rings_mem) :=
  match sgs with
  | [] => inr (n_cdesc, first_cdesc, h)
  | (addr, dma_len) :: rest =>
      let sglen := s32 dma_len in
      let sglen := if queued <? u64 sglen then s32 queued else sglen in
      match safexcel_add_cdesc cfg (n_cdesc =? 0) (u64 (queued - sglen) =? 0)
              addr (u32 sglen) (u32 len) ctxr h with
      | (ERR_PTR e, h') => inl (e, n_cdesc, h')
      | (Ptr cdesc, h') =>
          let n_cdesc := s32 (n_cdesc + 1) in
          let first_cdesc := if n_cdesc =? 1 then cdesc else first_cdesc in
          let queued := u64 (queued - sglen) in
          if queued =? 0 then inr (n_cdesc, first_cdesc, h')
          else sg_loop cfg ctxr len rest queued n_cdesc first_cdesc h'
      end
  end.

(** The bytes a mapped scatterlist holds, and the bytes a row of
    descriptors describes. *)
Definition sg_bytes (sgs : list (Z * Z)) : Z :=
  fold_right Z.add 0 (map snd sgs).
Definition desc_bytes (m : mem) (ps : list Z) : Z :=
  fold_right Z.add 0 (map (desc_particle_size m) ps).

Section SendReq.
Variable request : Type.

(** The state [safexcel_ahash_send_req] works on: the rings and the
    device memory, the request table of the ring, the request and the data
    of the context record. *)
Record send_state : Type := mk_send {
  sh : rings_mem;
  stab : rdr_req_table request;
  sreq : hash_req;
  sdata : list Z
}.

(** From the label [send_command] on. *)
Definition send_command (cfg : safexcel_config) (env : send_env)
    (async : request) (ctx : hash_ctx) (len n_cdesc first_cdesc : Z)
    (h : rings_mem) (t : rdr_req_table request) (req : hash_req)
    (data : list Z) : Z * option (Z * Z) * send_state :=
  let '(m, data) :=
    safexcel_context_control ctx data req first_cdesc (state_sz req)
      (dmem h) in
  let m := safexcel_hash_token first_cdesc (u32 len) (state_sz req) m in
  let h := mk_rings_mem (cdr h) (rdr h) m in
  let req := set_result_dma req (map_result env) in
  if map_result_error env then
    (* unmap_sg *)
    (- EINVAL, None,
     mk_send (cdesc_rollback cfg n_cdesc h) t (unmap_cache req) data)
  else
    match safexcel_add_rdesc cfg true true (result_dma req) (state_sz req) h with
    | (ERR_PTR e, h') =>
        (* unmap_result *)
        (e, None,
         mk_send (cdesc_rollback cfg n_cdesc h') t (unmap_cache req) data)
    | (Ptr rdesc, h') =>
        let t := safexcel_rdr_req_set cfg (rdr h') t rdesc async in
        let p0 := u64 (fst (processed (core req)) + len) in
        let p1 := if p0 <? len then u64 (snd (processed (core req)) + 1)
                  else snd (processed (core req)) in
        let req := set_core req (set_processed (core req) (p0, p1)) in
        (0, Some (n_cdesc, 1), mk_send h' t req data)
    end.

(** From the mapping of the scatterlist on, with [queued] bytes still
    to describe and [n_cdesc] descriptors written. *)
Definition send_sg (cfg : safexcel_config) (env : send_env)
    (async : request) (ctx : hash_ctx) (len queued n_cdesc first_cdesc : Z)
    (h : rings_mem) (t : rdr_req_table request) (req : hash_req)
    (data : list Z) : Z * option (Z * Z) * send_state :=
  let req := set_nents req (Z.of_nat (length (sg env))) in
  if nents req =? 0 then
    (* cdesc_rollback *)
    (- ENOMEM, None,
     mk_send (cdesc_rollback cfg n_cdesc h) t (unmap_cache req) data)
  else
    match sg_loop cfg (ctxr_dma ctx) len (sg env) queued n_cdesc
            first_cdesc h with
    | inl (e, n_cdesc, h') =>
        (* unmap_sg *)
        (e, None,
         mk_send (cdesc_rollback cfg n_cdesc h') t (unmap_cache req) data)
    | inr (n_cdesc, first_cdesc, h') =>
        send_command cfg env async ctx len n_cdesc first_cdesc h' t req data
    end.

(** [cache_len] as computed on entry; then [extra], and [queued] and
    [len], once the block for a request that is not the last has run;
    [extra] is 0 when nothing is copied to [cache_next]. *)
Definition send_cache_len (env : send_env) (areq : ahash_request)
    (req : hash_req) : Z :=
  let queued := safexcel_queued_len (core req) in
  if queued <=? blocksize env then queued else u64 (queued - nbytes areq).

Definition send_extra (env : send_env) (req : hash_req) : Z :=
  if last_req (core req) then 0
  else
    let e := s32 (Z.land (safexcel_queued_len (core req))
                         (u32 (blocksize env - 1))) in
    if e =? 0 then s32 (blocksize env) else e.

Definition send_len (env : send_env) (req : hash_req) : Z :=
  if send_extra env req =? 0 then safexcel_queued_len (core req)
  else u64 (safexcel_queued_len (core req) - send_extra env req).

(** [safexcel_ahash_send_req]: the status, [*commands] and [*results]
    when they are assigned, and the state.  [sg_pcopy_to_buffer] copies
    [extra] bytes of the source from the given offset on, as many as there
    are. *)
Definition safexcel_ahash_send_req (cfg : safexcel_config) (env : send_env)
    (async : request) (ctx : hash_ctx) (areq : ahash_request)
    (s : send_state) : Z * option (Z * Z) * send_state :=
  let req := sreq s in
  let cache_len := send_cache_len env areq req in
  let extra := send_extra env req in
  let cached := negb (extra =? 0) in
  let req :=
    if cached
    then set_cache_next req
           (buf_write (cache_next req) 0%nat
              (firstn (Z.to_nat extra)
                 (skipn (Z.to_nat (u32 (nbytes areq - extra))) (src env))))
    else req in
  let queued := send_len env (sreq s) in
  let len := send_len env (sreq s) in
  if cached && (queued =? 0) then
    (0, Some (0, 0), mk_send (sh s) (stab s) req (sdata s))
  else if negb (cache_len =? 0) then
    let req := set_cache_map req (map_cache env) (cache_sz req) in
    if map_cache_error env then
      (- EINVAL, None, mk_send (sh s) (stab s) req (sdata s))
    else
      let req := set_cache_map req (cache_dma req) (u32 cache_len) in
      match safexcel_add_cdesc cfg true (cache_len =? len) (cache_dma req)
              (u32 cache_len) (u32 len) (ctxr_dma ctx) (sh s) with
      | (ERR_PTR e, h') =>
          (* unmap_cache *)
          (e, None, mk_send h' (stab s) (unmap_cache req) (sdata s))
      | (Ptr first_cdesc, h') =>
          let queued := u64 (queued - cache_len) in
          if queued =? 0
          then send_command cfg env async ctx len 1 first_cdesc h'
                 (stab s) req (sdata s)
          else send_sg cfg env async ctx len queued 1 first_cdesc h'
                 (stab s) req (sdata s)
      end
  else send_sg cfg env async ctx len queued 0 0 (sh s) (stab s) req (sdata s).

End SendReq.

Arguments mk_send {request}.
Arguments sh {request}.
Arguments stab {request}.
Arguments sreq {request}.
Arguments sdata {request}.
Arguments send_command {request}.
Arguments send_sg {request}.
Arguments safexcel_ahash_send_req {request}.

End Send.

(** Empty rings of [cfg_eip] over zeroed memory, a last SHA-1 request
    with one block of 64 bytes in its cache, and the mappings the kernel
    returns for it: all granted, or the one of the result refused. *)
Definition send_rings : Hash.rings_mem :=
  Hash.mk_rings_mem (mk_ring 4096 4312 4096 4096)
    (mk_ring 8192 8300 8192 8192) (fun _ => 0).
Definition send_req64 (last : bool) (queued : Z) : HashState.hash_req :=
  HashState.mk_hreq
    (Hash.mk_sreq last last false Hash.CONTEXT_CONTROL_DIGEST_PRECOMPUTED
       (queued, 0) (0, 0))
    false 0 0 20 (repeat 0 64) (repeat 0x61 128) 0 0 (repeat 0 128).
Definition send_ctx : Send.hash_ctx :=
  Send.mk_hctx sha1_ctx 0x2000 (repeat 0 64) (repeat 0 64).
Definition send_env_ok : Send.send_env :=
  Send.mk_env 64 (repeat 0x62 100) 0x3000 false [(0x5000, 100)] 0x4000 false.
Definition send_env_bad : Send.send_env :=
  Send.mk_env 64 (repeat 0x62 100) 0x3000 false [(0x5000, 100)] 0x4000 true.
Definition send_state0 (last : bool) (queued : Z) : Send.send_state nat :=
  Send.mk_send send_rings (fun _ => None) (send_req64 last queued)
    (repeat 0 160).

(** ** The two callbacks of the hash layer: [safexcel_ahash_send] and
    [safexcel_handle_result] *)

Module Result.
Import Ring RingOrder Hash HashState Desc Send.

(** How a call ends: it returns, [safexcel_complete] in it runs out of
    fuel, or it stops in [BUG_ON]. *)
Inductive outcome (A : Type) : Type :=
| Out (a : A)
| NoFuel
| Bug.
Arguments Out {A}.
Arguments NoFuel {A}.
Arguments Bug {A}.

(** What result handling works on: the rings and the device memory, the
    request with its [struct ahash_request], the driver state, and whether
    the context record went back to its pool. *)
Record handle_state : Type := mk_hs {
  rs_mem : rings_mem;
  rs_req : hash_req;
  rs_areq : ahash_request;
  rs_drv : driver;
  rs_freed : bool
}.

Section Callbacks.
Variable request : Type.
Variable cfg : safexcel_config.
(** [priv->feat_flags & EIP197_NEED_INV], [ctx->base.exit_inv],
    [crypto_ahash_digestsize(ahash)], and what [crypto_enqueue_request]
    returns on a ring. *)
Variable need_inv : bool.
Variable exit_inv : bool.
Variable digestsize : nat.
Variable crypto_enqueue_request : Z -> Z.

(** [safexcel_ahash_send_inv] and [safexcel_ahash_send]. *)
Definition safexcel_ahash_send_inv (async : request) (ctx : hash_ctx)
    (s : send_state request) : Z * option (Z * Z) * send_state request :=
  let '(ret, h, t) :=
    safexcel_invalidate_cache cfg async (ctxr_dma ctx) (sh s) (stab s) in
  if negb (ret =? 0) then (ret, None, mk_send h t (sreq s) (sdata s))
  else (0, Some (1, 1), mk_send h t (sreq s) (sdata s)).

Definition safexcel_ahash_send (env : send_env) (async : request)
    (ctx : hash_ctx) (areq : ahash_request) (s : send_state request)
  : Z * option (Z * Z) * send_state request :=
  if needs_inv (core (sreq s))
  then safexcel_ahash_send_inv async ctx s
  else safexcel_ahash_send_req cfg env async ctx areq s.

(** [safexcel_handle_req_result] in full: the ring part is
    [Hash.safexcel_handle_req_result], which reports 0 descriptors exactly
    when the result was not written yet; then the mappings are released,
    the digest is copied out when the request finishes, and the bytes set
    aside by the send become the cache. *)
Definition safexcel_handle_req_result (fuel : nat) (dev : nat -> mem -> mem)
    (st : handle_state) : outcome ((Z * bool * Z) * handle_state) :=
  match Hash.safexcel_handle_req_result fuel cfg dev (rs_mem st) with
  | None => NoFuel
  | Some ((ndesc, should_complete, ret), h) =>
      if ndesc =? 0 then
        Out ((0, false, ret),
             mk_hs h (rs_req st) (rs_areq st) (rs_drv st) (rs_freed st))
      else
        let sreq := rs_req st in
        let sreq := if negb (nents sreq =? 0) then set_nents sreq 0
                    else sreq in
        let sreq := if negb (result_dma sreq =? 0) then set_result_dma sreq 0
                    else sreq in
        let sreq := if negb (cache_dma sreq =? 0)
                    then set_cache_map sreq 0 (cache_sz sreq) else sreq in
        let areq :=
          if finish (core sreq)
          then mk_areq (nbytes (rs_areq st))
                 (memcpy (result (rs_areq st)) (state sreq) digestsize)
          else rs_areq st in
        let cache_len := safexcel_queued_len (core sreq) in
        let sreq :=
          if negb (cache_len =? 0)
          then set_cache sreq
                 (memcpy (cache sreq) (cache_next sreq) (Z.to_nat cache_len))
          else sreq in
        Out ((1, true, ret), mk_hs h sreq areq (rs_drv st) (rs_freed st))
  end.

(** [safexcel_handle_inv_result]; its ring part is the one of
    [safexcel_handle_req_result]. *)
Definition safexcel_handle_inv_result (fuel : nat) (dev : nat -> mem -> mem)
    (st : handle_state) : outcome ((Z * bool * Z) * handle_state) :=
  match Hash.safexcel_handle_req_result fuel cfg dev (rs_mem st) with
  | None => NoFuel
  | Some ((ndesc, should_complete, ret), h) =>
      if ndesc =? 0 then
        Out ((0, false, ret),
             mk_hs h (rs_req st) (rs_areq st) (rs_drv st) (rs_freed st))
      else if exit_inv then
        Out ((1, true, ret),
             mk_hs h (rs_req st) (rs_areq st) (rs_drv st) true)
      else
        let '(ring, used) := safexcel_select_ring cfg (ring_used (rs_drv st)) in
        let enq_ret := crypto_enqueue_request ring in
        let ret := if negb (enq_ret =? - EINPROGRESS) then enq_ret else ret in
        Out ((1, false, ret),
             mk_hs h (rs_req st) (rs_areq st)
               (mk_driver used
                  (actions (rs_drv st) ++ [ActEnqueue ring; ActQueueWork ring]))
               (rs_freed st))
  end.

(** [safexcel_handle_result]. *)
Definition safexcel_handle_result (fuel : nat) (dev : nat -> mem -> mem)
    (st : handle_state) : outcome ((Z * bool * Z) * handle_state) :=
  if negb need_inv && needs_inv (core (rs_req st)) then Bug
  else if needs_inv (core (rs_req st)) then
    let req := set_core (rs_req st) (set_needs_inv (core (rs_req st)) false) in
    safexcel_handle_inv_result fuel dev
      (mk_hs (rs_mem st) req (rs_areq st) (rs_drv st) (rs_freed st))
  else safexcel_handle_req_result fuel dev st.

End Callbacks.

Arguments safexcel_ahash_send_inv {request}.
Arguments safexcel_ahash_send {request}.

End Result.

(** A request waiting for the result of an invalidation, on the empty
    rings of [send_rings]. *)
Definition inv_state0 : Result.handle_state :=
  Result.mk_hs send_rings
    (HashState.set_core (send_req64 true 64)
       (Hash.set_needs_inv (HashState.core (send_req64 true 64)) true))
    (Hash.mk_areq 0 []) (Hash.mk_driver 0 []) false.

(** ** HMAC keys: [safexcel_hmac_init_pad] and [safexcel_hmac_alg_setkey] *)

Module Hmac.
Import Hash HashState Send.

(** include/crypto/hmac.h and the errno of a busy queue. *)
Definition HMAC_IPAD_VALUE : Z := 0x36.
Definition HMAC_OPAD_VALUE : Z := 0x5c.
Definition EBUSY : Z := 16.

(** [pad[i] ^= v] for [i] below [n]. *)
Definition xor_bytes (pad : list Z) (n : nat) (v : Z) : list Z :=
  map (fun b => Z.lxor b v) (firstn n pad) ++ skipn n pad.

Section InitPad.
(** Whether [kmemdup] returns a copy; what [crypto_ahash_digest] returns
    for the key, the error the completion reports when that call went
    asynchronous, the digest it leaves in [ipad], and
    [crypto_ahash_digestsize]. *)
Variable kmemdup_ok : bool.
Variable crypto_ahash_digest : Z.
Variable result_error : Z.
Variable key_digest : list Z.
Variable digestsize : nat.

(** [safexcel_hmac_init_pad]: the status and the two pads.  On a
    failure the buffers are given as they were on entry: the digest may
    have written to [ipad] by then, and no caller reads the pads after a
    failure. *)
Definition safexcel_hmac_init_pad (blocksize : Z) (key : list Z) (keylen : Z)
    (ipad opad : list Z) : Z * list Z * list Z :=
  let hashed : Z + (list Z * Z) :=
    if keylen <=? blocksize
    then inr (memcpy ipad key (Z.to_nat keylen), keylen)
    else if negb kmemdup_ok then inl (- ENOMEM)
    else
      let ret :=
        if (crypto_ahash_digest =? - EINPROGRESS) ||
           (crypto_ahash_digest =? - EBUSY)
        then result_error else crypto_ahash_digest in
      if negb (ret =? 0) then inl ret
      else inr (memcpy ipad key_digest digestsize, Z.of_nat digestsize) in
  match hashed with
  | inl e => (e, ipad, opad)
  | inr (ipad, keylen) =>
      let ipad := buf_write ipad (Z.to_nat keylen)
                    (repeat 0 (Z.to_nat (u32 (blocksize - keylen)))) in
      let opad := memcpy opad ipad (Z.to_nat blocksize) in
      (0, xor_bytes ipad (Z.to_nat blocksize) HMAC_IPAD_VALUE,
          xor_bytes opad (Z.to_nat blocksize) HMAC_OPAD_VALUE)
  end.

End InitPad.

Section SetKey.
(** [priv->feat_flags & EIP197_NEED_INV]; and what [safexcel_hmac_setkey]
    returns for the key: its status and the [state] arrays of the two
    exported states, as bytes. *)
Variable need_inv : bool.
Variable safexcel_hmac_setkey : Z * list Z * list Z.

Definition set_base_needs_inv (c : safexcel_ahash_ctx) (b : bool)
  : safexcel_ahash_ctx := mk_ctx (alg c) (ctxr c) b.

(** [safexcel_hmac_alg_setkey]: the loop stops at the first word of
    either pad that differs from the new state. *)
Definition safexcel_hmac_alg_setkey (state_sz : Z) (ctx : hash_ctx)
  : Z * hash_ctx :=
  let '(ret, istate, ostate) := safexcel_hmac_setkey in
  if negb (ret =? 0) then (ret, ctx)
  else
    let words := (4 * Z.to_nat (state_sz / 4))%nat in
    let differs :=
      if list_eq_dec Z.eq_dec (firstn words (ipad ctx)) (firstn words istate)
      then if list_eq_dec Z.eq_dec (firstn words (opad ctx))
                (firstn words ostate)
           then false else true
      else true in
    let base :=
      if need_inv && negb (ctxr (hbase ctx) =? 0) && differs
      then set_base_needs_inv (hbase ctx) true
      else hbase ctx in
    (0, mk_hctx base (ctxr_dma ctx)
          (memcpy (ipad ctx) istate (Z.to_nat state_sz))
          (memcpy (opad ctx) ostate (Z.to_nat state_sz))).

End SetKey.

End Hmac.

(** ** The init functions of the algorithms *)

Module Algs.
Import Hash HashState Send.

Section Init.
(** The bytes of the initial hash values of crypto/md5.h and
    crypto/sha.h, which are not among the sources, as the init functions
    store them in [state]: 16 bytes for MD5, 32 for SHA-224 and SHA-256, 64
    for SHA-384 and SHA-512. *)
Variables md5_h sha224_h sha256_h sha384_h sha512_h : list Z.

(** An init function on a request: the status, [ctx->alg], and the
    request, cleared by [memset] and then given its state,
    [CONTEXT_CONTROL_DIGEST_PRECOMPUTED] and [state_sz]. *)
Definition init_result (alg : Z) (h : list Z) (state_sz : nat)
    (req : hash_req) : Z * Z * hash_req :=
  (0, alg,
   mk_hreq (mk_sreq false false false CONTEXT_CONTROL_DIGEST_PRECOMPUTED
              (0, 0) (0, 0))
     false 0 0 (Z.of_nat state_sz) (buf_write (repeat 0 64) 0 h)
     (repeat 0 128) 0 0 (repeat 0 128)).

Definition safexcel_md5_init : hash_req -> Z * Z * hash_req :=
  init_result CONTEXT_CONTROL_CRYPTO_ALG_MD5 md5_h MD5_DIGEST_SIZE.
Definition safexcel_sha1_init (req : hash_req) : Z * Z * hash_req :=
  let '(ret, req) := HashState.safexcel_sha1_init req in
  (ret, CONTEXT_CONTROL_CRYPTO_ALG_SHA1, req).
Definition safexcel_sha224_init : hash_req -> Z * Z * hash_req :=
  init_result CONTEXT_CONTROL_CRYPTO_ALG_SHA224 sha224_h SHA256_DIGEST_SIZE.
Definition safexcel_sha256_init : hash_req -> Z * Z * hash_req :=
  init_result CONTEXT_CONTROL_CRYPTO_ALG_SHA256 sha256_h SHA256_DIGEST_SIZE.
Definition safexcel_sha384_init : hash_req -> Z * Z * hash_req :=
  init_result CONTEXT_CONTROL_CRYPTO_ALG_SHA384 sha384_h SHA512_DIGEST_SIZE.
Definition safexcel_sha512_init : hash_req -> Z * Z * hash_req :=
  init_result CONTEXT_CONTROL_CRYPTO_ALG_SHA512 sha512_h SHA512_DIGEST_SIZE.

(** The init functions of the HMAC variants call the one of their hash
    and then set [req->digest]. *)
Definition hmac_init (init : hash_req -> Z * Z * hash_req) (req : hash_req)
  : Z * Z * hash_req :=
  let '(_, alg, req) := init req in
  (0, alg, set_core req (set_digest (core req) CONTEXT_CONTROL_DIGEST_HMAC)).

Definition safexcel_hmac_md5_init := hmac_init safexcel_md5_init.
Definition safexcel_hmac_sha1_init := hmac_init safexcel_sha1_init.
Definition safexcel_hmac_sha224_init := hmac_init safexcel_sha224_init.
Definition safexcel_hmac_sha256_init := hmac_init safexcel_sha256_init.
Definition safexcel_hmac_sha384_init := hmac_init safexcel_sha384_init.
Definition safexcel_hmac_sha512_init := hmac_init safexcel_sha512_init.

(** All of them. *)
Definition ahash_inits : list (hash_req -> Z * Z * hash_req) :=
  [safexcel_md5_init; safexcel_sha1_init; safexcel_sha224_init;
   safexcel_sha256_init; safexcel_sha384_init; safexcel_sha512_init;
   safexcel_hmac_md5_init; safexcel_hmac_sha1_init;
   safexcel_hmac_sha224_init; safexcel_hmac_sha256_init;
   safexcel_hmac_sha384_init; safexcel_hmac_sha512_init].

End Init.

End Algs.

(** * Properties *)

Module RingFacts.
Import Ring.

Lemma fresh_ring_on_slots k cfg b :
  ring_params_ok k cfg -> b <> 0 ->
  on_slots (stride k cfg) (ring_entries cfg) (fresh_ring k cfg b) 0.
Proof.
  intros (Hoff & Hcap & Hsz) Hb.
  assert (Hle : ring_entries cfg - 1 <= stride k cfg * (ring_entries cfg - 1)) by nia.
  assert (Hu : u32 (ring_entries cfg - 1) = ring_entries cfg - 1).
  { unfold u32. apply Z.mod_small. lia. }
  assert (Hp : u32 (stride k cfg * (ring_entries cfg - 1))
               = stride k cfg * (ring_entries cfg - 1)).
  { unfold u32. apply Z.mod_small. nia. }
  exists 0, 0. unfold fresh_ring, safexcel_init_ring_descriptors.
  rewrite Hu.
  apply Z.eqb_neq in Hb. rewrite Hb.
  destruct k; simpl in *; rewrite Hp; repeat split; lia.
Qed.

(** The two rings run one cursor code, with the stride of their kind. *)
Lemma next_write_slot_eq k cfg r :
  next_write_slot k cfg r =
  if (write r =? read r - stride k cfg) ||
     ((read r =? base r) && (write r =? base_end r))
  then (ERR_PTR (- ENOMEM), r)
  else (Ptr (write r),
        set_write r (if write r =? base_end r then base r
                     else write r + stride k cfg)).
Proof.
  destruct k; simpl;
    [unfold safexcel_cdr_next_wptr | unfold safexcel_rdr_next_wptr];
    destruct (_ || _); try reflexivity;
    destruct (write r =? base_end r); reflexivity.
Qed.

Lemma rollback_write_eq k cfg r :
  rollback_write k cfg r =
  if write r =? read r then r
  else set_write r (if write r =? base r then base_end r
                    else write r - stride k cfg).
Proof.
  destruct k; simpl;
    [unfold safexcel_cdr_rollback_wptr | unfold safexcel_rdr_rollback_wptr];
    destruct (write r =? read r); try reflexivity;
    destruct (write r =? base r); reflexivity.
Qed.

Lemma next_read_slot_eq k cfg r :
  next_read_slot k cfg r =
  set_read r (if read r =? base_end r then base r
              else read r + stride k cfg).
Proof.
  destruct k; simpl.
  - unfold safexcel_cdr_next_rptr. destruct (read r =? base_end r); reflexivity.
  - unfold safexcel_rdr_next_rptr. simpl.
    destruct (read r =? base_end r); reflexivity.
Qed.

(** Slot addresses are equal exactly when their indices are. *)
Lemma slot_inj (b off i j : Z) :
  0 < off -> b + off * i = b + off * j -> i = j.
Proof. intros Hoff H. apply (Z.mul_reg_l _ _ off); lia. Qed.

Section Slots.
Variables (k : ring_kind) (cfg : safexcel_config).
Let off := stride k cfg.
Let cap := ring_entries cfg.
Hypothesis Hoff : 0 < off.
Hypothesis Hcap : 1 <= cap.

Lemma on_slots_bound r n : on_slots off cap r n -> 0 <= n <= cap - 1.
Proof.
  intros (wi & ri & Hw & Hr & _ & _ & _ & ->).
  destruct (Z.leb_spec ri wi); lia.
Qed.

Lemma on_slots_empty r n :
  on_slots off cap r n -> (n = 0 <-> write r = read r).
Proof.
  intros (wi & ri & Hw & Hr & Ew & Er & _ & ->).
  rewrite Ew, Er. split.
  - intros H. destruct (Z.leb_spec ri wi); [|lia].
    replace wi with ri by lia. reflexivity.
  - intros H. apply slot_inj in H; [|exact Hoff]. subst.
    rewrite Z.leb_refl. lia.
Qed.

Lemma on_slots_full r n :
  on_slots off cap r n -> (code_full k cfg r <-> n = cap - 1).
Proof.
  intros (wi & ri & Hw & Hr & Ew & Er & Ee & ->).
  unfold code_full. fold off. rewrite Ew, Er, Ee. split.
  - intros [H | [H1 H2]].
    + assert (wi = ri - 1).
      { apply (slot_inj (base r) off); [exact Hoff|].
        rewrite H. ring. }
      destruct (Z.leb_spec ri wi); lia.
    + apply slot_inj in H1; [|exact Hoff].
      assert (ri = 0).
      { apply (slot_inj (base r) off); [exact Hoff|]. lia. }
      subst. destruct (Z.leb_spec 0 (cap - 1)); lia.
  - intros H. destruct (Z.leb_spec ri wi).
    + right. replace wi with (cap - 1) by lia. replace ri with 0 by lia.
      split; [reflexivity | ring].
    + left. replace wi with (ri - 1) by lia. ring.
Qed.

Lemma code_full_test r :
  (write r =? read r - off) || ((read r =? base r) && (write r =? base_end r)) = true
  <-> code_full k cfg r.
Proof.
  unfold code_full. fold off.
  rewrite orb_true_iff, andb_true_iff, !Z.eqb_eq. tauto.
Qed.

Lemma on_slots_write r n :
  on_slots off cap r n -> n < cap - 1 ->
  on_slots off cap
    (set_write r (if write r =? base_end r then base r else write r + off))
    (n + 1).
Proof.
  intros (wi & ri & Hw & Hr & Ew & Er & Ee & ->) Hn.
  destruct (Z.eqb_spec (write r) (base_end r)) as [E | E].
  - assert (wi = cap - 1).
    { apply (slot_inj (base r) off); [exact Hoff | lia]. }
    exists 0, ri. simpl. repeat split; try lia.
    destruct (Z.leb_spec ri wi), (Z.leb_spec ri 0); lia.
  - assert (wi <> cap - 1).
    { intros ->. apply E. lia. }
    exists (wi + 1), ri. simpl. repeat split; try lia.
    destruct (Z.leb_spec ri wi), (Z.leb_spec ri (wi + 1)); lia.
Qed.

Lemma on_slots_rollback r n :
  on_slots off cap r n ->
  on_slots off cap (rollback_write k cfg r) (if 0 <? n then n - 1 else n).
Proof.
  intros H. rewrite rollback_write_eq. fold off.
  pose proof (on_slots_empty _ _ H) as He.
  pose proof (on_slots_bound _ _ H) as Hb.
  destruct (Z.eqb_spec (write r) (read r)) as [E | E].
  - apply He in E. subst n. exact H.
  - assert (0 < n) by (destruct (Z.eq_dec n 0); [tauto | lia]).
    replace (0 <? n) with true by (symmetry; apply Z.ltb_lt; lia).
    destruct H as (wi & ri & Hw & Hr & Ew & Er & Ee & Hn).
    destruct (Z.eqb_spec (write r) (base r)) as [E0 | E0].
    + assert (wi = 0).
      { apply (slot_inj (base r) off); [exact Hoff | lia]. }
      exists (cap - 1), ri. simpl. repeat split; try lia.
      destruct (Z.leb_spec ri wi), (Z.leb_spec ri (cap - 1)); lia.
    + assert (wi <> 0).
      { intros ->. apply E0. lia. }
      exists (wi - 1), ri. simpl. repeat split; try lia.
      destruct (Z.leb_spec ri wi), (Z.leb_spec ri (wi - 1)); lia.
Qed.

Lemma on_slots_read r n :
  on_slots off cap r n -> 0 < n ->
  on_slots off cap (next_read_slot k cfg r) (n - 1).
Proof.
  intros (wi & ri & Hw & Hr & Ew & Er & Ee & ->) Hn.
  rewrite next_read_slot_eq. fold off.
  destruct (Z.eqb_spec (read r) (base_end r)) as [E | E].
  - assert (ri = cap - 1).
    { apply (slot_inj (base r) off); [exact Hoff | lia]. }
    exists wi, 0. simpl. repeat split; try lia.
    destruct (Z.leb_spec ri wi), (Z.leb_spec 0 wi); lia.
  - assert (ri <> cap - 1).
    { intros ->. apply E. lia. }
    exists wi, (ri + 1). simpl. repeat split; try lia.
    destruct (Z.leb_spec ri wi), (Z.leb_spec (ri + 1) wi); lia.
Qed.

(** What [next_write_slot] does on a ring whose cursors are on slots. *)
Lemma next_write_slot_on_slots r n :
  on_slots off cap r n ->
  (n = cap - 1 /\ next_write_slot k cfg r = (ERR_PTR (- ENOMEM), r)) \/
  (n < cap - 1 /\
   next_write_slot k cfg r =
     (Ptr (write r),
      set_write r (if write r =? base_end r then base r else write r + off))).
Proof.
  intros H. rewrite next_write_slot_eq. fold off.
  pose proof (on_slots_full _ _ H) as Hf.
  pose proof (on_slots_bound _ _ H) as Hb.
  pose proof (code_full_test r) as Ht.
  destruct ((write r =? read r - off) ||
            ((read r =? base r) && (write r =? base_end r))).
  - left. split; [apply Hf, Ht; reflexivity | reflexivity].
  - right. split; [|reflexivity].
    destruct (Z.eq_dec n (cap - 1)) as [E | E]; [|lia].
    apply Hf, Ht in E. discriminate.
Qed.

Lemma ring_step_on_slots op r n r' n' :
  on_slots off cap r n ->
  ring_step k cfg op (r, n) = Some (r', n') ->
  on_slots off cap r' n'.
Proof.
  intros H Hs. destruct op; simpl in Hs.
  - destruct (next_write_slot_on_slots _ _ H) as [[_ E] | [Hn E]];
      rewrite E in Hs; inversion Hs; subst.
    + exact H.
    + apply on_slots_write; assumption.
  - inversion Hs; subst. apply on_slots_rollback; assumption.
  - destruct (Z.ltb_spec 0 n); [|discriminate].
    inversion Hs; subst. apply on_slots_read; assumption.
Qed.

Lemma ring_run_on_slots ops : forall r n r' n',
  on_slots off cap r n ->
  ring_run k cfg ops (r, n) = Some (r', n') ->
  on_slots off cap r' n'.
Proof.
  induction ops as [|op ops IH]; intros r n r' n' H Hr; cbn [ring_run] in Hr.
  - inversion Hr; subst; exact H.
  - destruct (ring_step k cfg op (r, n)) as [[r1 n1]|] eqn:Es; [|discriminate].
    eapply IH; [|exact Hr]. eapply ring_step_on_slots; eassumption.
Qed.

End Slots.

Lemma rollback_n_last k cfg n : forall r,
  rollback_n k cfg (S n) r = rollback_write k cfg (rollback_n k cfg n r).
Proof.
  induction n as [|n IH]; intros r.
  - reflexivity.
  - change (rollback_n k cfg (S (S n)) r)
      with (rollback_n k cfg (S n) (rollback_write k cfg r)).
    rewrite IH. reflexivity.
Qed.

Lemma ring_eta r : mk_ring (base r) (base_end r) (write r) (read r) = r.
Proof. destruct r; reflexivity. Qed.

(** Undoing one reservation gives the ring back. *)
Lemma rollback_after_write k cfg r n :
  0 < stride k cfg -> 1 <= ring_entries cfg ->
  on_slots (stride k cfg) (ring_entries cfg) r n ->
  n < ring_entries cfg - 1 ->
  rollback_write k cfg
    (set_write r (if write r =? base_end r then base r
                  else write r + stride k cfg)) = r.
Proof.
  intros Hoff Hcap H Hn.
  pose proof (on_slots_write k cfg Hoff Hcap r n H Hn) as H1.
  pose proof (on_slots_empty k cfg Hoff Hcap _ _ H1) as He.
  destruct H as (wi & ri & Hw & Hr & Ew & Er & Ee & Hd).
  rewrite rollback_write_eq.
  set (w' := if write r =? base_end r then base r else write r + stride k cfg) in *.
  cbn [write read base base_end set_write] in *.
  destruct (Z.eqb_spec w' (read r)) as [E | E].
  - exfalso. apply He in E. destruct (Z.leb_spec ri wi); lia.
  - unfold set_write. cbn [write read base base_end].
    rewrite <- (ring_eta r) at 6. f_equal.
    subst w'. destruct (Z.eqb_spec (write r) (base_end r)) as [Eb | Eb].
    + rewrite Z.eqb_refl. lia.
    + destruct (Z.eqb_spec (write r + stride k cfg) (base r)) as [E0 | E0]; [|lia].
      exfalso. nia.
Qed.

Lemma reserve_rollback k cfg :
  0 < stride k cfg -> 1 <= ring_entries cfg ->
  forall N r n r',
    on_slots (stride k cfg) (ring_entries cfg) r n ->
    reserve k cfg N r = Some r' ->
    rollback_n k cfg N r' = r.
Proof.
  intros Hoff Hcap. induction N as [|N IH]; intros r n r' H Hres.
  - simpl in Hres. inversion Hres. reflexivity.
  - cbn [reserve] in Hres.
    destruct (next_write_slot_on_slots k cfg Hoff Hcap r n H) as [[_ E] | [Hn E]];
      rewrite E in Hres; [discriminate|].
    rewrite rollback_n_last.
    rewrite (IH _ (n + 1) _ (on_slots_write k cfg Hoff Hcap r n H Hn) Hres).
    eapply rollback_after_write; eassumption.
Qed.

(** C1 (amended).  On every ring reached from a freshly initialised one by
    reservations, rollbacks and reads, the reader consuming only reserved
    slots, the number [n] of reserved and not yet consumed slots is at most
    capacity - 1; the ring is empty ([n = 0]) exactly when the write cursor
    equals the read cursor; [next_write_slot] returns the ring-full error
    exactly when [n] is capacity - 1, which is exactly when the write cursor
    equals the read cursor minus one stride or write is at the last slot
    and read at the first; otherwise it returns the write cursor as it was
    and moves it one stride on, back to the base from the last slot. *)
Theorem ring_capacity_invariant k cfg b ops r n :
  ring_params_ok k cfg -> b <> 0 ->
  ring_run k cfg ops (fresh_ring k cfg b, 0) = Some (r, n) ->
  0 <= n <= ring_entries cfg - 1 /\
  (n = 0 <-> write r = read r) /\
  (fst (next_write_slot k cfg r) = ERR_PTR (- ENOMEM)
     <-> n = ring_entries cfg - 1) /\
  (n = ring_entries cfg - 1 <-> code_full k cfg r) /\
  (n = ring_entries cfg - 1 ->
     next_write_slot k cfg r = (ERR_PTR (- ENOMEM), r)) /\
  (n < ring_entries cfg - 1 ->
     next_write_slot k cfg r =
       (Ptr (write r),
        set_write r (if write r =? base_end r then base r
                     else write r + stride k cfg))).
Proof.
  intros Hp Hb Hrun.
  pose proof (fresh_ring_on_slots k cfg b Hp Hb) as H0.
  destruct Hp as (Hoff & Hcap & _).
  pose proof (ring_run_on_slots k cfg Hoff Hcap ops _ _ _ _ H0 Hrun) as H.
  pose proof (on_slots_bound k cfg _ _ H) as Hbd.
  pose proof (next_write_slot_on_slots k cfg Hoff Hcap r n H) as Hw.
  split; [exact Hbd|].
  split; [exact (on_slots_empty k cfg Hoff Hcap _ _ H)|].
  split; [|split; [symmetry; exact (on_slots_full k cfg Hoff Hcap _ _ H)|]].
  - destruct Hw as [[Hn E] | [Hn E]]; rewrite E; simpl; split; intros; try lia;
      try reflexivity; discriminate.
  - split; intros Hn; destruct Hw as [[Hn' E] | [Hn' E]]; try lia; exact E.
Qed.

Lemma ring_capacity_invariant_witness :
  let r := mk_ring 4096 4192 4128 4096 in
  0 <= 1 <= 3 /\
  (1 = 0 <-> write r = read r) /\
  (fst (next_write_slot CDR cfg4 r) = ERR_PTR (- ENOMEM) <-> 1 = 3) /\
  (1 = 3 <-> code_full CDR cfg4 r) /\
  (1 = 3 -> next_write_slot CDR cfg4 r = (ERR_PTR (- ENOMEM), r)) /\
  (1 < 3 ->
     next_write_slot CDR cfg4 r =
       (Ptr (write r),
        set_write r (if write r =? base_end r then base r
                     else write r + stride CDR cfg4))).
Proof.
  apply (ring_capacity_invariant CDR cfg4 4096
           [OpNextWrite; OpNextWrite; OpRollback]).
  - unfold ring_params_ok; simpl; lia.
  - lia.
  - reflexivity.
Defined.

(** The full test in the words of the design document is not the test of
    the code: with four slots, after three reservations, two reads and one
    more reservation, two slots are in use, advancing the write cursor by
    one stride would make it equal to the read cursor minus one stride, and
    [next_write_slot] hands out a third slot. *)
Lemma spec_full_counterexample :
  exists r,
    ring_run CDR cfg4
      [OpNextWrite; OpNextWrite; OpNextWrite; OpNextRead; OpNextRead; OpNextWrite]
      (fresh_ring CDR cfg4 4096, 0) = Some (r, 2) /\
    spec_full CDR cfg4 r /\
    next_write_slot CDR cfg4 r = (Ptr 4096, set_write r 4128) /\
    ~ (spec_full CDR cfg4 r <->
       fst (next_write_slot CDR cfg4 r) = ERR_PTR (- ENOMEM)).
Proof.
  exists (mk_ring 4096 4192 4096 4160).
  split; [reflexivity|].
  assert (Hs : spec_full CDR cfg4 (mk_ring 4096 4192 4096 4160)).
  { left. reflexivity. }
  split; [exact Hs|]. split; [reflexivity|].
  intros [H _]. specialize (H Hs). discriminate.
Qed.

(** C7.  From any ring reached by reservations, rollbacks and reads, after
    [N] successful reservations [N] rollbacks give back the very ring
    (write cursor included, also across the wrap), and a rollback on a ring
    whose write cursor equals its read cursor changes nothing. *)
Theorem rollback_restores_write_cursor k cfg b ops r n N r' :
  ring_params_ok k cfg -> b <> 0 ->
  ring_run k cfg ops (fresh_ring k cfg b, 0) = Some (r, n) ->
  reserve k cfg N r = Some r' ->
  rollback_n k cfg N r' = r /\
  write (rollback_n k cfg N r') = write r /\
  (forall q, write q = read q -> rollback_write k cfg q = q).
Proof.
  intros Hp Hb Hrun Hres.
  pose proof (fresh_ring_on_slots k cfg b Hp Hb) as H0.
  destruct Hp as (Hoff & Hcap & _).
  pose proof (ring_run_on_slots k cfg Hoff Hcap ops _ _ _ _ H0 Hrun) as H.
  pose proof (reserve_rollback k cfg Hoff Hcap N r n r' H Hres) as E.
  split; [exact E|]. split; [rewrite E; reflexivity|].
  intros q Hq. rewrite rollback_write_eq.
  apply Z.eqb_eq in Hq. rewrite Hq. reflexivity.
Qed.

Lemma rollback_restores_write_cursor_witness :
  let r := mk_ring 4096 4192 4160 4128 in
  let r' := mk_ring 4096 4192 4096 4128 in
  rollback_n CDR cfg4 2 r' = r /\
  write (rollback_n CDR cfg4 2 r') = write r /\
  (forall q, write q = read q -> rollback_write CDR cfg4 q = q).
Proof.
  apply (rollback_restores_write_cursor CDR cfg4 4096
           [OpNextWrite; OpNextWrite; OpNextRead] _ 1 2).
  - unfold ring_params_ok; simpl; lia.
  - lia.
  - reflexivity.
  - reflexivity.
Defined.

End RingFacts.

Module SelectFacts.
Import Ring.

Lemma u32_s32 x : u32 (s32 x) = u32 x.
Proof.
  unfold u32, s32.
  rewrite Zminus_mod_idemp_l.
  f_equal. lia.
Qed.

Lemma u32_range x : 0 <= u32 x < 2 ^ 32.
Proof. unfold u32. apply Z.mod_pos_bound. lia. Qed.

Lemma s32_small x : - 2 ^ 31 <= x < 2 ^ 31 -> s32 x = x.
Proof.
  intros H. unfold s32. rewrite Z.mod_small; lia.
Qed.

Lemma u32_succ x : u32 x + 1 < 2 ^ 32 -> u32 (x + 1) = u32 x + 1.
Proof.
  intros H. unfold u32 in *.
  rewrite <- Zplus_mod_idemp_l.
  apply Z.mod_small.
  pose proof (Z.mod_pos_bound x (2 ^ 32)). lia.
Qed.

(** The index a call returns, in arithmetic terms. *)
Lemma select_ring_index cfg c :
  0 < rings cfg <= 2 ^ 31 ->
  safexcel_select_ring cfg c = (u32 (c + 1) mod rings cfg, s32 (c + 1)).
Proof.
  intros Hr. unfold safexcel_select_ring, atomic_inc_return.
  rewrite u32_s32. f_equal.
  apply s32_small.
  pose proof (Z.mod_pos_bound (u32 (c + 1)) (rings cfg)). lia.
Qed.

(** Without a wrap of the unsigned counter, [n] calls return the [n]
    residues that follow the counter. *)
Lemma select_run_map cfg n : forall c,
  0 < rings cfg <= 2 ^ 31 ->
  u32 c + Z.of_nat n < 2 ^ 32 ->
  fst (select_run cfg n c) =
  map (fun j => (u32 c + 1 + Z.of_nat j) mod rings cfg) (seq 0 n).
Proof.
  induction n as [|n IH]; intros c Hr Hw.
  - reflexivity.
  - cbn [select_run]. rewrite (select_ring_index cfg c Hr).
    destruct (select_run cfg n (s32 (c + 1))) as [l c'] eqn:E.
    cbn [fst seq map].
    assert (Hs : u32 (c + 1) = u32 c + 1) by (apply u32_succ; lia).
    f_equal.
    + rewrite Hs. f_equal. lia.
    + change l with (fst (l, c')). rewrite <- E.
      rewrite IH; [|exact Hr|rewrite u32_s32, Hs; lia].
      rewrite <- seq_shift, map_map.
      apply map_ext. intros j. rewrite u32_s32, Hs. f_equal. lia.
Qed.

Lemma residues_nodup N u n :
  0 < N -> (n <= Z.to_nat N)%nat ->
  NoDup (map (fun j => (u + 1 + Z.of_nat j) mod N) (seq 0 n)).
Proof.
  intros HN Hn.
  assert (Hinj : forall a b, (a < n)%nat -> (b < n)%nat ->
            (u + 1 + Z.of_nat a) mod N = (u + 1 + Z.of_nat b) mod N -> a = b).
  { intros a b Ha Hb E.
    assert (Hd : (Z.of_nat a - Z.of_nat b) mod N = 0).
    { replace (Z.of_nat a - Z.of_nat b)
        with ((u + 1 + Z.of_nat a) - (u + 1 + Z.of_nat b)) by lia.
      rewrite Zminus_mod, E, Z.sub_diag. apply Z.mod_0_l. lia. }
    apply Z.mod_divide in Hd; [|lia].
    destruct Hd as [q Hq].
    assert (q = 0) by nia. nia. }
  apply Injective_map_NoDup_in.
  - intros a b Ha Hb. apply in_seq in Ha, Hb. apply Hinj; lia.
  - apply seq_NoDup.
Qed.

(** C9 (amended).  A call stores the counter plus one, wrapped to [int],
    and returns that value, taken as an unsigned 32-bit number, modulo the
    ring count; whatever the counter, the index is in [0, ring count); and
    [N] consecutive calls, [N] the ring count, during which the unsigned
    counter does not wrap around select every ring exactly once. *)
Theorem select_ring_round_robin cfg c :
  0 < rings cfg <= 2 ^ 31 ->
  snd (safexcel_select_ring cfg c) = s32 (c + 1) /\
  fst (safexcel_select_ring cfg c)
    = u32 (snd (safexcel_select_ring cfg c)) mod rings cfg /\
  0 <= fst (safexcel_select_ring cfg c) < rings cfg /\
  (u32 c + rings cfg < 2 ^ 32 ->
   forall i, 0 <= i < rings cfg ->
     count_occ Z.eq_dec
       (fst (select_run cfg (Z.to_nat (rings cfg)) c)) i = 1%nat).
Proof.
  intros Hr. rewrite (select_ring_index cfg c Hr). cbn [fst snd].
  split; [reflexivity|]. split; [rewrite u32_s32; reflexivity|].
  split; [apply Z.mod_pos_bound; lia|].
  intros Hw i Hi.
  set (N := Z.to_nat (rings cfg)).
  rewrite (select_run_map cfg N c Hr) by (unfold N; lia).
  set (l := map _ _).
  assert (Hnd : NoDup l).
  { apply residues_nodup; [lia | unfold N; lia]. }
  assert (Hlen : length l = N).
  { unfold l. rewrite length_map, length_seq. reflexivity. }
  assert (Hin : In i l).
  { apply (NoDup_length_incl Hnd (l' := map Z.of_nat (seq 0 N))).
    - rewrite length_map, length_seq, Hlen. apply Nat.le_refl.
    - intros x Hx. unfold l in Hx. apply in_map_iff in Hx.
      destruct Hx as (j & <- & _).
      pose proof (Z.mod_pos_bound (u32 c + 1 + Z.of_nat j) (rings cfg)) as Hb.
      apply in_map_iff.
      exists (Z.to_nat ((u32 c + 1 + Z.of_nat j) mod rings cfg)).
      split; [lia|]. apply in_seq. unfold N. lia.
    - apply in_map_iff. exists (Z.to_nat i). split; [lia|].
      apply in_seq. unfold N. lia. }
  apply (proj1 (NoDup_count_occ' Z.eq_dec l) Hnd i Hin).
Qed.

Lemma select_ring_round_robin_witness :
  snd (safexcel_select_ring cfg3r 7) = s32 (7 + 1) /\
  fst (safexcel_select_ring cfg3r 7)
    = u32 (snd (safexcel_select_ring cfg3r 7)) mod rings cfg3r /\
  0 <= fst (safexcel_select_ring cfg3r 7) < rings cfg3r /\
  (u32 7 + rings cfg3r < 2 ^ 32 ->
   forall i, 0 <= i < rings cfg3r ->
     count_occ Z.eq_dec
       (fst (select_run cfg3r (Z.to_nat (rings cfg3r)) 7)) i = 1%nat).
Proof.
  apply (select_ring_round_robin cfg3r 7). simpl. lia.
Defined.

(** With three rings and the counter two short of its unsigned wrap, three
    consecutive calls select ring 0 twice, ring 1 once and ring 2 never. *)
Lemma select_ring_wrap_counterexample :
  select_run cfg3r (Z.to_nat (rings cfg3r)) (-2) = ([0; 0; 1], 1) /\
  ~ (forall i, 0 <= i < rings cfg3r ->
       count_occ Z.eq_dec
         (fst (select_run cfg3r (Z.to_nat (rings cfg3r)) (-2))) i = 1%nat).
Proof.
  split; [reflexivity|].
  intros H. specialize (H 2 ltac:(simpl; lia)).
  vm_compute in H. discriminate.
Qed.

End SelectFacts.

Module OwnershipFacts.
Import Ring.

Lemma dev_run_last dev n : forall t m,
  dev_run dev t (S n) m = dev (t + n)%nat (dev_run dev t n m).
Proof.
  induction n as [|n IH]; intros t m.
  - simpl. rewrite Nat.add_0_r. reflexivity.
  - change (dev_run dev t (S (S n)) m) with (dev_run dev (S t) (S n) (dev t m)).
    rewrite IH. simpl. f_equal. lia.
Qed.

(** A poll that ends with a nonzero counter has just loaded the magic
    value, after at most [cnt - 1] loads. *)
Lemma own_poll_ok cnt own dev : forall t m c t' m',
  own_poll cnt own dev t m = (S c, t', m') ->
  exists j, (j < cnt - 1)%nat /\
            m' = dev_run dev t (S j) m /\
            m' own = EIP197_OWNERSHIP_MAGIC.
Proof.
  induction cnt as [|cnt IH]; intros t m c t' m' H.
  - simpl in H. discriminate.
  - cbn [own_poll] in H. destruct cnt as [|cnt']; [discriminate|].
    destruct (Z.eqb_spec (dev t m own) EIP197_OWNERSHIP_MAGIC) as [E | E];
      cbn [negb] in H.
    + inversion H; subst. exists 0%nat. split; [lia|]. split; [reflexivity|exact E].
    + apply IH in H. destruct H as (j & Hj & Hm & Ho).
      exists (S j). split; [lia|]. split; [exact Hm | exact Ho].
Qed.

(** A poll that never loads the magic value gives up after [cnt - 1]
    loads, and the memory is what the device made of it. *)
Lemma own_poll_fail cnt own dev : forall t m,
  (forall j, (j < cnt - 1)%nat ->
     dev_run dev t (S j) m own <> EIP197_OWNERSHIP_MAGIC) ->
  own_poll cnt own dev t m =
    (O, (t + (cnt - 1))%nat, dev_run dev t (cnt - 1) m).
Proof.
  induction cnt as [|cnt IH]; intros t m H.
  - simpl. rewrite Nat.add_0_r. reflexivity.
  - cbn [own_poll]. destruct cnt as [|cnt'].
    + simpl. rewrite Nat.add_0_r. reflexivity.
    + pose proof (H 0%nat ltac:(lia)) as H0. simpl in H0.
      apply Z.eqb_neq in H0. rewrite H0. cbn [negb].
      rewrite IH.
      * f_equal; [f_equal; lia|].
        replace (S (S cnt') - 1)%nat with (S (S cnt' - 1)) by lia.
        reflexivity.
      * intros j Hj. apply (H (S j)). lia.
Qed.

Lemma not32_magic : u32 (not32 EIP197_OWNERSHIP_MAGIC) = 0x55555555.
Proof. reflexivity. Qed.

(** C2.  A read of a result slot returns the slot only after a load of its
    ownership word, one of at most nine, gave the magic value, and then
    overwrites the word with the complement; when none of the nine loads
    gives the magic value the read returns -ENOENT, stores nothing and
    leaves the caller's cursor where it was, and [safexcel_handle_req_result]
    reports the result as not handled and keeps the ring's read cursor; on
    a slot whose word is the magic value (the device being quiet) the read
    succeeds, the word becomes the complement, and a second read of the
    same slot returns -ENOENT. *)
Theorem ownership_gating cfg ring rd dev m :
  let own := rd + own_offset cfg in
  let out := safexcel_rdr_next_rptr cfg ring rd dev m in
  (forall p, fst (fst out) = Ptr p ->
     p = rd /\
     exists j, (j < 9)%nat /\
       dev_run dev 0 (S j) m own = EIP197_OWNERSHIP_MAGIC /\
       snd (fst out) = store32 (dev_run dev 0 (S j) m) own
                               (not32 EIP197_OWNERSHIP_MAGIC)) /\
  ((forall j, (j < 9)%nat ->
      dev_run dev 0 (S j) m own <> EIP197_OWNERSHIP_MAGIC) ->
   out = (ERR_PTR (- ENOENT), dev_run dev 0 9 m, rd) /\
   forall fuel h, Hash.rdr h = ring -> read ring = rd -> Hash.dmem h = m ->
     Hash.safexcel_handle_req_result fuel cfg dev h =
       Some ((0, false, - ENOENT),
             Hash.mk_rings_mem (Hash.cdr h) (Hash.rdr h) (dev_run dev 0 9 m))) /\
  (m own = EIP197_OWNERSHIP_MAGIC ->
   let out1 := safexcel_rdr_next_rptr cfg ring rd quiet m in
   out1 = (Ptr rd, store32 m own (not32 EIP197_OWNERSHIP_MAGIC),
           if rd =? base_end ring then base ring else rd + rd_offset cfg) /\
   snd (fst out1) own = 0x55555555 /\
   safexcel_rdr_next_rptr cfg ring rd quiet (snd (fst out1)) =
     (ERR_PTR (- ENOENT), snd (fst out1), rd)).
Proof.
  intros own out. split; [|split].
  - intros p Hp. subst out. unfold safexcel_rdr_next_rptr in *.
    cbn [EIP197_RD_OWN_WORD] in *. fold own in Hp |- *.
    destruct (own_poll EIP197_OWN_POLL_COUNT own dev 0 m) as [[c t'] m1] eqn:E.
    destruct c as [|c]; [simpl in Hp; discriminate|].
    apply own_poll_ok in E. destruct E as (j & Hj & Hm & Ho).
    assert (Hres : p = rd).
    { destruct (rd =? base_end ring); simpl in Hp; inversion Hp; reflexivity. }
    split; [exact Hres|].
    exists j. split; [exact Hj|]. rewrite <- Hm. split; [exact Ho|].
    destruct (rd =? base_end ring); reflexivity.
  - intros Hno.
    assert (E : own_poll EIP197_OWN_POLL_COUNT own dev 0 m
                = (O, 9%nat, dev_run dev 0 9 m)).
    { apply (own_poll_fail EIP197_OWN_POLL_COUNT own dev 0 m). exact Hno. }
    assert (Eo : out = (ERR_PTR (- ENOENT), dev_run dev 0 9 m, rd)).
    { subst out. unfold safexcel_rdr_next_rptr. cbn [EIP197_RD_OWN_WORD].
      fold own. rewrite E. reflexivity. }
    split; [exact Eo|].
    intros fuel h Hr Hrd Hm. unfold Hash.safexcel_handle_req_result.
    rewrite Hr, Hrd, Hm. fold out. rewrite Eo. reflexivity.
  - intros Hm out1.
    assert (E1 : out1 = (Ptr rd, store32 m own (not32 EIP197_OWNERSHIP_MAGIC),
                         if rd =? base_end ring then base ring
                         else rd + rd_offset cfg)).
    { subst out1. unfold safexcel_rdr_next_rptr. cbn [EIP197_RD_OWN_WORD].
      fold own. cbn [own_poll EIP197_OWN_POLL_COUNT]. unfold quiet at 1.
      rewrite Hm, Z.eqb_refl. cbn [negb].
      destruct (rd =? base_end ring); reflexivity. }
    split; [exact E1|]. rewrite E1. cbn [fst snd].
    assert (Hc : store32 m own (not32 EIP197_OWNERSHIP_MAGIC) own = 0x55555555).
    { unfold store32. rewrite Z.eqb_refl. apply not32_magic. }
    split; [exact Hc|].
    unfold safexcel_rdr_next_rptr. cbn [EIP197_RD_OWN_WORD]. fold own.
    rewrite (own_poll_fail EIP197_OWN_POLL_COUNT own quiet 0).
    + reflexivity.
    + intros j _. assert (Hq : forall n t x, dev_run quiet t n x = x).
      { induction n as [|n IHn]; intros t x; [reflexivity | apply IHn]. }
      rewrite Hq, Hc. discriminate.
Qed.

(** On the example ring the slot at the read cursor is complete: the first
    read returns it and re-arms the marker, the second is told to retry. *)
Lemma ownership_gating_witness :
  safexcel_rdr_next_rptr cfg4 rdr4 8256 quiet mem4
    = (Ptr 8256, store32 mem4 (8256 + 60) (not32 EIP197_OWNERSHIP_MAGIC), 8320) /\
  store32 mem4 (8256 + 60) (not32 EIP197_OWNERSHIP_MAGIC) (8256 + 60) = 0x55555555 /\
  safexcel_rdr_next_rptr cfg4 rdr4 8256 quiet
      (store32 mem4 (8256 + 60) (not32 EIP197_OWNERSHIP_MAGIC))
    = (ERR_PTR (- ENOENT),
       store32 mem4 (8256 + 60) (not32 EIP197_OWNERSHIP_MAGIC), 8256).
Proof.
  pose proof (ownership_gating cfg4 rdr4 8256 quiet mem4) as H.
  cbn zeta in H. destruct H as (_ & _ & H).
  specialize (H eq_refl). destruct H as (H1 & H2 & H3).
  rewrite H1 in H2, H3. cbn [fst snd] in H2, H3.
  split; [exact H1|]. split; [exact H2 | exact H3].
Defined.

End OwnershipFacts.

Module ScanFacts.
Import Ring.

Section Scan.
Variables (cfg : safexcel_config) (ring : safexcel_desc_ring) (m : mem).
Hypothesis Hown : own_offset cfg + 4 = rd_offset cfg.

(** One turn of the loop moves both pointers to the next slot. *)
Lemma scan_loop_step fuel p :
  scan_loop (S fuel) cfg ring m p (p + own_offset cfg) =
  if owned cfg m p then
    if rdesc_last_seg m p then Some true
    else scan_loop fuel cfg ring m (next_slot cfg ring p)
           (next_slot cfg ring p + own_offset cfg)
  else Some false.
Proof.
  cbn [scan_loop]. unfold owned, next_slot.
  destruct (m (p + own_offset cfg) =? EIP197_OWNERSHIP_MAGIC); [|reflexivity].
  destruct (rdesc_last_seg m p); [reflexivity|].
  destruct (p =? base_end ring); [reflexivity|].
  f_equal; lia.
Qed.

Lemma scan_loop_true fuel : forall p,
  scan_loop fuel cfg ring m p (p + own_offset cfg) = Some true <->
  existsb (rdesc_last_seg m) (take_while (owned cfg m) (walk cfg ring fuel p)) = true.
Proof.
  induction fuel as [|fuel IH]; intros p.
  - simpl. split; discriminate.
  - rewrite scan_loop_step. cbn [walk take_while].
    destruct (owned cfg m p); cbn [existsb].
    + destruct (rdesc_last_seg m p); cbn [orb].
      * split; reflexivity.
      * apply IH.
    + split; discriminate.
Qed.

Lemma scan_loop_none fuel : forall p,
  scan_loop fuel cfg ring m p (p + own_offset cfg) = None <->
  forallb (passed cfg m) (walk cfg ring fuel p) = true.
Proof.
  induction fuel as [|fuel IH]; intros p.
  - simpl. split; reflexivity.
  - rewrite scan_loop_step. cbn [walk forallb]. unfold passed at 1.
    destruct (owned cfg m p); cbn [andb].
    + destruct (rdesc_last_seg m p); cbn [negb andb].
      * split; discriminate.
      * apply IH.
    + split; discriminate.
Qed.

Lemma scan_loop_more fuel : forall fuel' p b,
  (fuel <= fuel')%nat ->
  scan_loop fuel cfg ring m p (p + own_offset cfg) = Some b ->
  scan_loop fuel' cfg ring m p (p + own_offset cfg) = Some b.
Proof.
  induction fuel as [|fuel IH]; intros fuel' p b Hle H.
  - simpl in H. discriminate.
  - destruct fuel' as [|fuel']; [lia|].
    rewrite scan_loop_step in H |- *.
    destruct (owned cfg m p); [|exact H].
    destruct (rdesc_last_seg m p); [exact H|].
    apply IH; [lia | exact H].
Qed.

End Scan.

(** C8.  With the ownership word in the last four bytes of a slot, where
    [safexcel_configure] puts it, [safexcel_rdr_scan_next] only reads, and
    looking at up to [fuel] slots it returns true exactly when the run of consecutive ownership-confirmed
    slots from the read cursor, wrapping at the ring end, holds a slot with
    the last-segment flag; it returns false exactly when that run ends
    within these slots and holds no such slot; it does not return exactly
    when all of these slots are confirmed and none is a last segment; and
    an answer once given stays the same with more slots to look at. *)
Theorem scan_next_finds_complete_packet cfg ring m fuel :
  own_offset cfg + 4 = rd_offset cfg ->
  (safexcel_rdr_scan_next fuel cfg ring m = Some true <->
     packet_ready cfg ring m fuel = true) /\
  (safexcel_rdr_scan_next fuel cfg ring m = Some false <->
     packet_ready cfg ring m fuel = false /\
     forallb (passed cfg m) (walk cfg ring fuel (read ring)) = false) /\
  (safexcel_rdr_scan_next fuel cfg ring m = None <->
     forallb (passed cfg m) (walk cfg ring fuel (read ring)) = true) /\
  (forall fuel' b, (fuel <= fuel')%nat ->
     safexcel_rdr_scan_next fuel cfg ring m = Some b ->
     safexcel_rdr_scan_next fuel' cfg ring m = Some b).
Proof.
  intros Hown. unfold safexcel_rdr_scan_next, packet_ready, magic_run.
  pose proof (scan_loop_true cfg ring m Hown fuel (read ring)) as Ht.
  pose proof (scan_loop_none cfg ring m Hown fuel (read ring)) as Hn.
  split; [exact Ht|]. split; [|split; [exact Hn|]].
  - destruct (scan_loop fuel cfg ring m (read ring) (read ring + own_offset cfg))
      as [[|]|] eqn:E.
    + split; [discriminate|]. intros [H _].
      rewrite (proj1 Ht eq_refl) in H. discriminate.
    + split; [|reflexivity]. intros _. split.
      * destruct (existsb _ _); [|reflexivity].
        destruct Ht as [_ Ht]. specialize (Ht eq_refl). discriminate.
      * destruct (forallb _ _); [|reflexivity].
        destruct Hn as [_ Hn]. specialize (Hn eq_refl). discriminate.
    + split; [discriminate|]. intros [_ H].
      rewrite (proj1 Hn eq_refl) in H. discriminate.
  - intros fuel' b Hle H.
    exact (scan_loop_more cfg ring m Hown fuel fuel' (read ring) b Hle H).
Qed.

Lemma scan_next_finds_complete_packet_witness :
  (safexcel_rdr_scan_next 4 cfg4 rdr4 mem4 = Some true <->
     packet_ready cfg4 rdr4 mem4 4 = true) /\
  (safexcel_rdr_scan_next 4 cfg4 rdr4 mem4 = Some false <->
     packet_ready cfg4 rdr4 mem4 4 = false /\
     forallb (passed cfg4 mem4) (walk cfg4 rdr4 4 (read rdr4)) = false) /\
  (safexcel_rdr_scan_next 4 cfg4 rdr4 mem4 = None <->
     forallb (passed cfg4 mem4) (walk cfg4 rdr4 4 (read rdr4)) = true) /\
  (forall fuel' b, (4 <= fuel')%nat ->
     safexcel_rdr_scan_next 4 cfg4 rdr4 mem4 = Some b ->
     safexcel_rdr_scan_next fuel' cfg4 rdr4 mem4 = Some b).
Proof.
  apply (scan_next_finds_complete_packet cfg4 rdr4 mem4 4). reflexivity.
Defined.

(** On the example, the scan passes the second slot and finds the packet in
    the third. *)
Example scan_next_example :
  safexcel_rdr_scan_next 4 cfg4 rdr4 mem4 = Some true /\
  magic_run cfg4 rdr4 mem4 4 = [8256; 8320].
Proof. split; reflexivity. Qed.

End ScanFacts.

Module ErrorFacts.
Import Engine.

Lemma error_code_range m p : 0 <= result_data_error_code m p < 2 ^ 15.
Proof.
  unfold result_data_error_code.
  change 0x7fff with (Z.ones 15). rewrite Z.land_ones by lia.
  apply Z.mod_pos_bound. lia.
Qed.

(** C4 (amended).  The check returns 0 exactly when the error code is
    zero and -EBADMSG exactly when the code is the authentication-failure
    pattern, bit 9 alone; a code with one of the bits of 0x407f set gives
    the fatal -EIO; and a nonzero code with none of the bits 0-7 and 14
    set, other than bit 9 alone, gives -EINVAL, which the code counts as
    not fatal. *)
Theorem rdesc_check_errors_classes cfg m rdesc :
  let code := result_data_error_code m (rdesc + res_offset cfg) in
  let r := safexcel_rdesc_check_errors cfg m rdesc in
  (r = 0 <-> code = 0) /\
  (r = - EBADMSG <-> code = BIT 9) /\
  (Z.land code 0x407f <> 0 -> r = - EIO) /\
  (code <> 0 -> Z.land code 0x40ff = 0 -> code <> BIT 9 -> r = - EINVAL).
Proof.
  intros code r. subst r. unfold safexcel_rdesc_check_errors.
  fold code. unfold rdesc_check_error_code.
  destruct (Z.eqb_spec code 0) as [E0 | E0].
  - repeat split; try tauto; try discriminate.
    + intros H. rewrite E0 in H. discriminate.
    + intros H. rewrite E0 in H. elim H. reflexivity.
  - destruct (Z.eqb_spec (Z.land code 0x407f) 0) as [Ef | Ef]; cbn [negb].
    + destruct (Z.eqb_spec code (BIT 9)) as [E9 | E9].
      * repeat split; try tauto; try discriminate; try (intros; reflexivity).
      * repeat split; try tauto; try discriminate; try (intros; reflexivity).
    + repeat split; try tauto; try discriminate; try (intros; reflexivity).
      * intros H. rewrite H in Ef. elim Ef. reflexivity.
      * intros _ H. exfalso. apply Ef.
        change 0x407f with (Z.land 0x40ff 0x407f).
        rewrite Z.land_assoc, H. reflexivity.
Qed.

(** A nonzero code that is neither the authentication-failure pattern nor
    fatal: bit 8 alone gives -EINVAL, not the fatal -EIO. *)
Lemma rdesc_check_errors_counterexample :
  result_data_error_code (mem_with_error 0x100) (8192 + res_offset cfg4) = 0x100 /\
  safexcel_rdesc_check_errors cfg4 (mem_with_error 0x100) 8192 = - EINVAL /\
  safexcel_rdesc_check_errors cfg4 (mem_with_error 0x100) 8192 <> - EIO.
Proof.
  split; [reflexivity|]. split; [reflexivity|]. discriminate.
Qed.

(** A code with bits 0 and 6 set is fatal. *)
Lemma rdesc_check_errors_classes_witness :
  safexcel_rdesc_check_errors cfg4 (mem_with_error 0x41) 8192 = - EIO.
Proof.
  apply (rdesc_check_errors_classes cfg4 (mem_with_error 0x41) 8192).
  vm_compute. discriminate.
Defined.

End ErrorFacts.

Module FinalFacts.
Import Hash.

(** C10.  On a request with no bytes counted ([len] zero) and an empty
    final buffer, [safexcel_ahash_final] sets [last_req] and [finish],
    copies the empty-message digest of the context's algorithm (MD5, SHA-1,
    SHA-224, SHA-256, SHA-384 or SHA-512) over the start of the result
    buffer and returns 0; the context, the ring-selection counter and the
    list of enqueue and work-queue actions are as before, so nothing was
    put on a ring. *)
Theorem ahash_final_empty_message cfg need_inv md5 sha1 sha224 sha256 sha384 sha512
    pool enq inv_get ctx areq req d :
  len req = (0, 0) -> nbytes areq = 0 ->
  let out := safexcel_ahash_final cfg need_inv md5 sha1 sha224 sha256 sha384
               sha512 pool enq inv_get ctx areq req d in
  let digest_of (h : list Z) (n : nat) :=
    out = (0, mk_areq 0 (firstn n h ++ skipn n (result areq)),
           mk_sreq true true (needs_inv req) (digest req) (0, 0) (processed req),
           ctx, d) in
  (alg ctx = CONTEXT_CONTROL_CRYPTO_ALG_MD5 -> digest_of md5 MD5_DIGEST_SIZE) /\
  (alg ctx = CONTEXT_CONTROL_CRYPTO_ALG_SHA1 -> digest_of sha1 SHA1_DIGEST_SIZE) /\
  (alg ctx = CONTEXT_CONTROL_CRYPTO_ALG_SHA224 -> digest_of sha224 SHA224_DIGEST_SIZE) /\
  (alg ctx = CONTEXT_CONTROL_CRYPTO_ALG_SHA256 -> digest_of sha256 SHA256_DIGEST_SIZE) /\
  (alg ctx = CONTEXT_CONTROL_CRYPTO_ALG_SHA384 -> digest_of sha384 SHA384_DIGEST_SIZE) /\
  (alg ctx = CONTEXT_CONTROL_CRYPTO_ALG_SHA512 -> digest_of sha512 SHA512_DIGEST_SIZE) /\
  fst (fst (fst (fst out))) = 0 /\
  snd out = d /\ actions (snd out) = actions d /\ ring_used (snd out) = ring_used d.
Proof.
  intros Hlen Hn out digest_of. subst out digest_of.
  unfold safexcel_ahash_final. cbn [len nbytes fst snd].
  rewrite Hlen, Hn. cbn [fst snd Z.eqb andb].
  unfold memcpy.
  repeat split; try (intros ->; reflexivity);
    repeat (destruct (alg ctx =? _); try reflexivity).
Qed.

Lemma ahash_final_empty_message_witness :
  let ctx := mk_ctx CONTEXT_CONTROL_CRYPTO_ALG_SHA1 4096 false in
  let d := mk_driver 5 [ActEnqueue 2; ActQueueWork 2] in
  safexcel_ahash_final cfg3r true md5_empty sha1_empty [] [] [] [] 0
    (fun _ => - EINPROGRESS) false ctx empty_final_request fresh_sha1_req d
  = (0, mk_areq 0 (sha1_empty ++ repeat 0 44),
     mk_sreq true true false CONTEXT_CONTROL_DIGEST_PRECOMPUTED (0, 0) (0, 0),
     ctx, d).
Proof.
  intros ctx d.
  apply (ahash_final_empty_message cfg3r true md5_empty sha1_empty [] [] [] [] 0
           (fun _ => - EINPROGRESS) false ctx empty_final_request fresh_sha1_req d);
    reflexivity.
Defined.

End FinalFacts.

Module IntFacts.

Lemma s32_decomp x : exists k, s32 x = x + k * 2 ^ 32.
Proof.
  exists (- ((x + 2 ^ 31) / 2 ^ 32)). unfold s32.
  pose proof (Z.div_mod (x + 2 ^ 31) (2 ^ 32) ltac:(lia)). lia.
Qed.

Lemma s32_congr a b k : a = b + k * 2 ^ 32 -> s32 a = s32 b.
Proof.
  intros ->. unfold s32.
  replace (b + k * 2 ^ 32 + 2 ^ 31) with (b + 2 ^ 31 + k * 2 ^ 32) by lia.
  rewrite Z.mod_add by lia. reflexivity.
Qed.

Lemma s32_add_l a b : s32 (s32 a + b) = s32 (a + b).
Proof.
  destruct (s32_decomp a) as [k Hk]. apply (s32_congr _ _ k). lia.
Qed.

(** The threshold word for a packet count that fits the field. *)
Lemma thresh_word c :
  0 <= c < 2 ^ 16 ->
  u32 (Z.lor (BIT 23) c) = BIT 23 + c /\ Z.land (BIT 23 + c) 0xFFFF = c.
Proof.
  intros Hc. change (BIT 23) with (2 ^ 23).
  assert (Hl : Z.land (2 ^ 23) c = 0).
  { apply Z.bits_inj'. intros n Hn. rewrite Z.land_spec, Z.bits_0.
    rewrite Z.pow2_bits_eqb by lia.
    destruct (Z.eqb_spec 23 n) as [<- | Hne]; [|reflexivity].
    destruct (Z.eq_dec c 0) as [-> | Hz]; [reflexivity|].
    rewrite Z.bits_above_log2; [reflexivity | lia |].
    apply Z.log2_lt_pow2; lia. }
  assert (Hor : Z.lor (2 ^ 23) c = 2 ^ 23 + c).
  { rewrite <- Z.lxor_lor by exact Hl. symmetry.
    apply Z.add_nocarry_lxor. exact Hl. }
  rewrite Hor. split.
  - unfold u32. apply Z.mod_small. lia.
  - change 0xFFFF with (Z.ones 16). rewrite Z.land_ones by lia.
    replace (2 ^ 23 + c) with (c + 2 ^ 7 * 2 ^ 16) by lia.
    rewrite Z.mod_add by lia. apply Z.mod_small. lia.
Qed.

End IntFacts.

Module EngineFacts.
Import Engine IntFacts.

Section Facts.
Variables (request W : Type) (cfg : safexcel_config).
Variable send : request -> W -> (Z * Z * Z) * W.
Variable handle_result : request -> W -> (Z * bool * Z) * W.
Variable rdr_req_get : W -> request.
Variable scan_next : W -> option bool.

Lemma count_app (f : event request -> bool) (l1 l2 : list (event request)) :
  count f (l1 ++ l2) = count f l1 + count f l2.
Proof.
  unfold count. rewrite filter_app, length_app. lia.
Qed.

Lemma count_none (f g : event request -> bool) (l : list (event request)) :
  (forall e, g e = true -> f e = false) ->
  forallb g l = true -> count f l = 0.
Proof.
  intros Hfg Hl. unfold count.
  induction l as [|e l IH]; [reflexivity|].
  cbn [forallb] in Hl. apply andb_true_iff in Hl. destruct Hl as [He Hl].
  cbn [filter]. rewrite (Hfg e He). apply IH. exact Hl.
Qed.

Lemma sent_app (l1 l2 : list (event request)) : sent (l1 ++ l2) = sent l1 ++ sent l2.
Proof.
  induction l1 as [|e l1 IH]; [reflexivity|].
  destruct e; cbn [sent app]; rewrite ?IH; reflexivity.
Qed.

Lemma threshold_after_app (l1 l2 : list (event request)) d :
  threshold_after (l1 ++ l2) d = threshold_after l2 (threshold_after l1 d).
Proof.
  revert d. induction l1 as [|e l1 IH]; intros d; [reflexivity|].
  destruct e as [[] v| | | | | |]; cbn [threshold_after app]; apply IH.
Qed.

(** [safexcel_try_push_requests] writes the threshold register once and
    leaves the counter alone. *)
Lemma try_push_effect (st : safexcel_ring request W) :
  trace (safexcel_try_push_requests st) =
    trace st ++ [EvWritel RDR_THRESH
                   (u32 (Z.lor EIP197_HIA_RDR_THRESH_PKT_MODE
                               (Z.min (requests st) EIP197_MAX_BATCH_SZ)))] /\
  requests (safexcel_try_push_requests st) = requests st /\
  req (safexcel_try_push_requests st) = req st /\
  backlog (safexcel_try_push_requests st) = backlog st /\
  queue (safexcel_try_push_requests st) = queue st.
Proof.
  unfold safexcel_try_push_requests, EIP197_HIA_RDR_THRESH_PROC_PKT.
  destruct (EIP197_AVOID_DEV_READ && negb (busy (emit st _))); repeat split.
Qed.

(** The loop of [safexcel_dequeue]: what it leaves pending, the calls of
    [send] it makes, and the count of admitted requests. *)
Lemma dequeue_handle_req_spec q :
  forall r b (st : safexcel_ring request W) nreq cdesc rdesc,
  exists done ev k,
    let res := dequeue_handle_req send q r b st (nreq, cdesc, rdesc) in
    trace (fst res) = trace st ++ ev /\
    forallb is_send_or_backlog ev = true /\
    requests (fst res) = requests st /\
    fst (fst (snd res)) = nreq + admissions ev + k * 2 ^ 32 /\
    (b, r) :: q = done ++ pending (fst res) /\
    ((req (fst res) = None /\ pending (fst res) = [] /\
      sent ev = map (fun e => (snd e, 0)) done) \/
     (exists r' ret, req (fst res) = Some r' /\ ret <> 0 /\
        sent ev = map (fun e => (snd e, 0)) done ++ [(r', ret)])).
Proof.
  induction q as [|[b' r'] q IH]; intros r b st nreq cdesc rdesc;
    cbn [dequeue_handle_req];
    destruct (send r (world st)) as [[[ret commands] results] w] eqn:Es;
    destruct (Z.eqb_spec ret 0) as [-> | Hret]; cbn [negb].
  - (* the queue is drained *)
    set (st1 := match b with Some bl => _ | None => _ end).
    assert (Ht : exists bl, trace st1 = trace st ++ EvSend r 0 commands results :: bl
                 /\ forallb is_send_or_backlog bl = true /\ admissions bl = 0
                 /\ sent bl = [] /\ requests st1 = requests st).
    { subst st1. destruct b as [bl|]; cbn [trace emit set_world requests].
      - exists [EvBacklog bl (- EINPROGRESS)]. rewrite <- app_assoc.
        repeat split.
      - exists []. repeat split. }
    destruct Ht as (bl & Ht & Hf & Ha & Hs & Hr).
    destruct ((commands =? 0) && (results =? 0)) eqn:Ec.
    + exists [(b, r)], (EvSend r 0 commands results :: bl), 0. cbn [fst snd].
      cbn [trace set_stalled set_queue requests pending req queue].
      rewrite Ht, Hr. repeat split; try assumption.
      * change (admissions (EvSend r 0 commands results :: bl))
          with (count is_admission ([EvSend r 0 commands results] ++ bl)).
        rewrite count_app. fold (admissions bl). rewrite Ha.
        unfold count. cbn [filter is_admission]. rewrite Ec. simpl. lia.
      * left. cbn [sent map snd]. rewrite Hs. repeat split.
    + destruct (s32_decomp (nreq + 1)) as [k Hk].
      exists [(b, r)], (EvSend r 0 commands results :: bl), k. cbn [fst snd].
      cbn [trace set_stalled set_queue requests pending req queue].
      rewrite Ht, Hr. repeat split; try assumption.
      * change (admissions (EvSend r 0 commands results :: bl))
          with (count is_admission ([EvSend r 0 commands results] ++ bl)).
        rewrite count_app. fold (admissions bl). rewrite Ha.
        unfold count. cbn [filter is_admission]. rewrite Ec. simpl. lia.
      * left. cbn [sent map snd]. rewrite Hs. repeat split.
  - (* send failed: the request and its backlog target are kept *)
    exists [], [EvSend r ret commands results], 0. cbn [fst snd].
    cbn [trace set_stalled set_queue emit set_world requests pending req
         backlog queue forallb is_send_or_backlog andb app].
    repeat split.
    + unfold admissions, count. cbn [filter is_admission].
      apply Z.eqb_neq in Hret. rewrite Hret. simpl. lia.
    + right. exists r, ret. repeat split. exact Hret.
  - (* send succeeded: on to the next request of the queue *)
    set (st1 := match b with Some bl => _ | None => _ end).
    assert (Ht : exists bl, trace st1 = trace st ++ EvSend r 0 commands results :: bl
                 /\ forallb is_send_or_backlog bl = true /\ admissions bl = 0
                 /\ sent bl = [] /\ requests st1 = requests st).
    { subst st1. destruct b as [bl|]; cbn [trace emit set_world requests].
      - exists [EvBacklog bl (- EINPROGRESS)]. rewrite <- app_assoc.
        repeat split.
      - exists []. repeat split. }
    destruct Ht as (bl & Ht & Hf & Ha & Hs & Hr).
    set (acc' := if (commands =? 0) && (results =? 0) then _ else _).
    assert (Hacc : exists n' c' d' k0, acc' = (n', c', d') /\
              n' = nreq + admissions [EvSend r 0 commands results] + k0 * 2 ^ 32).
    { subst acc'. unfold admissions, count. cbn [filter is_admission Z.eqb andb].
      destruct ((commands =? 0) && (results =? 0)); cbn [negb filter length].
      - exists nreq, cdesc, rdesc, 0. split; [reflexivity | simpl; lia].
      - destruct (s32_decomp (nreq + 1)) as [k0 Hk].
        exists (s32 (nreq + 1)), (s32 (cdesc + commands)), (s32 (rdesc + results)), k0.
        split; [reflexivity | simpl; lia]. }
    destruct Hacc as (n' & c' & d' & k0 & -> & Hn').
    destruct (IH r' b' st1 n' c' d') as (done & ev & k & H).
    cbn zeta in H. destruct H as (Htr & Hfa & Hrq & Hcnt & Hpend & Hsent).
    exists ((b, r) :: done), (EvSend r 0 commands results :: bl ++ ev), (k0 + k).
    cbn zeta. rewrite Htr, Ht, Hrq, Hr, Hcnt.
    split; [rewrite <- app_assoc; reflexivity|].
    split; [cbn [forallb is_send_or_backlog andb]; rewrite forallb_app, Hf, Hfa;
            reflexivity|].
    split; [reflexivity|].
    split.
    { change (EvSend r 0 commands results :: bl ++ ev)
        with ([EvSend r 0 commands results] ++ bl ++ ev).
      unfold admissions in *. rewrite !count_app, Ha. lia. }
    split; [cbn [app]; rewrite Hpend; reflexivity|].
    cbn [sent]. rewrite sent_app, Hs. cbn [app map snd].
    destruct Hsent as [(H1 & H2 & H3) | (r2 & ret2 & H1 & H2 & H3)].
    + left. rewrite H3. repeat split; assumption.
    + right. exists r2, ret2. rewrite H3. repeat split; assumption.
  - (* send failed *)
    exists [], [EvSend r ret commands results], 0. cbn [fst snd].
    cbn [trace set_stalled set_queue emit set_world requests pending req
         backlog queue forallb is_send_or_backlog andb app].
    repeat split.
    + unfold admissions, count. cbn [filter is_admission].
      apply Z.eqb_neq in Hret. rewrite Hret. simpl. lia.
    + right. exists r, ret. repeat split. exact Hret.
Qed.

(** A run of [safexcel_dequeue]: the events in program order, the counter,
    and the requests left pending. *)
Lemma dequeue_effect (st : safexcel_ring request W) :
  exists done ev c d tail,
    let st' := safexcel_dequeue cfg send st in
    trace st' =
      trace st ++
      EvWritel RDR_THRESH (u32 EIP197_HIA_RDR_THRESH_PKT_MODE) :: ev ++
      EvWritel CDR_PREP_COUNT c :: EvRequests (requests st') ::
      EvWritel RDR_PREP_COUNT d :: tail /\
    forallb is_send_or_backlog ev = true /\
    requests st' = s32 (requests st + admissions ev) /\
    pending st = done ++ pending st' /\
    ((req st' = None /\ pending st' = [] /\
      sent ev = map (fun e => (snd e, 0)) done) \/
     (exists r' ret, req st' = Some r' /\ ret <> 0 /\
        sent ev = map (fun e => (snd e, 0)) done ++ [(r', ret)])) /\
    ((requests st' = 0 /\ tail = []) \/
     (requests st' <> 0 /\
      tail = [EvWritel RDR_THRESH
                (u32 (Z.lor EIP197_HIA_RDR_THRESH_PKT_MODE
                            (Z.min (requests st') EIP197_MAX_BATCH_SZ)))])).
Proof.
  unfold safexcel_dequeue.
  set (st0 := emit st (EvWritel RDR_THRESH (u32 EIP197_HIA_RDR_THRESH_PKT_MODE))).
  assert (Hloop : exists done ev k,
    let res := match req st0 with
               | Some r => dequeue_handle_req send (queue st0) r (backlog st0) st0 (0, 0, 0)
               | None => match queue st0 with
                         | [] => (set_stalled st0 None None, (0, 0, 0))
                         | (b, r) :: q => dequeue_handle_req send q r b st0 (0, 0, 0)
                         end
               end in
    trace (fst res) = trace st0 ++ ev /\
    forallb is_send_or_backlog ev = true /\
    requests (fst res) = requests st0 /\
    fst (fst (snd res)) = 0 + admissions ev + k * 2 ^ 32 /\
    pending st = done ++ pending (fst res) /\
    ((req (fst res) = None /\ pending (fst res) = [] /\
      sent ev = map (fun e => (snd e, 0)) done) \/
     (exists r' ret, req (fst res) = Some r' /\ ret <> 0 /\
        sent ev = map (fun e => (snd e, 0)) done ++ [(r', ret)]))).
  { unfold pending at 1. subst st0. cbn [req queue backlog emit].
    destruct (req st) as [r|].
    - apply dequeue_handle_req_spec.
    - destruct (queue st) as [|[b r] q] eqn:Eq.
      + exists [], [], 0. cbn. rewrite app_nil_r, Eq. repeat split.
        left. repeat split.
      + apply dequeue_handle_req_spec. }
  destruct Hloop as (done & ev & k & Hloop). cbn zeta in Hloop.
  destruct (match req st0 with Some _ => _ | None => _ end)
    as [st1 [[nreq cdesc] rdesc]].
  cbn [fst snd] in Hloop.
  destruct Hloop as (Htr & Hf & Hrq & Hn & Hp & Hs).
  assert (Hreq : s32 (requests st1 + nreq) = s32 (requests st + admissions ev)).
  { rewrite Hrq. subst st0. cbn [requests emit]. apply (s32_congr _ _ k). lia. }
  exists done, ev, (u32 (cdesc * cd_offset cfg)), (u32 (rdesc * rd_offset cfg)).
  cbn [requests emit set_requests].
  destruct (Z.eqb_spec (s32 (requests st1 + nreq)) 0) as [E | E]; cbn [negb].
  - exists []. cbn zeta.
    cbn [trace emit set_requests requests pending req backlog queue].
    rewrite Htr. subst st0. cbn [trace emit]. rewrite <- !app_assoc. cbn [app].
    rewrite <- Hreq.
    repeat split; try assumption.
    left. split; [exact E | reflexivity].
  - eexists. cbn zeta.
    unfold safexcel_try_push_requests, EIP197_HIA_RDR_THRESH_PROC_PKT.
    cbn [requests emit set_requests busy].
    destruct (EIP197_AVOID_DEV_READ && negb (busy st1));
      cbn [trace emit set_requests set_busy set_thresh_written requests
           pending req backlog queue];
      rewrite Htr; subst st0; cbn [trace emit]; rewrite <- !app_assoc;
      cbn [app]; rewrite <- Hreq;
      (split; [reflexivity|]); repeat split; try assumption;
      right; (split; [exact E | reflexivity]).
Qed.

(** The result loop: only calls of [handle_result] and completions, and
    [handled] ends as the number of results that were handled. *)
Lemma result_loop_spec fuel :
  forall nreq handled tot (st : safexcel_ring request W) h t st',
  result_loop handle_result rdr_req_get scan_next fuel nreq handled tot st
    = Some (h, t, st') ->
  exists ev k,
    trace st' = trace st ++ ev /\
    forallb is_result_or_complete ev = true /\
    requests st' = requests st /\
    h = handled - nreq + completions ev + k * 2 ^ 32.
Proof.
  induction fuel as [|fuel IH]; intros nreq handled tot st h t st' H;
    [discriminate|].
  cbn [result_loop] in H.
  destruct (Z.eqb_spec nreq 0) as [-> | Hn]; cbn [negb] in H.
  - (* the loop test fails: look for the next packet *)
    cbn [EIP197_RD_OWN_WORD] in H.
    destruct (scan_next (world st)) as [[|]|]; [| |discriminate].
    + apply IH in H. destruct H as (ev & k & Ht & Hf & Hr & Hh).
      destruct (s32_decomp (handled + 1)) as [k1 Hk1].
      exists ev, (k + k1). repeat split; try assumption. lia.
    + inversion H; subst. exists [], 0. rewrite app_nil_r.
      repeat split. unfold completions, count. simpl. lia.
  - destruct (handle_result (rdr_req_get (world st)) (world st))
      as [[[ndesc sc] ret] w] eqn:Eh.
    destruct (s32_decomp (nreq - 1)) as [k1 Hk1].
    destruct sc.
    + apply IH in H. destruct H as (ev & k & Ht & Hf & Hr & Hh).
      exists (EvHandleResult (rdr_req_get (world st)) ndesc true ret ::
              EvComplete (rdr_req_get (world st)) ret :: ev), (k - k1).
      cbn [trace emit set_world requests] in Ht, Hr.
      rewrite <- !app_assoc in Ht. cbn [app] in Ht.
      split; [exact Ht|]. split; [exact Hf|]. split; [exact Hr|].
      change (EvHandleResult (rdr_req_get (world st)) ndesc true ret ::
              EvComplete (rdr_req_get (world st)) ret :: ev)
        with ([EvHandleResult (rdr_req_get (world st)) ndesc true ret;
               EvComplete (rdr_req_get (world st)) ret] ++ ev).
      unfold completions in *. rewrite count_app.
      unfold count at 1. cbn [filter is_completion orb length]. lia.
    + cbn [EIP197_RD_OWN_WORD andb] in H.
      destruct (Z.eqb_spec ndesc 0) as [-> | Hd].
      * inversion H; subst.
        destruct (s32_decomp (handled - nreq)) as [k2 Hk2].
        exists [EvHandleResult (rdr_req_get (world st)) 0 false ret], k2.
        cbn [trace emit set_world requests]. repeat split.
        unfold completions, count. simpl. lia.
      * apply IH in H. destruct H as (ev & k & Ht & Hf & Hr & Hh).
        exists (EvHandleResult (rdr_req_get (world st)) ndesc false ret :: ev),
               (k - k1).
        cbn [trace emit set_world requests] in Ht, Hr.
        rewrite <- !app_assoc in Ht. cbn [app] in Ht.
        split; [exact Ht|]. split; [exact Hf|]. split; [exact Hr|].
        change (EvHandleResult (rdr_req_get (world st)) ndesc false ret :: ev)
          with ([EvHandleResult (rdr_req_get (world st)) ndesc false ret] ++ ev).
        unfold completions in *. rewrite count_app.
        unfold count at 1.
        cbn [filter is_completion orb EIP197_RD_OWN_WORD andb].
        apply Z.eqb_neq in Hd. rewrite Hd. cbn [negb length]. lia.
Qed.

Lemma ack_batches_spec n : forall i (st : safexcel_ring request W),
  exists acks,
    trace (snd (ack_batches n i st)) = trace st ++ acks /\
    forallb is_proc_count_write acks = true /\
    requests (snd (ack_batches n i st)) = requests st.
Proof.
  induction n as [|n IH]; intros i st; cbn [ack_batches].
  - exists []. rewrite app_nil_r. repeat split.
  - destruct (EIP197_xDR_PROC_xD_PKT_MASK <? i).
    + destruct (IH (s32 (i - EIP197_xDR_PROC_xD_PKT_MASK))
                  (emit st (EvWritel RDR_PROC_COUNT
                     (u32 (EIP197_xDR_PROC_xD_PKT EIP197_xDR_PROC_xD_PKT_MASK)))))
        as (acks & Ht & Hf & Hr).
      eexists (_ :: acks). rewrite Ht, Hr. cbn [trace emit requests].
      rewrite <- app_assoc. repeat split. exact Hf.
    + exists []. rewrite app_nil_r. repeat split.
Qed.

(** A run of [safexcel_handle_result_descriptor]: the events in program
    order and the counter. *)
Lemma completion_effect fuel stat proc_count (st st' : safexcel_ring request W) :
  safexcel_handle_result_descriptor cfg handle_result rdr_req_get scan_next
    fuel stat proc_count st = Some st' ->
  exists ev acks thr err,
    trace st' =
      trace st ++ ev ++ acks ++
      EvRequests (requests st') :: EvWritel RDR_STAT 0xff :: thr ++ err /\
    forallb is_result_or_complete ev = true /\
    forallb is_proc_count_write acks = true /\
    requests st' = s32 (requests st - completions ev) /\
    ((requests st' = 0 /\ thr = []) \/
     (requests st' <> 0 /\
      thr = [EvWritel RDR_THRESH
               (u32 (Z.lor EIP197_HIA_RDR_THRESH_PKT_MODE
                           (Z.min (requests st') EIP197_MAX_BATCH_SZ)))])) /\
    (err = [] \/ err = [EvDevErr]).
Proof.
  unfold safexcel_handle_result_descriptor.
  set (after_loop := if EIP197_AVOID_DEV_READ && _ then _ else _).
  assert (Ha : forall handled st1, after_loop = Some (handled, st1) ->
            exists ev acks k,
              trace st1 = trace st ++ ev ++ acks /\
              forallb is_result_or_complete ev = true /\
              forallb is_proc_count_write acks = true /\
              requests st1 = requests st /\
              handled = completions ev + k * 2 ^ 32).
  { intros handled st1 H. subst after_loop.
    cbn [EIP197_AVOID_DEV_READ andb] in H.
    destruct (negb (negb (Z.land stat EIP197_xDR_THRESH =? 0))).
    - inversion H; subst. exists [], [], 0. repeat split.
      rewrite app_nil_r. reflexivity.
    - destruct (result_loop handle_result rdr_req_get scan_next fuel
                  (thresh_written st) (thresh_written st) 0 st)
        as [[[h t] st2]|] eqn:El; [|discriminate].
      apply result_loop_spec in El. destruct El as (ev & k & Ht & Hf & Hr & Hh).
      destruct (Z.eqb_spec h 0) as [-> | Hh0]; cbn [negb] in H.
      + inversion H; subst. exists ev, [], k. rewrite app_nil_r.
        repeat split; try assumption. lia.
      + destruct (ack_batches_spec (Z.to_nat h) h st2) as (acks & Hat & Haf & Har).
        destruct (ack_batches (Z.to_nat h) h st2) as [i st3].
        cbn [snd] in Hat, Har. inversion H; subst.
        eexists ev, (acks ++ [_]), k.
        cbn [trace emit requests]. rewrite Hat, Ht, Har, Hr.
        rewrite <- !app_assoc. split; [reflexivity|].
        split; [exact Hf|]. split; [|split; [reflexivity | lia]].
        rewrite forallb_app, Haf. reflexivity. }
  destruct after_loop as [[handled st1]|]; [|discriminate].
  destruct (Ha handled st1 eq_refl) as (ev & acks & k & Ht & Hf & Haf & Hr & Hh).
  clear Ha. intros H. inversion H; subst st'; clear H.
  assert (Hreq : s32 (requests st1 - handled) = s32 (requests st - completions ev)).
  { rewrite Hr. apply (s32_congr _ _ (- k)). lia. }
  exists ev, acks.
  cbn [requests emit set_requests set_busy].
  destruct (Z.eqb_spec (s32 (requests st1 - handled)) 0) as [E | E]; cbn [negb].
  - exists [].
    destruct (negb (Z.land stat EIP197_xDR_ERR =? 0));
      [exists [EvDevErr] | exists []];
      cbn [trace emit set_requests set_busy requests];
      rewrite Ht, <- !app_assoc; cbn [app]; rewrite <- Hreq;
      (split; [reflexivity|]); repeat split; try assumption;
      try (left; split; [exact E | reflexivity]);
      first [left; reflexivity | right; reflexivity].
  - exists [EvWritel RDR_THRESH
              (u32 (Z.lor EIP197_HIA_RDR_THRESH_PKT_MODE
                          (Z.min (s32 (requests st1 - handled))
                                 EIP197_MAX_BATCH_SZ)))].
    unfold safexcel_try_push_requests, EIP197_HIA_RDR_THRESH_PROC_PKT.
    cbn [requests emit set_requests set_busy busy EIP197_AVOID_DEV_READ andb negb].
    destruct (negb (Z.land stat EIP197_xDR_ERR =? 0));
      [exists [EvDevErr] | exists []];
      cbn [trace emit set_requests set_busy set_thresh_written requests];
      rewrite Ht, <- !app_assoc; cbn [app]; rewrite <- Hreq;
      (split; [reflexivity|]); repeat split; try assumption;
      try (right; split; [exact E | reflexivity]);
      first [left; reflexivity | right; reflexivity].
Qed.

Lemma count_nil (f : event request -> bool) : count f [] = 0.
Proof. reflexivity. Qed.

Lemma count_cons (f : event request -> bool) e (l : list (event request)) :
  count f (e :: l) = (if f e then 1 else 0) + count f l.
Proof.
  unfold count. cbn [filter]. destruct (f e); cbn [length]; lia.
Qed.

Lemma existsb_none (f g : event request -> bool) (l : list (event request)) :
  (forall e, g e = true -> f e = false) ->
  forallb g l = true -> existsb f l = false.
Proof.
  intros Hfg Hl. induction l as [|e l IH]; [reflexivity|].
  cbn [forallb] in Hl. apply andb_true_iff in Hl. destruct Hl as [He Hl].
  cbn [existsb]. rewrite (Hfg e He). apply IH. exact Hl.
Qed.

Lemma send_not_completion (e : event request) :
  is_send_or_backlog e = true -> is_completion e = false.
Proof. destruct e; simpl; congruence. Qed.

Lemma send_not_prep (e : event request) :
  is_send_or_backlog e = true -> is_rdr_prep_write e = false.
Proof. destruct e; simpl; congruence. Qed.

Lemma send_not_complete (e : event request) :
  is_send_or_backlog e = true -> is_complete e = false.
Proof. destruct e; simpl; congruence. Qed.

Lemma result_not_admission (e : event request) :
  is_result_or_complete e = true -> is_admission e = false.
Proof. destruct e; simpl; congruence. Qed.

Lemma ack_not_admission (e : event request) :
  is_proc_count_write e = true -> is_admission e = false.
Proof. destruct e; simpl; congruence. Qed.

Lemma ack_not_completion (e : event request) :
  is_proc_count_write e = true -> is_completion e = false.
Proof. destruct e; simpl; congruence. Qed.

(** The counter after a dequeue run, in terms of the events of the run. *)
Lemma dequeue_counts (st : safexcel_ring request W) :
  exists new,
    trace (safexcel_dequeue cfg send st) = trace st ++ new /\
    requests (safexcel_dequeue cfg send st)
      = s32 (requests st + admissions new - completions new).
Proof.
  destruct (dequeue_effect st) as (done & ev & c & d & tail & H).
  cbn zeta in H. destruct H as (Ht & Hf & Hr & _ & _ & Htail).
  eexists. split; [exact Ht|]. rewrite Hr. f_equal.
  unfold admissions, completions.
  rewrite !count_cons, !count_app, !count_cons. cbn [is_admission is_completion].
  rewrite (count_none is_completion is_send_or_backlog ev send_not_completion Hf).
  destruct Htail as [[_ ->] | [_ ->]]; rewrite ?count_cons;
    cbn [is_admission is_completion]; rewrite ?count_nil; lia.
Qed.

Lemma completion_counts fuel stat proc_count (st st' : safexcel_ring request W) :
  safexcel_handle_result_descriptor cfg handle_result rdr_req_get scan_next
    fuel stat proc_count st = Some st' ->
  exists new,
    trace st' = trace st ++ new /\
    requests st' = s32 (requests st + admissions new - completions new).
Proof.
  intros H. apply completion_effect in H.
  destruct H as (ev & acks & thr & err & Ht & Hf & Haf & Hr & Hthr & Herr).
  eexists. split; [exact Ht|]. rewrite Hr. f_equal.
  unfold admissions, completions.
  rewrite !count_app, !count_cons, !count_app. cbn [is_admission is_completion].
  rewrite (count_none is_admission is_result_or_complete ev result_not_admission Hf).
  rewrite (count_none is_admission is_proc_count_write acks ack_not_admission Haf).
  rewrite (count_none is_completion is_proc_count_write acks ack_not_completion Haf).
  destruct Hthr as [[_ ->] | [_ ->]]; destruct Herr as [-> | ->];
    rewrite ?count_app, ?count_cons; cbn [is_admission is_completion];
    rewrite ?count_nil; lia.
Qed.

Lemma exec_run_counts r (st st' : safexcel_ring request W) :
  exec_run cfg send handle_result rdr_req_get scan_next r st = Some st' ->
  exists new,
    trace st' = trace st ++ new /\
    requests st' = s32 (requests st + admissions new - completions new).
Proof.
  destruct r as [arrived | fuel stat proc_count]; cbn [exec_run]; intros H.
  - inversion H; subst.
    exact (dequeue_counts (set_queue st (queue st ++ arrived))).
  - eapply completion_counts. exact H.
Qed.

Lemma exec_runs_counts rs : forall (st st' : safexcel_ring request W) x,
  requests st = s32 x ->
  exec_runs cfg send handle_result rdr_req_get scan_next rs st = Some st' ->
  exists new,
    trace st' = trace st ++ new /\
    requests st' = s32 (x + admissions new - completions new).
Proof.
  induction rs as [|r rs IH]; intros st st' x Hx H; cbn [exec_runs] in H.
  - inversion H; subst. exists []. rewrite app_nil_r. split; [reflexivity|].
    unfold admissions, completions. rewrite !count_nil, Hx. f_equal. lia.
  - destruct (exec_run cfg send handle_result rdr_req_get scan_next r st)
      as [st1|] eqn:E1; [|discriminate].
    apply exec_run_counts in E1. destruct E1 as (new1 & Ht1 & Hr1).
    assert (Hx1 : requests st1 = s32 (x + admissions new1 - completions new1)).
    { rewrite Hr1, Hx.
      replace (s32 x + admissions new1 - completions new1)
        with (s32 x + (admissions new1 - completions new1)) by lia.
      rewrite s32_add_l. f_equal. lia. }
    destruct (IH st1 st' _ Hx1 H) as (new2 & Ht2 & Hr2).
    exists (new1 ++ new2). rewrite Ht2, Ht1, app_assoc.
    split; [reflexivity|]. rewrite Hr2. f_equal.
    unfold admissions, completions. rewrite !count_app. lia.
Qed.

(** C3.  From the ring context as the probe leaves it, after any sequence
    of dequeue and completion runs that return, the in-flight counter is
    the number of requests admitted (sends that succeeded and produced
    descriptors) minus the number of results handled, as an [int], and
    exactly that number when it fits; within a dequeue run the counter is
    stored after all sends and before the result-descriptor prepared
    count is written; within a completion run it is stored after every
    call of [handle_result] and every completion. *)
Theorem in_flight_accounting :
  (forall rs w st,
     exec_runs cfg send handle_result rdr_req_get scan_next rs
       (ring_context_init w) = Some st ->
     requests st = s32 (admissions (trace st) - completions (trace st)) /\
     (- 2 ^ 31 <= admissions (trace st) - completions (trace st) < 2 ^ 31 ->
      requests st = admissions (trace st) - completions (trace st))) /\
  (forall st : safexcel_ring request W, exists pre post,
     let st' := safexcel_dequeue cfg send st in
     trace st' = trace st ++ pre ++ EvRequests (requests st') :: post /\
     requests st' = s32 (requests st + admissions pre) /\
     admissions post = 0 /\
     existsb is_rdr_prep_write pre = false /\
     existsb is_rdr_prep_write post = true) /\
  (forall fuel stat proc_count (st st' : safexcel_ring request W),
     safexcel_handle_result_descriptor cfg handle_result rdr_req_get scan_next
       fuel stat proc_count st = Some st' ->
     exists pre post,
       trace st' = trace st ++ pre ++ EvRequests (requests st') :: post /\
       requests st' = s32 (requests st - completions pre) /\
       existsb is_result_or_complete post = false).
Proof.
  split; [|split].
  - intros rs w st H.
    apply (exec_runs_counts rs _ _ 0) in H; [|reflexivity].
    destruct H as (new & Ht & Hr). cbn [trace ring_context_init app] in Ht.
    rewrite Ht. replace (0 + admissions new - completions new)
      with (admissions new - completions new) in Hr by lia.
    split; [exact Hr|]. intros Hb. rewrite Hr.
    unfold s32. rewrite Z.mod_small; lia.
  - intros st. destruct (dequeue_effect st) as (done & ev & c & d & tail & H).
    cbn zeta in H. destruct H as (Ht & Hf & Hr & _ & _ & Htail).
    exists (EvWritel RDR_THRESH (u32 EIP197_HIA_RDR_THRESH_PKT_MODE) :: ev ++
            [EvWritel CDR_PREP_COUNT c]),
           (EvWritel RDR_PREP_COUNT d :: tail).
    cbn zeta. split.
    { rewrite Ht. cbn [app]. rewrite <- app_assoc. reflexivity. }
    split.
    { rewrite Hr. f_equal. unfold admissions.
      rewrite count_cons, count_app, count_cons, count_nil.
      cbn [is_admission]. lia. }
    split.
    { unfold admissions. rewrite count_cons. cbn [is_admission].
      destruct Htail as [[_ ->] | [_ ->]]; rewrite ?count_cons, ?count_nil;
        cbn [is_admission]; lia. }
    split.
    { cbn [existsb is_rdr_prep_write orb]. rewrite existsb_app.
      rewrite (existsb_none is_rdr_prep_write is_send_or_backlog ev send_not_prep Hf).
      reflexivity. }
    reflexivity.
  - intros fuel stat proc_count st st' H. apply completion_effect in H.
    destruct H as (ev & acks & thr & err & Ht & Hf & Haf & Hr & Hthr & Herr).
    exists (ev ++ acks), (EvWritel RDR_STAT 0xff :: thr ++ err).
    split; [rewrite Ht, <- app_assoc; reflexivity|].
    split.
    { rewrite Hr. f_equal. unfold completions. rewrite count_app.
      rewrite (count_none is_completion is_proc_count_write acks
                 ack_not_completion Haf). lia. }
    destruct Hthr as [[_ ->] | [_ ->]]; destruct Herr as [-> | ->]; reflexivity.
Qed.

(** The completion run returns: when no further packet is found after the
    expected results, the result loop ends within [nreq + 1] turns. *)
Lemma result_loop_returns fuel :
  (forall w, scan_next w = Some false) ->
  forall nreq handled tot (st : safexcel_ring request W),
  0 <= nreq < 2 ^ 31 -> (Z.to_nat nreq < fuel)%nat ->
  result_loop handle_result rdr_req_get scan_next fuel nreq handled tot st
    <> None.
Proof.
  intros Hscan. induction fuel as [|fuel IH]; intros nreq handled tot st Hn Hf;
    [lia|].
  cbn [result_loop].
  destruct (Z.eqb_spec nreq 0) as [-> | Hnz]; cbn [negb].
  - cbn [EIP197_RD_OWN_WORD]. rewrite Hscan. discriminate.
  - assert (Hs : s32 (nreq - 1) = nreq - 1).
    { unfold s32. rewrite Z.mod_small; lia. }
    destruct (handle_result (rdr_req_get (world st)) (world st))
      as [[[ndesc sc] ret] w].
    destruct sc; [rewrite Hs; apply IH; lia|].
    destruct (EIP197_RD_OWN_WORD && (ndesc =? 0)); [discriminate|].
    rewrite Hs. apply IH; lia.
Qed.

Lemma completion_returns stat proc_count (st : safexcel_ring request W) :
  (forall w, scan_next w = Some false) ->
  0 <= thresh_written st < 2 ^ 31 ->
  safexcel_handle_result_descriptor cfg handle_result rdr_req_get scan_next
    (S (Z.to_nat (thresh_written st))) stat proc_count st <> None.
Proof.
  intros Hscan Ht. unfold safexcel_handle_result_descriptor.
  cbn [EIP197_AVOID_DEV_READ andb].
  destruct (negb (negb (Z.land stat EIP197_xDR_THRESH =? 0))); [discriminate|].
  pose proof (result_loop_returns (S (Z.to_nat (thresh_written st))) Hscan
                (thresh_written st) (thresh_written st) 0 st Ht ltac:(lia)) as Hr.
  destruct (result_loop handle_result rdr_req_get scan_next
              (S (Z.to_nat (thresh_written st))) (thresh_written st)
              (thresh_written st) 0 st) as [[[h t] st2]|]; [|contradiction].
  destruct (negb (h =? 0)); [|discriminate].
  destruct (ack_batches (Z.to_nat h) h st2). discriminate.
Qed.

(** C5 (amended).  In a run of [safexcel_dequeue] the work found (the
    stalled request first, then the queue) splits into the requests whose
    send succeeded and the work left pending: nothing is dropped.  When a
    send fails, with whatever nonzero status, that request is saved as the
    stalled request, with its backlog target, in front of the rest of
    the queue, and no later request is sent; a stalled request is the
    first one sent in the next run; and besides telling backlog targets
    -EINPROGRESS the run calls no completion, so no error reaches a
    completion path from here. *)
Theorem dequeue_defers_failed_send (st : safexcel_ring request W) :
  exists done new,
    let st' := safexcel_dequeue cfg send st in
    trace st' = trace st ++ new /\
    pending st = done ++ pending st' /\
    existsb is_complete new = false /\
    ((req st' = None /\ pending st' = [] /\
      sent new = map (fun e => (snd e, 0)) done) \/
     (exists r ret,
        req st' = Some r /\ pending st' = (backlog st', r) :: queue st' /\
        ret <> 0 /\
        sent new = map (fun e => (snd e, 0)) done ++ [(r, ret)])) /\
    (forall r, req st = Some r -> exists ret rest, sent new = (r, ret) :: rest).
Proof.
  destruct (dequeue_effect st) as (done & ev & c & d & tail & H).
  cbn zeta in H. destruct H as (Ht & Hf & _ & Hp & Hs & Htail).
  exists done. eexists. cbn zeta. split; [exact Ht|]. split; [exact Hp|].
  assert (Hsent : sent (EvWritel RDR_THRESH (u32 EIP197_HIA_RDR_THRESH_PKT_MODE)
                    :: ev ++ EvWritel CDR_PREP_COUNT c
                    :: EvRequests (requests (safexcel_dequeue cfg send st))
                    :: EvWritel RDR_PREP_COUNT d :: tail) = sent ev).
  { cbn [sent]. rewrite sent_app. cbn [sent].
    destruct Htail as [[_ ->] | [_ ->]]; cbn [sent]; apply app_nil_r. }
  rewrite Hsent.
  assert (Hcases :
    (req (safexcel_dequeue cfg send st) = None /\
     pending (safexcel_dequeue cfg send st) = [] /\
     sent ev = map (fun e => (snd e, 0)) done) \/
    (exists r ret,
       req (safexcel_dequeue cfg send st) = Some r /\
       pending (safexcel_dequeue cfg send st)
         = (backlog (safexcel_dequeue cfg send st), r)
           :: queue (safexcel_dequeue cfg send st) /\
       ret <> 0 /\
       sent ev = map (fun e => (snd e, 0)) done ++ [(r, ret)])).
  { destruct Hs as [H | (r & ret & Hr & Hret & Hse)]; [left; exact H|].
    right. exists r, ret. split; [exact Hr|].
    split; [unfold pending; rewrite Hr; reflexivity|].
    split; assumption. }
  split.
  { cbn [existsb is_complete orb]. rewrite existsb_app.
    rewrite (existsb_none is_complete is_send_or_backlog ev send_not_complete Hf).
    destruct Htail as [[_ ->] | [_ ->]]; reflexivity. }
  split; [exact Hcases|].
  intros r Hr. unfold pending at 1 in Hp. rewrite Hr in Hp.
  destruct done as [|[b0 r0] done].
  - cbn [app] in Hp.
    destruct Hcases as [(_ & Hnil & _) | (r1 & ret & _ & Hp1 & _ & Hse)].
    + rewrite Hnil in Hp. discriminate.
    + rewrite Hp1 in Hp. inversion Hp; subst. exists ret, []. exact Hse.
  - cbn [app] in Hp. inversion Hp; subst.
    destruct Hcases as [(_ & _ & Hse) | (r1 & ret & _ & _ & _ & Hse)];
      rewrite Hse; cbn [map snd app]; eexists; eexists; reflexivity.
Qed.

(** C6.  [safexcel_try_push_requests] with at least one request in flight
    writes the threshold register with packet mode and, as the packet
    count, the smaller of the in-flight counter and 65535; and after a
    dequeue run or a completion run that leaves at least one request in
    flight, that is the value the register holds. *)
Theorem coalescing_threshold :
  (forall st : safexcel_ring request W, 0 < requests st ->
     trace (safexcel_try_push_requests st) =
       trace st ++ [EvWritel RDR_THRESH
                      (BIT 23 + Z.min (requests st) EIP197_MAX_BATCH_SZ)] /\
     Z.land (BIT 23 + Z.min (requests st) EIP197_MAX_BATCH_SZ) 0xFFFF
       = Z.min (requests st) EIP197_MAX_BATCH_SZ) /\
  (forall st : safexcel_ring request W,
     let st' := safexcel_dequeue cfg send st in
     0 < requests st' ->
     threshold_after (trace st') None
       = Some (BIT 23 + Z.min (requests st') EIP197_MAX_BATCH_SZ)) /\
  (forall fuel stat proc_count (st st' : safexcel_ring request W),
     safexcel_handle_result_descriptor cfg handle_result rdr_req_get scan_next
       fuel stat proc_count st = Some st' ->
     0 < requests st' ->
     threshold_after (trace st') None
       = Some (BIT 23 + Z.min (requests st') EIP197_MAX_BATCH_SZ)).
Proof.
  assert (Hw : forall v, 0 < v ->
            u32 (Z.lor EIP197_HIA_RDR_THRESH_PKT_MODE (Z.min v EIP197_MAX_BATCH_SZ))
              = BIT 23 + Z.min v EIP197_MAX_BATCH_SZ /\
            Z.land (BIT 23 + Z.min v EIP197_MAX_BATCH_SZ) 0xFFFF
              = Z.min v EIP197_MAX_BATCH_SZ).
  { intros v Hv. apply thresh_word. unfold EIP197_MAX_BATCH_SZ. lia. }
  split; [|split].
  - intros st Hst. destruct (try_push_effect st) as (Ht & _).
    rewrite Ht. destruct (Hw _ Hst) as [-> H2]. split; [reflexivity | exact H2].
  - intros st st' Hst. subst st'.
    destruct (dequeue_effect st) as (done & ev & c & d & tail & H).
    cbn zeta in H. destruct H as (Ht & _ & _ & _ & _ & Htail).
    destruct Htail as [[Hz _] | [_ ->]]; [lia|].
    rewrite Ht. rewrite (proj1 (Hw _ Hst)).
    set (T := EvWritel RDR_THRESH _) at 2.
    assert (E : forall (l : list (event request)) a0 a1 a2 a3,
              l ++ a0 :: ev ++ a1 :: a2 :: a3 :: [T]
              = (l ++ a0 :: ev ++ [a1; a2; a3]) ++ [T]).
    { intros. rewrite <- app_assoc. cbn [app]. rewrite <- app_assoc.
      reflexivity. }
    rewrite E, threshold_after_app. reflexivity.
  - intros fuel stat proc_count st st' H Hst. apply completion_effect in H.
    destruct H as (ev & acks & thr & err & Ht & _ & _ & _ & Hthr & Herr).
    destruct Hthr as [[Hz _] | [_ ->]]; [lia|].
    rewrite Ht. rewrite (proj1 (Hw _ Hst)).
    rewrite !threshold_after_app. cbn [threshold_after].
    destruct Herr as [-> | ->]; reflexivity.
Qed.

End Facts.

(** On the example pipeline, request 1 fails with -EINVAL, which is not the
    ring-full status: it is kept as the stalled request and sent again by
    the next run, and no completion is made. *)
Lemma dequeue_other_failure_counterexample :
  let st0 := set_queue (ring_context_init (request := nat) tt)
               [(None, 1%nat); (None, 2%nat)] in
  let st1 := safexcel_dequeue cfg4 send_ex st0 in
  let st2 := safexcel_dequeue cfg4 send_ex st1 in
  - EINVAL <> - ENOMEM /\
  req st1 = Some 1%nat /\
  sent (trace st1) = [(1%nat, - EINVAL)] /\
  sent (trace st2) = [(1%nat, - EINVAL); (1%nat, - EINVAL)] /\
  existsb is_complete (trace st2) = false /\
  pending st2 = [(None, 1%nat); (None, 2%nat)].
Proof.
  cbn zeta. split; [discriminate|]. repeat split.
Qed.

(** On the example pipeline, a dequeue run and a completion run. *)
Lemma in_flight_accounting_witness :
  exists st,
    exec_runs cfg4 send_ex handle_result_ex rdr_req_get_ex scan_next_ex
      [RunDequeue [(None, 2%nat); (None, 3%nat)];
       RunCompletion 10 EIP197_xDR_THRESH 0]
      (ring_context_init (request := nat) tt) = Some st /\
    requests st = s32 (admissions (trace st) - completions (trace st)) /\
    requests st = 0.
Proof.
  destruct (exec_runs cfg4 send_ex handle_result_ex rdr_req_get_ex scan_next_ex
              [RunDequeue [(None, 2%nat); (None, 3%nat)];
               RunCompletion 10 EIP197_xDR_THRESH 0]
              (ring_context_init (request := nat) tt)) as [st|] eqn:E.
  - exists st. split; [reflexivity|]. split.
    + exact (proj1 (proj1 (in_flight_accounting nat unit cfg4 send_ex
                             handle_result_ex rdr_req_get_ex scan_next_ex)
                      _ _ _ E)).
    + vm_compute in E. injection E as <-. reflexivity.
  - vm_compute in E. discriminate.
Defined.

(** A stalled request 1 in front of a queue holding request 2. *)
Lemma dequeue_defers_failed_send_witness :
  let st := mk_sring tt [(None, 2%nat)] 0 0 false (Some 1%nat) None [] in
  exists done new,
    let st' := safexcel_dequeue cfg4 send_ex st in
    trace st' = trace st ++ new /\
    pending st = done ++ pending st' /\
    existsb is_complete new = false /\
    ((req st' = None /\ pending st' = [] /\
      sent new = map (fun e => (snd e, 0)) done) \/
     (exists r ret,
        req st' = Some r /\ pending st' = (backlog st', r) :: queue st' /\
        ret <> 0 /\
        sent new = map (fun e => (snd e, 0)) done ++ [(r, ret)])) /\
    (forall r, req st = Some r -> exists ret rest, sent new = (r, ret) :: rest).
Proof.
  intros st. exact (dequeue_defers_failed_send nat unit cfg4 send_ex st).
Defined.

(** Three requests in flight. *)
Lemma coalescing_threshold_witness :
  let st := mk_sring (request := nat) tt [] 3 0 false None None [] in
  trace (safexcel_try_push_requests st) = [EvWritel RDR_THRESH (BIT 23 + 3)] /\
  Z.land (BIT 23 + 3) 0xFFFF = 3.
Proof.
  intros st.
  apply (proj1 (coalescing_threshold nat unit cfg4 send_ex handle_result_ex
                  rdr_req_get_ex scan_next_ex) st).
  reflexivity.
Defined.

(** On the example pipeline: two requests are admitted by a dequeue run,
    which leaves two in flight and programs a threshold of two packets;
    the completion run that follows handles both and leaves none. *)
Example pipeline_example :
  let st0 := ring_context_init (request := nat) tt in
  let st1 := safexcel_dequeue cfg4 send_ex
               (set_queue st0 [(None, 2%nat); (None, 3%nat)]) in
  let out := exec_runs cfg4 send_ex handle_result_ex rdr_req_get_ex scan_next_ex
               [RunDequeue [(None, 2%nat); (None, 3%nat)];
                RunCompletion 10 EIP197_xDR_THRESH 0] st0 in
  requests st1 = 2 /\
  threshold_after (trace st1) None = Some (BIT 23 + 2) /\
  option_map requests out = Some 0 /\
  option_map (fun st => admissions (trace st)) out = Some 2 /\
  option_map (fun st => completions (trace st)) out = Some 2.
Proof.
  cbn zeta. repeat split; vm_compute; reflexivity.
Qed.

End EngineFacts.

Module RingOrderFacts.
Import Ring RingOrder RingFacts.

(** The slot with index [i] of a ring, and the index after [i]. *)
Lemma mod_succ_cases cap i :
  0 <= i < cap ->
  (i + 1) mod cap = (if i =? cap - 1 then 0 else i + 1).
Proof.
  intros Hi. destruct (Z.eqb_spec i (cap - 1)) as [-> | Hne].
  - replace (cap - 1 + 1) with cap by lia. apply Z.mod_same. lia.
  - apply Z.mod_small. lia.
Qed.

Lemma mod_shift cap i j :
  0 < cap -> ((i + 1) mod cap + j) mod cap = (i + (1 + j)) mod cap.
Proof.
  intros Hc. rewrite Zplus_mod_idemp_l. f_equal. lia.
Qed.

Section Indexed.
Variables (k : ring_kind) (cfg : safexcel_config).
Hypothesis Hoff : 0 < stride k cfg.
Hypothesis Hcap : 1 <= ring_entries cfg.

(** The slots a row of reservations hands out, by index. *)
Lemma reserve_slots_idx N : forall r n wi ps r1,
  on_slots (stride k cfg) (ring_entries cfg) r n ->
  0 <= wi < ring_entries cfg -> write r = base r + stride k cfg * wi ->
  reserve_slots k cfg N r = Some (ps, r1) ->
  ps = map (fun j => base r + stride k cfg *
                       ((wi + Z.of_nat j) mod ring_entries cfg)) (seq 0 N) /\
  n + Z.of_nat N <= ring_entries cfg - 1 /\
  on_slots (stride k cfg) (ring_entries cfg) r1 (n + Z.of_nat N) /\
  write r1 = base r + stride k cfg *
               ((wi + Z.of_nat N) mod ring_entries cfg) /\
  read r1 = read r /\ base r1 = base r /\ base_end r1 = base_end r.
Proof.
  induction N as [|N IH]; intros r n wi ps r1 Hs Hwi Hw H.
  - cbn [reserve_slots] in H. inversion H; subst.
    pose proof (on_slots_bound k cfg _ _ Hs).
    rewrite !Z.add_0_r, Z.mod_small by lia.
    split; [reflexivity|]. split; [lia|]. split; [exact Hs|].
    split; [exact Hw|]. split; [reflexivity|]. split; reflexivity.
  - cbn [reserve_slots] in H.
    destruct (next_write_slot_on_slots k cfg Hoff Hcap r n Hs) as [[_ E] | [Hn E]];
      rewrite E in H; [discriminate|].
    set (r' := set_write r _) in *.
    destruct (reserve_slots k cfg N r') as [[ps' r'']|] eqn:E'; [|discriminate].
    inversion H; subst ps r''. clear H.
    pose proof (on_slots_write k cfg Hoff Hcap r n Hs Hn) as Hs'. fold r' in Hs'.
    assert (Hbe : base_end r = base r + stride k cfg * (ring_entries cfg - 1)).
    { destruct Hs as (? & ? & _ & _ & _ & _ & He & _). exact He. }
    assert (Hw' : write r' = base r' + stride k cfg *
                    ((wi + 1) mod ring_entries cfg)).
    { subst r'. cbn [write base set_write]. rewrite mod_succ_cases by lia.
      destruct (Z.eqb_spec (write r) (base_end r)) as [Eb | Eb];
        destruct (Z.eqb_spec wi (ring_entries cfg - 1)) as [Ei | Ei]; try lia;
        exfalso;
        first [ apply Ei; apply (slot_inj (base r) (stride k cfg));
                [exact Hoff | lia]
              | apply Eb; subst wi; lia ]. }
    assert (Hwi' : 0 <= (wi + 1) mod ring_entries cfg < ring_entries cfg)
      by (apply Z.mod_pos_bound; lia).
    destruct (IH r' (n + 1) _ ps' r1 Hs' Hwi' Hw' E')
      as (Hps & Hb & Hs1 & Hw1 & Hr1 & Hb1 & He1).
    subst r'. cbn [base read base_end set_write] in *.
    split.
    { cbn [seq map]. f_equal.
      - rewrite Z.add_0_r, Z.mod_small by lia. exact Hw.
      - rewrite Hps, <- seq_shift, map_map. apply map_ext. intros j.
        rewrite mod_shift by lia. do 3 f_equal. lia. }
    split; [lia|].
    split; [replace (n + Z.of_nat (S N)) with (n + 1 + Z.of_nat N) by lia; exact Hs1|].
    split; [rewrite Hw1, mod_shift by lia; do 3 f_equal; lia|].
    split; [exact Hr1|]. split; [exact Hb1 | exact He1].
Qed.

(** The slots a row of reads returns, by index. *)
Lemma read_slots_idx N : forall r ri,
  0 <= ri < ring_entries cfg -> read r = base r + stride k cfg * ri ->
  base_end r = base r + stride k cfg * (ring_entries cfg - 1) ->
  read_slots k cfg N r =
    (map (fun j => Ptr (base r + stride k cfg *
                          ((ri + Z.of_nat j) mod ring_entries cfg))) (seq 0 N),
     set_read r (base r + stride k cfg *
                   ((ri + Z.of_nat N) mod ring_entries cfg))).
Proof.
  induction N as [|N IH]; intros r ri Hri Hr He.
  - cbn [read_slots seq map]. rewrite Z.add_0_r, Z.mod_small by lia.
    rewrite <- Hr. destruct r; reflexivity.
  - cbn [read_slots].
    assert (E : read_slot k cfg r = (Ptr (read r), next_read_slot k cfg r)).
    { unfold read_slot, next_read_slot. destruct k.
      - destruct (safexcel_cdr_next_rptr cfg r) as [p r'] eqn:E.
        unfold safexcel_cdr_next_rptr in E.
        destruct (read r =? base_end r); inversion E; reflexivity.
      - unfold safexcel_rdr_next_rptr. simpl.
        destruct (read r =? base_end r); reflexivity. }
    rewrite E, next_read_slot_eq.
    set (r' := set_read r _).
    assert (Hr' : read r' = base r' + stride k cfg *
                    ((ri + 1) mod ring_entries cfg)).
    { subst r'. cbn [read base set_read]. rewrite mod_succ_cases by lia.
      destruct (Z.eqb_spec (read r) (base_end r)) as [Eb | Eb];
        destruct (Z.eqb_spec ri (ring_entries cfg - 1)) as [Ei | Ei]; try lia;
        exfalso;
        first [ apply Ei; apply (slot_inj (base r) (stride k cfg));
                [exact Hoff | lia]
              | apply Eb; subst ri; lia ]. }
    assert (Hri' : 0 <= (ri + 1) mod ring_entries cfg < ring_entries cfg)
      by (apply Z.mod_pos_bound; lia).
    rewrite (IH r' _ Hri' Hr' He).
    subst r'. cbn [base set_read write base_end]. f_equal.
    + cbn [seq map]. f_equal.
      * rewrite Z.add_0_r, Z.mod_small by lia. rewrite Hr. reflexivity.
      * rewrite <- seq_shift, map_map. apply map_ext. intros j.
        rewrite mod_shift by lia. do 4 f_equal. lia.
    + unfold set_read. cbn [base base_end write]. f_equal.
      rewrite mod_shift by lia. do 3 f_equal. lia.
Qed.

End Indexed.

(** The write index is [n] slots after the read index, around the ring. *)
Lemma mod_wrap_back cap wi ri n :
  0 <= wi < cap -> 0 <= ri < cap ->
  n = (if ri <=? wi then wi - ri else wi - ri + cap) ->
  (ri + n) mod cap = wi.
Proof.
  intros Hw Hr ->. destruct (Z.leb_spec ri wi).
  - replace (ri + (wi - ri)) with wi by lia. apply Z.mod_small. lia.
  - replace (ri + (wi - ri + cap)) with (wi + 1 * cap) by lia.
    rewrite Z.mod_add by lia. apply Z.mod_small. lia.
Qed.

Lemma slots_nodup (b off cap wi : Z) (N : nat) :
  0 < off -> 0 < cap -> Z.of_nat N <= cap ->
  NoDup (map (fun j => b + off * ((wi + Z.of_nat j) mod cap)) (seq 0 N)).
Proof.
  intros Hoff Hcap HN.
  pose proof (SelectFacts.residues_nodup cap (wi - 1) N Hcap ltac:(lia)) as H.
  apply (Injective_map_NoDup (f := fun i => b + off * i)) in H.
  - rewrite map_map in H.
    erewrite map_ext; [exact H|]. intros j. cbn beta. do 3 f_equal. lia.
  - intros i j E. apply (slot_inj b off); assumption.
Qed.

(** X1.  First in, first out.  On any ring reached by reservations,
    rollbacks and reads, with [n] slots pending, a row of [N] successful
    reservations hands out [N] pairwise different slots, all inside the
    ring, and [n + N] stays below the ring's capacity; once the reader has
    consumed the [n] older slots, its next [N] reads return exactly the
    slots reserved, in the order of their reservation, and leave the read
    cursor on the write cursor (the ring is empty again). *)
Theorem ring_fifo_order k cfg b ops r n N ps r1 :
  ring_params_ok k cfg -> b <> 0 ->
  ring_run k cfg ops (fresh_ring k cfg b, 0) = Some (r, n) ->
  reserve_slots k cfg N r = Some (ps, r1) ->
  length ps = N /\ NoDup ps /\
  n + Z.of_nat N <= ring_entries cfg - 1 /\
  (forall p, In p ps -> base r <= p <= base_end r) /\
  read_slots k cfg N (snd (read_slots k cfg (Z.to_nat n) r1)) =
    (map Ptr ps, set_read r1 (write r1)).
Proof.
  intros Hp Hb Hrun Hres.
  pose proof (fresh_ring_on_slots k cfg b Hp Hb) as H0.
  destruct Hp as (Hoff & Hcap & _).
  pose proof (ring_run_on_slots k cfg Hoff Hcap ops _ _ _ _ H0 Hrun) as H.
  pose proof (on_slots_bound k cfg _ _ H) as Hn.
  destruct H as (wi & ri & Hwi & Hri & Hw & Hr & He & En).
  assert (Hs : on_slots (stride k cfg) (ring_entries cfg) r n)
    by (exists wi, ri; repeat split; assumption || lia).
  destruct (reserve_slots_idx k cfg Hoff Hcap N r n wi ps r1 Hs Hwi Hw Hres)
    as (Hps & HN & _ & Hw1 & Hr1 & Hb1 & He1).
  split; [rewrite Hps, length_map, length_seq; reflexivity|].
  split; [rewrite Hps; apply slots_nodup; lia|].
  split; [exact HN|].
  split.
  { intros p Hin. rewrite Hps in Hin. apply in_map_iff in Hin.
    destruct Hin as (j & <- & _).
    pose proof (Z.mod_pos_bound (wi + Z.of_nat j) (ring_entries cfg) ltac:(lia)).
    rewrite He. nia. }
  rewrite (read_slots_idx k cfg Hoff Hcap (Z.to_nat n) r1 ri Hri)
    by (rewrite ?Hr1, ?Hb1, ?He1; assumption).
  cbn [snd]. rewrite Z2Nat.id by lia.
  rewrite (mod_wrap_back _ wi ri n Hwi Hri En).
  rewrite (read_slots_idx k cfg Hoff Hcap N _ wi Hwi)
    by (cbn [read base base_end set_read]; rewrite ?Hb1, ?He1; auto).
  cbn [base set_read]. f_equal.
  - rewrite Hps, map_map, Hb1. reflexivity.
  - rewrite Hw1, Hb1. destruct r1; reflexivity.
Qed.

Lemma ring_fifo_order_witness :
  let r1 := mk_ring 4096 4192 4096 4128 in
  let ps := [4128; 4160; 4192] in
  length ps = 3%nat /\ NoDup ps /\
  0 + Z.of_nat 3 <= ring_entries cfg4 - 1 /\
  (forall p, In p ps -> 4096 <= p <= 4192) /\
  read_slots CDR cfg4 3 (snd (read_slots CDR cfg4 (Z.to_nat 0) r1)) =
    (map Ptr ps, set_read r1 (write r1)).
Proof.
  apply (ring_fifo_order CDR cfg4 4096 [OpNextWrite; OpNextRead]
           (mk_ring 4096 4192 4128 4128) 0 3).
  - unfold ring_params_ok; simpl; lia.
  - lia.
  - reflexivity.
  - reflexivity.
Defined.

End RingOrderFacts.

Module SideTableFacts.
Import Ring RingOrder RingFacts RingOrderFacts.

(** The index of the slot [i] is [i]. *)
Lemma rdesc_index_slot cfg r i :
  0 < rd_offset cfg -> 0 <= i < 2 ^ 31 ->
  safexcel_ring_rdr_rdesc_index cfg r (base r + rd_offset cfg * i) = i.
Proof.
  intros Hoff Hi. unfold safexcel_ring_rdr_rdesc_index.
  replace (base r + rd_offset cfg * i - base r) with (i * rd_offset cfg) by lia.
  rewrite Z.quot_mul by lia. apply SelectFacts.s32_small. lia.
Qed.

Lemma first_index_slot cfg r i :
  0 < rd_offset cfg -> 0 <= i < 2 ^ 31 ->
  read r = base r + rd_offset cfg * i ->
  safexcel_ring_first_rdr_index cfg r = i.
Proof.
  intros Hoff Hi Hr.
  pose proof (rdesc_index_slot cfg r i Hoff Hi) as H.
  unfold safexcel_ring_rdr_rdesc_index in H.
  unfold safexcel_ring_first_rdr_index. rewrite Hr. exact H.
Qed.

(** A cursor on slot [i] moves to slot [(i + 1) mod cap]. *)
Lemma cursor_succ b off cap e c i :
  0 < off -> 0 <= i < cap -> c = b + off * i -> e = b + off * (cap - 1) ->
  (if c =? e then b else c + off) = b + off * ((i + 1) mod cap).
Proof.
  intros Hoff Hi -> ->. rewrite mod_succ_cases by lia.
  destruct (Z.eqb_spec (b + off * i) (b + off * (cap - 1))) as [E | E];
    destruct (Z.eqb_spec i (cap - 1)) as [Ei | Ei]; try lia;
    exfalso;
    first [ apply Ei; apply (slot_inj b off); [exact Hoff | lia]
          | apply E; subst i; lia ].
Qed.

Lemma mod_add_ne cap a d :
  0 < d < cap -> (a + d) mod cap <> a mod cap.
Proof.
  intros Hd E.
  assert (Hc : 0 < cap) by lia.
  pose proof (Z.mod_pos_bound a cap Hc) as Ha.
  rewrite <- Zplus_mod_idemp_l in E.
  destruct (Z_lt_ge_dec (a mod cap + d) cap) as [Hlt | Hge].
  - rewrite Z.mod_small in E by lia. lia.
  - replace (a mod cap + d) with ((a mod cap + d - cap) + 1 * cap) in E by lia.
    rewrite Z.mod_add, Z.mod_small in E by lia. lia.
Qed.

Section Table.
Variable request : Type.
Variable cfg : safexcel_config.
Hypothesis Hoff : 0 < rd_offset cfg.
Hypothesis Hcap : 1 <= ring_entries cfg.
Hypothesis Hint : ring_entries cfg <= 2 ^ 31.

(** The requests a row of results finds, by slot index. *)
Lemma lookup_requests_idx N : forall r ri (t : rdr_req_table request),
  0 <= ri < ring_entries cfg -> read r = base r + rd_offset cfg * ri ->
  base_end r = base r + rd_offset cfg * (ring_entries cfg - 1) ->
  lookup_requests cfg N r t =
    map (fun j => t ((ri + Z.of_nat j) mod ring_entries cfg)) (seq 0 N).
Proof.
  induction N as [|N IH]; intros r ri t Hri Hr He; [reflexivity|].
  cbn [lookup_requests seq map]. f_equal.
  - unfold safexcel_rdr_req_get.
    rewrite (first_index_slot cfg r ri Hoff ltac:(lia) Hr).
    rewrite Z.add_0_r, Z.mod_small by lia. reflexivity.
  - rewrite next_read_slot_eq. cbn [stride].
    rewrite (cursor_succ (base r) (rd_offset cfg) (ring_entries cfg)
               (base_end r) (read r) ri Hoff Hri Hr He).
    rewrite (IH _ ((ri + 1) mod ring_entries cfg) t);
      [ | apply Z.mod_pos_bound; lia | reflexivity | exact He ].
    rewrite <- seq_shift, map_map. apply map_ext. intros j.
    rewrite mod_shift by lia. do 2 f_equal. lia.
Qed.

(** What a row of recorded requests leaves in the table, by slot index. *)
Lemma record_requests_idx (qs : list request) :
  forall r n wi (t : rdr_req_table request) r1 t1,
  on_slots (rd_offset cfg) (ring_entries cfg) r n ->
  0 <= wi < ring_entries cfg -> write r = base r + rd_offset cfg * wi ->
  record_requests cfg qs r t = Some (r1, t1) ->
  n + Z.of_nat (length qs) <= ring_entries cfg - 1 /\
  read r1 = read r /\ base r1 = base r /\ base_end r1 = base_end r /\
  (forall i, (forall j, (j < length qs)%nat ->
                i <> (wi + Z.of_nat j) mod ring_entries cfg) ->
             t1 i = t i) /\
  map (fun j => t1 ((wi + Z.of_nat j) mod ring_entries cfg))
      (seq 0 (length qs)) = map Some qs.
Proof.
  induction qs as [|q qs IH]; intros r n wi t r1 t1 Hs Hwi Hw H.
  - cbn [record_requests] in H. inversion H; subst.
    pose proof (on_slots_bound RDR cfg _ _ Hs). cbn [length].
    split; [lia|]. split; [reflexivity|]. split; [reflexivity|].
    split; [reflexivity|]. split; [reflexivity|]. reflexivity.
  - cbn [record_requests] in H.
    destruct (next_write_slot_on_slots RDR cfg Hoff Hcap r n Hs)
      as [[_ E] | [Hn E]]; cbn [next_write_slot stride] in E;
      rewrite E in H; [discriminate|].
    assert (Hbe : base_end r = base r + rd_offset cfg * (ring_entries cfg - 1)).
    { destruct Hs as (? & ? & _ & _ & _ & _ & He & _). exact He. }
    pose proof (on_slots_bound RDR cfg _ _ Hs) as Hn0.
    pose proof (on_slots_write RDR cfg Hoff Hcap r n Hs Hn) as Hs'.
    cbn [stride] in Hs'.
    rewrite (cursor_succ (base r) (rd_offset cfg) (ring_entries cfg)
               (base_end r) (write r) wi Hoff Hwi Hw Hbe) in H, Hs'.
    set (r' := set_write r _) in *.
    set (t' := safexcel_rdr_req_set cfg r' t (write r) q) in *.
    assert (Hwi' : 0 <= (wi + 1) mod ring_entries cfg < ring_entries cfg)
      by (apply Z.mod_pos_bound; lia).
    destruct (IH r' (n + 1) _ t' r1 t1 Hs' Hwi' eq_refl H)
      as (Hb & Hr1 & Hb1 & He1 & Hfr & Hmap).
    assert (Ht' : forall i, t' i = if i =? wi then Some q else t i).
    { intros i. subst t'. unfold safexcel_rdr_req_set.
      replace (base r') with (base r) by reflexivity.
      rewrite Hw.
      replace (safexcel_ring_rdr_rdesc_index cfg r'
                 (base r + rd_offset cfg * wi)) with wi; [reflexivity|].
      symmetry. apply (rdesc_index_slot cfg r'). exact Hoff. lia. }
    cbn [length]. split; [lia|].
    split; [exact Hr1|]. split; [exact Hb1|]. split; [exact He1|].
    split.
    + intros i Hi. rewrite Hfr.
      * rewrite Ht'. destruct (Z.eqb_spec i wi) as [-> | _]; [|reflexivity].
        exfalso. apply (Hi 0%nat); [lia|].
        rewrite Z.add_0_r, Z.mod_small by lia. reflexivity.
      * intros j Hj. rewrite mod_shift by lia.
        replace (wi + (1 + Z.of_nat j)) with (wi + Z.of_nat (S j)) by lia.
        apply Hi. lia.
    + cbn [seq map]. f_equal.
      * rewrite Z.add_0_r, Z.mod_small by lia. rewrite Hfr.
        { rewrite Ht', Z.eqb_refl. reflexivity. }
        intros j Hj. rewrite mod_shift by lia.
        intros Ew. apply (mod_add_ne (ring_entries cfg) wi (1 + Z.of_nat j));
          [lia|]. rewrite <- Ew. symmetry. apply Z.mod_small. lia.
      * rewrite <- Hmap, <- seq_shift, map_map. apply map_ext. intros j.
        rewrite mod_shift by lia. do 2 f_equal. lia.
Qed.

End Table.

(** X2.  Slot indices of the result ring.  On any result ring reached by
    reservations, rollbacks and reads, of at most 2^31 entries, with [n]
    slots pending: [safexcel_ring_first_rdr_index] is the index [i] of the
    slot under the read cursor, inside the array bounds; after one read it
    is [(i + 1) mod ring_entries]; and the slot a reservation hands out has
    [safexcel_ring_rdr_rdesc_index] [(i + n) mod ring_entries], again
    inside the bounds, and is the slot at that index. *)
Theorem rdr_slot_index_bounds cfg b ops r n :
  ring_params_ok RDR cfg -> b <> 0 -> ring_entries cfg <= 2 ^ 31 ->
  ring_run RDR cfg ops (fresh_ring RDR cfg b, 0) = Some (r, n) ->
  let i := safexcel_ring_first_rdr_index cfg r in
  0 <= i < ring_entries cfg /\
  read r = base r + rd_offset cfg * i /\
  safexcel_ring_first_rdr_index cfg (next_read_slot RDR cfg r) =
    (i + 1) mod ring_entries cfg /\
  (forall p r', next_write_slot RDR cfg r = (Ptr p, r') ->
     let j := safexcel_ring_rdr_rdesc_index cfg r' p in
     0 <= j < ring_entries cfg /\ p = base r + rd_offset cfg * j /\
     j = (i + n) mod ring_entries cfg).
Proof.
  intros Hp Hb Hint Hrun.
  pose proof (fresh_ring_on_slots RDR cfg b Hp Hb) as H0.
  destruct Hp as (Hoff & Hcap & _).
  pose proof (ring_run_on_slots RDR cfg Hoff Hcap ops _ _ _ _ H0 Hrun) as H.
  cbn [stride] in Hoff, H.
  destruct H as (wi & ri & Hwi & Hri & Hw & Hr & He & En).
  cbn zeta. rewrite (first_index_slot cfg r ri Hoff ltac:(lia) Hr).
  split; [exact Hri|]. split; [exact Hr|]. split.
  - rewrite next_read_slot_eq. cbn [stride].
    rewrite (cursor_succ (base r) (rd_offset cfg) (ring_entries cfg)
               (base_end r) (read r) ri Hoff Hri Hr He).
    apply first_index_slot.
    + exact Hoff.
    + pose proof (Z.mod_pos_bound (ri + 1) (ring_entries cfg)). lia.
    + reflexivity.
  - intros p r' Ep. rewrite next_write_slot_eq in Ep.
    destruct (_ || _) in Ep; [discriminate|]. inversion Ep; subst p r'.
    assert (Hidx : forall q, base q = base r ->
              safexcel_ring_rdr_rdesc_index cfg q (write r) = wi).
    { intros q Hq. rewrite Hw, <- Hq. apply rdesc_index_slot; [exact Hoff | lia]. }
    rewrite Hidx by reflexivity.
    split; [exact Hwi|]. split; [exact Hw|].
    symmetry. apply (mod_wrap_back _ wi ri n Hwi Hri En).
Qed.

Lemma rdr_slot_index_bounds_witness :
  let r := mk_ring 8192 8384 8256 8384 in
  let i := safexcel_ring_first_rdr_index cfg4 r in
  0 <= i < ring_entries cfg4 /\
  read r = base r + rd_offset cfg4 * i /\
  safexcel_ring_first_rdr_index cfg4 (next_read_slot RDR cfg4 r) =
    (i + 1) mod ring_entries cfg4 /\
  (forall p r', next_write_slot RDR cfg4 r = (Ptr p, r') ->
     let j := safexcel_ring_rdr_rdesc_index cfg4 r' p in
     0 <= j < ring_entries cfg4 /\ p = base r + rd_offset cfg4 * j /\
     j = (i + 2) mod ring_entries cfg4).
Proof.
  intros r.
  apply (rdr_slot_index_bounds cfg4 8192
           [OpNextWrite; OpNextWrite; OpNextWrite; OpNextRead; OpNextRead;
            OpNextRead; OpNextWrite; OpNextWrite] r 2).
  - unfold ring_params_ok; simpl; lia.
  - lia.
  - simpl; lia.
  - reflexivity.
Defined.

(** X3.  Recording and looking up requests.  On any result ring reached by
    reservations, rollbacks and reads, of at most 2^31 entries, with [n]
    results pending: when a result slot is reserved for each request of
    [qs] and the request recorded for it with [safexcel_rdr_req_set], the
    entries of the [n] pending results are left as they were, and once
    those [n] results are consumed [safexcel_rdr_req_get] returns the
    requests of [qs], one per result, in the order they were recorded. *)
Theorem rdr_req_set_get_round_trip (request : Type) cfg b ops r n
    (qs : list request) (t : RingOrder.rdr_req_table request) r1 t1 :
  ring_params_ok RDR cfg -> b <> 0 -> ring_entries cfg <= 2 ^ 31 ->
  ring_run RDR cfg ops (fresh_ring RDR cfg b, 0) = Some (r, n) ->
  record_requests cfg qs r t = Some (r1, t1) ->
  n + Z.of_nat (length qs) <= ring_entries cfg - 1 /\
  lookup_requests cfg (Z.to_nat n) r1 t1 =
    lookup_requests cfg (Z.to_nat n) r t /\
  lookup_requests cfg (length qs)
    (snd (read_slots RDR cfg (Z.to_nat n) r1)) t1 = map Some qs.
Proof.
  intros Hp Hb Hint Hrun Hrec.
  pose proof (fresh_ring_on_slots RDR cfg b Hp Hb) as H0.
  destruct Hp as (Hoff & Hcap & _).
  pose proof (ring_run_on_slots RDR cfg Hoff Hcap ops _ _ _ _ H0 Hrun) as H.
  cbn [stride] in Hoff, H.
  pose proof (on_slots_bound RDR cfg _ _ H) as Hn.
  destruct H as (wi & ri & Hwi & Hri & Hw & Hr & He & En).
  assert (Hs : on_slots (rd_offset cfg) (ring_entries cfg) r n)
    by (exists wi, ri; repeat split; assumption || lia).
  destruct (record_requests_idx request cfg Hoff Hcap Hint qs r n wi t r1 t1
              Hs Hwi Hw Hrec) as (HN & Hr1 & Hb1 & He1 & Hfr & Hmap).
  pose proof (mod_wrap_back _ wi ri n Hwi Hri En) as Hwrap.
  split; [exact HN|]. split.
  - rewrite (lookup_requests_idx request cfg Hoff Hcap Hint _ r1 ri t1 Hri)
      by (rewrite ?Hr1, ?Hb1, ?He1; assumption).
    rewrite (lookup_requests_idx request cfg Hoff Hcap Hint _ r ri t Hri Hr He).
    apply map_ext_in. intros j Hj. apply in_seq in Hj. apply Hfr.
    intros j' Hj'. rewrite <- Hwrap, Zplus_mod_idemp_l.
    replace (ri + n + Z.of_nat j')
      with (ri + Z.of_nat j + (n - Z.of_nat j + Z.of_nat j')) by lia.
    intros Ej. symmetry in Ej. revert Ej. apply mod_add_ne. lia.
  - rewrite (read_slots_idx RDR cfg Hoff Hcap (Z.to_nat n) r1 ri Hri)
      by (rewrite ?Hr1, ?Hb1, ?He1; assumption).
    cbn [snd stride]. rewrite Z2Nat.id by lia. rewrite Hwrap.
    rewrite (lookup_requests_idx request cfg Hoff Hcap Hint _ _ wi t1 Hwi)
      by (cbn [read base base_end set_read]; rewrite ?Hb1, ?He1; auto).
    exact Hmap.
Qed.

Lemma rdr_req_set_get_round_trip_witness :
  let r := mk_ring 8192 8384 8256 8192 in
  let t : RingOrder.rdr_req_table nat :=
    fun i => if i =? 0 then Some 7%nat else None in
  match record_requests cfg4 [8%nat; 9%nat] r t with
  | Some (r1, t1) =>
      1 + Z.of_nat 2 <= ring_entries cfg4 - 1 /\
      lookup_requests cfg4 (Z.to_nat 1) r1 t1 =
        lookup_requests cfg4 (Z.to_nat 1) r t /\
      lookup_requests cfg4 2 (snd (read_slots RDR cfg4 (Z.to_nat 1) r1)) t1 =
        [Some 8%nat; Some 9%nat]
  | None => False
  end.
Proof.
  cbv zeta.
  destruct (record_requests cfg4 [8%nat; 9%nat] (mk_ring 8192 8384 8256 8192)
              (fun i => if i =? 0 then Some 7%nat else None))
    as [[r1 t1]|] eqn:E; [|discriminate E].
  apply (rdr_req_set_get_round_trip nat cfg4 8192 [OpNextWrite]
           (mk_ring 8192 8384 8256 8192) 1 [8%nat; 9%nat] _ r1 t1).
  - unfold ring_params_ok; simpl; lia.
  - lia.
  - simpl; lia.
  - reflexivity.
  - exact E.
Defined.

End SideTableFacts.

Module DescFacts.
Import Ring RingOrder Hash Desc RingFacts.

Lemma store32_same m a v : store32 m a v a = u32 v.
Proof. unfold store32. rewrite Z.eqb_refl. reflexivity. Qed.

Lemma store32_other m a v x : x <> a -> store32 m a v x = m x.
Proof.
  intros H. unfold store32. destruct (Z.eqb_spec x a); [contradiction | reflexivity].
Qed.

Lemma store_bits_other m a lo w v x : x <> a -> store_bits m a lo w v x = m x.
Proof. intros H. unfold store_bits. apply store32_other. exact H. Qed.

(** The bits of a word after a store to one of its fields. *)
Lemma store_bits_testbit m a lo w v i :
  0 <= lo -> 0 <= w -> 0 <= i < 32 ->
  Z.testbit (store_bits m a lo w v a) i =
    if (lo <=? i) && (i <? lo + w) then Z.testbit v (i - lo)
    else Z.testbit (m a) i.
Proof.
  intros Hlo Hw Hi. unfold store_bits. rewrite store32_same. unfold u32.
  rewrite Z.mod_pow2_bits_low by lia.
  rewrite Z.lor_spec, Z.ldiff_spec, !Z.shiftl_spec by lia.
  rewrite Z.land_spec.
  destruct (Z.leb_spec lo i) as [H1 | H1]; cbn [andb].
  - rewrite !Z.testbit_ones_nonneg by lia.
    destruct (Z.ltb_spec i (lo + w)) as [H2 | H2].
    + replace (i - lo <? w) with true by (symmetry; apply Z.ltb_lt; lia).
      rewrite andb_true_r. cbn [negb]. rewrite andb_false_r. reflexivity.
    + replace (i - lo <? w) with false by (symmetry; apply Z.ltb_ge; lia).
      rewrite andb_false_r, orb_false_r. cbn [negb]. apply andb_true_r.
  - rewrite !(Z.testbit_neg_r _ (i - lo)) by lia.
    cbn [negb andb]. rewrite andb_true_r, orb_false_r. reflexivity.
Qed.

Lemma store_bits_range m a lo w v : 0 <= store_bits m a lo w v a < 2 ^ 32.
Proof.
  unfold store_bits. rewrite store32_same. unfold u32.
  apply Z.mod_pos_bound. lia.
Qed.

Lemma load_bits_testbit m a lo w i :
  0 <= lo -> 0 <= w -> 0 <= i ->
  Z.testbit (load_bits m a lo w) i = (i <? w) && Z.testbit (m a) (i + lo).
Proof.
  intros Hlo Hw Hi. unfold load_bits.
  rewrite Z.land_spec, Z.shiftr_spec, Z.testbit_ones_nonneg by lia.
  apply andb_comm.
Qed.

(** A field reads back what was stored, cut to the field's width. *)
Lemma load_store_bits m a lo w v :
  0 <= lo -> 0 <= w -> lo + w <= 32 ->
  load_bits (store_bits m a lo w v) a lo w = v mod 2 ^ w.
Proof.
  intros Hlo Hw Hle. rewrite <- Z.land_ones by lia.
  apply Z.bits_inj'. intros i Hi.
  rewrite load_bits_testbit by lia.
  rewrite Z.land_spec, Z.testbit_ones_nonneg by lia.
  destruct (Z.ltb_spec i w) as [H | H]; cbn [andb].
  - rewrite store_bits_testbit by lia.
    replace ((lo <=? i + lo) && (i + lo <? lo + w)) with true
      by (symmetry; apply andb_true_iff; split;
          [apply Z.leb_le | apply Z.ltb_lt]; lia).
    replace (i + lo - lo) with i by lia. symmetry. apply andb_true_r.
  - symmetry. apply andb_false_r.
Qed.

(** A store to a field leaves the other fields of the word alone. *)
Lemma load_store_bits_disjoint m a lo w v lo' w' :
  0 <= lo -> 0 <= w -> 0 <= lo' -> 0 <= w' -> lo' + w' <= 32 ->
  lo + w <= lo' \/ lo' + w' <= lo ->
  load_bits (store_bits m a lo w v) a lo' w' = load_bits m a lo' w'.
Proof.
  intros Hlo Hw Hlo' Hw' Hle Hd.
  apply Z.bits_inj'. intros i Hi.
  rewrite !load_bits_testbit by lia.
  destruct (Z.ltb_spec i w') as [H | H]; cbn [andb]; [|reflexivity].
  rewrite store_bits_testbit by lia.
  replace ((lo <=? i + lo') && (i + lo' <? lo + w)) with false; [reflexivity|].
  symmetry. apply andb_false_iff.
  destruct Hd; [right; apply Z.ltb_ge | left; apply Z.leb_gt]; lia.
Qed.

Lemma load_bits_other m a lo w v x lo' w' :
  x <> a -> load_bits (store_bits m a lo w v) x lo' w' = load_bits m x lo' w'.
Proof.
  intros H. unfold load_bits. rewrite store_bits_other by exact H. reflexivity.
Qed.

Lemma load_bits_store32_other m a v x lo w :
  x <> a -> load_bits (store32 m a v) x lo w = load_bits m x lo w.
Proof.
  intros H. unfold load_bits. rewrite store32_other by exact H. reflexivity.
Qed.

Lemma load_bits_zero m a lo w : m a = 0 -> load_bits m a lo w = 0.
Proof. intros H. unfold load_bits. rewrite H, Z.shiftr_0_l. reflexivity. Qed.

(** [memset0] clears the words of the range and nothing else. *)
Lemma memset0_out n : forall m p x,
  x < p \/ p + 4 * Z.of_nat n <= x -> memset0 m p n x = m x.
Proof.
  induction n as [|n IH]; intros m p x H; [reflexivity|].
  cbn [memset0]. rewrite IH by lia. apply store32_other. lia.
Qed.

Lemma memset0_in n : forall m p k,
  (k < n)%nat -> memset0 m p n (p + 4 * Z.of_nat k) = 0.
Proof.
  induction n as [|n IH]; intros m p k H; [lia|].
  cbn [memset0]. destruct k as [|k].
  - rewrite memset0_out by lia.
    replace (p + 4 * Z.of_nat 0) with p by lia. apply store32_same.
  - replace (p + 4 * Z.of_nat (S k)) with (p + 4 + 4 * Z.of_nat k) by lia.
    apply IH. lia.
Qed.

Lemma b2z_testbit b : Z.testbit (b2z b) 0 = b.
Proof. destruct b; reflexivity. Qed.

Lemma upper_lower_32 n :
  0 <= n < 2 ^ 64 -> lower_32_bits n + 2 ^ 32 * upper_32_bits n = n.
Proof.
  intros H. unfold lower_32_bits, upper_32_bits, u32.
  rewrite Z.shiftr_shiftr, Z.shiftr_div_pow2 by lia.
  change (16 + 16) with 32.
  rewrite (Z.mod_small (n / 2 ^ 32)).
  - pose proof (Z.div_mod n (2 ^ 32) ltac:(lia)). lia.
  - split; [apply Z.div_pos; lia | apply Z.div_lt_upper_bound; lia].
Qed.

Lemma store_bits_testbit_in m a lo w v i :
  0 <= lo -> 0 <= i < 32 -> lo <= i < lo + w ->
  Z.testbit (store_bits m a lo w v a) i = Z.testbit v (i - lo).
Proof.
  intros Hlo Hi Hin. rewrite store_bits_testbit by lia.
  replace ((lo <=? i) && (i <? lo + w)) with true; [reflexivity|].
  symmetry. apply andb_true_iff. split; [apply Z.leb_le | apply Z.ltb_lt]; lia.
Qed.

Lemma store_bits_testbit_out m a lo w v i :
  0 <= lo -> 0 <= w -> 0 <= i < 32 -> i < lo \/ lo + w <= i ->
  Z.testbit (store_bits m a lo w v a) i = Z.testbit (m a) i.
Proof.
  intros Hlo Hw Hi Hout. rewrite store_bits_testbit by lia.
  replace ((lo <=? i) && (i <? lo + w)) with false; [reflexivity|].
  symmetry. apply andb_false_iff.
  destruct Hout; [left; apply Z.leb_gt | right; apply Z.ltb_ge]; lia.
Qed.

Lemma u32_idem x : u32 (u32 x) = u32 x.
Proof. unfold u32. apply Z.mod_mod. lia. Qed.

(** The bit fields and words of the first four words of a descriptor,
    common to both kinds, after the stores of the two writers. *)
Section Head.
Variables (m : mem) (p : Z) (words : nat) (first last : bool) (data len : Z).
Let m1 : mem :=
  store32
    (store32
       (store_bits
          (store_bits (store_bits (memset0 m p words) p 23 1 (b2z first))
             p 22 1 (b2z last)) p 0 17 len)
       (p + data_lo_ofs) (lower_32_bits data))
    (p + data_hi_ofs) (upper_32_bits data).

Lemma head_word0 :
  m1 p = store_bits
           (store_bits (store_bits (memset0 m p words) p 23 1 (b2z first))
              p 22 1 (b2z last)) p 0 17 len p.
Proof.
  unfold m1, data_lo_ofs, data_hi_ofs. rewrite !store32_other by lia.
  reflexivity.
Qed.

Lemma head_last_seg : Z.testbit (m1 p) 22 = last.
Proof.
  rewrite head_word0.
  rewrite store_bits_testbit_out by lia.
  rewrite store_bits_testbit_in by lia. apply b2z_testbit.
Qed.

Lemma head_first_seg : Z.testbit (m1 p) 23 = first.
Proof.
  rewrite head_word0.
  rewrite !store_bits_testbit_out by lia.
  rewrite store_bits_testbit_in by lia. apply b2z_testbit.
Qed.

Lemma head_particle_size : load_bits m1 p 0 17 = len mod 2 ^ 17.
Proof.
  unfold load_bits. rewrite head_word0.
  apply (load_store_bits _ p 0 17 len); lia.
Qed.

Lemma head_reserved lo w :
  (4 <= words)%nat ->
  (lo = 17 /\ w = 5) \/ (lo = 24 /\ w = 8) -> load_bits m1 p lo w = 0.
Proof.
  intros Hwords H. unfold load_bits. rewrite head_word0.
  fold (load_bits (store_bits
          (store_bits (store_bits (memset0 m p words) p 23 1 (b2z first))
             p 22 1 (b2z last)) p 0 17 len) p lo w).
  rewrite !load_store_bits_disjoint by lia.
  apply load_bits_zero.
  replace p with (p + 4 * Z.of_nat 0) at 2 by lia. apply memset0_in. lia.
Qed.

Lemma head_rsvd1 : (4 <= words)%nat -> m1 (p + 4) = 0.
Proof.
  intros Hwords.
  unfold m1, data_lo_ofs, data_hi_ofs. rewrite !store32_other by lia.
  rewrite !store_bits_other by lia.
  apply (memset0_in words m p 1). lia.
Qed.

Lemma head_data : 0 <= data < 2 ^ 64 -> desc_data m1 p = data.
Proof.
  intros H. unfold desc_data, m1.
  rewrite store32_same.
  rewrite store32_other by (unfold data_lo_ofs, data_hi_ofs; lia).
  rewrite store32_same.
  unfold lower_32_bits at 1. unfold upper_32_bits at 1. rewrite !u32_idem.
  apply upper_lower_32. exact H.
Qed.

Lemma head_frame a :
  (4 <= words)%nat ->
  a < p \/ p + 4 * Z.of_nat words <= a -> m1 a = m a.
Proof.
  intros Hwords H. unfold m1, data_lo_ofs, data_hi_ofs.
  rewrite !store32_other by lia. rewrite !store_bits_other by lia.
  apply memset0_out. exact H.
Qed.

(** The words after the fourth are as [memset] left them. *)
Lemma head_rest k :
  (4 <= k < words)%nat -> m1 (p + 4 * Z.of_nat k) = 0.
Proof.
  intros H. unfold m1, data_lo_ofs, data_hi_ofs.
  rewrite !store32_other by lia. rewrite !store_bits_other by lia.
  apply memset0_in. lia.
Qed.

End Head.

(** X4.  [safexcel_add_rdesc].  When the result ring is full the call
    returns [-ENOMEM] and changes neither ring nor memory.  Otherwise it
    returns the slot under the write cursor and advances that cursor by one
    slot; the descriptor then reads back the arguments: [last_seg] and
    [first_seg] are the two flags, [particle_size] is [len] cut to 17 bits,
    the data address is [data], and the reserved bits, the overflow flags,
    [result_size] and the second word are zero; no word outside the 16
    bytes of the descriptor changes (so not the slot's ownership word
    behind it), and the command ring is never touched. *)
Theorem add_rdesc_round_trip cfg first last data len h :
  let '(res, h') := safexcel_add_rdesc cfg first last data len h in
  cdr h' = cdr h /\
  match res with
  | ERR_PTR e => e = - ENOMEM /\ h' = h
  | Ptr p =>
      p = write (rdr h) /\
      next_write_slot RDR cfg (rdr h) = (Ptr p, rdr h') /\
      rdesc_last_seg (dmem h') p = last /\
      desc_first_seg (dmem h') p = first /\
      desc_particle_size (dmem h') p = len mod 2 ^ 17 /\
      load_bits (dmem h') p 17 5 = 0 /\
      load_bits (dmem h') p 24 8 = 0 /\
      dmem h' (p + 4) = 0 /\
      (0 <= data < 2 ^ 64 -> desc_data (dmem h') p = data) /\
      (forall a, a < p \/ p + 16 <= a -> dmem h' a = dmem h a)
  end.
Proof.
  unfold safexcel_add_rdesc.
  change (safexcel_rdr_next_wptr cfg (rdr h))
    with (next_write_slot RDR cfg (rdr h)).
  rewrite next_write_slot_eq.
  destruct (_ || _).
  - split; [reflexivity|]. split; [reflexivity|]. destruct h; reflexivity.
  - cbn [cdr rdr dmem].
    assert (Hw : (4 <= EIP197_RD64_FETCH_SIZE)%nat)
      by (unfold EIP197_RD64_FETCH_SIZE; lia).
    split; [reflexivity|]. split; [reflexivity|]. split; [reflexivity|].
    split; [apply head_last_seg|].
    split; [apply head_first_seg|].
    split; [apply head_particle_size|].
    split; [apply head_reserved; [exact Hw | lia]|].
    split; [apply head_reserved; [exact Hw | lia]|].
    split; [apply head_rsvd1; exact Hw|].
    split; [intros Hd; apply head_data; exact Hd|].
    intros a Ha. apply head_frame; [exact Hw|].
    unfold EIP197_RD64_FETCH_SIZE. lia.
Qed.

Lemma noop_token_other m t x : x <> t -> eip197_noop_token m t x = m x.
Proof.
  intros H. unfold eip197_noop_token. rewrite !store_bits_other by exact H.
  reflexivity.
Qed.

(** A no-op token written over a cleared word: opcode 2 in the top four
    bits, length 4 in the low seventeen. *)
Lemma noop_token_same m t : m t = 0 -> eip197_noop_token m t t = 0x20000004.
Proof.
  intros H. unfold eip197_noop_token, store_bits at 1.
  rewrite store32_same. unfold store_bits. rewrite store32_same, H.
  reflexivity.
Qed.

Lemma noop_tokens_out n : forall m t x,
  x < t \/ t + 4 * Z.of_nat n <= x -> noop_tokens m t n x = m x.
Proof.
  induction n as [|n IH]; intros m t x H; [reflexivity|].
  cbn [noop_tokens]. rewrite IH by lia. apply noop_token_other. lia.
Qed.

Lemma noop_tokens_in n : forall m t k,
  (k < n)%nat -> m (t + 4 * Z.of_nat k) = 0 ->
  noop_tokens m t n (t + 4 * Z.of_nat k) = 0x20000004.
Proof.
  induction n as [|n IH]; intros m t k H Hz; [lia|].
  cbn [noop_tokens]. destruct k as [|k].
  - rewrite noop_tokens_out by lia.
    replace (t + 4 * Z.of_nat 0) with t in * by lia.
    apply noop_token_same. exact Hz.
  - replace (t + 4 * Z.of_nat (S k)) with (t + 4 + 4 * Z.of_nat k) in * by lia.
    apply IH; [lia|]. rewrite noop_token_other by lia. exact Hz.
Qed.

(** The 30-bit field [context_lo] receives the low word of the address
    without its two low bits. *)
Lemma context_lo_value c :
  Z.shiftr (Z.land (lower_32_bits c) (GENMASK 31 2)) 2 = lower_32_bits c / 4.
Proof.
  change 4 with (2 ^ 2). rewrite <- Z.shiftr_div_pow2 by lia.
  apply Z.bits_inj'. intros i Hi.
  rewrite !Z.shiftr_spec, Z.land_spec by lia.
  unfold GENMASK. rewrite Z.shiftl_spec by lia.
  replace (i + 2 - 2) with i by lia.
  rewrite Z.testbit_ones_nonneg by lia.
  destruct (Z.ltb_spec i (31 - 2 + 1)) as [H | H]; [apply andb_true_r|].
  rewrite andb_false_r. unfold lower_32_bits, u32.
  rewrite Z.mod_pow2_bits_high by lia. reflexivity.
Qed.

Lemma context_split c :
  0 <= c < 2 ^ 64 ->
  4 * ((lower_32_bits c / 4) mod 2 ^ 30) + 2 ^ 32 * u32 (upper_32_bits c)
  = c - c mod 4.
Proof.
  intros H.
  assert (Hu : u32 (upper_32_bits c) = upper_32_bits c)
    by (unfold upper_32_bits; apply u32_idem).
  rewrite Hu.
  pose proof (upper_lower_32 c H) as E.
  assert (Hl : 0 <= lower_32_bits c < 2 ^ 32)
    by (unfold lower_32_bits, u32; apply Z.mod_pos_bound; lia).
  rewrite (Z.mod_small (lower_32_bits c / 4)).
  - assert (Hm : c mod 4 = lower_32_bits c mod 4).
    { unfold lower_32_bits, u32.
      replace (c mod 2 ^ 32) with (c + (- (2 ^ 30 * (c / 2 ^ 32))) * 4)
        by (pose proof (Z.div_mod c (2 ^ 32) ltac:(lia)); lia).
      rewrite Z.mod_add by lia. reflexivity. }
    rewrite Hm.
    pose proof (Z.div_mod (lower_32_bits c) 4 ltac:(lia)). lia.
  - split; [apply Z.div_pos; lia | apply Z.div_lt_upper_bound; lia].
Qed.

Ltac offsets :=
  unfold control_data_ofs, context_ofs, context_hi_ofs, control0_ofs,
    control1_ofs, token_ofs, data_lo_ofs, data_hi_ofs in *.

Ltac mem_other :=
  repeat first [ rewrite store32_other by lia
               | rewrite store_bits_other by lia
               | rewrite noop_tokens_out by lia ].

(** The control data of a command descriptor after the stores that
    [safexcel_add_cdesc] makes for a first segment with a context. *)
Section Control.
Variables (m : mem) (p full ctx : Z).

Let m2 : mem :=
  noop_tokens
    (store_bits
       (store32
          (store_bits
             (store_bits
                (store_bits m (p + control_data_ofs) 0 17 full)
                (p + control_data_ofs) 17 13
                (Z.lor (Z.lor EIP197_OPTION_MAGIC_VALUE EIP197_OPTION_64BIT_CTX)
                   EIP197_OPTION_CTX_CTRL_IN_CMD))
             (p + context_ofs) 2 30
             (Z.shiftr (Z.land (lower_32_bits ctx) (GENMASK 31 2)) 2))
          (p + context_hi_ofs) (upper_32_bits ctx))
       (p + context_ofs) 0 2 EIP197_PTRTYPE_XFORM_SMALL)
    (p + token_ofs) EIP197_MAX_TOKENS.

Lemma control_frame a :
  a < p + 16 \/ p + 72 <= a \/ a = p + 20 \/ a = p + 32 \/ a = p + 36 ->
  m2 a = m a.
Proof.
  intros H. unfold m2, EIP197_MAX_TOKENS. offsets. mem_other. reflexivity.
Qed.

Lemma control_packet_length :
  cdesc_packet_length m2 p = full mod 2 ^ 17.
Proof.
  unfold cdesc_packet_length, load_bits, m2, EIP197_MAX_TOKENS. offsets.
  rewrite noop_tokens_out by lia. rewrite store_bits_other by lia.
  rewrite store32_other by lia. rewrite store_bits_other by lia.
  fold (load_bits
          (store_bits (store_bits m (p + 16) 0 17 full) (p + 16) 17 13
             (Z.lor (Z.lor EIP197_OPTION_MAGIC_VALUE EIP197_OPTION_64BIT_CTX)
                EIP197_OPTION_CTX_CTRL_IN_CMD)) (p + 16) 0 17).
  rewrite load_store_bits_disjoint by lia.
  apply load_store_bits; lia.
Qed.

Lemma control_options : cdesc_options m2 p = 0x103.
Proof.
  unfold cdesc_options, load_bits, m2, EIP197_MAX_TOKENS. offsets.
  rewrite noop_tokens_out by lia. rewrite store_bits_other by lia.
  rewrite store32_other by lia. rewrite store_bits_other by lia.
  fold (load_bits
          (store_bits (store_bits m (p + 16) 0 17 full) (p + 16) 17 13
             (Z.lor (Z.lor EIP197_OPTION_MAGIC_VALUE EIP197_OPTION_64BIT_CTX)
                EIP197_OPTION_CTX_CTRL_IN_CMD)) (p + 16) 17 13).
  rewrite load_store_bits by lia. reflexivity.
Qed.

Lemma control_type :
  cdesc_type m2 p = load_bits m (p + control_data_ofs) 30 2.
Proof.
  unfold cdesc_type, load_bits, m2, EIP197_MAX_TOKENS. offsets.
  rewrite noop_tokens_out by lia. rewrite store_bits_other by lia.
  rewrite store32_other by lia. rewrite store_bits_other by lia.
  fold (load_bits
          (store_bits (store_bits m (p + 16) 0 17 full) (p + 16) 17 13
             (Z.lor (Z.lor EIP197_OPTION_MAGIC_VALUE EIP197_OPTION_64BIT_CTX)
                EIP197_OPTION_CTX_CTRL_IN_CMD)) (p + 16) 30 2).
  rewrite !load_store_bits_disjoint by lia. reflexivity.
Qed.

Lemma control_ptrtype : cdesc_ptrtype m2 p = EIP197_PTRTYPE_XFORM_SMALL.
Proof.
  unfold cdesc_ptrtype, load_bits, m2, EIP197_MAX_TOKENS. offsets.
  rewrite noop_tokens_out by lia.
  match goal with
  | |- Z.land (Z.shiftr (store_bits ?m0 ?a ?lo ?w ?v ?a) _) _ = _ =>
      fold (load_bits (store_bits m0 a lo w v) a lo w)
  end.
  rewrite load_store_bits by lia. reflexivity.
Qed.

Lemma control_context :
  0 <= ctx < 2 ^ 64 -> cdesc_context m2 p = ctx - ctx mod 4.
Proof.
  intros H. unfold cdesc_context, m2, EIP197_MAX_TOKENS. offsets.
  rewrite (noop_tokens_out _ _ _ (p + 28)) by lia.
  rewrite (store_bits_other _ _ _ _ _ (p + 28)) by lia.
  rewrite store32_same.
  unfold load_bits. rewrite noop_tokens_out by lia.
  match goal with
  | |- context [Z.land (Z.shiftr (store_bits ?m0 ?a ?lo ?w ?v ?a) 2) ?o] =>
      change (Z.land (Z.shiftr (store_bits m0 a lo w v a) 2) o)
        with (load_bits (store_bits m0 a lo w v) a 2 30)
  end.
  rewrite load_store_bits_disjoint by lia.
  rewrite load_bits_store32_other by lia.
  rewrite load_store_bits by lia.
  rewrite context_lo_value. apply context_split. exact H.
Qed.

Lemma control_tokens k :
  (k < EIP197_MAX_TOKENS)%nat -> m (p + token_ofs + 4 * Z.of_nat k) = 0 ->
  m2 (p + token_ofs + 4 * Z.of_nat k) = 0x20000004.
Proof.
  intros Hk Hz. unfold m2. apply noop_tokens_in; [exact Hk|].
  unfold EIP197_MAX_TOKENS in Hk. offsets. mem_other. exact Hz.
Qed.

End Control.

(** X5.  [safexcel_add_cdesc].  When the command ring is full the call
    returns [-ENOMEM] and changes neither ring nor memory.  Otherwise it
    returns the slot under the write cursor and advances that cursor by one
    slot; the descriptor reads back [last], [first], [data_len] cut to 17
    bits and [data], with [control0] and [control1] cleared.  For a first
    segment with a context the control data carries [full_data_len] cut to
    17 bits, the options 0x103, the small-transform pointer type, the
    context address without its two low bits, and eight no-op tokens;
    otherwise the control data is all zero.  No word outside the 72 bytes
    of the descriptor changes, and the result ring is never touched. *)
Theorem add_cdesc_round_trip cfg first last data data_len full_data_len
    context h :
  let '(res, h') :=
    safexcel_add_cdesc cfg first last data data_len full_data_len context h in
  rdr h' = rdr h /\
  match res with
  | ERR_PTR e => e = - ENOMEM /\ h' = h
  | Ptr p =>
      p = write (cdr h) /\
      next_write_slot CDR cfg (cdr h) = (Ptr p, cdr h') /\
      Engine.cdesc_last_seg (dmem h') p = last /\
      desc_first_seg (dmem h') p = first /\
      desc_particle_size (dmem h') p = data_len mod 2 ^ 17 /\
      (0 <= data < 2 ^ 64 -> desc_data (dmem h') p = data) /\
      dmem h' (p + control0_ofs) = 0 /\
      dmem h' (p + control1_ofs) = 0 /\
      (if first && negb (context =? 0)
       then cdesc_packet_length (dmem h') p = full_data_len mod 2 ^ 17 /\
            cdesc_options (dmem h') p = 0x103 /\
            cdesc_type (dmem h') p = 0 /\
            cdesc_ptrtype (dmem h') p = EIP197_PTRTYPE_XFORM_SMALL /\
            (0 <= context < 2 ^ 64 ->
             cdesc_context (dmem h') p = context - context mod 4) /\
            (forall k, (k < EIP197_MAX_TOKENS)%nat ->
               dmem h' (p + token_ofs + 4 * Z.of_nat k) = 0x20000004)
       else forall k, (4 <= k < EIP197_CD64_FETCH_SIZE)%nat ->
              dmem h' (p + 4 * Z.of_nat k) = 0) /\
      (forall a, a < p \/ p + 72 <= a -> dmem h' a = dmem h a)
  end.
Proof.
  unfold safexcel_add_cdesc.
  change (safexcel_cdr_next_wptr cfg (cdr h))
    with (next_write_slot CDR cfg (cdr h)).
  rewrite next_write_slot_eq.
  destruct (_ || _).
  - split; [reflexivity|]. split; [reflexivity|]. destruct h; reflexivity.
  - cbn [cdr rdr dmem].
    set (p := write (cdr h)).
    assert (Hw : (4 <= EIP197_CD64_FETCH_SIZE)%nat)
      by (unfold EIP197_CD64_FETCH_SIZE; lia).
    pose proof (head_last_seg (dmem h) p EIP197_CD64_FETCH_SIZE first last
                  data data_len) as H22.
    pose proof (head_first_seg (dmem h) p EIP197_CD64_FETCH_SIZE first last
                  data data_len) as H23.
    pose proof (head_particle_size (dmem h) p EIP197_CD64_FETCH_SIZE first
                  last data data_len) as Hps.
    pose proof (head_data (dmem h) p EIP197_CD64_FETCH_SIZE first last
                  data data_len) as Hda.
    pose proof (head_frame (dmem h) p EIP197_CD64_FETCH_SIZE first last
                  data data_len) as Hfr.
    pose proof (head_rest (dmem h) p EIP197_CD64_FETCH_SIZE first last
                  data data_len) as Hre.
    match goal with
    | |- context [if first && negb (context =? 0) then _ else ?x] =>
        set (m1 := x) in *
    end.
    assert (H32 : m1 (p + control0_ofs) = 0).
    { replace (p + control0_ofs) with (p + 4 * Z.of_nat 8)
        by (unfold control0_ofs; lia).
      apply Hre. unfold EIP197_CD64_FETCH_SIZE. lia. }
    assert (H36 : m1 (p + control1_ofs) = 0).
    { replace (p + control1_ofs) with (p + 4 * Z.of_nat 9)
        by (unfold control1_ofs; lia).
      apply Hre. unfold EIP197_CD64_FETCH_SIZE. lia. }
    split; [reflexivity|]. split; [reflexivity|]. split; [reflexivity|].
    destruct (first && negb (context =? 0)).
    + unfold Engine.cdesc_last_seg, desc_first_seg, desc_particle_size,
        desc_data, load_bits at 1.
      rewrite !(control_frame m1 p full_data_len context)
        by (offsets; lia).
      split; [exact H22|]. split; [exact H23|]. split; [exact Hps|].
      split; [exact Hda|]. split; [exact H32|]. split; [exact H36|].
      split.
      * split; [apply control_packet_length|].
        split; [apply control_options|].
        split.
        { rewrite control_type. apply load_bits_zero.
          replace (p + control_data_ofs) with (p + 4 * Z.of_nat 4)
            by (unfold control_data_ofs; lia).
          apply Hre. unfold EIP197_CD64_FETCH_SIZE. lia. }
        split; [apply control_ptrtype|].
        split; [apply control_context|].
        intros k Hk. apply control_tokens; [exact Hk|].
        replace (p + token_ofs + 4 * Z.of_nat k)
          with (p + 4 * Z.of_nat (10 + k)) by (unfold token_ofs; lia).
        apply Hre. unfold EIP197_CD64_FETCH_SIZE, EIP197_MAX_TOKENS in *. lia.
      * intros a Ha. rewrite control_frame by lia.
        apply Hfr; [exact Hw|]. unfold EIP197_CD64_FETCH_SIZE. lia.
    + split; [exact H22|]. split; [exact H23|]. split; [exact Hps|].
      split; [exact Hda|]. split; [exact H32|]. split; [exact H36|].
      split; [exact Hre|].
      intros a Ha. apply Hfr; [exact Hw|]. unfold EIP197_CD64_FETCH_SIZE. lia.
Qed.

(** The control data after the stores of [safexcel_invalidate_cache]. *)
Section Inval.
Variables (m : mem) (c : Z).

Let m5 : mem :=
  store32
    (store_bits
       (store_bits
          (store_bits m (c + control_data_ofs) 30 2 EIP197_TYPE_EXTENDED)
          (c + control_data_ofs) 17 13 0)
       (c + context_ofs) 0 2 EIP197_PTRTYPE_NULL)
    (c + control0_ofs) CONTEXT_CONTROL_INV_TR.

Lemma inval_frame a :
  a <> c + 16 -> a <> c + 24 -> a <> c + 32 -> m5 a = m a.
Proof.
  intros H1 H2 H3. unfold m5. offsets. mem_other. reflexivity.
Qed.

Lemma inval_control_word lo w :
  0 <= lo -> 0 <= w -> lo + w <= 32 ->
  load_bits m5 (c + control_data_ofs) lo w =
  load_bits
    (store_bits
       (store_bits m (c + control_data_ofs) 30 2 EIP197_TYPE_EXTENDED)
       (c + control_data_ofs) 17 13 0) (c + control_data_ofs) lo w.
Proof.
  intros Hlo Hw Hle. unfold m5, load_bits. offsets. mem_other. reflexivity.
Qed.

Lemma inval_type : cdesc_type m5 c = EIP197_TYPE_EXTENDED.
Proof.
  unfold cdesc_type. rewrite inval_control_word by lia.
  rewrite load_store_bits_disjoint by lia.
  rewrite load_store_bits by lia. reflexivity.
Qed.

Lemma inval_options : cdesc_options m5 c = 0.
Proof.
  unfold cdesc_options. rewrite inval_control_word by lia.
  rewrite load_store_bits by lia. reflexivity.
Qed.

Lemma inval_packet_length : cdesc_packet_length m5 c = cdesc_packet_length m c.
Proof.
  unfold cdesc_packet_length. rewrite inval_control_word by lia.
  rewrite !load_store_bits_disjoint by lia. reflexivity.
Qed.

Lemma inval_ptrtype : cdesc_ptrtype m5 c = EIP197_PTRTYPE_NULL.
Proof.
  unfold cdesc_ptrtype, m5. rewrite load_bits_store32_other by (offsets; lia).
  rewrite load_store_bits by lia. reflexivity.
Qed.

Lemma inval_context : cdesc_context m5 c = cdesc_context m c.
Proof.
  unfold cdesc_context. f_equal.
  - f_equal. unfold m5. rewrite load_bits_store32_other by (offsets; lia).
    rewrite load_store_bits_disjoint by lia.
    rewrite !load_bits_other by (offsets; lia). reflexivity.
  - f_equal. apply inval_frame; offsets; lia.
Qed.

Lemma inval_control0 : m5 (c + control0_ofs) = CONTEXT_CONTROL_INV_TR.
Proof. unfold m5. rewrite store32_same. reflexivity. Qed.

End Inval.

Lemma load_bits_ext m m' a lo w :
  m a = m' a -> load_bits m a lo w = load_bits m' a lo w.
Proof. intros H. unfold load_bits. rewrite H. reflexivity. Qed.

(** X6.  [safexcel_invalidate_cache] is all or nothing on the rings.  On
    command and result rings reached by reservations, rollbacks and reads,
    whose next slots do not overlap in memory: when either ring is full the
    call returns [-ENOMEM] and leaves both rings' cursors and the request
    table as they were (a command slot reserved before the result ring
    turned out full is rolled back); otherwise it returns 0, both write
    cursors move one slot on, the command descriptor is a first and last
    segment of length 0 with the extended type, no options, the null
    pointer type, [control0] equal to the invalidate-transform command and
    the context address [ctxr_dma] without its two low bits, the result
    descriptor is a first and last segment, and the request table holds the
    request at the index of the result slot and is unchanged elsewhere. *)
Theorem invalidate_cache_all_or_nothing (request : Type) cfg bc br opsc opsr
    nc nr (async : request) ctxr h (t : rdr_req_table request) :
  ring_params_ok CDR cfg -> ring_params_ok RDR cfg -> bc <> 0 -> br <> 0 ->
  ring_run CDR cfg opsc (fresh_ring CDR cfg bc, 0) = Some (cdr h, nc) ->
  ring_run RDR cfg opsr (fresh_ring RDR cfg br, 0) = Some (rdr h, nr) ->
  write (rdr h) + 16 <= write (cdr h) \/ write (cdr h) + 72 <= write (rdr h) ->
  let '(ret, h', t') := safexcel_invalidate_cache cfg async ctxr h t in
  (nc = ring_entries cfg - 1 \/ nr = ring_entries cfg - 1 ->
   ret = - ENOMEM /\ cdr h' = cdr h /\ rdr h' = rdr h /\ t' = t) /\
  (nc < ring_entries cfg - 1 /\ nr < ring_entries cfg - 1 ->
   let c := write (cdr h) in
   let r := write (rdr h) in
   let m := dmem h' in
   ret = 0 /\
   next_write_slot CDR cfg (cdr h) = (Ptr c, cdr h') /\
   next_write_slot RDR cfg (rdr h) = (Ptr r, rdr h') /\
   Engine.cdesc_last_seg m c = true /\ desc_first_seg m c = true /\
   desc_particle_size m c = 0 /\ cdesc_packet_length m c = 0 /\
   cdesc_type m c = EIP197_TYPE_EXTENDED /\ cdesc_options m c = 0 /\
   cdesc_ptrtype m c = EIP197_PTRTYPE_NULL /\
   m (c + control0_ofs) = CONTEXT_CONTROL_INV_TR /\
   (0 < ctxr < 2 ^ 64 -> cdesc_context m c = ctxr - ctxr mod 4) /\
   rdesc_last_seg m r = true /\ desc_first_seg m r = true /\
   t' (safexcel_ring_rdr_rdesc_index cfg (rdr h) r) = Some async /\
   (forall i, i <> safexcel_ring_rdr_rdesc_index cfg (rdr h) r -> t' i = t i)).
Proof.
  intros HpC HpR Hbc Hbr HrunC HrunR Hdisj.
  pose proof (fresh_ring_on_slots CDR cfg bc HpC Hbc) as H0C.
  pose proof (fresh_ring_on_slots RDR cfg br HpR Hbr) as H0R.
  destruct HpC as (HoffC & Hcap & _). destruct HpR as (HoffR & _ & _).
  pose proof (ring_run_on_slots CDR cfg HoffC Hcap opsc _ _ _ _ H0C HrunC) as HC.
  pose proof (ring_run_on_slots RDR cfg HoffR Hcap opsr _ _ _ _ H0R HrunR) as HR.
  unfold safexcel_invalidate_cache, safexcel_add_cdesc.
  change (safexcel_cdr_next_wptr cfg (cdr h))
    with (next_write_slot CDR cfg (cdr h)).
  destruct (next_write_slot_on_slots CDR cfg HoffC Hcap _ _ HC)
    as [[HnC EC] | [HnC EC]]; rewrite EC.
  - split; [|lia]. intros _. destruct h; repeat split; reflexivity.
  - cbn [andb]. unfold safexcel_add_rdesc. cbn [cdr rdr dmem].
    change (safexcel_rdr_next_wptr cfg (rdr h))
      with (next_write_slot RDR cfg (rdr h)).
    destruct (next_write_slot_on_slots RDR cfg HoffR Hcap _ _ HR)
      as [[HnR ER] | [HnR ER]]; rewrite ER.
    + cbn [cdr rdr dmem]. split; [|lia]. intros _.
      split; [reflexivity|]. split; [|split; reflexivity].
      apply (rollback_after_write CDR cfg (cdr h) nc HoffC Hcap HC HnC).
    + cbn [cdr rdr dmem]. split; [lia|]. intros _.
      set (c := write (cdr h)). set (r := write (rdr h)).
      cbn zeta.
      match goal with
      | |- context [if negb (ctxr =? 0) then _ else ?x] => set (m1 := x)
      end.
      match goal with
      | |- context [store_bits ?x (c + control_data_ofs) 30 2
                      EIP197_TYPE_EXTENDED] => set (mc := x)
      end.
      match goal with
      | |- context [memset0 ?x r EIP197_RD64_FETCH_SIZE] => set (m5 := x)
      end.
      match goal with
      | |- context [Engine.cdesc_last_seg ?x c] => set (mF := x)
      end.
      assert (HF : forall a, a < r \/ r + 16 <= a -> mF a = m5 a).
      { intros a Ha. subst mF.
        apply head_frame; unfold EIP197_RD64_FETCH_SIZE; lia. }
      assert (H5 : forall a, a <> c + 16 -> a <> c + 24 -> a <> c + 32 ->
                     m5 a = mc a).
      { intros a H1 H2 H3. subst m5. apply inval_frame; assumption. }
      assert (Hc : forall a, a < c + 16 -> mc a = m1 a).
      { intros a Ha. subst mc.
        destruct (negb (ctxr =? 0)); [apply control_frame; lia | reflexivity]. }
      assert (Hlow : forall a, c <= a < c + 16 -> mF a = m1 a).
      { intros a Ha. rewrite HF, H5, Hc by lia. reflexivity. }
      assert (Hw : (4 <= EIP197_CD64_FETCH_SIZE)%nat)
        by (unfold EIP197_CD64_FETCH_SIZE; lia).
      split; [reflexivity|]. split; [reflexivity|]. split; [reflexivity|].
      split.
      { unfold Engine.cdesc_last_seg. rewrite Hlow by lia.
        subst m1. apply head_last_seg. }
      split.
      { unfold desc_first_seg. rewrite Hlow by lia.
        subst m1. apply head_first_seg. }
      split.
      { unfold desc_particle_size.
        rewrite (load_bits_ext mF m1) by (apply Hlow; lia).
        subst m1. rewrite head_particle_size. reflexivity. }
      split.
      { unfold cdesc_packet_length.
        rewrite (load_bits_ext mF m5) by (apply HF; offsets; lia).
        fold (cdesc_packet_length m5 c). subst m5.
        rewrite inval_packet_length. subst mc.
        destruct (negb (ctxr =? 0)).
        - rewrite control_packet_length. reflexivity.
        - apply load_bits_zero.
          replace (c + control_data_ofs) with (c + 4 * Z.of_nat 4)
            by (offsets; lia).
          subst m1. apply head_rest. unfold EIP197_CD64_FETCH_SIZE. lia. }
      split.
      { unfold cdesc_type.
        rewrite (load_bits_ext mF m5) by (apply HF; offsets; lia).
        subst m5. apply inval_type. }
      split.
      { unfold cdesc_options.
        rewrite (load_bits_ext mF m5) by (apply HF; offsets; lia).
        subst m5. apply inval_options. }
      split.
      { unfold cdesc_ptrtype.
        rewrite (load_bits_ext mF m5) by (apply HF; offsets; lia).
        subst m5. apply inval_ptrtype. }
      split.
      { rewrite HF by (offsets; lia). subst m5. apply inval_control0. }
      split.
      { intros Hctx. unfold cdesc_context.
        rewrite (load_bits_ext mF m5) by (apply HF; offsets; lia).
        rewrite (HF (c + context_hi_ofs)) by (offsets; lia).
        fold (cdesc_context m5 c). subst m5. rewrite inval_context.
        subst mc. replace (ctxr =? 0) with false
          by (symmetry; apply Z.eqb_neq; lia).
        cbn [negb]. apply control_context. lia. }
      split; [subst mF; apply head_last_seg|].
      split; [subst mF; apply head_first_seg|].
      unfold safexcel_rdr_req_set, safexcel_ring_rdr_rdesc_index.
      cbn [base set_write].
      split; [rewrite Z.eqb_refl; reflexivity|].
      intros i Hi. destruct (Z.eqb_spec i (s32 (Z.quot (r - base (rdr h)) (rd_offset cfg))));
        [contradiction | reflexivity].
Qed.

Lemma invalidate_cache_all_or_nothing_witness :
  let h := mk_rings_mem (mk_ring 4096 4312 4096 4096)
             (mk_ring 8192 8300 8192 8192) (fun _ => 0) in
  let t : rdr_req_table nat := fun _ => None in
  let '(ret, h', t') := safexcel_invalidate_cache cfg_eip 5%nat 0x1000 h t in
  (0 = ring_entries cfg_eip - 1 \/ 0 = ring_entries cfg_eip - 1 ->
   ret = - ENOMEM /\ cdr h' = cdr h /\ rdr h' = rdr h /\ t' = t) /\
  (0 < ring_entries cfg_eip - 1 /\ 0 < ring_entries cfg_eip - 1 ->
   let c := write (cdr h) in
   let r := write (rdr h) in
   let m := dmem h' in
   ret = 0 /\
   next_write_slot CDR cfg_eip (cdr h) = (Ptr c, cdr h') /\
   next_write_slot RDR cfg_eip (rdr h) = (Ptr r, rdr h') /\
   Engine.cdesc_last_seg m c = true /\ desc_first_seg m c = true /\
   desc_particle_size m c = 0 /\ cdesc_packet_length m c = 0 /\
   cdesc_type m c = EIP197_TYPE_EXTENDED /\ cdesc_options m c = 0 /\
   cdesc_ptrtype m c = EIP197_PTRTYPE_NULL /\
   m (c + control0_ofs) = CONTEXT_CONTROL_INV_TR /\
   (0 < 0x1000 < 2 ^ 64 -> cdesc_context m c = 0x1000 - 0x1000 mod 4) /\
   rdesc_last_seg m r = true /\ desc_first_seg m r = true /\
   t' (safexcel_ring_rdr_rdesc_index cfg_eip (rdr h) r) = Some 5%nat /\
   (forall i, i <> safexcel_ring_rdr_rdesc_index cfg_eip (rdr h) r ->
      t' i = t i)).
Proof.
  intros h t.
  apply (invalidate_cache_all_or_nothing nat cfg_eip 4096 8192 [] [] 0 0
           5%nat 0x1000 h t).
  - unfold ring_params_ok; simpl; lia.
  - unfold ring_params_ok; simpl; lia.
  - lia.
  - lia.
  - reflexivity.
  - reflexivity.
  - simpl; lia.
Defined.

End DescFacts.

Module CountFacts.
Import Engine EngineCounts IntFacts.

Section Facts.
Variables (request W : Type) (cfg : safexcel_config).
Variable send : request -> W -> (Z * Z * Z) * W.
Variable handle_result : request -> W -> (Z * bool * Z) * W.
Variable rdr_req_get : W -> request.
Variable scan_next : W -> option bool.

Lemma prepared_app (l1 l2 : list (event request)) :
  prepared (l1 ++ l2) =
    (fst (prepared l1) + fst (prepared l2),
     snd (prepared l1) + snd (prepared l2)).
Proof.
  induction l1 as [|e l1 IH]; cbn [app prepared].
  - destruct (prepared l2). reflexivity.
  - destruct e; try exact IH.
    rewrite IH. destruct (prepared l1) as [c1 r1].
    destruct (prepared l2) as [c2 r2]. cbn [fst snd].
    destruct (ret =? 0); cbn [fst snd]; f_equal; lia.
Qed.

Lemma notified_app (l1 l2 : list (event request)) :
  notified (l1 ++ l2) = notified l1 ++ notified l2.
Proof.
  induction l1 as [|e l1 IH]; cbn [app notified]; [reflexivity|].
  destruct e; try exact IH. rewrite IH. reflexivity.
Qed.

(** The loop of [safexcel_dequeue]: the descriptor counts it adds up and
    the backlog targets it notifies. *)
Lemma dequeue_handle_req_sums q :
  forall r b (st : safexcel_ring request W) nreq cdesc rdesc,
  exists done ev kc kr,
    let res := dequeue_handle_req send q r b st (nreq, cdesc, rdesc) in
    trace (fst res) = trace st ++ ev /\
    forallb is_send_or_backlog ev = true /\
    snd (fst (snd res)) = cdesc + fst (prepared ev) + kc * 2 ^ 32 /\
    snd (snd res) = rdesc + snd (prepared ev) + kr * 2 ^ 32 /\
    (b, r) :: q = done ++ pending (fst res) /\
    notified ev = map (fun bl => (bl, - EINPROGRESS)) (targets done).
Proof.
  induction q as [|[b' r'] q IH]; intros r b st nreq cdesc rdesc;
    cbn [dequeue_handle_req];
    destruct (send r (world st)) as [[[ret commands] results] w] eqn:Es;
    destruct (Z.eqb_spec ret 0) as [-> | Hret]; cbn [negb].
  - set (st1 := match b with Some bl => _ | None => _ end).
    set (acc' := if (commands =? 0) && (results =? 0) then _ else _).
    assert (Ht : exists bl, trace st1 = trace st ++ EvSend r 0 commands results :: bl
                 /\ forallb is_send_or_backlog bl = true /\ prepared bl = (0, 0)
                 /\ notified bl = map (fun x => (x, - EINPROGRESS)) (targets [(b, r)])).
    { subst st1. destruct b as [bl|]; cbn [trace emit set_world].
      - exists [EvBacklog bl (- EINPROGRESS)]. rewrite <- app_assoc.
        repeat split.
      - exists []. repeat split. }
    destruct Ht as (bl & Ht & Hf & Hp & Hn).
    assert (Hacc : exists kc kr,
              snd (fst acc') = cdesc + commands + kc * 2 ^ 32 /\
              snd acc' = rdesc + results + kr * 2 ^ 32).
    { subst acc'. destruct ((commands =? 0) && (results =? 0)) eqn:Ec;
        cbn [fst snd].
      - apply andb_true_iff in Ec. destruct Ec as [H1 H2].
        apply Z.eqb_eq in H1, H2. exists 0, 0. lia.
      - destruct (s32_decomp (cdesc + commands)) as [kc Hkc].
        destruct (s32_decomp (rdesc + results)) as [kr Hkr].
        exists kc, kr. lia. }
    destruct Hacc as (kc & kr & Hc & Hr).
    exists [(b, r)], (EvSend r 0 commands results :: bl), kc, kr.
    cbn [fst snd trace set_stalled set_queue pending req queue prepared].
    rewrite Hp. cbn [Z.eqb fst snd]. rewrite Ht.
    split; [reflexivity|]. split; [exact Hf|].
    split; [rewrite Hc; lia|]. split; [rewrite Hr; lia|].
    split; [reflexivity|]. exact Hn.
  - exists [], [EvSend r ret commands results], 0, 0. cbn [fst snd].
    cbn [trace set_stalled set_queue emit set_world pending req
         backlog queue forallb is_send_or_backlog andb app prepared notified
         map targets flat_map].
    apply Z.eqb_neq in Hret. rewrite Hret. cbn [fst snd].
    repeat split; lia.
  - set (st1 := match b with Some bl => _ | None => _ end).
    set (acc' := if (commands =? 0) && (results =? 0) then _ else _).
    assert (Ht : exists bl, trace st1 = trace st ++ EvSend r 0 commands results :: bl
                 /\ forallb is_send_or_backlog bl = true /\ prepared bl = (0, 0)
                 /\ notified bl = map (fun x => (x, - EINPROGRESS)) (targets [(b, r)])).
    { subst st1. destruct b as [bl|]; cbn [trace emit set_world].
      - exists [EvBacklog bl (- EINPROGRESS)]. rewrite <- app_assoc.
        repeat split.
      - exists []. repeat split. }
    destruct Ht as (bl & Ht & Hf & Hp & Hn).
    assert (Hacc : exists n' c' d' kc kr, acc' = (n', c', d') /\
              c' = cdesc + commands + kc * 2 ^ 32 /\
              d' = rdesc + results + kr * 2 ^ 32).
    { subst acc'. destruct ((commands =? 0) && (results =? 0)) eqn:Ec.
      - apply andb_true_iff in Ec. destruct Ec as [H1 H2].
        apply Z.eqb_eq in H1, H2.
        exists nreq, cdesc, rdesc, 0, 0. split; [reflexivity | lia].
      - destruct (s32_decomp (cdesc + commands)) as [kc Hkc].
        destruct (s32_decomp (rdesc + results)) as [kr Hkr].
        exists (s32 (nreq + 1)), (s32 (cdesc + commands)),
          (s32 (rdesc + results)), kc, kr.
        split; [reflexivity | lia]. }
    destruct Hacc as (n' & c' & d' & kc & kr & -> & Hc & Hd).
    destruct (IH r' b' st1 n' c' d') as (done & ev & kc' & kr' & H).
    cbn zeta in H. destruct H as (Htr & Hfa & Hcs & Hrs & Hpend & Hno).
    exists ((b, r) :: done), (EvSend r 0 commands results :: bl ++ ev),
      (kc + kc'), (kr + kr').
    cbn zeta. rewrite Htr, Ht, Hcs, Hrs.
    split; [rewrite <- app_assoc; reflexivity|].
    split; [cbn [forallb is_send_or_backlog andb]; rewrite forallb_app, Hf, Hfa;
            reflexivity|].
    cbn [prepared]. rewrite prepared_app, Hp. cbn [Z.eqb fst snd].
    destruct (prepared ev) as [ce re]. cbn [fst snd].
    split; [lia|]. split; [lia|].
    split; [cbn [app]; rewrite Hpend; reflexivity|].
    cbn [notified]. rewrite notified_app, Hn, Hno.
    change ((b, r) :: done) with ([(b, r)] ++ done).
    unfold targets. rewrite flat_map_app, map_app. reflexivity.
  - exists [], [EvSend r ret commands results], 0, 0. cbn [fst snd].
    cbn [trace set_stalled set_queue emit set_world pending req
         backlog queue forallb is_send_or_backlog andb app prepared notified
         map targets flat_map].
    apply Z.eqb_neq in Hret. rewrite Hret. cbn [fst snd].
    repeat split; lia.
Qed.

Lemma u32_mul_congr x y k off : x = y + k * 2 ^ 32 -> u32 (x * off) = u32 (y * off).
Proof.
  intros ->. unfold u32.
  replace ((y + k * 2 ^ 32) * off) with (y * off + (k * off) * 2 ^ 32) by ring.
  apply Z.mod_add. lia.
Qed.

(** A run of [safexcel_dequeue]: the two prepared counts written and the
    backlog targets notified. *)
Lemma dequeue_sums_effect (st : safexcel_ring request W) :
  exists done ev tail,
    let st' := safexcel_dequeue cfg send st in
    trace st' =
      trace st ++
      EvWritel RDR_THRESH (u32 EIP197_HIA_RDR_THRESH_PKT_MODE) :: ev ++
      EvWritel CDR_PREP_COUNT (u32 (fst (prepared ev) * cd_offset cfg)) ::
      EvRequests (requests st') ::
      EvWritel RDR_PREP_COUNT (u32 (snd (prepared ev) * rd_offset cfg)) ::
      tail /\
    forallb is_send_or_backlog ev = true /\
    pending st = done ++ pending st' /\
    notified ev = map (fun bl => (bl, - EINPROGRESS)) (targets done) /\
    (tail = [] \/ exists v, tail = [EvWritel RDR_THRESH v]).
Proof.
  unfold safexcel_dequeue.
  set (st0 := emit st (EvWritel RDR_THRESH (u32 EIP197_HIA_RDR_THRESH_PKT_MODE))).
  assert (Hloop : exists done ev kc kr,
    let res := match req st0 with
               | Some r => dequeue_handle_req send (queue st0) r (backlog st0) st0 (0, 0, 0)
               | None => match queue st0 with
                         | [] => (set_stalled st0 None None, (0, 0, 0))
                         | (b, r) :: q => dequeue_handle_req send q r b st0 (0, 0, 0)
                         end
               end in
    trace (fst res) = trace st0 ++ ev /\
    forallb is_send_or_backlog ev = true /\
    snd (fst (snd res)) = 0 + fst (prepared ev) + kc * 2 ^ 32 /\
    snd (snd res) = 0 + snd (prepared ev) + kr * 2 ^ 32 /\
    pending st = done ++ pending (fst res) /\
    notified ev = map (fun bl => (bl, - EINPROGRESS)) (targets done)).
  { unfold pending at 1. subst st0. cbn [req queue backlog emit].
    destruct (req st) as [r|].
    - apply dequeue_handle_req_sums.
    - destruct (queue st) as [|[b r] q] eqn:Eq.
      + exists [], [], 0, 0. cbn. rewrite app_nil_r, Eq. repeat split.
      + apply dequeue_handle_req_sums. }
  destruct Hloop as (done & ev & kc & kr & Hloop). cbn zeta in Hloop.
  destruct (match req st0 with Some _ => _ | None => _ end)
    as [st1 [[nreq cdesc] rdesc]].
  cbn [fst snd] in Hloop.
  destruct Hloop as (Htr & Hf & Hc & Hr & Hp & Hn).
  rewrite (u32_mul_congr cdesc (fst (prepared ev)) kc) by lia.
  rewrite (u32_mul_congr rdesc (snd (prepared ev)) kr) by lia.
  exists done, ev.
  cbn [requests emit set_requests].
  destruct (Z.eqb_spec (s32 (requests st1 + nreq)) 0) as [E | E]; cbn [negb].
  - exists []. cbn zeta.
    cbn [trace emit set_requests requests pending req backlog queue].
    rewrite Htr. subst st0. cbn [trace emit]. rewrite <- !app_assoc. cbn [app].
    repeat split; try assumption. left. reflexivity.
  - eexists. cbn zeta.
    unfold safexcel_try_push_requests, EIP197_HIA_RDR_THRESH_PROC_PKT.
    cbn [requests emit set_requests busy].
    destruct (EIP197_AVOID_DEV_READ && negb (busy st1));
      cbn [trace emit set_requests set_busy set_thresh_written requests
           pending req backlog queue];
      rewrite Htr; subst st0; cbn [trace emit]; rewrite <- !app_assoc;
      cbn [app];
      (split; [reflexivity|]); repeat split; try assumption;
      right; eexists; reflexivity.
Qed.

(** X7.  What [safexcel_dequeue] tells the device.  A run writes the
    command ring's prepared count once and the result ring's prepared count
    once, in this order, after all sends and around the store of the
    in-flight counter; the values are the command descriptors, respectively
    the result descriptors, that the successful sends of this run reported,
    added up and multiplied by the ring's slot size (as a [u32]).  A send
    that failed adds nothing. *)
Theorem dequeue_publishes_prepared_counts (st : safexcel_ring request W) :
  exists ev tail,
    let st' := safexcel_dequeue cfg send st in
    trace st' =
      trace st ++
      EvWritel RDR_THRESH (u32 EIP197_HIA_RDR_THRESH_PKT_MODE) :: ev ++
      EvWritel CDR_PREP_COUNT (u32 (fst (prepared ev) * cd_offset cfg)) ::
      EvRequests (requests st') ::
      EvWritel RDR_PREP_COUNT (u32 (snd (prepared ev) * rd_offset cfg)) ::
      tail /\
    forallb is_send_or_backlog ev = true /\
    (tail = [] \/ exists v, tail = [EvWritel RDR_THRESH v]).
Proof.
  destruct (dequeue_sums_effect st) as (done & ev & tail & H).
  cbn zeta in H. destruct H as (Ht & Hf & _ & _ & Htail).
  exists ev, tail. cbn zeta. split; [exact Ht|]. split; assumption.
Qed.

(** X8.  Backlog notifications.  In a run of [safexcel_dequeue] the
    backlog targets that came with the requests whose send succeeded are
    notified, each once, with [-EINPROGRESS], in the order of the sends,
    and nobody else is: the target of a request whose send failed is not
    notified in this run (it stays with the stalled request). *)
Theorem dequeue_notifies_backlog (st : safexcel_ring request W) :
  exists done new,
    let st' := safexcel_dequeue cfg send st in
    trace st' = trace st ++ new /\
    pending st = done ++ pending st' /\
    notified new = map (fun bl => (bl, - EINPROGRESS)) (targets done).
Proof.
  destruct (dequeue_sums_effect st) as (done & ev & tail & H).
  cbn zeta in H. destruct H as (Ht & _ & Hp & Hn & Htail).
  exists done. eexists. cbn zeta. split; [exact Ht|]. split; [exact Hp|].
  cbn [notified]. rewrite notified_app. cbn [notified].
  destruct Htail as [-> | [v ->]]; cbn [notified]; rewrite app_nil_r; exact Hn.
Qed.

Lemma acked_app (l1 l2 : list (event request)) :
  acked (l1 ++ l2) =
    (fst (acked l1) + fst (acked l2), snd (acked l1) + snd (acked l2)).
Proof.
  induction l1 as [|e l1 IH]; cbn [app acked].
  - destruct (acked l2). reflexivity.
  - destruct e; try exact IH. destruct r; try exact IH.
    rewrite IH. destruct (acked l1) as [p1 b1].
    destruct (acked l2) as [p2 b2]. cbn [fst snd]. f_equal; lia.
Qed.

Lemma handled_descs_app (l1 l2 : list (event request)) :
  handled_descs (l1 ++ l2) = handled_descs l1 + handled_descs l2.
Proof.
  induction l1 as [|e l1 IH]; cbn [app handled_descs]; [reflexivity|].
  destruct e; try exact IH. rewrite IH. lia.
Qed.

Lemma acked_results (l : list (event request)) :
  forallb is_result_or_complete l = true -> acked l = (0, 0).
Proof.
  induction l as [|e l IH]; [reflexivity|].
  cbn [forallb]. intros H. apply andb_true_iff in H. destruct H as [He Hl].
  destruct e; try discriminate He; cbn [acked]; exact (IH Hl).
Qed.

Lemma s32_range x : - 2 ^ 31 <= s32 x < 2 ^ 31.
Proof.
  unfold s32. pose proof (Z.mod_pos_bound (x + 2 ^ 31) (2 ^ 32) ltac:(lia)). lia.
Qed.

(** The result loop: [handled] stays an [int] and [tot_descs] adds up the
    descriptors reported. *)
Lemma result_loop_sums fuel :
  forall nreq handled tot (st : safexcel_ring request W) h t st',
  result_loop handle_result rdr_req_get scan_next fuel nreq handled tot st
    = Some (h, t, st') ->
  - 2 ^ 31 <= handled < 2 ^ 31 ->
  exists ev k kt,
    trace st' = trace st ++ ev /\
    forallb is_result_or_complete ev = true /\
    h = handled - nreq + completions ev + k * 2 ^ 32 /\
    - 2 ^ 31 <= h < 2 ^ 31 /\
    t = tot + handled_descs ev + kt * 2 ^ 32 /\
    (completions ev = 0 -> handled_descs ev = 0).
Proof.
  induction fuel as [|fuel IH]; intros nreq handled tot st h t st' H Hh;
    [discriminate|].
  cbn [result_loop] in H.
  destruct (Z.eqb_spec nreq 0) as [-> | Hn]; cbn [negb] in H.
  - cbn [EIP197_RD_OWN_WORD] in H.
    destruct (scan_next (world st)) as [[|]|]; [| |discriminate].
    + apply IH in H; [|apply s32_range].
      destruct H as (ev & k & kt & Ht & Hf & Hc & Hr & Hd & Hz).
      destruct (s32_decomp (handled + 1)) as [k1 Hk1].
      exists ev, (k + k1), kt. repeat split; try assumption; lia.
    + inversion H; subst. exists [], 0, 0. rewrite app_nil_r.
      unfold completions, count. cbn [filter length handled_descs].
      repeat split; lia.
  - destruct (handle_result (rdr_req_get (world st)) (world st))
      as [[[ndesc sc] ret] w] eqn:Eh.
    destruct (s32_decomp (nreq - 1)) as [k1 Hk1].
    destruct (s32_decomp (tot + ndesc)) as [k2 Hk2].
    destruct sc.
    + apply IH in H; [|exact Hh].
      destruct H as (ev & k & kt & Ht & Hf & Hc & Hr & Hd & Hz).
      exists (EvHandleResult (rdr_req_get (world st)) ndesc true ret ::
              EvComplete (rdr_req_get (world st)) ret :: ev), (k - k1), (kt + k2).
      cbn [trace emit set_world] in Ht.
      rewrite <- !app_assoc in Ht. cbn [app] in Ht.
      split; [exact Ht|]. split; [exact Hf|].
      assert (Hcnt : completions
                (EvHandleResult (rdr_req_get (world st)) ndesc true ret ::
                 EvComplete (rdr_req_get (world st)) ret :: ev)
              = 1 + completions ev).
      { unfold completions, count. cbn [filter is_completion orb length]. lia. }
      rewrite Hcnt. cbn [handled_descs].
      split; [lia|]. split; [exact Hr|]. split; [lia|].
      unfold completions, count. lia.
    + cbn [EIP197_RD_OWN_WORD andb] in H.
      destruct (Z.eqb_spec ndesc 0) as [-> | Hd0].
      * inversion H; subst.
        destruct (s32_decomp (handled - nreq)) as [k3 Hk3].
        exists [EvHandleResult (rdr_req_get (world st)) 0 false ret], k3, 0.
        cbn [trace emit set_world]. split; [reflexivity|].
        split; [reflexivity|].
        unfold completions, count.
        cbn [filter is_completion orb EIP197_RD_OWN_WORD andb Z.eqb negb
             length handled_descs].
        split; [lia|]. split; [apply s32_range|]. split; lia.
      * apply IH in H; [|exact Hh].
        destruct H as (ev & k & kt & Ht & Hf & Hc & Hr & Hd & Hz).
        exists (EvHandleResult (rdr_req_get (world st)) ndesc false ret :: ev),
               (k - k1), (kt + k2).
        cbn [trace emit set_world] in Ht.
        rewrite <- !app_assoc in Ht. cbn [app] in Ht.
        split; [exact Ht|]. split; [exact Hf|].
        assert (Hcnt : completions
                  (EvHandleResult (rdr_req_get (world st)) ndesc false ret :: ev)
                = 1 + completions ev).
        { unfold completions, count.
          cbn [filter is_completion orb EIP197_RD_OWN_WORD andb].
          apply Z.eqb_neq in Hd0. rewrite Hd0. cbn [negb length]. lia. }
        rewrite Hcnt. cbn [handled_descs].
        split; [lia|]. split; [exact Hr|]. split; [lia|].
        unfold completions, count. lia.
Qed.

(** The word for [i] packets and [bytes] descriptor bytes. *)
Lemma pkt_word i bytes :
  0 <= i <= 127 -> 0 <= bytes < 2 ^ 24 ->
  proc_pkt (u32 (Z.lor (EIP197_xDR_PROC_xD_PKT i) bytes)) = i /\
  proc_bytes (u32 (Z.lor (EIP197_xDR_PROC_xD_PKT i) bytes)) = bytes.
Proof.
  intros Hi Hb. unfold EIP197_xDR_PROC_xD_PKT, proc_pkt, proc_bytes,
    EIP197_xDR_PROC_xD_PKT_OFFSET.
  rewrite Z.shiftl_mul_pow2 by lia.
  assert (Hl : Z.land (i * 2 ^ 24) bytes = 0).
  { apply Z.bits_inj'. intros n Hn. rewrite Z.land_spec, Z.bits_0.
    destruct (Z.ltb_spec n 24) as [H | H].
    - rewrite Z.mul_pow2_bits_low by lia. reflexivity.
    - destruct (Z.eq_dec bytes 0) as [-> | Hz];
        [rewrite Z.bits_0; apply andb_false_r|].
      rewrite (Z.bits_above_log2 bytes n); [apply andb_false_r | lia |].
      apply Z.lt_le_trans with 24; [apply Z.log2_lt_pow2; lia | lia]. }
  assert (Hor : Z.lor (i * 2 ^ 24) bytes = i * 2 ^ 24 + bytes).
  { rewrite <- Z.lxor_lor by exact Hl. symmetry.
    apply Z.add_nocarry_lxor. exact Hl. }
  rewrite Hor. unfold u32. rewrite (Z.mod_small (i * 2 ^ 24 + bytes)) by lia.
  split.
  - rewrite Z.shiftr_div_pow2 by lia.
    rewrite Z.add_comm, Z.div_add by lia. rewrite Z.div_small by lia. lia.
  - rewrite Z.land_ones by lia.
    rewrite Z.add_comm, Z.mod_add by lia. apply Z.mod_small. lia.
Qed.

(** The full batches: [i] packets come down to between 1 and 127, in
    steps of 127 acknowledged one write each. *)
Lemma ack_batches_sum n : forall i (st : safexcel_ring request W),
  0 < i < 2 ^ 31 -> i <= Z.of_nat n ->
  exists acks,
    trace (snd (ack_batches n i st)) = trace st ++ acks /\
    acked acks = (i - fst (ack_batches n i st), 0) /\
    1 <= fst (ack_batches n i st) <= 127 /\
    Forall pkt_fits acks.
Proof.
  induction n as [|n IH]; intros i st Hi Hn; [lia|].
  cbn [ack_batches].
  change (EIP197_xDR_PROC_xD_PKT_MASK <? i) with (127 <? i).
  destruct (Z.ltb_spec 127 i) as [H | H].
  - change (s32 (i - EIP197_xDR_PROC_xD_PKT_MASK)) with (s32 (i - 127)).
    rewrite (SelectFacts.s32_small (i - 127)) by lia.
    destruct (IH (i - 127)
                (emit st (EvWritel RDR_PROC_COUNT
                   (u32 (EIP197_xDR_PROC_xD_PKT EIP197_xDR_PROC_xD_PKT_MASK))))
                ltac:(lia) ltac:(lia)) as (acks & Ht & Ha & Hr & Hf).
    exists (EvWritel RDR_PROC_COUNT
              (u32 (EIP197_xDR_PROC_xD_PKT EIP197_xDR_PROC_xD_PKT_MASK)) :: acks).
    rewrite Ht. cbn [trace emit]. rewrite <- app_assoc.
    split; [reflexivity|]. cbn [acked]. rewrite Ha.
    split; [|split; [exact Hr|]].
    + f_equal. change (proc_pkt _) with 127. lia.
    + constructor; [|exact Hf]. cbn [pkt_fits].
      change (proc_pkt _) with 127. unfold EIP197_xDR_PROC_xD_PKT_MASK. lia.
  - exists []. cbn [snd fst acked]. rewrite app_nil_r.
    split; [reflexivity|]. split; [f_equal; lia|]. split; [lia | constructor].
Qed.

Lemma pkt_fits_results (l : list (event request)) :
  forallb is_result_or_complete l = true -> Forall pkt_fits l.
Proof.
  induction l as [|e l IH]; [constructor|].
  cbn [forallb]. intros H. apply andb_true_iff in H. destruct H as [He Hl].
  constructor; [|exact (IH Hl)].
  destruct e; try discriminate He; exact I.
Qed.

Lemma bookkeeping_neutral (l : list (event request)) :
  forallb is_bookkeeping l = true ->
  acked l = (0, 0) /\ completions l = 0 /\ handled_descs l = 0 /\
  Forall pkt_fits l /\ existsb is_result_or_complete l = false.
Proof.
  induction l as [|e l IH]; [repeat split; constructor|].
  cbn [forallb]. intros H. apply andb_true_iff in H. destruct H as [He Hl].
  destruct (IH Hl) as (Ha & Hc & Hd & Hf & Hx).
  unfold completions, count in *.
  destruct e; try discriminate He;
    try (destruct r; try discriminate He);
    cbn [acked filter is_completion handled_descs existsb
         is_result_or_complete orb];
    (split; [exact Ha|]); (split; [exact Hc|]); (split; [exact Hd|]);
    (split; [constructor; [exact I | exact Hf] | exact Hx]).
Qed.

Lemma completions_app (l1 l2 : list (event request)) :
  completions (l1 ++ l2) = completions l1 + completions l2.
Proof.
  unfold completions, count. rewrite filter_app, length_app. lia.
Qed.

Lemma results_no_acks (l : list (event request)) :
  forallb is_proc_count_write l = true ->
  completions l = 0 /\ handled_descs l = 0.
Proof.
  induction l as [|e l IH]; [split; reflexivity|].
  cbn [forallb]. intros H. apply andb_true_iff in H. destruct H as [He Hl].
  destruct (IH Hl) as (Hc & Hd). unfold completions, count in *.
  destruct e; try discriminate He.
  cbn [filter is_completion handled_descs]. split; assumption.
Qed.

(** The part of [safexcel_handle_result_descriptor] from the label
    [no_thresh_irq] on only does bookkeeping. *)
Lemma completion_tail fuel stat proc_count (st st' : safexcel_ring request W) :
  safexcel_handle_result_descriptor cfg handle_result rdr_req_get scan_next
    fuel stat proc_count st = Some st' ->
  exists ev acks tail h,
    trace st' = trace st ++ ev ++ acks ++ tail /\
    forallb is_bookkeeping tail = true /\
    requests st' = s32 (requests st - h) /\
    ((Z.land stat EIP197_xDR_THRESH = 0 /\ ev = [] /\ acks = [] /\ h = 0) \/
     (Z.land stat EIP197_xDR_THRESH <> 0 /\
      exists t st2,
        result_loop handle_result rdr_req_get scan_next fuel
          (thresh_written st) (thresh_written st) 0 st = Some (h, t, st2) /\
        trace st2 = trace st ++ ev /\
        ((h = 0 /\ acks = []) \/
         (h <> 0 /\
          trace (snd (ack_batches (Z.to_nat h) h st2)) ++
            [EvWritel RDR_PROC_COUNT
               (u32 (Z.lor (EIP197_xDR_PROC_xD_PKT
                              (fst (ack_batches (Z.to_nat h) h st2)))
                           (u32 (t * rd_offset cfg))))]
          = trace st2 ++ acks)))).
Proof.
  unfold safexcel_handle_result_descriptor.
  cbn [EIP197_AVOID_DEV_READ andb].
  set (after_loop := if negb (negb (Z.land stat EIP197_xDR_THRESH =? 0))
                     then _ else _).
  assert (Ha : forall handled st1, after_loop = Some (handled, st1) ->
    exists ev acks,
      trace st1 = trace st ++ ev ++ acks /\ requests st1 = requests st /\
      ((Z.land stat EIP197_xDR_THRESH = 0 /\ ev = [] /\ acks = [] /\ handled = 0) \/
       (Z.land stat EIP197_xDR_THRESH <> 0 /\
        exists t st2,
          result_loop handle_result rdr_req_get scan_next fuel
            (thresh_written st) (thresh_written st) 0 st = Some (handled, t, st2) /\
          trace st2 = trace st ++ ev /\
          ((handled = 0 /\ acks = []) \/
           (handled <> 0 /\
            trace (snd (ack_batches (Z.to_nat handled) handled st2)) ++
              [EvWritel RDR_PROC_COUNT
                 (u32 (Z.lor (EIP197_xDR_PROC_xD_PKT
                                (fst (ack_batches (Z.to_nat handled) handled st2)))
                             (u32 (t * rd_offset cfg))))]
            = trace st2 ++ acks))))).
  { intros handled st1 H. subst after_loop.
    destruct (Z.eqb_spec (Z.land stat EIP197_xDR_THRESH) 0) as [Et | Et];
      cbn [negb] in H.
    - inversion H; subst. exists [], []. rewrite app_nil_r.
      split; [reflexivity|]. split; [reflexivity|]. left. repeat split; assumption.
    - destruct (result_loop handle_result rdr_req_get scan_next fuel
                  (thresh_written st) (thresh_written st) 0 st)
        as [[[h t] st2]|] eqn:El; [|discriminate].
      pose proof (EngineFacts.result_loop_spec request W handle_result
                    rdr_req_get scan_next fuel _ _ _ _ _ _ _ El)
        as (ev & k & Ht & Hf & Hr & Hh).
      clear Hh.
      destruct (Z.eqb_spec h 0) as [-> | Hh0]; cbn [negb] in H.
      + inversion H; subst. exists ev, []. rewrite app_nil_r.
        split; [exact Ht|]. split; [exact Hr|]. right. split; [exact Et|].
        exists t, st1. split; [reflexivity|]. split; [exact Ht|].
        left. split; reflexivity.
      + destruct (EngineFacts.ack_batches_spec request W (Z.to_nat h) h st2)
          as (acks & Hat & Haf & Har).
        destruct (ack_batches (Z.to_nat h) h st2) as [i st3] eqn:Eab.
        cbn [snd] in Hat, Har. inversion H; subst.
        eexists ev, (acks ++ [_]).
        cbn [trace emit requests]. rewrite Hat, Ht, Har, Hr.
        rewrite <- !app_assoc. split; [reflexivity|]. split; [reflexivity|].
        right. split; [exact Et|].
        exists t, st2. split; [reflexivity|]. split; [exact Ht|].
        right. split; [exact Hh0|]. rewrite Eab. cbn [fst snd].
        rewrite Hat, Ht, <- !app_assoc. reflexivity. }
  destruct after_loop as [[handled st1]|]; [|discriminate].
  destruct (Ha handled st1 eq_refl) as (ev & acks & Ht & Hr & Hcase).
  clear Ha. intros H. inversion H; subst st'; clear H.
  exists ev, acks. cbn [requests emit set_requests set_busy].
  destruct (Z.eqb_spec (s32 (requests st1 - handled)) 0) as [E | E]; cbn [negb].
  - destruct (negb (Z.land stat EIP197_xDR_ERR =? 0));
      eexists; exists handled;
      cbn [trace emit set_requests set_busy requests];
      rewrite Ht, Hr, <- !app_assoc; cbn [app];
      (split; [reflexivity|]); (split; [reflexivity|]);
      (split; [reflexivity | exact Hcase]).
  - unfold safexcel_try_push_requests, EIP197_HIA_RDR_THRESH_PROC_PKT.
    cbn [requests emit set_requests set_busy busy EIP197_AVOID_DEV_READ andb negb].
    destruct (negb (Z.land stat EIP197_xDR_ERR =? 0));
      eexists; exists handled;
      cbn [trace emit set_requests set_busy set_thresh_written requests];
      rewrite Ht, Hr, <- !app_assoc; cbn [app];
      (split; [reflexivity|]); (split; [reflexivity|]);
      (split; [reflexivity | exact Hcase]).
Qed.

(** X9.  What [safexcel_handle_result_descriptor] tells the device.  In
    a run that returns, started with a remembered threshold that is a
    non-negative [int]: when fewer than 2^31 results were handled and the
    descriptors reported for them take less than 2^24 bytes of ring, the
    packet counts of all writes to the processed-count register add up to
    the number of results handled, their byte counts add up to the
    descriptors reported times the slot size, and every packet count fits
    the register's seven-bit field.  A run whose status has no threshold
    interrupt calls no result handler and acknowledges nothing. *)
Theorem completion_acknowledges_handled fuel stat proc_count
    (st st' : safexcel_ring request W) :
  safexcel_handle_result_descriptor cfg handle_result rdr_req_get scan_next
    fuel stat proc_count st = Some st' ->
  0 <= thresh_written st < 2 ^ 31 ->
  exists new,
    trace st' = trace st ++ new /\
    (completions new < 2 ^ 31 ->
     0 <= handled_descs new * rd_offset cfg < 2 ^ 24 ->
     acked new = (completions new, handled_descs new * rd_offset cfg) /\
     Forall pkt_fits new) /\
    (Z.land stat EIP197_xDR_THRESH = 0 ->
     existsb is_result_or_complete new = false /\ acked new = (0, 0) /\
     requests st' = s32 (requests st)).
Proof.
  intros H Hth. apply completion_tail in H.
  destruct H as (ev & acks & tail & h & Ht & Hbk & Hrq & Hcase).
  destruct (bookkeeping_neutral tail Hbk) as (Hta & Htc & Htd & Htf & Htx).
  exists (ev ++ acks ++ tail). split; [exact Ht|].
  destruct Hcase as [(Et & -> & -> & ->) | (Et & t & st2 & El & Ht2 & Hacks)].
  - cbn [app]. rewrite Hta, Htc, Htd. split.
    + intros _ _. split; [reflexivity | exact Htf].
    + intros _. split; [exact Htx|]. split; [reflexivity|].
      rewrite Hrq. f_equal. lia.
  - split; [|intros E; contradiction].
    apply result_loop_sums in El; [|lia].
    destruct El as (ev' & k & kt & Ht2' & Hf & Hh & Hhr & Htot & Hz).
    assert (ev' = ev).
    { rewrite Ht2 in Ht2'. apply app_inv_head in Ht2'. symmetry. exact Ht2'. }
    subst ev'.
    pose proof (acked_results ev Hf) as Hea.
    pose proof (pkt_fits_results ev Hf) as Hef.
    assert (Hc0 : 0 <= completions ev)
      by (unfold completions, count; lia).
    destruct Hacks as [[-> ->] | [Hh0 Hacks]].
    + cbn [app]. rewrite completions_app, handled_descs_app, acked_app.
      rewrite Hea, Hta, Htc, Htd. cbn [fst snd].
      intros Hlt Hby. rewrite !Z.add_0_r in *.
      assert (completions ev = 0) by lia.
      rewrite (Hz ltac:(assumption)).
      split; [f_equal; lia|]. apply Forall_app. split; assumption.
    + destruct (EngineFacts.ack_batches_spec request W (Z.to_nat h) h st2)
        as (acks0 & Hat & Haf & _).
      rewrite Hat, <- app_assoc in Hacks. apply app_inv_head in Hacks.
      subst acks.
      destruct (results_no_acks acks0 Haf) as (Hac & Had).
      set (final := EvWritel RDR_PROC_COUNT _) in *.
      assert (Hct : completions (ev ++ (acks0 ++ [final]) ++ tail)
                    = completions ev).
      { rewrite !completions_app, Hac, Htc. subst final.
        unfold completions at 2. unfold count.
        cbn [filter is_completion length]. lia. }
      assert (Hdt : handled_descs (ev ++ (acks0 ++ [final]) ++ tail)
                    = handled_descs ev).
      { rewrite !handled_descs_app, Had, Htd. subst final.
        cbn [handled_descs]. lia. }
      rewrite Hct, Hdt. intros Hlt Hby.
      assert (Hheq : h = completions ev) by lia.
      destruct (ack_batches_sum (Z.to_nat h) h st2 ltac:(lia) ltac:(lia))
        as (acks1 & Hat1 & Hsum & Hi & Hfit).
      rewrite Hat in Hat1. apply app_inv_head in Hat1. subst acks1.
      assert (Hbytes : u32 (t * rd_offset cfg) = handled_descs ev * rd_offset cfg).
      { rewrite (u32_mul_congr t (handled_descs ev) kt) by lia.
        unfold u32. apply Z.mod_small. lia. }
      subst final. rewrite Hbytes.
      destruct (pkt_word (fst (ack_batches (Z.to_nat h) h st2))
                  (handled_descs ev * rd_offset cfg) ltac:(lia) Hby)
        as (Hpk & Hpb).
      split.
      * rewrite !acked_app. cbn [acked]. rewrite Hea, Hsum, Hta, Hpk, Hpb.
        cbn [fst snd]. f_equal; lia.
      * apply Forall_app. split; [exact Hef|].
        apply Forall_app. split; [|exact Htf].
        apply Forall_app. split; [exact Hfit|].
        constructor; [|constructor]. cbn [pkt_fits]. rewrite Hpk.
        unfold EIP197_xDR_PROC_xD_PKT_MASK. lia.
Qed.

(** The loop of [safexcel_dequeue] touches neither the busy mark nor the
    remembered threshold. *)
Lemma dequeue_handle_req_keeps q :
  forall r b (st : safexcel_ring request W) acc,
    busy (fst (dequeue_handle_req send q r b st acc)) = busy st /\
    thresh_written (fst (dequeue_handle_req send q r b st acc))
      = thresh_written st /\
    requests (fst (dequeue_handle_req send q r b st acc)) = requests st.
Proof.
  induction q as [|[b' r'] q IH]; intros r b st [[nreq cdesc] rdesc];
    cbn [dequeue_handle_req];
    destruct (send r (world st)) as [[[ret commands] results] w];
    destruct (negb (ret =? 0)); cbn [fst]; try (repeat split; fail).
  - destruct b; repeat split.
  - match goal with
    | |- context [dequeue_handle_req send q r' b' ?s ?a] =>
        destruct (IH r' b' s a) as (H1 & H2 & H3)
    end.
    rewrite H1, H2, H3. destruct b; repeat split.
Qed.

Lemma dequeue_bookkeeping (st : safexcel_ring request W) :
  let st' := safexcel_dequeue cfg send st in
  (requests st' <> 0 -> busy st' = true) /\
  (requests st' = 0 ->
   busy st' = busy st /\ thresh_written st' = thresh_written st) /\
  (requests st' <> 0 -> busy st = true ->
   thresh_written st' = thresh_written st) /\
  (requests st' <> 0 -> busy st = false ->
   thresh_written st' = Z.min (requests st') EIP197_MAX_BATCH_SZ).
Proof.
  unfold safexcel_dequeue.
  set (st0 := emit st (EvWritel RDR_THRESH (u32 EIP197_HIA_RDR_THRESH_PKT_MODE))).
  assert (Hk : forall res,
    res = match req st0 with
          | Some r => dequeue_handle_req send (queue st0) r (backlog st0) st0 (0, 0, 0)
          | None => match queue st0 with
                    | [] => (set_stalled st0 None None, (0, 0, 0))
                    | (b, r) :: q => dequeue_handle_req send q r b st0 (0, 0, 0)
                    end
          end ->
    busy (fst res) = busy st /\ thresh_written (fst res) = thresh_written st).
  { intros res ->. destruct (req st0) as [r|].
    - destruct (dequeue_handle_req_keeps (queue st0) r (backlog st0) st0 (0,0,0))
        as (H1 & H2 & _). rewrite H1, H2. split; reflexivity.
    - destruct (queue st0) as [|[b r] q].
      + split; reflexivity.
      + destruct (dequeue_handle_req_keeps q r b st0 (0,0,0)) as (H1 & H2 & _).
        rewrite H1, H2. split; reflexivity. }
  specialize (Hk _ eq_refl).
  destruct (match req st0 with Some _ => _ | None => _ end)
    as [st1 [[nreq cdesc] rdesc]].
  cbn [fst] in Hk. destruct Hk as [Hb Ht].
  cbn [requests emit set_requests].
  destruct (Z.eqb_spec (s32 (requests st1 + nreq)) 0) as [E | E]; cbn [negb].
  - cbn [requests busy thresh_written emit set_requests].
    repeat split; try assumption; intros; contradiction.
  - unfold safexcel_try_push_requests, EIP197_HIA_RDR_THRESH_PROC_PKT.
    cbn [requests emit set_requests busy EIP197_AVOID_DEV_READ andb].
    rewrite Hb. destruct (busy st);
      cbn [negb requests busy thresh_written emit set_requests set_busy
           set_thresh_written];
      (split; [intros _; reflexivity|]);
      (split; [intros H; contradiction|]);
      split; intros _ Hbz;
      first [discriminate Hbz | assumption | reflexivity].
Qed.

Lemma completion_bookkeeping fuel stat proc_count
    (st st' : safexcel_ring request W) :
  safexcel_handle_result_descriptor cfg handle_result rdr_req_get scan_next
    fuel stat proc_count st = Some st' ->
  busy st' = negb (requests st' =? 0) /\
  (requests st' <> 0 ->
   thresh_written st' = Z.min (requests st') EIP197_MAX_BATCH_SZ).
Proof.
  unfold safexcel_handle_result_descriptor.
  set (after_loop := if EIP197_AVOID_DEV_READ && _ then _ else _).
  destruct after_loop as [[handled st1]|]; [|discriminate].
  intros H. inversion H; subst st'; clear H.
  cbn [requests emit set_requests set_busy].
  destruct (Z.eqb_spec (s32 (requests st1 - handled)) 0) as [E | E]; cbn [negb].
  - destruct (negb (Z.land stat EIP197_xDR_ERR =? 0));
      cbn [requests busy thresh_written emit set_requests set_busy];
      rewrite E; split; try reflexivity; intros; contradiction.
  - unfold safexcel_try_push_requests, EIP197_HIA_RDR_THRESH_PROC_PKT.
    cbn [requests emit set_requests set_busy busy EIP197_AVOID_DEV_READ andb negb].
    destruct (negb (Z.land stat EIP197_xDR_ERR =? 0));
      cbn [requests busy thresh_written emit set_requests set_busy
           set_thresh_written];
      (replace (s32 (requests st1 - handled) =? 0) with false
         by (symmetry; apply Z.eqb_neq; exact E));
      split; reflexivity.
Qed.

(** X10.  The busy mark and the remembered threshold.  The ring context
    as the probe leaves it satisfies [ring_ok]: busy exactly when requests
    are in flight, and with requests in flight a remembered threshold
    between one and the smaller of the in-flight counter and the largest
    batch.  A run of [safexcel_dequeue] keeps this, as long as the counter
    does not wrap around (it starts non-negative and does not get
    smaller); a run of [safexcel_handle_result_descriptor] that returns
    establishes it from any state.  So the number of results the next
    completion run expects, [thresh_written], never exceeds the number of
    requests in flight. *)
Theorem ring_bookkeeping_invariant :
  (forall w : W, ring_ok (ring_context_init (request := request) w)) /\
  (forall st : safexcel_ring request W,
     let st' := safexcel_dequeue cfg send st in
     ring_ok st -> 0 <= requests st <= requests st' -> ring_ok st') /\
  (forall fuel stat proc_count (st st' : safexcel_ring request W),
     safexcel_handle_result_descriptor cfg handle_result rdr_req_get scan_next
       fuel stat proc_count st = Some st' ->
     ring_ok st') /\
  (forall st : safexcel_ring request W,
     ring_ok st -> 0 < requests st ->
     0 < thresh_written st <= requests st /\
     thresh_written st <= EIP197_MAX_BATCH_SZ).
Proof.
  split; [|split; [|split]].
  - intros w. unfold ring_ok. cbn [busy requests thresh_written ring_context_init].
    split; [split; [discriminate | intros H; contradiction] | lia].
  - intros st st' [Hb Ht] Hmono.
    destruct (dequeue_bookkeeping st) as (H1 & H2 & H3 & H4).
    fold st' in H1, H2, H3, H4. unfold ring_ok. split.
    + split.
      * intros Hbusy E. destruct (H2 E) as [Hbs _].
        rewrite Hbs in Hbusy. apply Hb in Hbusy. lia.
      * exact H1.
    + intros Hpos. destruct (busy st) eqn:Ebusy.
      * rewrite (H3 ltac:(lia) eq_refl).
        assert (requests st <> 0) by (apply Hb; reflexivity).
        specialize (Ht ltac:(lia)). lia.
      * rewrite (H4 ltac:(lia) eq_refl). unfold EIP197_MAX_BATCH_SZ. lia.
  - intros fuel stat proc_count st st' H.
    destruct (completion_bookkeeping fuel stat proc_count st st' H) as [Hb Ht].
    unfold ring_ok. split.
    + rewrite Hb. destruct (Z.eqb_spec (requests st') 0); split;
        intros; try discriminate; try contradiction; try reflexivity; assumption.
    + intros Hpos. rewrite Ht by lia. unfold EIP197_MAX_BATCH_SZ. lia.
  - intros st [_ Ht] Hpos. specialize (Ht Hpos). lia.
Qed.
End Facts.

(** On the example pipeline, a completion run that expects three results. *)
Lemma completion_acknowledges_handled_witness :
  let st := mk_sring (request := nat) tt [] 3 3 true None None [] in
  exists st',
    safexcel_handle_result_descriptor cfg4 handle_result_ex rdr_req_get_ex
      scan_next_ex 10 EIP197_xDR_THRESH 0 st = Some st' /\
    exists new,
      trace st' = trace st ++ new /\
      (completions new < 2 ^ 31 ->
       0 <= handled_descs new * rd_offset cfg4 < 2 ^ 24 ->
       acked new = (completions new, handled_descs new * rd_offset cfg4) /\
       Forall pkt_fits new) /\
      (Z.land EIP197_xDR_THRESH EIP197_xDR_THRESH = 0 ->
       existsb is_result_or_complete new = false /\ acked new = (0, 0) /\
       requests st' = s32 (requests st)).
Proof.
  intros st.
  destruct (safexcel_handle_result_descriptor cfg4 handle_result_ex
              rdr_req_get_ex scan_next_ex 10 EIP197_xDR_THRESH 0 st)
    as [st'|] eqn:E.
  - exists st'. split; [reflexivity|].
    apply (completion_acknowledges_handled nat unit cfg4 handle_result_ex
             rdr_req_get_ex scan_next_ex 10 EIP197_xDR_THRESH 0 st st' E).
    simpl. lia.
  - vm_compute in E. discriminate.
Defined.

(** On the example pipeline: requests 2 and 3 are sent, the backlog target
    9 that came with request 3 is notified, and request 1 fails and stays
    as the stalled request. *)
Example prepared_counts_example :
  let st := mk_sring (request := nat) tt
              [(None, 2%nat); (Some 9%nat, 3%nat); (None, 1%nat); (None, 4%nat)]
              0 0 false None None [] in
  let st' := safexcel_dequeue cfg4 send_ex st in
  prepared (trace st') = (2, 2) /\
  notified (trace st') = [(9%nat, - EINPROGRESS)] /\
  req st' = Some 1%nat /\ requests st' = 2.
Proof.
  cbn zeta. repeat split; vm_compute; reflexivity.
Qed.

End CountFacts.

Module HashStateFacts.
Import Hash HashState.

Section Facts.
Variable cfg : safexcel_config.
Variable need_inv : bool.
Variables md5_zero_message_hash sha1_zero_message_hash
          sha224_zero_message_hash sha256_zero_message_hash
          sha384_zero_message_hash sha512_zero_message_hash : list Z.
Variable dma_pool_zalloc : Z.
Variable crypto_enqueue_request : Z -> Z.
Variable needs_inv_get : bool.
Variable blocksize : Z.
Variable src : list Z.
Variable crypto_ahash_init : hash_req -> Z * hash_req.

(** X11.  [safexcel_ahash_enqueue].  The request's own invalidation flag
    is cleared first, whatever it was.  Without a context record, the
    record is allocated: if that fails the call returns [-ENOMEM] and
    neither selects a ring nor enqueues anything; the request needs no
    invalidation.  With a context record, the context's invalidation flag
    (looked up first, when the engine needs invalidation, the flag is not
    set, data was processed and the digest is precomputed) moves to the
    request and is cleared in the context.  In every case but the failed
    allocation, exactly one ring is selected, inside the configured range,
    the request is put on that ring's queue and that ring's work is
    scheduled, in this order, and the call returns what the queue
    returned. *)
Theorem ahash_enqueue_effect ctx areq req d :
  0 < rings cfg <= 2 ^ 31 ->
  let '(ret, areq', req', ctx', d') :=
    Hash.safexcel_ahash_enqueue cfg need_inv dma_pool_zalloc
      crypto_enqueue_request needs_inv_get ctx areq req d in
  areq' = areq /\
  last_req req' = last_req req /\ finish req' = finish req /\
  digest req' = digest req /\ len req' = len req /\
  processed req' = processed req /\ alg ctx' = alg ctx /\
  (ctxr ctx = 0 -> needs_inv req' = false /\ ctxr ctx' = dma_pool_zalloc /\
                   base_needs_inv ctx' = base_needs_inv ctx) /\
  (ctxr ctx <> 0 ->
     ctxr ctx' = ctxr ctx /\ base_needs_inv ctx' = false /\
     needs_inv req' =
       (base_needs_inv ctx ||
        (need_inv &&
         (negb (fst (processed req) =? 0) || negb (snd (processed req) =? 0)) &&
         (digest req =? CONTEXT_CONTROL_DIGEST_PRECOMPUTED) &&
         needs_inv_get))) /\
  (ctxr ctx = 0 /\ dma_pool_zalloc = 0 -> ret = - ENOMEM /\ d' = d) /\
  (ctxr ctx <> 0 \/ dma_pool_zalloc <> 0 ->
     let ring := u32 (ring_used d + 1) mod rings cfg in
     0 <= ring < rings cfg /\
     ret = crypto_enqueue_request ring /\
     ring_used d' = s32 (ring_used d + 1) /\
     actions d' = actions d ++ [ActEnqueue ring; ActQueueWork ring]).
Proof.
  intros Hr. unfold Hash.safexcel_ahash_enqueue.
  rewrite (SelectFacts.select_ring_index cfg (ring_used d) Hr).
  pose proof (Z.mod_pos_bound (u32 (ring_used d + 1)) (rings cfg) ltac:(lia))
    as Hring.
  cbn [processed digest set_needs_inv].
  destruct (Z.eqb_spec (ctxr ctx) 0) as [Ec | Ec]; cbn [negb].
  - cbn [ctxr]. destruct (Z.eqb_spec dma_pool_zalloc 0) as [Ez | Ez];
      cbn [last_req finish needs_inv digest len processed set_needs_inv
           alg ctxr base_needs_inv ring_used actions];
      repeat split; try reflexivity; try assumption; try lia;
      try (intros; lia); try (intros [? | ?]; contradiction).
  - destruct (base_needs_inv ctx) eqn:Eb; cbn [negb andb orb].
    + rewrite andb_false_r. cbn [andb]. rewrite Eb.
      cbn [last_req finish needs_inv digest len processed set_needs_inv
           alg ctxr base_needs_inv ring_used actions].
      repeat split; try reflexivity; try assumption; try lia;
        try (intros; lia); try (intros [? ?]; contradiction).
    + rewrite andb_true_r.
      destruct (need_inv &&
                (negb (fst (processed req) =? 0)
                 || negb (snd (processed req) =? 0)) &&
                (digest req =? CONTEXT_CONTROL_DIGEST_PRECOMPUTED)) eqn:Ecnd;
        cbn [andb base_needs_inv]; [destruct needs_inv_get|rewrite Eb];
        cbn [last_req finish needs_inv digest len processed set_needs_inv
             alg ctxr base_needs_inv ring_used actions];
        repeat split; try reflexivity; try assumption; try lia;
        try (intros; lia); try (intros [? ?]; contradiction).
Qed.

(** [safexcel_ahash_enqueue] keeps the lengths, the flags of the final
    call and the digest type of the request. *)
Lemma enqueue_fields ctx areq req d :
  let '(ret, areq', req', ctx', d') :=
    Hash.safexcel_ahash_enqueue cfg need_inv dma_pool_zalloc
      crypto_enqueue_request needs_inv_get ctx areq req d in
  areq' = areq /\ len req' = len req /\ processed req' = processed req /\
  digest req' = digest req /\ last_req req' = last_req req /\
  finish req' = finish req.
Proof.
  unfold Hash.safexcel_ahash_enqueue.
  destruct (Ring.safexcel_select_ring cfg (ring_used d)) as [ring used].
  cbn [processed digest set_needs_inv].
  destruct (negb (ctxr ctx =? 0)).
  - destruct (base_needs_inv
                (if need_inv && negb (base_needs_inv ctx) &&
                    (negb (fst (processed req) =? 0)
                     || negb (snd (processed req) =? 0)) &&
                    (digest req =? CONTEXT_CONTROL_DIGEST_PRECOMPUTED)
                 then mk_ctx (alg ctx) (ctxr ctx) needs_inv_get
                 else ctx)); repeat split.
  - cbn [ctxr]. destruct (dma_pool_zalloc =? 0); repeat split.
Qed.

Lemma cache_keeps areq req :
  let req' := snd (safexcel_ahash_cache blocksize src areq req) in
  core req' = core req /\ hmac req' = hmac req /\ state req' = state req /\
  state_sz req' = state_sz req /\ cache_next req' = cache_next req.
Proof.
  unfold safexcel_ahash_cache.
  destruct (u64 _ <=? blocksize); repeat split.
Qed.

(** The carry of the low length word is detected. *)
Lemma len_carry l0 l1 n :
  0 <= l0 < 2 ^ 64 -> 0 <= l1 < 2 ^ 64 -> 0 <= n < 2 ^ 64 ->
  let l0' := u64 (l0 + n) in
  let l1' := if l0' <? n then u64 (l1 + 1) else l1 in
  (l0' + 2 ^ 64 * l1') mod 2 ^ 128 = (l0 + 2 ^ 64 * l1 + n) mod 2 ^ 128 /\
  0 <= l0' < 2 ^ 64 /\ 0 <= l1' < 2 ^ 64 /\
  (l0 + n < 2 ^ 64 -> l0' = l0 + n /\ l1' = l1).
Proof.
  intros H0 H1 Hn. cbn zeta. unfold u64.
  destruct (Z_lt_ge_dec (l0 + n) (2 ^ 64)) as [Hs | Hb].
  - rewrite (Z.mod_small (l0 + n)) by lia.
    destruct (Z.ltb_spec (l0 + n) n); [lia|].
    repeat split; try lia. f_equal. lia.
  - replace ((l0 + n) mod 2 ^ 64) with (l0 + n - 2 ^ 64).
    2:{ symmetry. replace (l0 + n) with ((l0 + n - 2 ^ 64) + 1 * 2 ^ 64) at 1 by lia.
        rewrite Z.mod_add by lia. apply Z.mod_small. lia. }
    destruct (Z.ltb_spec (l0 + n - 2 ^ 64) n); [|lia].
    pose proof (Z.mod_pos_bound (l1 + 1) (2 ^ 64) ltac:(lia)).
    split; [|repeat split; lia].
    destruct (Z.eq_dec l1 (2 ^ 64 - 1)) as [-> | Hne].
    + replace (2 ^ 64 - 1 + 1) with (1 * 2 ^ 64) by lia.
      rewrite Z.mod_mul by lia.
      replace (l0 + 2 ^ 64 * (2 ^ 64 - 1) + n)
        with (l0 + n - 2 ^ 64 + 2 ^ 64 * 0 + 1 * 2 ^ 128) by lia.
      rewrite Z.mod_add by lia. reflexivity.
    + rewrite (Z.mod_small (l1 + 1)) by lia. f_equal. lia.
Qed.

(** X12.  [safexcel_ahash_update] and the length of the message.  An
    update of no bytes changes nothing and returns 0.  An update of
    [nbytes] bytes adds [nbytes] to the 128-bit length held in the two
    words of [len], the carry from the low word included, and leaves the
    count of processed bytes, the state words and the arguments alone;
    for an HMAC digest it returns 0 and enqueues nothing. *)
Theorem ahash_update_length ctx areq req d :
  (nbytes areq = 0 ->
   safexcel_ahash_update cfg need_inv dma_pool_zalloc crypto_enqueue_request
     needs_inv_get blocksize src ctx areq req d = (0, areq, req, ctx, d)) /\
  (0 <= fst (len (core req)) < 2 ^ 64 ->
   0 <= snd (len (core req)) < 2 ^ 64 ->
   0 < nbytes areq < 2 ^ 32 ->
   let '(ret, areq', req', ctx', d') :=
     safexcel_ahash_update cfg need_inv dma_pool_zalloc crypto_enqueue_request
       needs_inv_get blocksize src ctx areq req d in
   (fst (len (core req')) + 2 ^ 64 * snd (len (core req'))) mod 2 ^ 128 =
     (fst (len (core req)) + 2 ^ 64 * snd (len (core req)) + nbytes areq)
       mod 2 ^ 128 /\
   0 <= fst (len (core req')) < 2 ^ 64 /\
   0 <= snd (len (core req')) < 2 ^ 64 /\
   processed (core req') = processed (core req) /\
   state req' = state req /\ areq' = areq /\
   (digest (core req) = CONTEXT_CONTROL_DIGEST_HMAC ->
    ret = 0 /\ ctx' = ctx /\ d' = d)).
Proof.
  split.
  - intros Hz. unfold safexcel_ahash_update. rewrite Hz. reflexivity.
  - intros H0 H1 Hn. unfold safexcel_ahash_update.
    replace (nbytes areq =? 0) with false by (symmetry; apply Z.eqb_neq; lia).
    destruct (len_carry (fst (len (core req))) (snd (len (core req)))
                (nbytes areq) H0 H1 ltac:(lia)) as (Hsum & Hr0 & Hr1 & _).
    cbn zeta in Hsum, Hr0, Hr1.
    set (len0 := u64 (fst (len (core req)) + nbytes areq)) in *.
    set (len1 := if len0 <? nbytes areq then _ else _) in *.
    set (req1 := set_core req (set_len (core req) (len0, len1))).
    pose proof (cache_keeps areq req1) as Hk. cbn zeta in Hk.
    destruct (safexcel_ahash_cache blocksize src areq req1) as [r req2].
    cbn [snd] in Hk. destruct Hk as (Hc & Hh & Hs & _).
    subst req1. cbn [core set_core state hmac] in Hc, Hh, Hs.
    rewrite Hc. cbn [digest set_len].
    destruct (Z.eqb_spec (digest (core req)) CONTEXT_CONTROL_DIGEST_HMAC)
      as [Ed | Ed].
    + rewrite Hc, Hs. cbn [core set_core len set_len processed state fst snd].
      repeat split; try assumption; try reflexivity; lia.
    + assert (Henq :
        let '(ret, areq', req', ctx', d') :=
          enqueue cfg need_inv dma_pool_zalloc crypto_enqueue_request
            needs_inv_get ctx areq req2 d in
        (fst (len (core req')) + 2 ^ 64 * snd (len (core req'))) mod 2 ^ 128 =
          (fst (len (core req)) + 2 ^ 64 * snd (len (core req)) + nbytes areq)
            mod 2 ^ 128 /\
        0 <= fst (len (core req')) < 2 ^ 64 /\
        0 <= snd (len (core req')) < 2 ^ 64 /\
        processed (core req') = processed (core req) /\
        state req' = state req /\ areq' = areq /\
        (digest (core req) = CONTEXT_CONTROL_DIGEST_HMAC ->
         ret = 0 /\ ctx' = ctx /\ d' = d)).
      { unfold enqueue, lift_core.
        pose proof (enqueue_fields ctx areq (core req2) d) as He.
        destruct (Hash.safexcel_ahash_enqueue cfg need_inv dma_pool_zalloc
                    crypto_enqueue_request needs_inv_get ctx areq (core req2) d)
          as [[[[ret areq'] c'] ctx'] d'].
        destruct He as (Ha & Hl & Hp & _).
        cbn [core set_core state]. rewrite Hl, Hp, Hc, Hs.
        cbn [len set_len processed fst snd state set_core].
        repeat split; try assumption; try lia. }
      destruct (hmac req2); [exact Henq|].
      match goal with
      | |- context [if ?c then enqueue _ _ _ _ _ _ _ _ _ else _] =>
          destruct c; [exact Henq|]
      end.
      rewrite Hc, Hs. cbn [core set_core len set_len processed state fst snd].
      repeat split; try assumption; try reflexivity; try lia.
Qed.

Lemma buf_write_prefix (buf data : list Z) (ofs : nat) :
  (ofs + length data <= length buf)%nat ->
  firstn (ofs + length data) (buf_write buf ofs data) = firstn ofs buf ++ data /\
  length (buf_write buf ofs data) = length buf.
Proof.
  intros H. unfold buf_write. split.
  - rewrite app_assoc.
    rewrite firstn_app.
    rewrite length_app, length_firstn, Nat.min_l by lia.
    rewrite Nat.sub_diag. cbn [firstn]. rewrite app_nil_r.
    apply firstn_all2. rewrite length_app, length_firstn. lia.
  - rewrite !length_app, length_firstn, length_skipn. lia.
Qed.

Lemma u64_small x : 0 <= x < 2 ^ 64 -> u64 x = x.
Proof. intros H. apply Z.mod_small. exact H. Qed.

(** X13.  [safexcel_ahash_update] and the cache.  For a request whose
    lengths have not wrapped (the high words of [len] and [processed]
    agree and the low word does not overflow), with [queued] bytes accepted
    and not yet processed: [safexcel_queued_len] is [queued] before the
    update and [queued + nbytes] after it.  When that still fits a block,
    the new bytes are stored in the cache right behind the [queued] bytes
    held there, and, unless this is an HMAC key pass, nothing is enqueued.
    When it does not fit, the cache is left alone and, for a plain digest
    that is not yet at its last request, the request is enqueued with the
    new length; at the last request the update itself enqueues nothing. *)
Theorem ahash_update_caches ctx areq req d :
  let c := core req in
  let queued := fst (len c) - fst (processed c) in
  let n := nbytes areq in
  snd (len c) = snd (processed c) ->
  0 <= fst (processed c) <= fst (len c) -> fst (len c) + n < 2 ^ 64 ->
  0 < n < 2 ^ 32 -> 0 <= blocksize ->
  let '(ret, areq', req', ctx', d') :=
    safexcel_ahash_update cfg need_inv dma_pool_zalloc crypto_enqueue_request
      needs_inv_get blocksize src ctx areq req d in
  safexcel_queued_len c = queued /\
  safexcel_queued_len (core req') = queued + n /\
  (queued + n <= blocksize ->
   cache req' = buf_write (cache req) (Z.to_nat queued)
                  (firstn (Z.to_nat n) src) /\
   (n <= Z.of_nat (length src) ->
    queued + n <= Z.of_nat (length (cache req)) ->
    firstn (Z.to_nat (queued + n)) (cache req') =
      firstn (Z.to_nat queued) (cache req) ++ firstn (Z.to_nat n) src /\
    length (cache req') = length (cache req)) /\
   (hmac req = false -> ret = 0 /\ ctx' = ctx /\ d' = d)) /\
  (blocksize < queued + n ->
   cache req' = cache req /\
   (digest c <> CONTEXT_CONTROL_DIGEST_HMAC -> hmac req = false ->
    last_req c = false ->
    (ret, areq', core req', ctx', d') =
      Hash.safexcel_ahash_enqueue cfg need_inv dma_pool_zalloc
        crypto_enqueue_request needs_inv_get ctx areq
        (set_len c (fst (len c) + n, snd (len c))) d) /\
   (digest c <> CONTEXT_CONTROL_DIGEST_HMAC -> hmac req = false ->
    last_req c = true -> ret = 0 /\ ctx' = ctx /\ d' = d)).
Proof.
  cbn zeta. intros Hhi Hlo Hnw Hn Hbs.
  assert (Hq0 : safexcel_queued_len (core req)
                = fst (len (core req)) - fst (processed (core req))).
  { unfold safexcel_queued_len. rewrite Hhi, Z.ltb_irrefl.
    apply u64_small. lia. }
  unfold safexcel_ahash_update.
  replace (nbytes areq =? 0) with false by (symmetry; apply Z.eqb_neq; lia).
  rewrite (u64_small (fst (len (core req)) + nbytes areq)) by lia.
  replace (fst (len (core req)) + nbytes areq <? nbytes areq) with false
    by (symmetry; apply Z.ltb_ge; lia).
  set (c1 := set_len (core req)
               (fst (len (core req)) + nbytes areq, snd (len (core req)))).
  assert (Hq1 : safexcel_queued_len c1
                = fst (len (core req)) - fst (processed (core req))
                  + nbytes areq).
  { unfold safexcel_queued_len, c1. cbn [len processed set_len fst snd].
    rewrite Hhi, Z.ltb_irrefl. rewrite u64_small by lia. lia. }
  unfold safexcel_ahash_cache. cbn [core set_core]. rewrite Hq1.
  replace (fst (len (core req)) - fst (processed (core req)) + nbytes areq
           - nbytes areq)
    with (fst (len (core req)) - fst (processed (core req))) by lia.
  rewrite (u64_small (fst (len (core req)) - fst (processed (core req))))
    by lia.
  rewrite u64_small by lia.
  set (queued := fst (len (core req)) - fst (processed (core req))) in *.
  assert (Hdig : digest c1 = digest (core req)) by reflexivity.
  assert (Hlast : last_req c1 = last_req (core req)) by reflexivity.
  destruct (Z.leb_spec (queued + nbytes areq) blocksize) as [Hfit | Hbig];
    cbn [core set_core set_cache hmac cache]; rewrite Hdig, Hlast, Hq1.
  - replace (blocksize <? queued + nbytes areq) with false
      by (symmetry; apply Z.ltb_ge; lia).
    rewrite andb_false_r.
    assert (Hpre : nbytes areq <= Z.of_nat (length src) ->
              queued + nbytes areq <= Z.of_nat (length (cache req)) ->
              firstn (Z.to_nat (queued + nbytes areq))
                (buf_write (cache req) (Z.to_nat queued)
                   (firstn (Z.to_nat (nbytes areq)) src)) =
              firstn (Z.to_nat queued) (cache req)
                ++ firstn (Z.to_nat (nbytes areq)) src /\
              length (buf_write (cache req) (Z.to_nat queued)
                        (firstn (Z.to_nat (nbytes areq)) src))
              = length (cache req)).
    { intros Hs Hc.
      assert (Hl : length (firstn (Z.to_nat (nbytes areq)) src)
                   = Z.to_nat (nbytes areq))
        by (rewrite length_firstn; lia).
      replace (Z.to_nat (queued + nbytes areq))
        with (Z.to_nat queued
              + length (firstn (Z.to_nat (nbytes areq)) src))%nat
        by (rewrite Hl; lia).
      apply buf_write_prefix. rewrite Hl. lia. }
    destruct (digest (core req) =? CONTEXT_CONTROL_DIGEST_HMAC);
      [|destruct (hmac req) eqn:Ehm];
      try (cbn [core set_core set_cache cache];
           split; [exact Hq0|]; split; [exact Hq1|];
           split; [intros _; split; [reflexivity|];
                   split; [exact Hpre | intros _; repeat split]
                  | intros; lia]).
    unfold enqueue, lift_core. cbn [core set_core set_cache].
    destruct (Hash.safexcel_ahash_enqueue cfg need_inv dma_pool_zalloc
                crypto_enqueue_request needs_inv_get ctx areq c1 d)
      as [[[[ret areq'] c'] ctx'] d'] eqn:Ee.
    pose proof (enqueue_fields ctx areq c1 d) as Hf. rewrite Ee in Hf.
    destruct Hf as (_ & Hl & Hp & _).
    cbn [core set_core set_cache cache].
    split; [exact Hq0|]. split.
    { unfold safexcel_queued_len. rewrite Hl, Hp. exact Hq1. }
    split; [|intros; lia]. intros _. split; [reflexivity|].
    split; [exact Hpre | discriminate].
  - replace (blocksize <? queued + nbytes areq) with true
      by (symmetry; apply Z.ltb_lt; lia).
    rewrite andb_true_r.
    destruct (Z.eqb_spec (digest (core req)) CONTEXT_CONTROL_DIGEST_HMAC)
      as [Ed | Ed].
    { cbn [core set_core cache]. split; [exact Hq0|]. split; [exact Hq1|].
      split; [intros; lia|]. intros _. split; [reflexivity|].
      split; intros; contradiction. }
    assert (Henq :
      let '(ret, areq', req', ctx', d') :=
        enqueue cfg need_inv dma_pool_zalloc crypto_enqueue_request
          needs_inv_get ctx areq (set_core req c1) d in
      safexcel_queued_len (core req) = queued /\
      safexcel_queued_len (core req') = queued + nbytes areq /\
      cache req' = cache req /\
      (ret, areq', core req', ctx', d') =
        Hash.safexcel_ahash_enqueue cfg need_inv dma_pool_zalloc
          crypto_enqueue_request needs_inv_get ctx areq c1 d).
    { unfold enqueue, lift_core. cbn [core set_core].
      destruct (Hash.safexcel_ahash_enqueue cfg need_inv dma_pool_zalloc
                  crypto_enqueue_request needs_inv_get ctx areq c1 d)
        as [[[[ret areq'] c'] ctx'] d'] eqn:Ee.
      pose proof (enqueue_fields ctx areq c1 d) as Hf. rewrite Ee in Hf.
      destruct Hf as (_ & Hl & Hp & _).
      cbn [core set_core cache].
      split; [exact Hq0|]. split.
      { unfold safexcel_queued_len. rewrite Hl, Hp. exact Hq1. }
      split; reflexivity. }
    destruct (hmac req) eqn:Ehm.
    { destruct (enqueue cfg need_inv dma_pool_zalloc crypto_enqueue_request
                  needs_inv_get ctx areq (set_core req c1) d)
        as [[[[ret areq'] req'] ctx'] d'].
      destruct Henq as (H1 & H2 & H3 & H4).
      split; [exact H1|]. split; [exact H2|]. split; [intros; lia|].
      intros _. split; [exact H3|]. split; intros; discriminate. }
    destruct (last_req (core req)) eqn:El; cbn [negb].
    { cbn [core set_core cache]. split; [exact Hq0|]. split; [exact Hq1|].
      split; [intros; lia|]. intros _. split; [reflexivity|].
      split; [intros; discriminate | intros; repeat split]. }
    destruct (enqueue cfg need_inv dma_pool_zalloc crypto_enqueue_request
                needs_inv_get ctx areq (set_core req c1) d)
      as [[[[ret areq'] req'] ctx'] d'].
    destruct Henq as (H1 & H2 & H3 & H4).
    split; [exact H1|]. split; [exact H2|]. split; [intros; lia|].
    intros _. split; [exact H3|]. split; [intros; exact H4 | intros; discriminate].
Qed.

Lemma memcpy_prefix (dst from : list Z) (n : nat) :
  (n <= length from)%nat ->
  firstn n (memcpy dst from n) = firstn n from /\
  (n <= length (memcpy dst from n))%nat.
Proof.
  intros H. unfold memcpy.
  assert (Hl : length (firstn n from) = n) by (rewrite length_firstn; lia).
  split.
  - rewrite firstn_app, Hl, Nat.sub_diag. cbn [firstn]. rewrite app_nil_r.
    apply firstn_all2. lia.
  - rewrite length_app, Hl. lia.
Qed.

(** X14.  Export and import.  When the state of a request is exported and
    imported into a request of the same algorithm (its init function
    succeeds and sets the same state size), the imported request has the
    lengths, the processed counts and the digest type of the exported one,
    hence the same amount of queued data, the same state bytes up to the
    state size and the same cached bytes up to the block size; its flags
    are as the init function left them.  When the init function fails,
    import returns its error and copies nothing. *)
Theorem export_import_round_trip req out req0 r1 e :
  crypto_ahash_init req0 = (e, r1) ->
  (e <> 0 ->
   safexcel_ahash_import blocksize crypto_ahash_init req0
     (snd (safexcel_ahash_export blocksize req out)) = (e, r1)) /\
  (e = 0 -> state_sz r1 = state_sz req ->
   (Z.to_nat (state_sz req) <= length (state req))%nat ->
   (Z.to_nat blocksize <= length (cache req))%nat ->
   let '(ret, r2) :=
     safexcel_ahash_import blocksize crypto_ahash_init req0
       (snd (safexcel_ahash_export blocksize req out)) in
   ret = 0 /\
   len (core r2) = len (core req) /\
   processed (core r2) = processed (core req) /\
   digest (core r2) = digest (core req) /\
   safexcel_queued_len (core r2) = safexcel_queued_len (core req) /\
   firstn (Z.to_nat (state_sz req)) (state r2) =
     firstn (Z.to_nat (state_sz req)) (state req) /\
   firstn (Z.to_nat blocksize) (cache r2) =
     firstn (Z.to_nat blocksize) (cache req) /\
   last_req (core r2) = last_req (core r1) /\
   finish (core r2) = finish (core r1) /\
   needs_inv (core r2) = needs_inv (core r1) /\
   hmac r2 = hmac r1 /\ state_sz r2 = state_sz r1).
Proof.
  intros Hinit. unfold safexcel_ahash_import, safexcel_ahash_export.
  rewrite Hinit. cbn [snd ex_len ex_processed ex_digest ex_state ex_cache].
  split.
  - intros He. replace (e =? 0) with false
      by (symmetry; apply Z.eqb_neq; exact He). reflexivity.
  - intros -> Hsz Hs Hc. cbn [Z.eqb negb].
    cbn [core set_core set_cache set_state set_len set_processed set_digest
         len processed digest last_req finish needs_inv hmac state_sz state
         cache].
    destruct (memcpy_prefix (ex_state out) (state req)
                (Z.to_nat (state_sz req)) Hs) as (Hs1 & Hs2).
    destruct (memcpy_prefix (ex_cache out) (cache req)
                (Z.to_nat blocksize) Hc) as (Hc1 & Hc2).
    split; [reflexivity|]. split; [reflexivity|]. split; [reflexivity|].
    split; [reflexivity|]. split; [reflexivity|].
    split.
    { rewrite Hsz.
      rewrite (proj1 (memcpy_prefix (state r1) _ (Z.to_nat (state_sz req)) Hs2)).
      exact Hs1. }
    split.
    { rewrite (proj1 (memcpy_prefix (cache r1) _ (Z.to_nat blocksize) Hc2)).
      exact Hc1. }
    repeat split.
Qed.

(** What [safexcel_ahash_enqueue] returns and does to the driver. *)
Lemma enqueue_driver ctx areq req d :
  0 < rings cfg <= 2 ^ 31 ->
  let '(ret, areq', req', ctx', d') :=
    Hash.safexcel_ahash_enqueue cfg need_inv dma_pool_zalloc
      crypto_enqueue_request needs_inv_get ctx areq req d in
  (ctxr ctx = 0 /\ dma_pool_zalloc = 0 -> ret = - ENOMEM /\ d' = d) /\
  (ctxr ctx <> 0 \/ dma_pool_zalloc <> 0 ->
     let ring := u32 (ring_used d + 1) mod rings cfg in
     ret = crypto_enqueue_request ring /\
     ring_used d' = s32 (ring_used d + 1) /\
     actions d' = actions d ++ [ActEnqueue ring; ActQueueWork ring]).
Proof.
  intros Hr. unfold Hash.safexcel_ahash_enqueue.
  rewrite (SelectFacts.select_ring_index cfg (ring_used d) Hr).
  cbn [processed digest set_needs_inv].
  destruct (Z.eqb_spec (ctxr ctx) 0) as [Ec | Ec]; cbn [negb].
  - cbn [ctxr]. destruct (Z.eqb_spec dma_pool_zalloc 0) as [Ez | Ez];
      cbn [ring_used actions]; split;
      try (intros [? ?]; try contradiction; split; reflexivity);
      try (intros [? | ?]; try contradiction; repeat split).
  - destruct (base_needs_inv
                (if need_inv && negb (base_needs_inv ctx) &&
                    (negb (fst (processed req) =? 0)
                     || negb (snd (processed req) =? 0)) &&
                    (digest req =? CONTEXT_CONTROL_DIGEST_PRECOMPUTED)
                 then mk_ctx (alg ctx) (ctxr ctx) needs_inv_get
                 else ctx));
      cbn [ring_used actions]; split;
      try (intros [? ?]; contradiction);
      intros _; repeat split.
Qed.

(** With [last_req] set and no HMAC key pass, an update enqueues
    nothing. *)
Lemma update_last_req ctx areq req d :
  last_req (core req) = true -> hmac req = false ->
  let '(ret, areq', req', ctx', d') :=
    safexcel_ahash_update cfg need_inv dma_pool_zalloc crypto_enqueue_request
      needs_inv_get blocksize src ctx areq req d in
  ret = 0 /\ areq' = areq /\ ctx' = ctx /\ d' = d /\
  last_req (core req') = true /\ finish (core req') = finish (core req) /\
  needs_inv (core req') = needs_inv (core req) /\
  digest (core req') = digest (core req) /\
  processed (core req') = processed (core req).
Proof.
  intros Hl Hh. unfold safexcel_ahash_update.
  destruct (nbytes areq =? 0); [repeat split; exact Hl|].
  set (req1 := set_core req _).
  pose proof (cache_keeps areq req1) as Hk. cbn zeta in Hk.
  destruct (safexcel_ahash_cache blocksize src areq req1) as [r req2].
  cbn [snd] in Hk. destruct Hk as (Hc & Hhm & _).
  subst req1. cbn [core set_core hmac] in Hc, Hhm.
  rewrite Hc, Hhm, Hh. cbn [digest last_req set_len]. rewrite Hl.
  cbn [negb andb].
  destruct (digest (core req) =? CONTEXT_CONTROL_DIGEST_HMAC);
    rewrite Hc; cbn [last_req finish needs_inv digest processed set_len];
    repeat split; exact Hl.
Qed.

(** X15.  [safexcel_ahash_finup] enqueues once.  For a request that is
    not an HMAC key pass, with data to hash: the update inside finup
    enqueues nothing, because the request is marked last before it; the
    final call then enqueues the request, exactly once, on one ring whose
    work it schedules, and finup returns what the queue returned; if the
    context record cannot be allocated it returns [-ENOMEM] and nothing is
    enqueued.  The request leaves with [last_req] and [finish] set. *)
Theorem ahash_finup_enqueues_once ctx areq req d :
  0 < rings cfg <= 2 ^ 31 ->
  hmac req = false -> nbytes areq <> 0 ->
  let '(ret, areq', req', ctx', d') :=
    safexcel_ahash_finup cfg need_inv md5_zero_message_hash
      sha1_zero_message_hash sha224_zero_message_hash
      sha256_zero_message_hash sha384_zero_message_hash
      sha512_zero_message_hash dma_pool_zalloc crypto_enqueue_request
      needs_inv_get blocksize src ctx areq req d in
  areq' = areq /\
  last_req (core req') = true /\ finish (core req') = true /\
  processed (core req') = processed (core req) /\
  (ctxr ctx = 0 /\ dma_pool_zalloc = 0 -> ret = - ENOMEM /\ d' = d) /\
  (ctxr ctx <> 0 \/ dma_pool_zalloc <> 0 ->
     let ring := u32 (ring_used d + 1) mod rings cfg in
     ret = crypto_enqueue_request ring /\
     ring_used d' = s32 (ring_used d + 1) /\
     actions d' = actions d ++ [ActEnqueue ring; ActQueueWork ring]).
Proof.
  intros Hr Hh Hn. unfold safexcel_ahash_finup.
  set (req0 := set_core req (set_last_finish (core req))).
  pose proof (update_last_req ctx areq req0 d eq_refl Hh) as Hu.
  destruct (safexcel_ahash_update cfg need_inv dma_pool_zalloc
              crypto_enqueue_request needs_inv_get blocksize src ctx areq req0 d)
    as [[[[r1 areq1] req1] ctx1] d1].
  destruct Hu as (_ & -> & -> & -> & Hl1 & Hf1 & _ & _ & Hp1).
  subst req0. cbn [core set_core finish processed set_last_finish] in Hf1, Hp1.
  unfold final, lift_core, Hash.safexcel_ahash_final.
  cbn [len nbytes].
  replace (nbytes areq =? 0) with false by (symmetry; apply Z.eqb_neq; exact Hn).
  rewrite andb_false_r.
  set (c := mk_sreq true true _ _ _ _).
  pose proof (enqueue_fields ctx areq c d) as Hfld.
  pose proof (enqueue_driver ctx areq c d Hr) as Hdrv.
  destruct (Hash.safexcel_ahash_enqueue cfg need_inv dma_pool_zalloc
              crypto_enqueue_request needs_inv_get ctx areq c d)
    as [[[[ret areq'] c'] ctx'] d'].
  destruct Hfld as (Ha & _ & Hp & _ & Hl & Hf).
  destruct Hdrv as (Hfail & Hok).
  cbn [core set_core]. subst c. cbn [last_req finish processed] in Hp, Hl, Hf.
  split; [exact Ha|]. split; [exact Hl|]. split; [exact Hf|].
  split; [rewrite Hp; exact Hp1|]. split; [exact Hfail | exact Hok].
Qed.

End Facts.

Ltac zc :=
  repeat split; vm_compute; first [reflexivity | discriminate | lia].

Lemma ahash_enqueue_effect_witness :
  let '(ret, areq', req', ctx', d') :=
    Hash.safexcel_ahash_enqueue cfg4 true 0x2000 enq_ex false sha1_ctx
      areq10 (core sha1_req) (mk_driver 0 []) in
  ret = - EINPROGRESS /\ ctxr ctx' = 0x2000 /\ needs_inv req' = false /\
  actions d' = [ActEnqueue 0; ActQueueWork 0].
Proof.
  pose proof (ahash_enqueue_effect cfg4 true 0x2000 enq_ex false sha1_ctx
                areq10 (core sha1_req) (mk_driver 0 [])
                ltac:(zc)) as H.
  destruct (Hash.safexcel_ahash_enqueue cfg4 true 0x2000 enq_ex false sha1_ctx
              areq10 (core sha1_req) (mk_driver 0 []))
    as [[[[ret areq'] req'] ctx'] d'].
  destruct H as (_ & _ & _ & _ & _ & _ & _ & H0 & _ & _ & Hok).
  destruct (H0 eq_refl) as (Hn & Hc & _).
  destruct Hok as (_ & Hret & _ & Hact); [right; vm_compute; discriminate|].
  split; [exact Hret|]. split; [exact Hc|]. split; [exact Hn | exact Hact].
Defined.

Lemma ahash_update_caches_witness :
  let '(ret, areq', req', ctx', d') :=
    safexcel_ahash_update cfg4 true 0x2000 enq_ex false 64 ten_bytes
      sha1_ctx areq10 sha1_req (mk_driver 0 []) in
  safexcel_queued_len (core req') = 10 /\
  firstn 10 (cache req') = ten_bytes /\
  ret = 0 /\ d' = mk_driver 0 [].
Proof.
  pose proof (ahash_update_caches cfg4 true 0x2000 enq_ex false 64 ten_bytes
                sha1_ctx areq10 sha1_req (mk_driver 0 [])
                eq_refl ltac:(zc) ltac:(zc)
                ltac:(zc) ltac:(lia)) as H.
  destruct (safexcel_ahash_update cfg4 true 0x2000 enq_ex false 64 ten_bytes
              sha1_ctx areq10 sha1_req (mk_driver 0 []))
    as [[[[ret areq'] req'] ctx'] d'].
  destruct H as (_ & Hq & Hfit & _).
  destruct Hfit as (_ & Hpre & Hret); [zc|].
  destruct Hpre as (Hc & _); [zc | zc |].
  destruct (Hret eq_refl) as (Hr & _ & Hd).
  split; [exact Hq|]. split; [exact Hc|]. split; [exact Hr | exact Hd].
Defined.

Lemma export_import_round_trip_witness :
  let out := mk_export (0, 0) (0, 0) 0 (repeat 0 64) (repeat 0 128) in
  let req := set_core sha1_req (set_len (core sha1_req) (10, 0)) in
  let '(ret, r2) :=
    safexcel_ahash_import 64 safexcel_sha1_init sha1_req
      (snd (safexcel_ahash_export 64 req out)) in
  ret = 0 /\ len (core r2) = (10, 0) /\
  safexcel_queued_len (core r2) = 10.
Proof.
  intros out req.
  pose proof (export_import_round_trip 64 safexcel_sha1_init req out sha1_req
                _ _ eq_refl) as [_ H].
  specialize (H eq_refl eq_refl ltac:(zc) ltac:(zc)).
  destruct (safexcel_ahash_import 64 safexcel_sha1_init sha1_req
              (snd (safexcel_ahash_export 64 req out))) as [ret r2].
  destruct H as (Hr & Hl & _ & _ & Hq & _).
  split; [exact Hr|]. split; [exact Hl | exact Hq].
Defined.

Lemma ahash_finup_enqueues_once_witness :
  let '(ret, areq', req', ctx', d') :=
    safexcel_ahash_finup cfg4 true md5_empty sha1_empty [] [] [] [] 0x2000
      enq_ex false 64 ten_bytes sha1_ctx areq10 sha1_req (mk_driver 0 []) in
  ret = - EINPROGRESS /\ last_req (core req') = true /\
  actions d' = [ActEnqueue 0; ActQueueWork 0].
Proof.
  pose proof (ahash_finup_enqueues_once cfg4 true md5_empty sha1_empty
                [] [] [] [] 0x2000 enq_ex false 64 ten_bytes sha1_ctx areq10
                sha1_req (mk_driver 0 [])
                ltac:(zc) eq_refl ltac:(zc)) as H.
  destruct (safexcel_ahash_finup cfg4 true md5_empty sha1_empty [] [] [] []
              0x2000 enq_ex false 64 ten_bytes sha1_ctx areq10 sha1_req
              (mk_driver 0 []))
    as [[[[ret areq'] req'] ctx'] d'].
  destruct H as (_ & Hl & _ & _ & _ & Hok).
  destruct Hok as (Hret & _ & Hact); [right; vm_compute; discriminate|].
  split; [exact Hret|]. split; [exact Hl | exact Hact].
Defined.

End HashStateFacts.

Module ConfigureFacts.
Import Ring Configure.

(** Rounding up to a multiple of [2^k] with the mask [2^k - 1]. *)
Lemma round_mask k x :
  0 <= k < 32 -> 0 <= x -> x + 2 ^ k - 1 < 2 ^ 32 ->
  Z.land (u32 (x + (2 ^ k - 1))) (not32 (2 ^ k - 1))
  = 2 ^ k * ((x + 2 ^ k - 1) / 2 ^ k).
Proof.
  intros Hk Hx Hlt.
  assert (Hp : 0 < 2 ^ k) by (apply Z.pow_pos_nonneg; lia).
  unfold u32. rewrite (Z.mod_small (x + (2 ^ k - 1))) by lia.
  replace (x + (2 ^ k - 1)) with (x + 2 ^ k - 1) by lia.
  set (y := x + 2 ^ k - 1) in *.
  rewrite Z.mul_comm, <- Z.shiftl_mul_pow2, <- Z.shiftr_div_pow2 by lia.
  apply Z.bits_inj'. intros i Hi.
  rewrite Z.land_spec, Z.shiftl_spec by lia.
  unfold not32. rewrite Z.lxor_spec.
  replace (2 ^ k - 1) with (Z.ones k) by (rewrite Z.ones_equiv; lia).
  change 0xFFFFFFFF with (Z.ones 32).
  rewrite !Z.testbit_ones_nonneg by lia.
  destruct (Z.ltb_spec i k) as [H1 | H1].
  - replace (i <? 32) with true by (symmetry; apply Z.ltb_lt; lia).
    cbn [xorb]. rewrite andb_false_r.
    symmetry. apply Z.testbit_neg_r. lia.
  - rewrite Z.shiftr_spec by lia. replace (i - k + k) with i by lia.
    destruct (Z.ltb_spec i 32) as [H2 | H2]; cbn [xorb].
    + apply andb_true_r.
    + rewrite andb_false_r. symmetry.
      destruct (Z.eq_dec y 0) as [Hy | Hy]; [rewrite Hy; apply Z.bits_0|].
      apply Z.bits_above_log2; [lia|].
      apply Z.lt_le_trans with 32; [apply Z.log2_lt_pow2; lia | lia].
Qed.

Lemma round_up_facts k x :
  0 <= k -> 0 <= x ->
  let r := 2 ^ k * ((x + 2 ^ k - 1) / 2 ^ k) in
  x <= r < x + 2 ^ k /\ r mod 2 ^ k = 0.
Proof.
  intros Hk Hx. cbn zeta.
  assert (Hp : 0 < 2 ^ k) by (apply Z.pow_pos_nonneg; lia).
  pose proof (Z.div_mod (x + 2 ^ k - 1) (2 ^ k) ltac:(lia)) as Hd.
  pose proof (Z.mod_pos_bound (x + 2 ^ k - 1) (2 ^ k) Hp) as Hm.
  split; [lia|].
  rewrite Z.mul_comm. apply Z.mod_mul. lia.
Qed.

Lemma u32_id x : 0 <= x < 2 ^ 32 -> u32 x = x.
Proof. intros H. apply Z.mod_small. exact H. Qed.

Lemma pow2_le_128 k : 0 <= k <= 7 -> 1 <= 2 ^ k <= 128.
Proof.
  intros H. split.
  - apply (Z.pow_le_mono_r 2 0 k); lia.
  - apply (Z.pow_le_mono_r 2 k 7); lia.
Qed.

Lemma pow2_le_4096 j : 2 <= j <= 12 -> 4 <= 2 ^ j <= 4096.
Proof.
  intros H. split.
  - apply (Z.pow_le_mono_r 2 2 j); lia.
  - apply (Z.pow_le_mono_r 2 j 12); lia.
Qed.

Lemma mod4_of_mod_pow2 j r : 2 <= j -> r mod 2 ^ j = 0 -> r mod 4 = 0.
Proof.
  intros Hj Hr.
  replace (2 ^ j) with (2 ^ (j - 2) * 4) in Hr
    by (change 4 with (2 ^ 2); rewrite <- Z.pow_add_r by lia; f_equal; lia).
  apply Z.mod_divide in Hr; [|assert (0 < 2 ^ (j - 2)) by (apply Z.pow_pos_nonneg; lia); lia].
  apply Z.mod_divide; [lia|].
  destruct Hr as [q Hq]. exists (q * 2 ^ (j - 2)). lia.
Qed.

Section Layout.
Variables max_rings ring_entries_param queue_entries_param : Z.
Variable cache_line_size : Z.
Variable hw : hw_info.
Hypothesis Hdw : 0 <= hwdataw hw <= 7.

Let w : Z := 2 ^ hwdataw hw.

Lemma mask_value : u32 (BIT (hwdataw hw) - 1) = w - 1.
Proof.
  unfold BIT. rewrite Z.shiftl_1_l. fold w.
  pose proof (pow2_le_128 _ Hdw). fold w in H. apply u32_id. lia.
Qed.

(** The offsets in words, before the conversion to bytes. *)
Lemma round_words x :
  0 <= x <= 1024 ->
  Z.land (u32 (x + (w - 1))) (not32 (w - 1)) = w * ((x + w - 1) / w) /\
  x <= w * ((x + w - 1) / w) < x + w /\
  (w * ((x + w - 1) / w)) mod w = 0.
Proof.
  intros Hx. pose proof (pow2_le_128 _ Hdw) as Hw. fold w in Hw.
  split.
  - unfold w. apply round_mask; fold w; lia.
  - apply (round_up_facts (hwdataw hw) x); lia.
Qed.

End Layout.

(** X16.  The layout [safexcel_configure] computes.  For an engine whose
    bus is 2^[hwdataw] words wide, [hwdataw] between 0 and 7 as the probe
    extracts it, with between 1 and 15 rings: the ring count is the
    smallest of the hardware's rings, the [max_rings] parameter and the
    ring interrupt controllers; without a [ring_entries] parameter every
    ring gets between 1 and four times the engine's packet depth entries,
    and all rings together hold at least that many; with one, that value.
    A command slot has room for the 72-byte descriptor and is a multiple of
    the bus width; in a result slot the result token starts behind the
    16-byte descriptor, on a multiple of the bus width, the ownership word
    is the last word of the slot ([own_offset + 4 = rd_offset]) and lies
    behind the four words of the result token; on PCI the slot is a
    multiple of the cache line.  With at most 2^16 entries the
    configuration meets the conditions of the ring theorems for both
    rings. *)
Theorem configure_layout max_rings ring_entries_param queue_entries_param
    cache_line_size hw :
  0 <= hwdataw hw <= 7 ->
  0 < hwnumrings hw <= 15 -> 0 < hwnumraic hw < 2 ^ 32 ->
  0 < max_rings < 2 ^ 32 -> 0 <= ring_entries_param < 2 ^ 32 ->
  (device_is_pci hw = true ->
   exists j, 2 <= j <= 12 /\ cache_line_size = 2 ^ j) ->
  let '(cfg, sz, mr) :=
    safexcel_configure max_rings ring_entries_param queue_entries_param
      cache_line_size hw in
  let w := 2 ^ hwdataw hw in
  let pedepth := if feat_oce hw then 100 else 40 in
  rings cfg = Z.min (Z.min (hwnumrings hw) max_rings) (hwnumraic hw) /\
  (ring_entries_param = 0 ->
   1 <= ring_entries cfg <= 4 * pedepth /\
   4 * pedepth <= rings cfg * ring_entries cfg) /\
  (ring_entries_param <> 0 -> ring_entries cfg = ring_entries_param) /\
  72 <= cd_offset cfg < 72 + 4 * w /\ cd_offset cfg mod (4 * w) = 0 /\
  16 <= res_offset cfg /\ res_offset cfg mod (4 * w) = 0 /\
  res_offset cfg + 16 <= own_offset cfg /\
  own_offset cfg + 4 = rd_offset cfg /\
  rd_offset cfg mod 4 = 0 /\
  (device_is_pci hw = false -> rd_offset cfg mod (4 * w) = 0) /\
  (device_is_pci hw = true -> rd_offset cfg mod cache_line_size = 0) /\
  (1 <= ring_entries cfg <= 2 ^ 16 ->
   ring_params_ok CDR cfg /\ ring_params_ok RDR cfg).
Proof.
  intros Hdw Hnr Hna Hmx Hre Hpci.
  unfold safexcel_configure. cbv zeta.
  rewrite !(mask_value hw Hdw).
  pose proof (pow2_le_128 _ Hdw) as Hw.
  set (w := 2 ^ hwdataw hw) in *.
  cbn [rings ring_entries cd_offset rd_offset res_offset own_offset
       EIP197_RD_OWN_WORD].
  unfold EIP197_CD64_FETCH_SIZE, EIP197_RD64_FETCH_SIZE,
    EIP197_RD64_RESULT_SIZE, EIP197_AVG_DESC_PER_PKT, EIP197_PKTS_PER_PE,
    EIP197_PKTS_PER_PE_OCE.
  (* the rings *)
  replace (max_rings <? 0) with false by (symmetry; apply Z.ltb_ge; lia).
  assert (Hrings : min_t_u32 (min_t_u32 (hwnumrings hw) max_rings) (hwnumraic hw)
                   = Z.min (Z.min (hwnumrings hw) max_rings) (hwnumraic hw)).
  { unfold min_t_u32. rewrite !(u32_id (hwnumrings hw)), !(u32_id max_rings),
      !(u32_id (hwnumraic hw)) by lia.
    rewrite u32_id by lia. reflexivity. }
  rewrite Hrings.
  set (r := Z.min (Z.min (hwnumrings hw) max_rings) (hwnumraic hw)).
  assert (Hr : 1 <= r <= 15) by (subst r; lia).
  (* the offsets in words *)
  destruct (round_words hw Hdw 18 ltac:(lia)) as (E18 & B18 & M18).
  destruct (round_words hw Hdw 4 ltac:(lia)) as (E4 & B4 & M4).
  fold w in E18, B18, M18, E4, B4, M4.
  rewrite E18, E4.
  set (R18 := w * ((18 + w - 1) / w)) in *.
  set (R4 := w * ((4 + w - 1) / w)) in *.
  rewrite (u32_id (R4 + 4)) by lia.
  destruct (round_words hw Hdw (R4 + 4) ltac:(lia)) as (Er & Br & Mr).
  fold w in Er, Br, Mr. rewrite Er.
  set (Rr := w * ((R4 + 4 + w - 1) / w)) in *.
  replace (w - 1 + 1) with w by lia.
  rewrite (u32_id w) by lia.
  rewrite (u32_id (Rr + w)) by lia.
  rewrite !Z.shiftl_mul_pow2 by lia. change (2 ^ 2) with 4.
  rewrite (u32_id (R18 * 4)), (u32_id (R4 * 4)), (u32_id ((Rr + w) * 4)) by lia.
  (* multiples of the bus width *)
  assert (Hm4 : forall x, x mod w = 0 -> (x * 4) mod (4 * w) = 0).
  { intros x Hx. apply Z.mod_divide in Hx; [|lia]. destruct Hx as [q ->].
    apply Z.mod_divide; [lia|]. exists q. lia. }
  assert (Hmr : (Rr + w) mod w = 0).
  { apply Z.mod_divide in Mr; [|lia]. destruct Mr as [q Hq].
    apply Z.mod_divide; [lia|]. exists (q + 1). lia. }
  set (pd := if feat_oce hw then 100 else 40).
  assert (Hpd : 40 <= pd <= 100) by (subst pd; destruct (feat_oce hw); lia).
  assert (Hauto : u32 (u32 (u32 (4 * pd) + r) - 1) / r = (4 * pd + r - 1) / r).
  { rewrite (u32_id (4 * pd)) by lia. rewrite (u32_id (4 * pd + r)) by lia.
    rewrite u32_id by lia. reflexivity. }
  rewrite Hauto.
  assert (Hdiv : 1 <= (4 * pd + r - 1) / r <= 4 * pd /\
                 4 * pd <= r * ((4 * pd + r - 1) / r)).
  { pose proof (Z.div_mod (4 * pd + r - 1) r ltac:(lia)) as Hd.
    pose proof (Z.mod_pos_bound (4 * pd + r - 1) r ltac:(lia)) as Hb.
    split; [|lia]. split.
    - apply Z.div_le_lower_bound; lia.
    - apply Z.div_le_upper_bound; [lia|]. nia. }
  split; [reflexivity|].
  split.
  { intros ->. cbn [Z.eqb]. exact Hdiv. }
  split.
  { intros Hne. replace (ring_entries_param =? 0) with false
      by (symmetry; apply Z.eqb_neq; exact Hne). reflexivity. }
  split; [lia|]. split; [apply Hm4; exact M18|].
  split; [lia|]. split; [apply Hm4; exact M4|].
  destruct (device_is_pci hw) eqn:Epci.
  - destruct (Hpci eq_refl) as (j & Hj & ->).
    pose proof (pow2_le_4096 j Hj) as Hc.
    rewrite (u32_id (2 ^ j - 1)) by lia.
    rewrite (round_mask j ((Rr + w) * 4)) by lia.
    destruct (round_up_facts j ((Rr + w) * 4) ltac:(lia) ltac:(lia)) as (Bp & Mp).
    cbn zeta in Bp, Mp.
    set (P := 2 ^ j * (((Rr + w) * 4 + 2 ^ j - 1) / 2 ^ j)) in *.
    rewrite (u32_id (P - 4)) by lia.
    split; [lia|]. split; [lia|].
    split; [apply (mod4_of_mod_pow2 j); [lia | exact Mp]|].
    split; [discriminate|]. split; [intros _; exact Mp|].
    intros He. unfold ring_params_ok. cbn [stride cd_offset rd_offset ring_entries].
    split; (split; [lia|]); (split; [lia|]); nia.
  - rewrite (u32_id ((Rr + w) * 4 - 4)) by lia.
    split; [lia|]. split; [lia|].
    split.
    { pose proof (Hm4 _ Hmr) as H4w. apply Z.mod_divide in H4w; [|lia].
      destruct H4w as [q Hq]. apply Z.mod_divide; [lia|]. exists (q * w). lia. }
    split; [intros _; apply Hm4; exact Hmr|]. split; [discriminate|].
    intros He. unfold ring_params_ok. cbn [stride cd_offset rd_offset ring_entries].
    split; (split; [lia|]); (split; [lia|]); nia.
Qed.

(** A 32-bit engine with four rings, no output classifier, not on PCI:
    the offsets of [cfg_eip] and forty entries per ring. *)
Lemma configure_layout_witness :
  let '(cfg, sz, mr) :=
    safexcel_configure 255 0 0 64 (mk_hw 1 4 4 0 false false) in
  cfg = mk_config 4 40 72 36 16 32 /\
  own_offset cfg + 4 = rd_offset cfg /\
  res_offset cfg + 16 <= own_offset cfg /\
  (ring_params_ok CDR cfg /\ ring_params_ok RDR cfg).
Proof.
  pose proof (configure_layout 255 0 0 64 (mk_hw 1 4 4 0 false false)
                ltac:(simpl; lia) ltac:(simpl; lia) ltac:(simpl; lia)
                ltac:(lia) ltac:(lia) ltac:(discriminate)) as H.
  destruct (safexcel_configure 255 0 0 64 (mk_hw 1 4 4 0 false false))
    as [[cfg sz] mr] eqn:E.
  cbv zeta in H.
  destruct H as (_ & _ & _ & _ & _ & _ & _ & Hres & Hown & _ & _ & _ & Hok).
  split; [vm_compute in E; congruence|].
  split; [exact Hown|]. split; [exact Hres|].
  apply Hok. vm_compute in E. inversion E. simpl. lia.
Defined.

End ConfigureFacts.
Module SendFacts.
Import Ring RingFacts RingOrder Hash HashState Desc Send.

Lemma rings_eta h : mk_rings_mem (cdr h) (rdr h) (dmem h) = h.
Proof. destruct h; reflexivity. Qed.

Lemma reserve_slots_reserve k cfg N : forall r ps r',
  reserve_slots k cfg N r = Some (ps, r') -> reserve k cfg N r = Some r'.
Proof.
  induction N as [|N IH]; intros r ps r' H; cbn [reserve_slots reserve] in *.
  - inversion H; reflexivity.
  - destruct (next_write_slot k cfg r) as [[p | e] r1]; [|discriminate].
    destruct (reserve_slots k cfg N r1) as [[qs r2]|] eqn:E; [|discriminate].
    inversion H; subst. eapply IH; eassumption.
Qed.

Lemma reserve_slots_length k cfg N : forall r ps r',
  reserve_slots k cfg N r = Some (ps, r') -> length ps = N.
Proof.
  induction N as [|N IH]; intros r ps r' H; cbn [reserve_slots] in *.
  - inversion H; reflexivity.
  - destruct (next_write_slot k cfg r) as [[p | e] r1]; [|discriminate].
    destruct (reserve_slots k cfg N r1) as [[qs r2]|] eqn:E; [|discriminate].
    inversion H; subst. simpl. f_equal. eapply IH; eassumption.
Qed.

(** [safexcel_add_cdesc] on a ring in order: refused with the ring as it
    was, or the slot at the write cursor. *)
Lemma add_cdesc_cases cfg first last data dl fl ctx h n :
  0 < cd_offset cfg -> 1 <= ring_entries cfg ->
  on_slots (cd_offset cfg) (ring_entries cfg) (cdr h) n ->
  safexcel_add_cdesc cfg first last data dl fl ctx h = (ERR_PTR (- ENOMEM), h) \/
  exists h',
    safexcel_add_cdesc cfg first last data dl fl ctx h
      = (Ptr (write (cdr h)), h') /\
    rdr h' = rdr h /\
    next_write_slot CDR cfg (cdr h) = (Ptr (write (cdr h)), cdr h') /\
    on_slots (cd_offset cfg) (ring_entries cfg) (cdr h') (n + 1).
Proof.
  intros Hoff Hcap H. unfold safexcel_add_cdesc.
  destruct (next_write_slot_on_slots CDR cfg Hoff Hcap _ _ H)
    as [[_ E] | [Hn E]]; cbn [next_write_slot] in *; rewrite E.
  - left. rewrite rings_eta. reflexivity.
  - right. eexists. split; [reflexivity|]. cbn [rdr cdr].
    split; [reflexivity|]. split; [reflexivity|].
    apply (on_slots_write CDR cfg Hoff Hcap _ _ H Hn).
Qed.

Lemma add_rdesc_cases cfg first last data len h n :
  0 < rd_offset cfg -> 1 <= ring_entries cfg ->
  on_slots (rd_offset cfg) (ring_entries cfg) (rdr h) n ->
  safexcel_add_rdesc cfg first last data len h = (ERR_PTR (- ENOMEM), h) \/
  exists h',
    safexcel_add_rdesc cfg first last data len h
      = (Ptr (write (rdr h)), h') /\
    cdr h' = cdr h /\
    next_write_slot RDR cfg (rdr h) = (Ptr (write (rdr h)), rdr h') /\
    on_slots (rd_offset cfg) (ring_entries cfg) (rdr h') (n + 1).
Proof.
  intros Hoff Hcap H. unfold safexcel_add_rdesc.
  destruct (next_write_slot_on_slots RDR cfg Hoff Hcap _ _ H)
    as [[_ E] | [Hn E]]; cbn [next_write_slot] in *; rewrite E.
  - left. rewrite rings_eta. reflexivity.
  - right. eexists. split; [reflexivity|]. cbn [rdr cdr].
    split; [reflexivity|]. split; [reflexivity|].
    apply (on_slots_write RDR cfg Hoff Hcap _ _ H Hn).
Qed.

Lemma s32_id x : - 2 ^ 31 <= x < 2 ^ 31 -> s32 x = x.
Proof. intros H. unfold s32. rewrite Z.mod_small; lia. Qed.

(** The loop over the scatterlist takes [k] slots of the command ring in
    a row and leaves at [unmap_sg] only when the ring is full. *)
Lemma sg_loop_rings cfg ctxr len :
  0 < cd_offset cfg -> 1 <= ring_entries cfg ->
  forall sgs queued n first h nc,
  on_slots (cd_offset cfg) (ring_entries cfg) (cdr h) nc ->
  0 <= n -> n + Z.of_nat (length sgs) < 2 ^ 31 ->
  exists k ps h',
    (k <= length sgs)%nat /\
    rdr h' = rdr h /\
    reserve_slots CDR cfg k (cdr h) = Some (ps, cdr h') /\
    on_slots (cd_offset cfg) (ring_entries cfg) (cdr h') (nc + Z.of_nat k) /\
    (sg_loop cfg ctxr len sgs queued n first h
       = inl (- ENOMEM, n + Z.of_nat k, h') \/
     (sg_loop cfg ctxr len sgs queued n first h
        = inr (n + Z.of_nat k, (if n =? 0 then hd first ps else first), h') /\
      (sgs <> [] -> (1 <= k)%nat))).
Proof.
  intros Hoff Hcap.
  induction sgs as [|[addr dl] rest IH]; intros queued n first h nc H Hn Hlen.
  - exists 0%nat, [], h. cbn [length reserve_slots sg_loop hd].
    rewrite !Z.add_0_r. split; [lia|]. split; [reflexivity|].
    split; [reflexivity|]. split; [exact H|]. right.
    split; [destruct (n =? 0); reflexivity | congruence].
  - cbn [length] in Hlen. cbn [sg_loop].
    set (sglen := if queued <? u64 (s32 dl) then s32 queued else s32 dl).
    destruct (add_cdesc_cases cfg (n =? 0) (u64 (queued - sglen) =? 0) addr
                (u32 sglen) (u32 len) ctxr h nc Hoff Hcap H)
      as [E | (h1 & E & Hr & Ew & H1)]; rewrite E.
    + exists 0%nat, [], h. cbn [length reserve_slots].
      rewrite !Z.add_0_r. split; [lia|]. split; [reflexivity|].
      split; [reflexivity|]. split; [exact H|]. left. reflexivity.
    + rewrite (s32_id (n + 1)) by lia.
      destruct (u64 (queued - sglen) =? 0) eqn:Eq.
      * exists 1%nat, [write (cdr h)], h1. cbn [length reserve_slots hd].
        rewrite Ew. split; [lia|]. split; [exact Hr|].
        split; [reflexivity|]. split; [exact H1|]. right.
        split; [|lia].
        replace (n + Z.of_nat 1) with (n + 1) by lia.
        destruct (Z.eqb_spec n 0) as [-> | Hn0]; [reflexivity|].
        destruct (Z.eqb_spec (n + 1) 1); [lia | reflexivity].
      * destruct (IH (u64 (queued - sglen)) (n + 1)
                    (if n + 1 =? 1 then write (cdr h) else first) h1 (nc + 1)
                    H1 ltac:(lia) ltac:(lia))
          as (k & ps & h' & Hk & Hr' & Hres & Hon & Hout).
        exists (S k), (write (cdr h) :: ps), h'.
        cbn [length reserve_slots hd]. rewrite Ew, Hres.
        split; [lia|]. split; [congruence|]. split; [reflexivity|].
        split; [replace (nc + Z.of_nat (S k)) with (nc + 1 + Z.of_nat k) by lia;
                exact Hon|].
        replace (n + Z.of_nat (S k)) with (n + 1 + Z.of_nat k) by lia.
        destruct Hout as [Ho | [Ho _]]; [left; exact Ho|]. right.
        split; [|lia]. rewrite Ho. f_equal. f_equal. f_equal.
        destruct (Z.eqb_spec (n + 1) 0) as [|_]; [lia|].
        destruct (Z.eqb_spec n 0) as [-> | Hn0]; [reflexivity|].
        destruct (Z.eqb_spec (n + 1) 1); [lia | reflexivity].
Qed.

Lemma reserve_slots_app k cfg a b : forall r ps r1 qs r2,
  reserve_slots k cfg a r = Some (ps, r1) ->
  reserve_slots k cfg b r1 = Some (qs, r2) ->
  reserve_slots k cfg (a + b) r = Some (ps ++ qs, r2).
Proof.
  induction a as [|a IH]; intros r ps r1 qs r2 Ha Hb;
    cbn [reserve_slots Nat.add] in *.
  - inversion Ha; subst. exact Hb.
  - destruct (next_write_slot k cfg r) as [[p | e] r'] ; [|discriminate].
    destruct (reserve_slots k cfg a r') as [[ps' r'']|] eqn:E; [|discriminate].
    inversion Ha; subst. rewrite (IH _ _ _ _ _ E Hb). reflexivity.
Qed.

Lemma core_unmap_cache r : core (unmap_cache r) = core r.
Proof. unfold unmap_cache. destruct (negb (cache_dma r =? 0)); reflexivity. Qed.

Section Cases.
Variable request : Type.
Variables (cfg : safexcel_config) (env : send_env) (async : request)
          (ctx : hash_ctx).

Lemma send_command_cases len n first h t req data nr ret out
    (s' : send_state request) :
  0 < rd_offset cfg -> 1 <= ring_entries cfg ->
  on_slots (rd_offset cfg) (ring_entries cfg) (rdr h) nr ->
  send_command cfg env async ctx len n first h t req data = (ret, out, s') ->
  ((ret = - EINVAL \/ ret = - ENOMEM) /\ out = None /\
   cdr (sh s') = rollback_n CDR cfg (Z.to_nat n) (cdr h) /\
   rdr (sh s') = rdr h /\ stab s' = t /\ core (sreq s') = core req) \/
  (ret = 0 /\ out = Some (n, 1) /\ cdr (sh s') = cdr h /\
   reserve_slots RDR cfg 1 (rdr h) = Some ([write (rdr h)], rdr (sh s')) /\
   stab s' = safexcel_rdr_req_set cfg (rdr (sh s')) t (write (rdr h)) async /\
   core (sreq s') =
     set_processed (core req)
       (u64 (fst (processed (core req)) + len),
        if u64 (fst (processed (core req)) + len) <? len
        then u64 (snd (processed (core req)) + 1)
        else snd (processed (core req)))).
Proof.
  intros Hoff Hcap H. unfold send_command.
  destruct (safexcel_context_control ctx data req first (state_sz req) (dmem h))
    as [m data'].
  set (m1 := safexcel_hash_token first (u32 len) (state_sz req) m).
  destruct (map_result_error env).
  - intros E. inversion E; subst. left. cbn [sh stab sreq cdesc_rollback cdr rdr].
    rewrite core_unmap_cache. tauto.
  - match goal with
    | |- context [safexcel_add_rdesc ?a ?b ?c ?d ?e ?f] =>
        destruct (add_rdesc_cases a b c d e f nr Hoff Hcap H)
          as [E1 | (h1 & E1 & Hc1 & Ew & H1)]
    end; rewrite E1; intros E;
      inversion E; subst; cbn [sh stab sreq cdesc_rollback cdr rdr] in *.
    + left. rewrite core_unmap_cache. tauto.
    + right. cbn [reserve_slots]. rewrite Ew.
      repeat split; try reflexivity; assumption.
Qed.

Lemma rollback_reserved n ps r0 nc0 r :
  0 < cd_offset cfg -> 1 <= ring_entries cfg ->
  on_slots (cd_offset cfg) (ring_entries cfg) r0 nc0 ->
  reserve_slots CDR cfg n r0 = Some (ps, r) ->
  rollback_n CDR cfg (Z.to_nat (Z.of_nat n)) r = r0.
Proof.
  intros Hoff Hcap H Hres. rewrite Nat2Z.id.
  apply (reserve_rollback CDR cfg Hoff Hcap n r0 nc0 r H).
  eapply reserve_slots_reserve; eassumption.
Qed.

Lemma send_sg_cases len queued n0 ps0 r0 nc0 first h t req data nr ret out
    (s' : send_state request) :
  0 < cd_offset cfg -> 0 < rd_offset cfg -> 1 <= ring_entries cfg ->
  on_slots (cd_offset cfg) (ring_entries cfg) r0 nc0 ->
  reserve_slots CDR cfg n0 r0 = Some (ps0, cdr h) ->
  on_slots (cd_offset cfg) (ring_entries cfg) (cdr h) (nc0 + Z.of_nat n0) ->
  on_slots (rd_offset cfg) (ring_entries cfg) (rdr h) nr ->
  Z.of_nat n0 + Z.of_nat (length (sg env)) < 2 ^ 31 ->
  send_sg cfg env async ctx len queued (Z.of_nat n0) first h t req data
    = (ret, out, s') ->
  ((ret = - EINVAL \/ ret = - ENOMEM) /\ out = None /\
   cdr (sh s') = r0 /\ rdr (sh s') = rdr h /\ stab s' = t /\
   core (sreq s') = core req) \/
  (ret = 0 /\
   exists k ps,
     out = Some (Z.of_nat k, 1) /\
     (1 <= k)%nat /\ (n0 <= k <= n0 + length (sg env))%nat /\
     reserve_slots CDR cfg k r0 = Some (ps, cdr (sh s')) /\
     reserve_slots RDR cfg 1 (rdr h) = Some ([write (rdr h)], rdr (sh s')) /\
     stab s' = safexcel_rdr_req_set cfg (rdr (sh s')) t (write (rdr h)) async /\
     core (sreq s') =
       set_processed (core req)
         (u64 (fst (processed (core req)) + len),
          if u64 (fst (processed (core req)) + len) <? len
          then u64 (snd (processed (core req)) + 1)
          else snd (processed (core req)))).
Proof.
  intros Hc Hr Hcap H0 Hres Hon Hrd Hlen. unfold send_sg.
  cbn [nents set_nents].
  destruct (Z.eqb_spec (Z.of_nat (length (sg env))) 0) as [E0 | E0].
  - intros E. inversion E; subst. left.
    cbn [sh stab sreq cdesc_rollback cdr rdr].
    rewrite core_unmap_cache, (rollback_reserved _ _ _ _ _ Hc Hcap H0 Hres).
    cbn [core set_nents]. tauto.
  - destruct (sg_loop_rings cfg (ctxr_dma ctx) len Hc Hcap (sg env) queued
                (Z.of_nat n0) first h _ Hon ltac:(lia) Hlen)
      as (k & ps & h' & Hk & Hr' & Hres' & Hon' & [Ho | [Ho Hk1]]); rewrite Ho.
    + intros E. inversion E; subst. left.
      cbn [sh stab sreq cdesc_rollback cdr rdr].
      rewrite core_unmap_cache. cbn [core set_nents].
      rewrite <- Nat2Z.inj_add.
      rewrite (rollback_reserved _ _ _ _ _ Hc Hcap H0
                 (reserve_slots_app _ _ _ _ _ _ _ _ _ Hres Hres')).
      tauto.
    + intros E. rewrite <- Hr' in Hrd.
      destruct (send_command_cases _ _ _ _ _ _ _ _ _ _ _ Hr Hcap Hrd E)
        as [(He & -> & Ec & Er & Et & Eq) | (-> & -> & Ec & Er & Et & Eq)].
      * left. rewrite <- Nat2Z.inj_add in Ec.
        rewrite (rollback_reserved _ _ _ _ _ Hc Hcap H0
                   (reserve_slots_app _ _ _ _ _ _ _ _ _ Hres Hres')) in Ec.
        cbn [core set_nents] in Eq. rewrite <- Hr'. tauto.
      * right. split; [reflexivity|].
        exists (n0 + k)%nat, (ps0 ++ ps).
        assert (1 <= k)%nat.
        { apply Hk1. intros Hnil. rewrite Hnil in E0. simpl in E0. lia. }
        rewrite Nat2Z.inj_add. split; [reflexivity|].
        split; [lia|]. split; [lia|].
        rewrite Ec. split; [eapply reserve_slots_app; eassumption|].
        rewrite <- Hr'. cbn [core set_nents] in Eq. tauto.
Qed.

Lemma send_req_cases areq (s : send_state request) nc nr ret out s' :
  0 < cd_offset cfg -> 0 < rd_offset cfg -> 1 <= ring_entries cfg ->
  on_slots (cd_offset cfg) (ring_entries cfg) (cdr (sh s)) nc ->
  on_slots (rd_offset cfg) (ring_entries cfg) (rdr (sh s)) nr ->
  Z.of_nat (length (sg env)) < 2 ^ 31 - 1 ->
  safexcel_ahash_send_req cfg env async ctx areq s = (ret, out, s') ->
  ((ret = - EINVAL \/ ret = - ENOMEM) /\ out = None /\
   cdr (sh s') = cdr (sh s) /\ rdr (sh s') = rdr (sh s) /\
   stab s' = stab s /\ core (sreq s') = core (sreq s)) \/
  (ret = 0 /\ out = Some (0, 0) /\ sh s' = sh s /\ stab s' = stab s /\
   core (sreq s') = core (sreq s) /\ sdata s' = sdata s /\
   send_extra env (sreq s) <> 0 /\ send_len env (sreq s) = 0) \/
  (ret = 0 /\
   exists k ps,
     out = Some (Z.of_nat k, 1) /\
     (1 <= k <= 1 + length (sg env))%nat /\
     reserve_slots CDR cfg k (cdr (sh s)) = Some (ps, cdr (sh s')) /\
     reserve_slots RDR cfg 1 (rdr (sh s))
       = Some ([write (rdr (sh s))], rdr (sh s')) /\
     stab s' = safexcel_rdr_req_set cfg (rdr (sh s')) (stab s)
                 (write (rdr (sh s))) async /\
     core (sreq s') =
       set_processed (core (sreq s))
         (u64 (fst (processed (core (sreq s))) + send_len env (sreq s)),
          if u64 (fst (processed (core (sreq s))) + send_len env (sreq s))
               <? send_len env (sreq s)
          then u64 (snd (processed (core (sreq s))) + 1)
          else snd (processed (core (sreq s))))).
Proof.
  intros Hc Hr Hcap Hon Hrd Hlen. unfold safexcel_ahash_send_req.
  set (req1 := if negb (send_extra env (sreq s) =? 0) then _ else sreq s).
  assert (Hcore : core req1 = core (sreq s)).
  { subst req1. destruct (negb (send_extra env (sreq s) =? 0)); reflexivity. }
  destruct (negb (send_extra env (sreq s) =? 0) &&
            (send_len env (sreq s) =? 0)) eqn:Eearly.
  { intros E. inversion E; subst. right; left.
    apply andb_true_iff in Eearly. destruct Eearly as [E1 E2].
    apply negb_true_iff, Z.eqb_neq in E1. apply Z.eqb_eq in E2.
    cbn [sh stab sreq sdata]. tauto. }
  set (cache_len := send_cache_len env areq (sreq s)).
  destruct (negb (cache_len =? 0)).
  - destruct (map_cache_error env).
    { intros E. inversion E; subst. left. cbn [sh stab sreq core set_cache_map].
      tauto. }
    match goal with
    | |- context [safexcel_add_cdesc ?a ?b ?c ?d ?e ?f ?g ?h] =>
        destruct (add_cdesc_cases a b c d e f g h nc Hc Hcap Hon)
          as [E1 | (h1 & E1 & Hr1 & Ew & H1)]
    end; rewrite E1.
    { intros E. inversion E; subst. left. cbn [sh stab sreq].
      rewrite core_unmap_cache. cbn [core set_cache_map]. tauto. }
    assert (Hres : reserve_slots CDR cfg 1 (cdr (sh s))
                   = Some ([write (cdr (sh s))], cdr h1)).
    { cbn [reserve_slots]. rewrite Ew. reflexivity. }
    rewrite <- Hr1 in Hrd.
    destruct (u64 (send_len env (sreq s) - cache_len) =? 0).
    + intros E.
      destruct (send_command_cases _ _ _ _ _ _ _ _ _ _ _ Hr Hcap Hrd E)
        as [(He & -> & Ec & Er & Et & Eq) | (-> & -> & Ec & Er & Et & Eq)].
      * left. change 1 with (Z.of_nat 1) in Ec.
        rewrite (rollback_reserved _ _ _ _ _ Hc Hcap Hon Hres) in Ec.
        cbn [core set_cache_map] in Eq. rewrite <- Hr1, <- Hcore. tauto.
      * right; right. split; [reflexivity|].
        exists 1%nat, [write (cdr (sh s))]. split; [reflexivity|].
        split; [lia|]. rewrite Ec, <- Hr1, <- Hcore.
        cbn [core set_cache_map] in Eq. tauto.
    + intros E. change 1 with (Z.of_nat 1) in E.
      destruct (send_sg_cases _ _ _ _ _ _ _ _ _ _ _ _ _ _ _ Hc Hr Hcap Hon Hres
                  H1 Hrd ltac:(lia) E)
        as [(He & -> & Ec & Er & Et & Eq) |
            (-> & k & ps & -> & Hk1 & Hk & Hk' & Er & Et & Eq)].
      * left. cbn [core set_cache_map] in Eq. rewrite <- Hr1, <- Hcore. tauto.
      * right; right. split; [reflexivity|]. exists k, ps.
        split; [reflexivity|]. split; [lia|].
        cbn [core set_cache_map] in Eq. rewrite <- Hr1, <- Hcore. tauto.
  - intros E. change 0 with (Z.of_nat 0) in E at 1.
    assert (Hres : reserve_slots CDR cfg 0 (cdr (sh s)) = Some ([], cdr (sh s)))
      by reflexivity.
    rewrite <- (Z.add_0_r nc) in Hon.
    pose proof Hon as Hon0. rewrite Z.add_0_r in Hon0.
    destruct (send_sg_cases _ _ _ _ _ _ _ _ _ _ _ _ _ _ _ Hc Hr Hcap Hon0 Hres
                Hon Hrd ltac:(lia) E)
      as [(He & -> & Ec & Er & Et & Eq) |
          (-> & k & ps & -> & Hk1 & Hk & Hk' & Er & Et & Eq)].
    + left. rewrite <- Hcore. tauto.
    + right; right. split; [reflexivity|]. exists k, ps.
      split; [reflexivity|]. split; [lia|]. rewrite <- Hcore. tauto.
Qed.

End Cases.

Lemma u64_id x : 0 <= x < 2 ^ 64 -> u64 x = x.
Proof. intros H. apply Z.mod_small. exact H. Qed.

(** With a block size [2^j], [extra] is the remainder of the queued
    length, or a whole block when that is 0. *)
Lemma send_extra_pow2 env req j :
  blocksize env = 2 ^ j -> 0 <= j <= 30 ->
  last_req (core req) = false ->
  0 <= safexcel_queued_len (core req) ->
  send_extra env req =
    if safexcel_queued_len (core req) mod 2 ^ j =? 0 then 2 ^ j
    else safexcel_queued_len (core req) mod 2 ^ j.
Proof.
  intros Hb Hj Hl Hq. unfold send_extra. rewrite Hl, Hb.
  assert (Hp : 0 < 2 ^ j) by (apply Z.pow_pos_nonneg; lia).
  assert (Hp30 : 2 ^ j <= 2 ^ 30) by (apply Z.pow_le_mono_r; lia).
  assert (Hu : u32 (2 ^ j - 1) = Z.ones j).
  { rewrite Z.ones_equiv. unfold u32. rewrite Z.mod_small; lia. }
  rewrite Hu, Z.land_ones by lia.
  pose proof (Z.mod_pos_bound (safexcel_queued_len (core req)) (2 ^ j) Hp).
  rewrite !s32_id by lia. reflexivity.
Qed.

(** X17.  A failed [safexcel_ahash_send_req] leaves the rings as they
    were.  With both rings in order (cursors on slots) and a scatterlist
    whose length fits [int], a call that returns a status other than 0
    returns [-EINVAL] or [-ENOMEM], assigns neither [*commands] nor
    [*results], and leaves the command ring and the result ring with the
    cursors they had: every command descriptor taken was rolled back.  The
    request table and the length counters of the request are unchanged
    too. *)
Theorem send_req_failure_restores_rings (request : Type) cfg env
    (async : request) ctx areq (s : send_state request) nc nr ret out s' :
  0 < cd_offset cfg -> 0 < rd_offset cfg -> 1 <= ring_entries cfg ->
  on_slots (cd_offset cfg) (ring_entries cfg) (cdr (sh s)) nc ->
  on_slots (rd_offset cfg) (ring_entries cfg) (rdr (sh s)) nr ->
  Z.of_nat (length (sg env)) < 2 ^ 31 - 1 ->
  safexcel_ahash_send_req cfg env async ctx areq s = (ret, out, s') ->
  ret <> 0 ->
  (ret = - EINVAL \/ ret = - ENOMEM) /\ out = None /\
  cdr (sh s') = cdr (sh s) /\ rdr (sh s') = rdr (sh s) /\
  stab s' = stab s /\
  len (core (sreq s')) = len (core (sreq s)) /\
  processed (core (sreq s')) = processed (core (sreq s)).
Proof.
  intros Hc Hr Hcap Hon Hrd Hlen E Hret.
  destruct (send_req_cases request cfg env async ctx areq s nc nr ret out s'
              Hc Hr Hcap Hon Hrd Hlen E)
    as [(He & Ho & Ec & Er & Et & Eq) | [(E0 & _) | (E0 & _)]];
    [| contradiction | contradiction].
  rewrite Eq. tauto.
Qed.

(** X18.  What a successful [safexcel_ahash_send_req] reports is what it
    put on the rings.  With both rings in order, a call that returns 0
    either reports 0 commands and 0 results and has touched neither the
    rings, nor the device memory, nor the request table, nor the context
    record; or it reports 1 result and [k] commands, with [k] between 1
    and one more than the number of scatterlist entries, and then the
    command ring has handed out exactly [k] slots in a row, the result
    ring exactly one, and the request is recorded in the table for that
    result slot. *)
Theorem send_req_success_counts (request : Type) cfg env
    (async : request) ctx areq (s : send_state request) nc nr out s' :
  0 < cd_offset cfg -> 0 < rd_offset cfg -> 1 <= ring_entries cfg ->
  on_slots (cd_offset cfg) (ring_entries cfg) (cdr (sh s)) nc ->
  on_slots (rd_offset cfg) (ring_entries cfg) (rdr (sh s)) nr ->
  Z.of_nat (length (sg env)) < 2 ^ 31 - 1 ->
  safexcel_ahash_send_req cfg env async ctx areq s = (0, out, s') ->
  (out = Some (0, 0) /\ sh s' = sh s /\ stab s' = stab s /\
   sdata s' = sdata s) \/
  (exists k ps,
     out = Some (Z.of_nat k, 1) /\
     (1 <= k <= 1 + length (sg env))%nat /\
     reserve_slots CDR cfg k (cdr (sh s)) = Some (ps, cdr (sh s')) /\
     reserve_slots RDR cfg 1 (rdr (sh s))
       = Some ([write (rdr (sh s))], rdr (sh s')) /\
     stab s' = safexcel_rdr_req_set cfg (rdr (sh s')) (stab s)
                 (write (rdr (sh s))) async).
Proof.
  intros Hc Hr Hcap Hon Hrd Hlen E.
  destruct (send_req_cases request cfg env async ctx areq s nc nr 0 out s'
              Hc Hr Hcap Hon Hrd Hlen E)
    as [([He | He] & _) | [(_ & Ho & Eh & Et & _ & Ed & _) |
        (_ & k & ps & Ho & Hk & Ec & Er & Et & _)]].
  - vm_compute in He. discriminate.
  - vm_compute in He. discriminate.
  - left. tauto.
  - right. exists k, ps. tauto.
Qed.

(** X19.  [safexcel_ahash_send_req] sends whole blocks until the last
    request.  For a request whose counters have equal high words and
    [processed] at most [len], with a block size that is a power of two
    up to [2^30]: after a call that returns 0 the length [len] is as it
    was and [processed] has advanced by the queued length before minus
    the queued length after.  When [last_req] is set nothing is left
    queued.  When it is not set and something was queued, what is left is
    at least one byte and at most one block, and the number of bytes sent
    is a multiple of the block size. *)
Theorem send_req_whole_blocks (request : Type) cfg env
    (async : request) ctx areq (s : send_state request) nc nr out s' j :
  0 < cd_offset cfg -> 0 < rd_offset cfg -> 1 <= ring_entries cfg ->
  on_slots (cd_offset cfg) (ring_entries cfg) (cdr (sh s)) nc ->
  on_slots (rd_offset cfg) (ring_entries cfg) (rdr (sh s)) nr ->
  Z.of_nat (length (sg env)) < 2 ^ 31 - 1 ->
  blocksize env = 2 ^ j -> 0 <= j <= 30 ->
  snd (len (core (sreq s))) = snd (processed (core (sreq s))) ->
  0 <= fst (processed (core (sreq s))) <= fst (len (core (sreq s))) ->
  fst (len (core (sreq s))) < 2 ^ 64 ->
  (last_req (core (sreq s)) = false ->
   fst (processed (core (sreq s))) < fst (len (core (sreq s)))) ->
  safexcel_ahash_send_req cfg env async ctx areq s = (0, out, s') ->
  len (core (sreq s')) = len (core (sreq s)) /\
  processed (core (sreq s')) =
    (fst (processed (core (sreq s))) +
       (safexcel_queued_len (core (sreq s))
        - safexcel_queued_len (core (sreq s'))),
     snd (processed (core (sreq s)))) /\
  (if last_req (core (sreq s))
   then safexcel_queued_len (core (sreq s')) = 0
   else 1 <= safexcel_queued_len (core (sreq s')) <= blocksize env /\
        (safexcel_queued_len (core (sreq s))
         - safexcel_queued_len (core (sreq s'))) mod blocksize env = 0).
Proof.
  intros Hc Hr Hcap Hon Hrd Hlen Hb Hj Hhi Hlo Hl64 Hpos E.
  assert (Hp : 0 < 2 ^ j) by (apply Z.pow_pos_nonneg; lia).
  assert (Hq : safexcel_queued_len (core (sreq s))
               = fst (len (core (sreq s))) - fst (processed (core (sreq s)))).
  { unfold safexcel_queued_len. rewrite Hhi, Z.ltb_irrefl.
    apply u64_id. lia. }
  assert (Hex : last_req (core (sreq s)) = false ->
                1 <= send_extra env (sreq s) <= 2 ^ j /\
                send_extra env (sreq s) <= safexcel_queued_len (core (sreq s)) /\
                (safexcel_queued_len (core (sreq s)) - send_extra env (sreq s))
                  mod 2 ^ j = 0).
  { intros Hlast. specialize (Hpos Hlast).
    rewrite (send_extra_pow2 env (sreq s) j Hb Hj Hlast) by lia.
    pose proof (Z.mod_pos_bound (safexcel_queued_len (core (sreq s))) (2 ^ j) Hp)
      as Hm.
    pose proof (Z.div_mod (safexcel_queued_len (core (sreq s))) (2 ^ j)
                  ltac:(lia)) as Hd.
    destruct (Z.eqb_spec (safexcel_queued_len (core (sreq s)) mod 2 ^ j) 0)
      as [E0 | E0].
    - split; [lia|].
      assert (1 <= safexcel_queued_len (core (sreq s)) / 2 ^ j) by nia.
      split; [nia|].
      rewrite <- (Z.mul_1_l (2 ^ j)) at 1.
      rewrite <- Zminus_mod_idemp_r, Z.mod_mul, Z.sub_0_r by lia. exact E0.
    - split; [lia|]. split; [apply Z.mod_le; lia|].
      rewrite Zminus_mod_idemp_r, Z.sub_diag. reflexivity. }
  destruct (send_req_cases request cfg env async ctx areq s nc nr 0 out s'
              Hc Hr Hcap Hon Hrd Hlen E)
    as [([He | He] & _) | [(_ & _ & _ & _ & Eq & _ & Hx & Hl0) |
        (_ & k & ps & _ & _ & _ & _ & _ & Eq)]];
    try (vm_compute in He; discriminate).
  - rewrite Eq. split; [reflexivity|]. rewrite Z.sub_diag, Z.add_0_r.
    split; [destruct (processed (core (sreq s))); reflexivity|].
    destruct (last_req (core (sreq s))) eqn:Hlast.
    + exfalso. apply Hx. unfold send_extra. rewrite Hlast. reflexivity.
    + destruct (Hex eq_refl) as (H1 & H2 & H3).
      unfold send_len in Hl0. apply Z.eqb_neq in Hx. rewrite Hx in Hl0.
      rewrite u64_id in Hl0 by lia.
      rewrite Hb. split; [lia | apply Zmod_0_l].
  - set (L := send_len env (sreq s)) in *.
    assert (HL : 0 <= L <= safexcel_queued_len (core (sreq s)) /\
                 (if last_req (core (sreq s))
                  then safexcel_queued_len (core (sreq s)) - L = 0
                  else 1 <= safexcel_queued_len (core (sreq s)) - L <= 2 ^ j /\
                       L mod 2 ^ j = 0)).
    { subst L. unfold send_len.
      destruct (last_req (core (sreq s))) eqn:Hlast.
      - unfold send_extra. rewrite Hlast. cbn. lia.
      - destruct (Hex eq_refl) as (H1 & H2 & H3).
        destruct (Z.eqb_spec (send_extra env (sreq s)) 0); [lia|].
        rewrite u64_id by lia. split; [lia|]. split; [lia | exact H3]. }
    destruct HL as (HL1 & HL2).
    assert (Hp0 : u64 (fst (processed (core (sreq s))) + L)
                  = fst (processed (core (sreq s))) + L)
      by (apply u64_id; lia).
    rewrite Hp0 in Eq.
    destruct (Z.ltb_spec (fst (processed (core (sreq s))) + L) L) as [Hlt | _];
      [lia|].
    assert (Hq' : safexcel_queued_len (core (sreq s'))
                  = safexcel_queued_len (core (sreq s)) - L).
    { rewrite Eq. unfold safexcel_queued_len at 1.
      cbn [processed len set_processed fst snd].
      rewrite Hhi, Z.ltb_irrefl, u64_id by lia. lia. }
    rewrite Hq', Eq. cbn [processed len set_processed].
    split; [reflexivity|]. split; [f_equal; lia|].
    destruct (last_req (core (sreq s))).
    + exact HL2.
    + rewrite Hb. destruct HL2 as [H1 H2]. split; [exact H1|].
      replace (safexcel_queued_len (core (sreq s))
               - (safexcel_queued_len (core (sreq s)) - L)) with L by lia.
      exact H2.
Qed.

Lemma send_rings_on_slots :
  on_slots (cd_offset cfg_eip) (ring_entries cfg_eip) (cdr send_rings) 0 /\
  on_slots (rd_offset cfg_eip) (ring_entries cfg_eip) (rdr send_rings) 0.
Proof. split; exists 0, 0; vm_compute; intuition congruence. Qed.

Lemma send_req_failure_restores_rings_witness :
  let s := send_state0 true 64 in
  let r := safexcel_ahash_send_req cfg_eip send_env_bad 7%nat send_ctx
             (mk_areq 0 []) s in
  (fst (fst r) = - EINVAL \/ fst (fst r) = - ENOMEM) /\
  snd (fst r) = None /\
  cdr (sh (snd r)) = cdr (sh s) /\ rdr (sh (snd r)) = rdr (sh s) /\
  stab (snd r) = stab s /\
  len (core (sreq (snd r))) = len (core (sreq s)) /\
  processed (core (sreq (snd r))) = processed (core (sreq s)).
Proof.
  intros s r.
  apply (send_req_failure_restores_rings nat cfg_eip send_env_bad 7%nat
           send_ctx (mk_areq 0 []) s 0 0 (fst (fst r)) (snd (fst r)) (snd r)).
  - vm_compute; reflexivity.
  - vm_compute; reflexivity.
  - vm_compute; discriminate.
  - apply send_rings_on_slots.
  - apply send_rings_on_slots.
  - vm_compute; reflexivity.
  - vm_compute; reflexivity.
  - vm_compute; discriminate.
Defined.

Lemma send_req_success_counts_witness :
  let s := send_state0 false 228 in
  let r := safexcel_ahash_send_req cfg_eip send_env_ok 7%nat send_ctx
             (mk_areq 100 []) s in
  (snd (fst r) = Some (0, 0) /\ sh (snd r) = sh s /\ stab (snd r) = stab s /\
   sdata (snd r) = sdata s) \/
  (exists k ps,
     snd (fst r) = Some (Z.of_nat k, 1) /\
     (1 <= k <= 1 + length (sg send_env_ok))%nat /\
     reserve_slots CDR cfg_eip k (cdr (sh s)) = Some (ps, cdr (sh (snd r))) /\
     reserve_slots RDR cfg_eip 1 (rdr (sh s))
       = Some ([write (rdr (sh s))], rdr (sh (snd r))) /\
     stab (snd r) = safexcel_rdr_req_set cfg_eip (rdr (sh (snd r))) (stab s)
                      (write (rdr (sh s))) 7%nat).
Proof.
  intros s r.
  apply (send_req_success_counts nat cfg_eip send_env_ok 7%nat
           send_ctx (mk_areq 100 []) s 0 0 (snd (fst r)) (snd r)).
  - vm_compute; reflexivity.
  - vm_compute; reflexivity.
  - vm_compute; discriminate.
  - apply send_rings_on_slots.
  - apply send_rings_on_slots.
  - vm_compute; reflexivity.
  - vm_compute; reflexivity.
Defined.

Lemma send_req_whole_blocks_witness :
  let s := send_state0 false 228 in
  let r := safexcel_ahash_send_req cfg_eip send_env_ok 7%nat send_ctx
             (mk_areq 100 []) s in
  len (core (sreq (snd r))) = len (core (sreq s)) /\
  processed (core (sreq (snd r))) =
    (fst (processed (core (sreq s))) +
       (safexcel_queued_len (core (sreq s))
        - safexcel_queued_len (core (sreq (snd r)))),
     snd (processed (core (sreq s)))) /\
  (if last_req (core (sreq s))
   then safexcel_queued_len (core (sreq (snd r))) = 0
   else 1 <= safexcel_queued_len (core (sreq (snd r))) <= blocksize send_env_ok /\
        (safexcel_queued_len (core (sreq s))
         - safexcel_queued_len (core (sreq (snd r)))) mod blocksize send_env_ok
        = 0).
Proof.
  intros s r.
  apply (send_req_whole_blocks nat cfg_eip send_env_ok 7%nat
           send_ctx (mk_areq 100 []) s 0 0 (snd (fst r)) (snd r) 6).
  - vm_compute; reflexivity.
  - vm_compute; reflexivity.
  - vm_compute; discriminate.
  - apply send_rings_on_slots.
  - apply send_rings_on_slots.
  - vm_compute; reflexivity.
  - vm_compute; reflexivity.
  - lia.
  - reflexivity.
  - vm_compute; split; discriminate.
  - vm_compute; reflexivity.
  - intros _; vm_compute; reflexivity.
  - vm_compute; reflexivity.
Defined.

Example send_req_example :
  let r := safexcel_ahash_send_req cfg_eip send_env_ok 7%nat send_ctx
             (mk_areq 100 []) (send_state0 false 228) in
  fst r = (0, Some (2, 1)) /\
  processed (core (sreq (snd r))) = (192, 0) /\
  firstn 36 (cache_next (sreq (snd r))) = repeat 0x62 36.
Proof. vm_compute. repeat split. Qed.

End SendFacts.

Module ContextFacts.
Import Ring Hash HashState Desc Send.

Lemma context_data_precomputed ctx data req cdesc m :
  digest (core req) = CONTEXT_CONTROL_DIGEST_PRECOMPUTED ->
  finish (core req) = true ->
  fst (processed (core req)) <> 0 \/ snd (processed (core req)) <> 0 ->
  Z.land (processed_blocks (core req)) 0xffff0000 = 0 ->
  snd (safexcel_context_control ctx data req cdesc (state_sz req) m) =
  buf_write
    (buf_write data 0
       (firstn (4 * Z.to_nat (state_sz req / 4)) (state req)))
    (4 * Z.to_nat (state_sz req / 4))
    (le32_bytes (u32 (processed_blocks (core req)))).
Proof.
  intros Hd Hf Hp Hc. unfold safexcel_context_control.
  rewrite Hd, Z.eqb_refl, Hf, Hc.
  assert (Hs : negb (fst (processed (core req)) =? 0)
               || negb (snd (processed (core req)) =? 0) = true).
  { apply orb_true_iff. destruct Hp as [Hp | Hp]; [left | right];
      apply negb_true_iff, Z.eqb_neq; exact Hp. }
  rewrite Hs. reflexivity.
Qed.

Lemma needs_inv_false data req :
  safexcel_ahash_needs_inv_get data req = false <->
  firstn (4 * Z.to_nat (state_sz req / 4)) data
    = firstn (4 * Z.to_nat (state_sz req / 4)) (state req) /\
  firstn 4 (skipn (4 * Z.to_nat (state_sz req / 4)) data)
    = le32_bytes (u32 (processed_blocks (core req))).
Proof.
  unfold safexcel_ahash_needs_inv_get.
  destruct (list_eq_dec Z.eq_dec _ _) as [E1 | E1];
    [destruct (list_eq_dec Z.eq_dec _ _) as [E2 | E2]|];
    split; try tauto; try discriminate; intros [H1 H2]; contradiction.
Qed.

(** X20.  [safexcel_ahash_needs_inv_get] accepts exactly what
    [safexcel_context_control] writes.  For a finishing request with a
    precomputed digest that has processed something and whose block count
    has no bit among the upper 16 of a 32-bit word, and with the state and
    the counter word inside the arrays: [safexcel_context_control] called as
    [safexcel_ahash_send_req] calls it (digest size [state_sz]) keeps the
    length of the context record's data and every byte after the counter
    word, and leaves a record for which [safexcel_ahash_needs_inv_get]
    returns false; and on a record for which it already returns false,
    [safexcel_context_control] changes no byte of the data. *)
Theorem context_control_needs_inv ctx data req cdesc m :
  digest (core req) = CONTEXT_CONTROL_DIGEST_PRECOMPUTED ->
  finish (core req) = true ->
  fst (processed (core req)) <> 0 \/ snd (processed (core req)) <> 0 ->
  Z.land (processed_blocks (core req)) 0xffff0000 = 0 ->
  (4 * Z.to_nat (state_sz req / 4) <= length (state req))%nat ->
  (4 * Z.to_nat (state_sz req / 4) + 4 <= length data)%nat ->
  let data' :=
    snd (safexcel_context_control ctx data req cdesc (state_sz req) m) in
  length data' = length data /\
  skipn (4 * Z.to_nat (state_sz req / 4) + 4) data'
    = skipn (4 * Z.to_nat (state_sz req / 4) + 4) data /\
  safexcel_ahash_needs_inv_get data' req = false /\
  (safexcel_ahash_needs_inv_get data req = false -> data' = data).
Proof.
  intros Hd Hf Hp Hc Hs Hl data'. subst data'.
  rewrite (context_data_precomputed ctx data req cdesc m Hd Hf Hp Hc).
  set (w := (4 * Z.to_nat (state_sz req / 4))%nat) in *.
  set (S := firstn w (state req)).
  set (C := le32_bytes (u32 (processed_blocks (core req)))).
  assert (HS : length S = w) by (subst S; rewrite length_firstn; lia).
  assert (HC : length C = 4%nat) by reflexivity.
  assert (E : buf_write (buf_write data 0 S) w C
              = S ++ C ++ skipn (w + 4) data).
  { unfold buf_write. cbn [firstn Nat.add app]. rewrite HS, HC.
    rewrite firstn_app, firstn_all2 by lia.
    replace (w - length S)%nat with 0%nat by lia. cbn [firstn].
    rewrite app_nil_r. f_equal. f_equal.
    rewrite skipn_app, (skipn_all2 S) by lia. cbn [app].
    rewrite skipn_skipn. f_equal. lia. }
  rewrite E. split; [|split; [|split]].
  - rewrite !length_app, length_skipn, HS, HC. lia.
  - rewrite app_assoc, skipn_app, skipn_all2 by (rewrite length_app; lia).
    cbn [app]. rewrite length_app, HS, HC.
    replace (w + 4 - (w + 4))%nat with 0%nat by lia. reflexivity.
  - apply needs_inv_false. fold w. split.
    + rewrite firstn_app, firstn_all2 by lia.
      replace (w - length S)%nat with 0%nat by lia. cbn [firstn].
      rewrite app_nil_r. reflexivity.
    + rewrite skipn_app, skipn_all2 by lia. cbn [app].
      replace (w - length S)%nat with 0%nat by lia. cbn [skipn].
      rewrite firstn_app, firstn_all2 by lia.
      replace (4 - length C)%nat with 0%nat by lia. cbn [firstn].
      apply app_nil_r.
  - intros Hn. apply needs_inv_false in Hn. fold w in Hn.
    destruct Hn as [H1 H2]. fold S in H1. fold C in H2.
    rewrite <- H1, <- H2.
    rewrite <- (firstn_skipn w data) at 4.
    f_equal.
    rewrite <- (firstn_skipn 4 (skipn w data)) at 2.
    f_equal. rewrite skipn_skipn. f_equal. lia.
Qed.

Lemma context_control_needs_inv_witness :
  let req := set_core (send_req64 true 128)
               (set_processed (core (send_req64 true 128)) (64, 0)) in
  let data := repeat 0xff 160 in
  let data' :=
    snd (safexcel_context_control send_ctx data req 4096 (state_sz req)
           (fun _ => 0)) in
  length data' = length data /\
  skipn (4 * Z.to_nat (state_sz req / 4) + 4) data'
    = skipn (4 * Z.to_nat (state_sz req / 4) + 4) data /\
  safexcel_ahash_needs_inv_get data' req = false /\
  (safexcel_ahash_needs_inv_get data req = false -> data' = data).
Proof.
  intros req data.
  apply (context_control_needs_inv send_ctx data req 4096 (fun _ => 0)).
  - reflexivity.
  - reflexivity.
  - left. vm_compute. discriminate.
  - vm_compute. reflexivity.
  - vm_compute. lia.
  - vm_compute. lia.
Defined.

End ContextFacts.
Module PacketFacts.
Import Ring RingFacts RingOrder RingOrderFacts SideTableFacts Hash HashState Desc DescFacts
       Send SendFacts.

(** The head of the descriptor [safexcel_add_cdesc] writes, and the
    memory it leaves alone. *)
Lemma add_cdesc_mem cfg first last data dl fl ctx h p h' :
  safexcel_add_cdesc cfg first last data dl fl ctx h = (Ptr p, h') ->
  Engine.cdesc_last_seg (dmem h') p = last /\
  desc_first_seg (dmem h') p = first /\
  desc_particle_size (dmem h') p = dl mod 2 ^ 17 /\
  (forall a, a < p \/ p + 72 <= a -> dmem h' a = dmem h a).
Proof.
  unfold safexcel_add_cdesc.
  destruct (safexcel_cdr_next_wptr cfg (cdr h)) as [[q | e] r1];
    [|discriminate].
  intros E. apply pair_equal_spec in E. destruct E as [Ep Eh].
  injection Ep as ->. subst h'. cbn [dmem].
  assert (Hw : (4 <= EIP197_CD64_FETCH_SIZE)%nat)
    by (unfold EIP197_CD64_FETCH_SIZE; lia).
  pose proof (head_last_seg (dmem h) p EIP197_CD64_FETCH_SIZE first last
                data dl) as H22.
  pose proof (head_first_seg (dmem h) p EIP197_CD64_FETCH_SIZE first last
                data dl) as H23.
  pose proof (head_particle_size (dmem h) p EIP197_CD64_FETCH_SIZE first
                last data dl) as Hps.
  pose proof (head_frame (dmem h) p EIP197_CD64_FETCH_SIZE first last
                data dl) as Hfr.
  match goal with
  | |- context [if first && negb (ctx =? 0) then _ else ?x] =>
      set (m1 := x) in *
  end.
  assert (Hout : forall a, a < p \/ p + 72 <= a -> m1 a = dmem h a).
  { intros a Ha. apply Hfr; [exact Hw|].
    unfold EIP197_CD64_FETCH_SIZE. lia. }
  destruct (first && negb (ctx =? 0)).
  - unfold Engine.cdesc_last_seg, desc_first_seg, desc_particle_size,
      load_bits at 1.
    rewrite !(control_frame m1 p fl ctx) by (offsets; lia).
    split; [exact H22|]. split; [exact H23|]. split; [exact Hps|].
    intros a Ha. rewrite control_frame by (offsets; lia). apply Hout, Ha.
  - split; [exact H22|]. split; [exact H23|]. split; [exact Hps|]. exact Hout.
Qed.

(** A slot just handed out lies a stride or more away from each of the
    slots handed out after it. *)
Lemma reserved_apart cfg r n p r1 N ps r2 :
  0 < cd_offset cfg -> 1 <= ring_entries cfg ->
  on_slots (cd_offset cfg) (ring_entries cfg) r n ->
  next_write_slot CDR cfg r = (Ptr p, r1) ->
  reserve_slots CDR cfg N r1 = Some (ps, r2) ->
  Forall (fun q => p + cd_offset cfg <= q \/ q + cd_offset cfg <= p) ps.
Proof.
  intros Hoff Hcap H Ew Hres.
  assert (Hall : reserve_slots CDR cfg (S N) r = Some (p :: ps, r2)).
  { cbn [reserve_slots]. rewrite Ew, Hres. reflexivity. }
  destruct H as (wi & ri & Hw & Hr & Ewr & Er & Ee & Hn).
  assert (Hon : on_slots (stride CDR cfg) (ring_entries cfg) r n)
    by (exists wi, ri; cbn [stride]; tauto).
  destruct (reserve_slots_idx CDR cfg Hoff Hcap (S N) r n wi (p :: ps) r2
              Hon Hw Ewr Hall) as (Eps & Hle & _).
  cbn [stride] in Eps. rewrite <- cons_seq in Eps. cbn [map] in Eps.
  injection Eps as Ep Eps. rewrite Z.add_0_r, Z.mod_small in Ep by lia.
  subst p ps. apply Forall_forall. intros q Hq.
  apply in_map_iff in Hq. destruct Hq as (j & <- & Hj).
  apply in_seq in Hj.
  assert (Hn0 : 0 <= n) by (rewrite Hn; destruct (Z.leb_spec ri wi); lia).
  pose proof (mod_add_ne (ring_entries cfg) wi (Z.of_nat j) ltac:(lia)) as Hne.
  rewrite (Z.mod_small wi) in Hne by lia.
  pose proof (Z.mod_pos_bound (wi + Z.of_nat j) (ring_entries cfg) ltac:(lia)).
  nia.
Qed.

Lemma sg_loop_packet cfg ctxr len :
  72 <= cd_offset cfg -> 1 <= ring_entries cfg ->
  forall sgs queued n first h nc n' f' h',
  on_slots (cd_offset cfg) (ring_entries cfg) (cdr h) nc ->
  0 <= n -> n + Z.of_nat (length sgs) < 2 ^ 31 ->
  Forall (fun e => 0 <= snd e < 2 ^ 31) sgs ->
  0 <= queued < 2 ^ 64 -> queued <= sg_bytes sgs -> sgs <> [] ->
  sg_loop cfg ctxr len sgs queued n first h = inr (n', f', h') ->
  exists k ps,
    n' = n + Z.of_nat (S k) /\
    reserve_slots CDR cfg (S k) (cdr h) = Some (ps, cdr h') /\
    f' = (if n =? 0 then hd first ps else first) /\
    map (desc_first_seg (dmem h')) ps = (n =? 0) :: repeat false k /\
    map (Engine.cdesc_last_seg (dmem h')) ps = repeat false k ++ [true] /\
    (queued < 2 ^ 17 -> desc_bytes (dmem h') ps = queued) /\
    (forall a, Forall (fun p => a < p \/ p + 72 <= a) ps ->
       dmem h' a = dmem h a).
Proof.
  intros Hoff Hcap.
  induction sgs as [|[addr dl] rest IH];
    intros queued n first h nc n' f' h' H Hn Hlen Hdl Hq Hcov Hne E;
    [congruence|].
  clear Hne. cbn [length] in Hlen. cbn [sg_loop] in E.
  inversion Hdl as [|x l Hd Hrest]; subst x l. cbn [snd] in Hd.
  unfold sg_bytes in Hcov. cbn [map fold_right snd] in Hcov.
  fold (sg_bytes rest) in Hcov.
  rewrite (s32_id dl) in E by lia.
  rewrite (u64_id dl) in E by lia.
  set (sglen := if queued <? dl then s32 queued else dl) in *.
  assert (Hsg : 0 <= sglen <= queued /\ sglen <= dl /\
                (queued - sglen = 0 \/ sglen = dl)).
  { subst sglen. destruct (Z.ltb_spec queued dl).
    - rewrite s32_id by lia. lia.
    - lia. }
  rewrite (u64_id (queued - sglen)) in E by lia.
  destruct (safexcel_add_cdesc cfg (n =? 0) (queued - sglen =? 0) addr
              (u32 sglen) (u32 len) ctxr h) as [[p | e] h1] eqn:Ea;
    [|discriminate].
  destruct (add_cdesc_mem _ _ _ _ _ _ _ _ _ _ Ea) as (Hl1 & Hf1 & Hp1 & Hfr1).
  destruct (add_cdesc_cases cfg (n =? 0) (queued - sglen =? 0) addr
              (u32 sglen) (u32 len) ctxr h nc ltac:(lia) Hcap H)
    as [Ex | (hx & Ex & Hr & Ew & H1)]; rewrite Ea in Ex; [discriminate|].
  apply pair_equal_spec in Ex. destruct Ex as [Ep Eh].
  injection Ep as ->. subst hx.
  rewrite (s32_id (n + 1)) in E by lia.
  assert (Hfirst : (if n + 1 =? 1 then write (cdr h) else first)
                   = (if n =? 0 then write (cdr h) else first)).
  { destruct (Z.eqb_spec n 0) as [-> | Hn0]; [reflexivity|].
    destruct (Z.eqb_spec (n + 1) 1); [lia | reflexivity]. }
  rewrite Hfirst in E.
  destruct (Z.eqb_spec (queued - sglen) 0) as [E0 | E0].
  - injection E as E1 E2 E3. subst n' f' h'.
    exists 0%nat, [write (cdr h)].
    cbn [reserve_slots map repeat app hd]. rewrite Ew, Hl1, Hf1.
    split; [reflexivity|]. split; [reflexivity|].
    split; [destruct (n =? 0); reflexivity|].
    split; [reflexivity|]. split; [reflexivity|]. split.
    + intros H17.
      unfold desc_bytes. cbn [map fold_right]. rewrite Hp1.
      unfold u32. rewrite (Z.mod_small sglen (2 ^ 32)) by lia.
      rewrite Z.mod_small; lia.
    + intros a Ha. inversion Ha; subst. apply Hfr1. assumption.
  - assert (Hsl : sglen = dl) by lia.
    assert (Hrne : rest <> []).
    { intros ->. unfold sg_bytes in Hcov. cbn in Hcov. lia. }
    destruct (IH (queued - sglen) (n + 1)
                (if n =? 0 then write (cdr h) else first) h1 (nc + 1) n' f' h'
                H1 ltac:(lia) ltac:(lia) Hrest ltac:(lia) ltac:(lia) Hrne E)
      as (k & ps & En & Hres & Ef & Hfs & Hls & Hby & Hfr).
    pose proof (reserved_apart cfg (cdr h) nc (write (cdr h)) (cdr h1) (S k)
                  ps (cdr h') ltac:(lia) Hcap H Ew Hres) as Hap.
    assert (Hp : dmem h' (write (cdr h)) = dmem h1 (write (cdr h))).
    { apply Hfr. eapply Forall_impl; [|exact Hap].
      cbv beta. intros q Hqq. lia. }
    exists (S k), (write (cdr h) :: ps).
    split; [lia|].
    split; [cbn [reserve_slots] in *; rewrite Ew, Hres; reflexivity|].
    split.
    { rewrite Ef. cbn [hd].
      destruct (Z.eqb_spec (n + 1) 0); [lia|]. reflexivity. }
    split.
    { cbn [map repeat]. rewrite Hfs. unfold desc_first_seg at 1.
      rewrite Hp. fold (desc_first_seg (dmem h1) (write (cdr h))).
      rewrite Hf1. destruct (Z.eqb_spec (n + 1) 0); [lia|]. reflexivity. }
    split.
    { cbn [map repeat app]. rewrite Hls. unfold Engine.cdesc_last_seg at 1.
      rewrite Hp. fold (Engine.cdesc_last_seg (dmem h1) (write (cdr h))).
      rewrite Hl1. reflexivity. }
    split.
    { intros H17.
      unfold desc_bytes. cbn [map fold_right].
      fold (desc_bytes (dmem h') ps). rewrite (Hby ltac:(lia)).
      unfold desc_particle_size, load_bits. rewrite Hp.
      fold (load_bits (dmem h1) (write (cdr h)) 0 17).
      fold (desc_particle_size (dmem h1) (write (cdr h))). rewrite Hp1.
      unfold u32. rewrite (Z.mod_small sglen (2 ^ 32)) by lia.
      rewrite Z.mod_small; lia. }
    intros a Ha. inversion Ha as [|x l Hx Hxs]; subst x l.
    rewrite (Hfr a Hxs). apply Hfr1. exact Hx.
Qed.

Lemma or32_other m x v a : a <> x -> or32 m x v a = m a.
Proof. intros H. unfold or32. apply store32_other. congruence. Qed.

(** [safexcel_context_control] writes the two control words and no other
    word of the device memory. *)
Lemma context_control_frame ctx data req c ds m a :
  a <> c + 32 -> a <> c + 36 ->
  fst (safexcel_context_control ctx data req c ds m) a = m a.
Proof.
  intros H32 H36. unfold safexcel_context_control. offsets.
  repeat match goal with
         | |- context [if ?b then _ else _] => destruct b
         end;
    cbn [fst]; rewrite ?or32_other by assumption; reflexivity.
Qed.

(** [safexcel_hash_token] writes the first two tokens only, and the
    first one carries the input length. *)
Lemma hash_token_frame c il rl m a :
  a <> c + 40 -> a <> c + 44 -> safexcel_hash_token c il rl m a = m a.
Proof.
  intros H40 H44. unfold safexcel_hash_token. offsets.
  rewrite !store_bits_other by lia. reflexivity.
Qed.

Lemma hash_token_length c il rl m :
  load_bits (safexcel_hash_token c il rl m) (c + token_ofs) 0 17
  = il mod 2 ^ 17.
Proof.
  unfold safexcel_hash_token. offsets. unfold load_bits.
  rewrite !(store_bits_other _ (c + 40 + 4)) by lia.
  fold (load_bits
          (store_bits
             (store_bits
                (store_bits
                   (store_bits m (c + 40) 28 4 EIP197_TOKEN_OPCODE_DIRECTION)
                   (c + 40) 0 17 il) (c + 40) 17 2 EIP197_TOKEN_STAT_LAST_HASH)
             (c + 40) 19 9 EIP197_TOKEN_INS_TYPE_HASH) (c + 40) 0 17).
  rewrite !load_store_bits_disjoint by lia.
  apply load_store_bits; lia.
Qed.

Lemma add_rdesc_mem cfg first last data len h p h' :
  safexcel_add_rdesc cfg first last data len h = (Ptr p, h') ->
  forall a, a < p \/ p + 16 <= a -> dmem h' a = dmem h a.
Proof.
  unfold safexcel_add_rdesc.
  destruct (safexcel_rdr_next_wptr cfg (rdr h)) as [[q | e] r1];
    [|discriminate].
  intros E. apply pair_equal_spec in E. destruct E as [Ep Eh].
  injection Ep as ->. subst h'. cbn [dmem]. intros a Ha.
  apply (head_frame (dmem h) p EIP197_RD64_FETCH_SIZE first last data len);
    unfold EIP197_RD64_FETCH_SIZE; lia.
Qed.

(** The slots a row of reservations hands out lie inside the ring, and
    the first of them is the one under the write cursor, a stride or more
    away from the others. *)
Lemma reserved_in_ring cfg r n N ps r2 :
  0 < cd_offset cfg -> 1 <= ring_entries cfg ->
  on_slots (cd_offset cfg) (ring_entries cfg) r n ->
  reserve_slots CDR cfg N r = Some (ps, r2) ->
  Forall (fun p => base r <= p <= base_end r) ps.
Proof.
  intros Hoff Hcap H Hres.
  destruct H as (wi & ri & Hw & Hr & Ewr & Er & Ee & Hn).
  assert (Hon : on_slots (stride CDR cfg) (ring_entries cfg) r n)
    by (exists wi, ri; cbn [stride]; tauto).
  destruct (reserve_slots_idx CDR cfg Hoff Hcap N r n wi ps r2
              Hon Hw Ewr Hres) as (Eps & _).
  cbn [stride] in Eps. subst ps. apply Forall_forall. intros q Hq.
  apply in_map_iff in Hq. destruct Hq as (j & <- & Hj).
  pose proof (Z.mod_pos_bound (wi + Z.of_nat j) (ring_entries cfg) ltac:(lia)).
  rewrite Ee. nia.
Qed.

Lemma reserved_head cfg r n k ps r2 :
  0 < cd_offset cfg -> 1 <= ring_entries cfg ->
  on_slots (cd_offset cfg) (ring_entries cfg) r n ->
  reserve_slots CDR cfg (S k) r = Some (ps, r2) ->
  exists ps',
    ps = write r :: ps' /\
    Forall (fun q => write r + cd_offset cfg <= q \/
                     q + cd_offset cfg <= write r) ps'.
Proof.
  intros Hoff Hcap H Hres. cbn [reserve_slots] in Hres.
  destruct (next_write_slot_on_slots CDR cfg Hoff Hcap _ _ H)
    as [[_ E] | [Hn E]]; rewrite E in Hres; [discriminate|].
  match type of Hres with
  | context [reserve_slots CDR cfg k ?r1] =>
      destruct (reserve_slots CDR cfg k r1) as [[ps' r3]|] eqn:Er;
        [|discriminate]
  end.
  injection Hres as <- <-. exists ps'. split; [reflexivity|].
  eapply reserved_apart; eassumption.
Qed.

Lemma send_len_range env req : 0 <= send_len env req < 2 ^ 64.
Proof.
  unfold send_len, safexcel_queued_len, u64.
  repeat match goal with
         | |- context [if ?b then _ else _] => destruct b
         end; apply Z.mod_pos_bound; lia.
Qed.

Lemma send_cache_len_range env areq req :
  0 <= send_cache_len env areq req < 2 ^ 64.
Proof.
  unfold send_cache_len, safexcel_queued_len, u64.
  repeat match goal with
         | |- context [if ?b then _ else _] => destruct b
         end; apply Z.mod_pos_bound; lia.
Qed.

Section Packet.
Variable request : Type.
Variables (cfg : safexcel_config) (env : send_env) (async : request)
          (ctx : hash_ctx).

Lemma send_command_mem len n first h t req data nr out
    (s' : send_state request) :
  0 < rd_offset cfg -> 1 <= ring_entries cfg ->
  on_slots (rd_offset cfg) (ring_entries cfg) (rdr h) nr ->
  send_command cfg env async ctx len n first h t req data = (0, out, s') ->
  out = Some (n, 1) /\ cdr (sh s') = cdr h /\
  (forall a,
     a <> first + 32 -> a <> first + 36 -> a <> first + 40 ->
     a <> first + 44 ->
     a < write (rdr h) \/ write (rdr h) + 16 <= a ->
     dmem (sh s') a = dmem h a) /\
  (first + 40 < write (rdr h) \/ write (rdr h) + 16 <= first + 40 ->
   load_bits (dmem (sh s')) (first + token_ofs) 0 17 = u32 len mod 2 ^ 17).
Proof.
  intros Hoff Hcap H. unfold send_command.
  destruct (safexcel_context_control ctx data req first (state_sz req) (dmem h))
    as [m data'] eqn:Ecc.
  assert (Hm : m = fst (safexcel_context_control ctx data req first
                          (state_sz req) (dmem h)))
    by (rewrite Ecc; reflexivity).
  set (m1 := safexcel_hash_token first (u32 len) (state_sz req) m).
  destruct (map_result_error env).
  { intros E. exfalso. injection E as E1 _ _. vm_compute in E1.
    discriminate. }
  match goal with
  | |- context [safexcel_add_rdesc ?a ?b ?c ?d ?e ?f] =>
      destruct (add_rdesc_cases a b c d e f nr Hoff Hcap H)
        as [E1 | (h1 & E1 & Hc1 & Ew & H1)];
      pose proof (add_rdesc_mem a b c d e f) as Hfr
  end; rewrite E1 in *.
  { intros E. exfalso. injection E as E2 _ _. vm_compute in E2.
    discriminate. }
  specialize (Hfr _ _ eq_refl). cbn [dmem rdr] in Hfr.
  intros E. injection E as <- <-. cbn [sh].
  split; [reflexivity|]. split; [exact Hc1|]. split.
  - intros a H32 H36 H40 H44 Ha. rewrite (Hfr a Ha). subst m1.
    rewrite hash_token_frame by assumption. rewrite Hm.
    apply context_control_frame; assumption.
  - intros Ha. unfold load_bits. unfold token_ofs. rewrite (Hfr _ Ha).
    apply (hash_token_length first (u32 len) (state_sz req) m).
Qed.

(** The row of command descriptors stays as it is through
    [send_command]. *)
Lemma send_command_packet (s : send_state request) nc nr len n k ps h t
    req data out s' :
  72 <= cd_offset cfg -> 16 <= rd_offset cfg -> 1 <= ring_entries cfg ->
  on_slots (cd_offset cfg) (ring_entries cfg) (cdr (sh s)) nc ->
  on_slots (rd_offset cfg) (ring_entries cfg) (rdr (sh s)) nr ->
  base_end (cdr (sh s)) + cd_offset cfg <= base (rdr (sh s)) \/
  base_end (rdr (sh s)) + rd_offset cfg <= base (cdr (sh s)) ->
  reserve_slots CDR cfg (S k) (cdr (sh s)) = Some (ps, cdr h) ->
  rdr h = rdr (sh s) ->
  send_command cfg env async ctx len n (hd 0 ps) h t req data
    = (0, out, s') ->
  out = Some (n, 1) /\ cdr (sh s') = cdr h /\
  map (desc_first_seg (dmem (sh s'))) ps = map (desc_first_seg (dmem h)) ps /\
  map (Engine.cdesc_last_seg (dmem (sh s'))) ps
    = map (Engine.cdesc_last_seg (dmem h)) ps /\
  desc_bytes (dmem (sh s')) ps = desc_bytes (dmem h) ps /\
  load_bits (dmem (sh s')) (hd 0 ps + token_ofs) 0 17 = u32 len mod 2 ^ 17.
Proof.
  intros Hc Hr Hcap Hon Hrd Hdis Hres Erdr E.
  rewrite <- Erdr in Hrd.
  destruct (send_command_mem _ _ _ _ _ _ _ _ _ _ ltac:(lia) Hcap Hrd E)
    as (Ho & Ec & Hfr & Htok).
  rewrite Erdr in *.
  pose proof (reserved_in_ring cfg _ _ _ _ _ ltac:(lia) Hcap Hon Hres) as Hin.
  destruct (reserved_head cfg _ _ _ _ _ ltac:(lia) Hcap Hon Hres)
    as (ps' & -> & Hap).
  cbn [hd] in *.
  assert (Hw : base (rdr (sh s)) <= write (rdr (sh s)) <= base_end (rdr (sh s))).
  { destruct Hrd as (wi & ri & Hwi & Hri & Ew & Er & Ee & _).
    rewrite Ew, Ee. nia. }
  assert (Hword : forall p, In p (write (cdr (sh s)) :: ps') ->
                    dmem (sh s') p = dmem h p).
  { intros p Hp.
    assert (Hpr : base (cdr (sh s)) <= p <= base_end (cdr (sh s)))
      by (rewrite Forall_forall in Hin; apply Hin, Hp).
    assert (Hpa : p = write (cdr (sh s)) \/
                  write (cdr (sh s)) + cd_offset cfg <= p \/
                  p + cd_offset cfg <= write (cdr (sh s))).
    { destruct Hp as [<- | Hp]; [left; reflexivity|].
      right. rewrite Forall_forall in Hap. apply Hap, Hp. }
    apply Hfr; lia. }
  split; [exact Ho|]. split; [exact Ec|].
  split; [apply map_ext_in; intros p Hp; unfold desc_first_seg;
          rewrite (Hword p Hp); reflexivity|].
  split; [apply map_ext_in; intros p Hp; unfold Engine.cdesc_last_seg;
          rewrite (Hword p Hp); reflexivity|].
  split.
  { unfold desc_bytes. f_equal. apply map_ext_in. intros p Hp.
    unfold desc_particle_size. apply load_bits_ext. apply Hword, Hp. }
  apply Htok.
  assert (Hpr : base (cdr (sh s)) <= write (cdr (sh s)) <= base_end (cdr (sh s))).
  { rewrite Forall_forall in Hin. apply Hin. left. reflexivity. }
  lia.
Qed.

Lemma trunc17 x : 0 <= x < 2 ^ 17 -> u32 x mod 2 ^ 17 = x.
Proof.
  intros H. unfold u32. rewrite (Z.mod_small x (2 ^ 32)) by lia.
  apply Z.mod_small. exact H.
Qed.

Lemma send_req_packet areq (s : send_state request) nc nr kz s' :
  72 <= cd_offset cfg -> 16 <= rd_offset cfg -> 1 <= ring_entries cfg ->
  on_slots (cd_offset cfg) (ring_entries cfg) (cdr (sh s)) nc ->
  on_slots (rd_offset cfg) (ring_entries cfg) (rdr (sh s)) nr ->
  base_end (cdr (sh s)) + cd_offset cfg <= base (rdr (sh s)) \/
  base_end (rdr (sh s)) + rd_offset cfg <= base (cdr (sh s)) ->
  Z.of_nat (length (sg env)) < 2 ^ 31 - 1 ->
  Forall (fun e => 0 <= snd e < 2 ^ 31) (sg env) ->
  send_cache_len env areq (sreq s) <= send_len env (sreq s) ->
  send_len env (sreq s) - send_cache_len env areq (sreq s)
    <= sg_bytes (sg env) ->
  safexcel_ahash_send_req cfg env async ctx areq s = (0, Some (kz, 1), s') ->
  exists k ps,
    kz = Z.of_nat (S k) /\
    reserve_slots CDR cfg (S k) (cdr (sh s)) = Some (ps, cdr (sh s')) /\
    map (desc_first_seg (dmem (sh s'))) ps = true :: repeat false k /\
    map (Engine.cdesc_last_seg (dmem (sh s'))) ps = repeat false k ++ [true] /\
    (send_len env (sreq s) < 2 ^ 17 ->
     desc_bytes (dmem (sh s')) ps = send_len env (sreq s) /\
     load_bits (dmem (sh s')) (hd 0 ps + token_ofs) 0 17
       = send_len env (sreq s)).
Proof.
  intros Hc Hr Hcap Hon Hrd Hdis Hlen Hdl Hcl Hcov.
  pose proof (send_len_range env (sreq s)) as HL.
  pose proof (send_cache_len_range env areq (sreq s)) as HC.
  unfold safexcel_ahash_send_req.
  set (req1 := if negb (send_extra env (sreq s) =? 0) then _ else sreq s).
  set (L := send_len env (sreq s)) in *.
  set (C := send_cache_len env areq (sreq s)) in *.
  destruct (negb (send_extra env (sreq s) =? 0) && (L =? 0));
    [intros E; discriminate|].
  destruct (Z.eqb_spec C 0) as [EC | EC]; cbn [negb].
  - (* no cached data: the scatterlist from the start *)
    unfold send_sg. cbn [nents set_nents].
    destruct (Z.eqb_spec (Z.of_nat (length (sg env))) 0) as [E0 | E0];
      [intros E; discriminate|].
    assert (Hne : sg env <> []).
    { intros Hnil. rewrite Hnil in E0. cbn in E0. lia. }
    destruct (sg_loop cfg (ctxr_dma ctx) L (sg env) L 0 0 (sh s))
      as [[[e n1] h1] | [[n1 f1] h1]] eqn:Eloop; [intros E; discriminate|].
    destruct (sg_loop_packet cfg (ctxr_dma ctx) L Hc Hcap (sg env) L 0 0 (sh s)
                nc n1 f1 h1 Hon ltac:(lia) ltac:(lia) Hdl HL ltac:(lia) Hne
                Eloop)
      as (k & ps & En & Hres & Ef & Hfs & Hls & Hby & Hfr).
    cbn [Z.eqb] in Ef, Hfs. subst f1.
    assert (Erdr : rdr h1 = rdr (sh s)).
    { destruct (sg_loop_rings cfg (ctxr_dma ctx) L ltac:(lia) Hcap (sg env) L
                  0 0 (sh s) nc Hon ltac:(lia) ltac:(lia))
        as (k' & ps' & h' & _ & Hr' & _ & _ & [Ho | [Ho _]]);
        rewrite Eloop in Ho; [discriminate|].
      assert (Eh : h1 = h') by congruence. subst h'. exact Hr'. }
    intros E.
    destruct (send_command_packet s nc nr L n1 k ps h1 _ _ _ _ _
                Hc Hr Hcap Hon Hrd Hdis Hres Erdr E)
      as (Ho & Ec & Hf' & Hl' & Hb' & Htok).
    injection Ho as Ekz. exists k, ps.
    split; [lia|]. rewrite Ec, Hf', Hl', Hb', Htok.
    split; [exact Hres|]. split; [exact Hfs|]. split; [exact Hls|].
    intros H17. split; [apply Hby, H17 | apply trunc17; lia].
  - (* a descriptor for the cached data first *)
    destruct (map_cache_error env); [intros E; discriminate|].
    match goal with
    | |- context [safexcel_add_cdesc ?a ?b ?c ?d ?e ?f ?g ?h] =>
        destruct (add_cdesc_cases a b c d e f g h nc ltac:(lia) Hcap Hon)
          as [E1 | (h1 & E1 & Hr1 & Ew & H1)];
        pose proof (add_cdesc_mem a b c d e f g h) as Hmem
    end; rewrite E1 in *; [intros E; discriminate|].
    destruct (Hmem _ _ eq_refl) as (Hl1 & Hf1 & Hp1 & Hfr1). clear Hmem.
    assert (Hres1 : reserve_slots CDR cfg 1 (cdr (sh s))
                    = Some ([write (cdr (sh s))], cdr h1)).
    { cbn [reserve_slots]. rewrite Ew. reflexivity. }
    rewrite (u64_id (L - C)) by lia.
    destruct (Z.eqb_spec (L - C) 0) as [E0 | E0].
    + intros E.
      destruct (send_command_packet s nc nr L 1 0%nat [write (cdr (sh s))] h1
                  _ _ _ _ _ Hc Hr Hcap Hon Hrd Hdis Hres1 Hr1 E)
        as (Ho & Ec & Hf' & Hl' & Hb' & Htok).
      injection Ho as Ekz. exists 0%nat, [write (cdr (sh s))].
      split; [lia|]. rewrite Ec, Hf', Hl', Hb', Htok.
      split; [exact Hres1|]. cbn [map repeat app].
      rewrite Hf1, Hl1.
      split; [reflexivity|].
      split; [destruct (Z.eqb_spec C L); [reflexivity | lia]|].
      intros H17. unfold desc_bytes. cbn [map fold_right hd].
      rewrite Hp1, !trunc17 by lia. lia.
    + unfold send_sg. cbn [nents set_nents].
      destruct (Z.eqb_spec (Z.of_nat (length (sg env))) 0) as [En0 | En0];
        [intros E; discriminate|].
      assert (Hne : sg env <> []).
      { intros Hnil. rewrite Hnil in En0. cbn in En0. lia. }
      destruct (sg_loop cfg (ctxr_dma ctx) L (sg env) (L - C) 1
                  (write (cdr (sh s))) h1)
        as [[[e n1] h2] | [[n1 f1] h2]] eqn:Eloop; [intros E; discriminate|].
      destruct (sg_loop_packet cfg (ctxr_dma ctx) L Hc Hcap (sg env) (L - C) 1
                  (write (cdr (sh s))) h1 (nc + 1) n1 f1 h2 H1 ltac:(lia)
                  ltac:(lia) Hdl ltac:(lia) ltac:(lia) Hne Eloop)
        as (k & ps & En & Hres & Ef & Hfs & Hls & Hby & Hfr).
      cbn [Z.eqb] in Ef, Hfs. subst f1.
      assert (Erdr : rdr h2 = rdr (sh s)).
      { destruct (sg_loop_rings cfg (ctxr_dma ctx) L ltac:(lia) Hcap (sg env)
                    (L - C) 1 (write (cdr (sh s))) h1 (nc + 1) H1 ltac:(lia)
                    ltac:(lia))
          as (k' & ps' & h' & _ & Hr' & _ & _ & [Ho | [Ho _]]);
          rewrite Eloop in Ho; [discriminate|].
        assert (Eh : h2 = h') by congruence. subst h'. congruence. }
      assert (Hall : reserve_slots CDR cfg (S (S k)) (cdr (sh s))
                     = Some (write (cdr (sh s)) :: ps, cdr h2)).
      { cbn [reserve_slots] in *. rewrite Ew, Hres. reflexivity. }
      pose proof (reserved_apart cfg (cdr (sh s)) nc (write (cdr (sh s)))
                    (cdr h1) (S k) ps (cdr h2) ltac:(lia) Hcap Hon Ew Hres)
        as Hap.
      assert (Hp : dmem h2 (write (cdr (sh s))) = dmem h1 (write (cdr (sh s)))).
      { apply Hfr. eapply Forall_impl; [|exact Hap].
        cbv beta. intros q Hqq. lia. }
      intros E.
      destruct (send_command_packet s nc nr L n1 (S k)
                  (write (cdr (sh s)) :: ps) h2
                  _ _ _ _ _ Hc Hr Hcap Hon Hrd Hdis Hall Erdr E)
        as (Ho & Ec & Hf' & Hl' & Hb' & Htok).
      injection Ho as Ekz. exists (S k), (write (cdr (sh s)) :: ps).
      split; [lia|]. rewrite Ec, Hf', Hl', Hb', Htok.
      split; [exact Hall|]. cbn [map repeat app].
      rewrite Hfs, Hls.
      unfold desc_first_seg at 1. unfold Engine.cdesc_last_seg at 1.
      rewrite Hp.
      fold (desc_first_seg (dmem h1) (write (cdr (sh s)))).
      fold (Engine.cdesc_last_seg (dmem h1) (write (cdr (sh s)))).
      rewrite Hf1, Hl1.
      split; [reflexivity|].
      split; [destruct (Z.eqb_spec C L); [lia | reflexivity]|].
      intros H17. split; [|apply trunc17; lia].
      unfold desc_bytes. cbn [map fold_right].
      fold (desc_bytes (dmem h2) ps). rewrite (Hby ltac:(lia)).
      unfold desc_particle_size, load_bits. rewrite Hp.
      fold (load_bits (dmem h1) (write (cdr (sh s))) 0 17).
      fold (desc_particle_size (dmem h1) (write (cdr (sh s)))).
      rewrite Hp1, trunc17 by lia. lia.
Qed.

End Packet.

(** [safexcel_complete] on a row of descriptors of which the last one
    only has [last_seg]: it reads them all, and no fewer. *)
Lemma complete_by_flags cfg m k : forall r ps r',
  read_slots CDR cfg (S k) r = (map Ptr ps, r') ->
  map (Engine.cdesc_last_seg m) ps = repeat false k ++ [true] ->
  Engine.safexcel_complete (S k) cfg m r = Some r' /\
  forall fuel, (fuel <= k)%nat -> Engine.safexcel_complete fuel cfg m r = None.
Proof.
  induction k as [|k IH]; intros r ps r' Hread Hflags.
  - cbn [read_slots read_slot] in Hread.
    destruct (safexcel_cdr_next_rptr cfg r) as [p r1] eqn:E.
    destruct ps as [|q [|q' ps]]; try discriminate.
    injection Hread as -> ->. cbn [map repeat app] in Hflags.
    injection Hflags as Hq. split.
    + cbn [Engine.safexcel_complete]. rewrite E, Hq. reflexivity.
    + intros fuel Hf. assert (fuel = 0%nat) as -> by lia. reflexivity.
  - change (read_slots CDR cfg (S (S k)) r)
      with (let '(p, r1) := read_slot CDR cfg r in
            let '(qs, r2) := read_slots CDR cfg (S k) r1 in (p :: qs, r2))
      in Hread.
    cbn [read_slot] in Hread.
    destruct (safexcel_cdr_next_rptr cfg r) as [p r1] eqn:E.
    destruct (read_slots CDR cfg (S k) r1) as [qs r2] eqn:Er.
    destruct ps as [|q ps]; [discriminate|].
    cbn [map] in Hread. injection Hread as -> Hqs ->.
    cbn [map repeat app] in Hflags. injection Hflags as Hq Hrest.
    rewrite Hqs in Er.
    destruct (IH r1 ps r' Er Hrest) as [Hc Hnone]. split.
    + change (Engine.safexcel_complete (S (S k)) cfg m r)
        with (let '(cdesc, cdr') := safexcel_cdr_next_rptr cfg r in
              if negb (Engine.cdesc_last_seg m cdesc)
              then Engine.safexcel_complete (S k) cfg m cdr'
              else Some cdr').
      rewrite E, Hq. exact Hc.
    + intros fuel Hf. destruct fuel as [|fuel]; [reflexivity|].
      cbn [Engine.safexcel_complete]. rewrite E, Hq. apply Hnone. lia.
Qed.

Lemma complete_row cfg m k r ps r' nc :
  0 < cd_offset cfg -> 1 <= ring_entries cfg ->
  on_slots (cd_offset cfg) (ring_entries cfg) r nc ->
  reserve_slots CDR cfg (S k) r = Some (ps, r') ->
  map (Engine.cdesc_last_seg m) ps = repeat false k ++ [true] ->
  Engine.safexcel_complete (S k) cfg m (set_read r' (write r))
    = Some (set_read r' (write r')) /\
  forall fuel, (fuel <= k)%nat ->
    Engine.safexcel_complete fuel cfg m (set_read r' (write r)) = None.
Proof.
  intros Hoff Hcap Hon Hres Hl.
  destruct Hon as (wi & ri & Hw & Hri & Ewr & Er & Ee & Hn).
  assert (Hon : on_slots (stride CDR cfg) (ring_entries cfg) r nc)
    by (exists wi, ri; cbn [stride]; tauto).
  destruct (reserve_slots_idx CDR cfg Hoff Hcap (S k) r nc wi ps r' Hon Hw Ewr
              Hres)
    as (Eps & Hle & Hon' & Ew' & Er' & Eb' & Ee').
  apply (complete_by_flags cfg m k _ ps); [|exact Hl].
  rewrite (read_slots_idx CDR cfg Hoff Hcap (S k) _ wi Hw).
  - cbn [base set_read]. rewrite Eb', Eps, map_map, Ew'. reflexivity.
  - cbn [base read set_read]. rewrite Eb'. exact Ewr.
  - cbn [base base_end set_read]. rewrite Eb', Ee'. exact Ee.
Qed.

(** A read of a result slot the device has completed, the device being
    quiet. *)
Lemma rdr_read_completed cfg ring rd m :
  m (rd + own_offset cfg) = EIP197_OWNERSHIP_MAGIC ->
  safexcel_rdr_next_rptr cfg ring rd quiet m
  = (Ptr rd, store32 m (rd + own_offset cfg) (not32 EIP197_OWNERSHIP_MAGIC),
     if rd =? base_end ring then base ring else rd + rd_offset cfg).
Proof.
  intros Hm. unfold safexcel_rdr_next_rptr. cbn [EIP197_RD_OWN_WORD].
  cbn [own_poll EIP197_OWN_POLL_COUNT]. unfold quiet at 1.
  rewrite Hm, Z.eqb_refl. cbn [negb].
  destruct (rd =? base_end ring); reflexivity.
Qed.

(** X21.  The command descriptors of a sent request form one packet.  With
    command slots of 72 bytes or more and result slots of 16 or more, both
    rings in order and in separate memory, every mapped scatterlist entry
    shorter than [2^31] bytes, and the cached bytes plus the scatterlist
    covering the bytes to send: when [safexcel_ahash_send_req] returns 0
    with [k] commands and 1 result, the [k] slots the command ring handed
    out hold descriptors of which exactly the first has [first_seg] and
    exactly the last has [last_seg]; and when fewer than [2^17] bytes are
    sent, the particle sizes of the row add up to the bytes sent, which is
    also the packet length of the first token. *)
Theorem send_req_describes_packet (request : Type) cfg env (async : request)
    ctx areq (s : send_state request) nc nr kz s' :
  72 <= cd_offset cfg -> 16 <= rd_offset cfg -> 1 <= ring_entries cfg ->
  on_slots (cd_offset cfg) (ring_entries cfg) (cdr (sh s)) nc ->
  on_slots (rd_offset cfg) (ring_entries cfg) (rdr (sh s)) nr ->
  base_end (cdr (sh s)) + cd_offset cfg <= base (rdr (sh s)) \/
  base_end (rdr (sh s)) + rd_offset cfg <= base (cdr (sh s)) ->
  Z.of_nat (length (sg env)) < 2 ^ 31 - 1 ->
  Forall (fun e => 0 <= snd e < 2 ^ 31) (sg env) ->
  send_cache_len env areq (sreq s) <= send_len env (sreq s) ->
  send_len env (sreq s) - send_cache_len env areq (sreq s)
    <= sg_bytes (sg env) ->
  safexcel_ahash_send_req cfg env async ctx areq s = (0, Some (kz, 1), s') ->
  exists ps,
    1 <= kz /\
    reserve_slots CDR cfg (Z.to_nat kz) (cdr (sh s))
      = Some (ps, cdr (sh s')) /\
    map (desc_first_seg (dmem (sh s'))) ps
      = true :: repeat false (Z.to_nat kz - 1) /\
    map (Engine.cdesc_last_seg (dmem (sh s'))) ps
      = repeat false (Z.to_nat kz - 1) ++ [true] /\
    (send_len env (sreq s) < 2 ^ 17 ->
     desc_bytes (dmem (sh s')) ps = send_len env (sreq s) /\
     load_bits (dmem (sh s')) (hd 0 ps + token_ofs) 0 17
       = send_len env (sreq s)).
Proof.
  intros Hc Hr Hcap Hon Hrd Hdis Hlen Hdl Hcl Hcov E.
  destruct (send_req_packet request cfg env async ctx areq s nc nr kz s'
              Hc Hr Hcap Hon Hrd Hdis Hlen Hdl Hcl Hcov E)
    as (k & ps & -> & Hres & Hf & Hl & Hb).
  exists ps. rewrite Nat2Z.id.
  replace (S k - 1)%nat with k by lia.
  split; [lia|]. tauto.
Qed.

(** X22.  [safexcel_complete] acknowledges exactly the descriptors of a
    sent request.  Under the conditions of the previous theorem, when
    [safexcel_ahash_send_req] returns 0 with [k] commands, then on the
    command ring with its read cursor at the first slot of the request
    (where it is once the earlier requests are acknowledged)
    [safexcel_complete] stops after [k] descriptors, with the read cursor
    equal to the write cursor; it does not stop earlier. *)
Theorem complete_acknowledges_sent_request (request : Type) cfg env
    (async : request) ctx areq (s : send_state request) nc nr kz s' :
  72 <= cd_offset cfg -> 16 <= rd_offset cfg -> 1 <= ring_entries cfg ->
  on_slots (cd_offset cfg) (ring_entries cfg) (cdr (sh s)) nc ->
  on_slots (rd_offset cfg) (ring_entries cfg) (rdr (sh s)) nr ->
  base_end (cdr (sh s)) + cd_offset cfg <= base (rdr (sh s)) \/
  base_end (rdr (sh s)) + rd_offset cfg <= base (cdr (sh s)) ->
  Z.of_nat (length (sg env)) < 2 ^ 31 - 1 ->
  Forall (fun e => 0 <= snd e < 2 ^ 31) (sg env) ->
  send_cache_len env areq (sreq s) <= send_len env (sreq s) ->
  send_len env (sreq s) - send_cache_len env areq (sreq s)
    <= sg_bytes (sg env) ->
  safexcel_ahash_send_req cfg env async ctx areq s = (0, Some (kz, 1), s') ->
  let r0 := set_read (cdr (sh s')) (write (cdr (sh s))) in
  Engine.safexcel_complete (Z.to_nat kz) cfg (dmem (sh s')) r0
    = Some (set_read (cdr (sh s')) (write (cdr (sh s')))) /\
  forall fuel, (fuel < Z.to_nat kz)%nat ->
    Engine.safexcel_complete fuel cfg (dmem (sh s')) r0 = None.
Proof.
  intros Hc Hr Hcap Hon Hrd Hdis Hlen Hdl Hcl Hcov E r0.
  destruct (send_req_packet request cfg env async ctx areq s nc nr kz s'
              Hc Hr Hcap Hon Hrd Hdis Hlen Hdl Hcl Hcov E)
    as (k & ps & -> & Hres & Hf & Hl & Hb).
  rewrite Nat2Z.id.
  destruct (complete_row cfg (dmem (sh s')) k (cdr (sh s)) ps (cdr (sh s')) nc
              ltac:(lia) Hcap Hon Hres Hl) as [H1 H2].
  split; [exact H1|]. intros fuel Hfuel. apply H2. lia.
Qed.

(** X23.  A request's descriptors are given back when its result is
    handled.  Let [safexcel_ahash_send_req] return 0 with [k] commands on
    rings that were both empty, under the conditions of the two previous
    theorems and with the ownership word inside the result slot.  Once the
    device has written the magic value to the ownership word of the result
    slot, without changing the command ring's memory,
    [safexcel_handle_req_result] reports the result as handled and to be
    completed, with the status [safexcel_rdesc_check_errors] reads from the
    result slot; [safexcel_complete] in it needs [k] iterations; and both
    rings are empty again, their write cursors where the send left them,
    and the ownership word re-armed with the complement of the magic
    value. *)
Theorem send_then_result_empties_rings (request : Type) cfg env
    (async : request) ctx areq (s : send_state request) kz s' m2 :
  72 <= cd_offset cfg -> 16 <= rd_offset cfg -> 1 <= ring_entries cfg ->
  0 <= own_offset cfg -> own_offset cfg + 4 <= rd_offset cfg ->
  on_slots (cd_offset cfg) (ring_entries cfg) (cdr (sh s)) 0 ->
  on_slots (rd_offset cfg) (ring_entries cfg) (rdr (sh s)) 0 ->
  base_end (cdr (sh s)) + cd_offset cfg <= base (rdr (sh s)) \/
  base_end (rdr (sh s)) + rd_offset cfg <= base (cdr (sh s)) ->
  Z.of_nat (length (sg env)) < 2 ^ 31 - 1 ->
  Forall (fun e => 0 <= snd e < 2 ^ 31) (sg env) ->
  send_cache_len env areq (sreq s) <= send_len env (sreq s) ->
  send_len env (sreq s) - send_cache_len env areq (sreq s)
    <= sg_bytes (sg env) ->
  safexcel_ahash_send_req cfg env async ctx areq s = (0, Some (kz, 1), s') ->
  (forall a, base (cdr (sh s)) <= a < base_end (cdr (sh s)) + cd_offset cfg ->
     m2 a = dmem (sh s') a) ->
  m2 (write (rdr (sh s)) + own_offset cfg) = EIP197_OWNERSHIP_MAGIC ->
  let rdesc := write (rdr (sh s)) in
  let m3 := store32 m2 (rdesc + own_offset cfg)
              (not32 EIP197_OWNERSHIP_MAGIC) in
  exists h3,
    safexcel_handle_req_result (Z.to_nat kz) cfg quiet
      (mk_rings_mem (cdr (sh s')) (rdr (sh s')) m2)
    = Some ((1, true, Engine.safexcel_rdesc_check_errors cfg m3 rdesc), h3) /\
    (forall fuel, (fuel < Z.to_nat kz)%nat ->
       safexcel_handle_req_result fuel cfg quiet
         (mk_rings_mem (cdr (sh s')) (rdr (sh s')) m2) = None) /\
    read (cdr h3) = write (cdr h3) /\ read (rdr h3) = write (rdr h3) /\
    write (cdr h3) = write (cdr (sh s')) /\
    write (rdr h3) = write (rdr (sh s')) /\
    dmem h3 = m3 /\ m3 (rdesc + own_offset cfg) = 0x55555555.
Proof.
  intros Hc Hr Hcap Ho0 Ho4 Hon Hrd Hdis Hlen Hdl Hcl Hcov E Hdev Hown
    rdesc m3.
  destruct (send_req_packet request cfg env async ctx areq s 0 0 kz s'
              Hc Hr Hcap Hon Hrd Hdis Hlen Hdl Hcl Hcov E)
    as (k & ps & -> & Hres & Hf & Hl & Hb).
  rewrite Nat2Z.id.
  destruct (send_req_cases request cfg env async ctx areq s 0 0 _ _ s'
              ltac:(lia) ltac:(lia) Hcap Hon Hrd Hlen E)
    as [(_ & Hx & _) | [(_ & Hx & _) |
        (_ & k' & ps' & _ & _ & _ & Err & _)]]; try discriminate.
  (* the result ring: one slot taken, at the read cursor *)
  assert (Erd : read (rdr (sh s)) = write (rdr (sh s))).
  { symmetry. apply (on_slots_empty RDR cfg ltac:(cbn [stride]; lia) Hcap _ _ Hrd).
    reflexivity. }
  cbn [reserve_slots] in Err.
  destruct (next_write_slot_on_slots RDR cfg ltac:(cbn [stride]; lia) Hcap _ _
              Hrd) as [[_ Ew] | [_ Ew]]; rewrite Ew in Err; [discriminate|].
  injection Err as Err. cbn [stride] in Err.
  (* the command ring: it was empty *)
  assert (Ecd : read (cdr (sh s)) = write (cdr (sh s))).
  { symmetry. apply (on_slots_empty CDR cfg ltac:(cbn [stride]; lia) Hcap _ _ Hon).
    reflexivity. }
  pose proof (reserved_in_ring cfg _ _ _ _ _ ltac:(lia) Hcap Hon Hres) as Hin.
  assert (Hw : base (rdr (sh s)) <= rdesc <= base_end (rdr (sh s))).
  { destruct Hrd as (wi & ri & Hwi & Hri & Ew' & Er' & Ee' & _).
    subst rdesc. rewrite Ew', Ee'. nia. }
  assert (Hflags : map (Engine.cdesc_last_seg m3) ps
                   = repeat false k ++ [true]).
  { rewrite <- Hl. apply map_ext_in. intros p Hp.
    rewrite Forall_forall in Hin. specialize (Hin p Hp).
    unfold Engine.cdesc_last_seg, m3.
    rewrite store32_other by lia. rewrite Hdev by lia. reflexivity. }
  assert (Hidx : exists wi, 0 <= wi < ring_entries cfg /\
                   write (cdr (sh s)) = base (cdr (sh s)) + cd_offset cfg * wi).
  { destruct Hon as (wi & ri & Hwi & Hri & Ew' & _). exists wi. tauto. }
  destruct Hidx as (wi & Hwi & Ewi).
  destruct (reserve_slots_idx CDR cfg ltac:(cbn [stride]; lia) Hcap (S k)
              (cdr (sh s)) 0 wi ps (cdr (sh s'))
              ltac:(cbn [stride]; exact Hon) Hwi ltac:(cbn [stride]; exact Ewi)
              Hres)
    as (_ & _ & _ & _ & Er' & _).
  assert (Ering : set_read (cdr (sh s')) (write (cdr (sh s))) = cdr (sh s')).
  { rewrite <- Ecd, <- Er'. destruct (cdr (sh s')); reflexivity. }
  destruct (complete_row cfg m3 k (cdr (sh s)) ps (cdr (sh s')) 0
              ltac:(lia) Hcap Hon Hres Hflags) as [H1 H2].
  rewrite Ering in H1, H2.
  assert (Eread : safexcel_rdr_next_rptr cfg (rdr (sh s'))
                    (read (rdr (sh s'))) quiet m2
                  = (Ptr rdesc, m3, write (rdr (sh s')))).
  { rewrite <- Err. cbn [read set_write base_end base write].
    rewrite Erd. fold rdesc. rewrite (rdr_read_completed _ _ _ _ Hown).
    reflexivity. }
  eexists. unfold safexcel_handle_req_result. cbn [rdr cdr dmem].
  rewrite Eread, H1.
  split; [reflexivity|]. split.
  { intros fuel Hfuel. rewrite H2 by lia. reflexivity. }
  cbn [cdr rdr dmem read write set_read].
  split; [reflexivity|]. split; [reflexivity|]. split; [reflexivity|].
  split; [reflexivity|]. split; [reflexivity|].
  unfold m3, store32. rewrite Z.eqb_refl. reflexivity.
Qed.

Ltac send_example :=
  first [ apply send_rings_on_slots
        | repeat constructor; cbn; lia
        | vm_compute; first [reflexivity | discriminate | left; discriminate] ].

Lemma send_req_describes_packet_witness :
  let s := send_state0 false 228 in
  let r := safexcel_ahash_send_req cfg_eip send_env_ok 7%nat send_ctx
             (mk_areq 100 []) s in
  exists ps,
    1 <= 2 /\
    reserve_slots CDR cfg_eip (Z.to_nat 2) (cdr (sh s))
      = Some (ps, cdr (sh (snd r))) /\
    map (desc_first_seg (dmem (sh (snd r)))) ps
      = true :: repeat false (Z.to_nat 2 - 1) /\
    map (Engine.cdesc_last_seg (dmem (sh (snd r)))) ps
      = repeat false (Z.to_nat 2 - 1) ++ [true] /\
    (send_len send_env_ok (sreq s) < 2 ^ 17 ->
     desc_bytes (dmem (sh (snd r))) ps = send_len send_env_ok (sreq s) /\
     load_bits (dmem (sh (snd r))) (hd 0 ps + token_ofs) 0 17
       = send_len send_env_ok (sreq s)).
Proof.
  intros s r.
  apply (send_req_describes_packet nat cfg_eip send_env_ok 7%nat send_ctx
           (mk_areq 100 []) s 0 0 2 (snd r)); send_example.
Defined.

Lemma complete_acknowledges_sent_request_witness :
  let s := send_state0 false 228 in
  let r := safexcel_ahash_send_req cfg_eip send_env_ok 7%nat send_ctx
             (mk_areq 100 []) s in
  let r0 := set_read (cdr (sh (snd r))) (write (cdr (sh s))) in
  Engine.safexcel_complete (Z.to_nat 2) cfg_eip (dmem (sh (snd r))) r0
    = Some (set_read (cdr (sh (snd r))) (write (cdr (sh (snd r))))) /\
  forall fuel, (fuel < Z.to_nat 2)%nat ->
    Engine.safexcel_complete fuel cfg_eip (dmem (sh (snd r))) r0 = None.
Proof.
  intros s r.
  apply (complete_acknowledges_sent_request nat cfg_eip send_env_ok 7%nat
           send_ctx (mk_areq 100 []) s 0 0 2 (snd r)); send_example.
Defined.

Lemma send_then_result_empties_rings_witness :
  let s := send_state0 false 228 in
  let r := safexcel_ahash_send_req cfg_eip send_env_ok 7%nat send_ctx
             (mk_areq 100 []) s in
  let m2 := store32 (dmem (sh (snd r)))
              (write (rdr (sh s)) + own_offset cfg_eip)
              EIP197_OWNERSHIP_MAGIC in
  let rdesc := write (rdr (sh s)) in
  let m3 := store32 m2 (rdesc + own_offset cfg_eip)
              (not32 EIP197_OWNERSHIP_MAGIC) in
  exists h3,
    safexcel_handle_req_result (Z.to_nat 2) cfg_eip quiet
      (mk_rings_mem (cdr (sh (snd r))) (rdr (sh (snd r))) m2)
    = Some ((1, true, Engine.safexcel_rdesc_check_errors cfg_eip m3 rdesc),
            h3) /\
    (forall fuel, (fuel < Z.to_nat 2)%nat ->
       safexcel_handle_req_result fuel cfg_eip quiet
         (mk_rings_mem (cdr (sh (snd r))) (rdr (sh (snd r))) m2) = None) /\
    read (cdr h3) = write (cdr h3) /\ read (rdr h3) = write (rdr h3) /\
    write (cdr h3) = write (cdr (sh (snd r))) /\
    write (rdr h3) = write (rdr (sh (snd r))) /\
    dmem h3 = m3 /\ m3 (rdesc + own_offset cfg_eip) = 0x55555555.
Proof.
  intros s r m2.
  apply (send_then_result_empties_rings nat cfg_eip send_env_ok 7%nat
           send_ctx (mk_areq 100 []) s 2 (snd r) m2);
    try send_example.
  intros a Ha. unfold m2. apply store32_other.
  intros ->. vm_compute in Ha. destruct Ha as [_ H2]. discriminate H2.
Defined.

End PacketFacts.
Module CallbackFacts.
Import Ring RingFacts OwnershipFacts RingOrder Hash HashState Desc DescFacts
       ConfigureFacts Send SendFacts PacketFacts Result.

(** [safexcel_invalidate_cache] on the rings: both take a slot or neither
    does. *)
Lemma invalidate_cache_rings (request : Type) cfg (async : request) ctxr h
    (t : rdr_req_table request) nc nr :
  0 < cd_offset cfg -> 0 < rd_offset cfg -> 1 <= ring_entries cfg ->
  on_slots (cd_offset cfg) (ring_entries cfg) (cdr h) nc ->
  on_slots (rd_offset cfg) (ring_entries cfg) (rdr h) nr ->
  exists ret h' t',
    safexcel_invalidate_cache cfg async ctxr h t = (ret, h', t') /\
    ((ret = - ENOMEM /\ cdr h' = cdr h /\ rdr h' = rdr h /\ t' = t) \/
     (ret = 0 /\
      reserve_slots CDR cfg 1 (cdr h) = Some ([write (cdr h)], cdr h') /\
      reserve_slots RDR cfg 1 (rdr h) = Some ([write (rdr h)], rdr h') /\
      t' = safexcel_rdr_req_set cfg (rdr h') t (write (rdr h)) async)).
Proof.
  intros Hc Hr Hcap Hon Hrd. unfold safexcel_invalidate_cache.
  destruct (add_cdesc_cases cfg true true 0 0 0 ctxr h nc Hc Hcap Hon)
    as [E1 | (h1 & E1 & Hr1 & Ew & H1)]; rewrite E1.
  - eexists _, _, _. split; [reflexivity|]. left. tauto.
  - match goal with
    | |- context [safexcel_add_rdesc ?a ?b ?c ?d ?e ?f] =>
        assert (Hrd' : on_slots (rd_offset cfg) (ring_entries cfg) (rdr f) nr)
          by (cbn [rdr]; rewrite Hr1; exact Hrd);
        destruct (add_rdesc_cases a b c d e f nr Hr Hcap Hrd')
          as [E2 | (h3 & E2 & Hc3 & Ew3 & H3)]
    end; rewrite E2.
    + eexists _, _, _. split; [reflexivity|]. left. cbn [cdr rdr].
      split; [reflexivity|]. split; [|split; [exact Hr1 | reflexivity]].
      change (safexcel_cdr_rollback_wptr cfg (cdr h1))
        with (rollback_n CDR cfg (Z.to_nat (Z.of_nat 1)) (cdr h1)).
      apply (rollback_reserved cfg 1 [write (cdr h)] (cdr h) nc (cdr h1)
               Hc Hcap Hon).
      cbn [reserve_slots]. rewrite Ew. reflexivity.
    + eexists _, _, _. split; [reflexivity|]. right.
      cbn [rdr cdr] in *. rewrite Hr1 in Ew3.
      split; [reflexivity|]. cbn [reserve_slots]. rewrite Hc3, Ew, Ew3.
      rewrite Hr1. tauto.
Qed.

(** X24.  The contract of the send callback.  With both rings in order,
    whichever of its two paths [safexcel_ahash_send] takes (the
    invalidation of the context record when [needs_inv] is set, the hash
    request otherwise): a call that fails assigns neither [*commands] nor
    [*results] and leaves both rings' cursors and the request table as
    they were; a call that returns 0 reports [c] commands and [r] results
    with [r] at most 1, the command ring has handed out exactly [c] slots
    in a row and the result ring exactly [r]; with no result there is no
    command and the table is unchanged, and with one result there is at
    least one command and the request is recorded for the result slot. *)
Theorem ahash_send_contract (request : Type) cfg env (async : request) ctx
    areq (s : send_state request) nc nr ret out s' :
  0 < cd_offset cfg -> 0 < rd_offset cfg -> 1 <= ring_entries cfg ->
  on_slots (cd_offset cfg) (ring_entries cfg) (cdr (sh s)) nc ->
  on_slots (rd_offset cfg) (ring_entries cfg) (rdr (sh s)) nr ->
  Z.of_nat (length (sg env)) < 2 ^ 31 - 1 ->
  safexcel_ahash_send cfg env async ctx areq s = (ret, out, s') ->
  (ret <> 0 /\ out = None /\
   cdr (sh s') = cdr (sh s) /\ rdr (sh s') = rdr (sh s) /\
   stab s' = stab s) \/
  (ret = 0 /\
   exists c r cs rs,
     out = Some (Z.of_nat c, Z.of_nat r) /\
     reserve_slots CDR cfg c (cdr (sh s)) = Some (cs, cdr (sh s')) /\
     reserve_slots RDR cfg r (rdr (sh s)) = Some (rs, rdr (sh s')) /\
     ((r = 0%nat /\ c = 0%nat /\ stab s' = stab s) \/
      (r = 1%nat /\ (1 <= c)%nat /\
       stab s' = safexcel_rdr_req_set cfg (rdr (sh s')) (stab s)
                   (write (rdr (sh s))) async))).
Proof.
  intros Hc Hr Hcap Hon Hrd Hlen. unfold safexcel_ahash_send.
  destruct (needs_inv (core (sreq s))).
  - unfold safexcel_ahash_send_inv.
    destruct (invalidate_cache_rings request cfg async (ctxr_dma ctx) (sh s)
                (stab s) nc nr Hc Hr Hcap Hon Hrd)
      as (r0 & h' & t' & E & [(-> & Ec & Er & ->) | (-> & Ec & Er & ->)]);
      rewrite E; cbn [Z.eqb negb]; intros E1.
    + change (negb (- ENOMEM =? 0)) with true in E1. cbv iota in E1.
      injection E1 as <- <- <-. left. cbn [sh stab].
      split; [vm_compute; discriminate | tauto].
    + injection E1 as <- <- <-. right. split; [reflexivity|].
      exists 1%nat, 1%nat, [write (cdr (sh s))], [write (rdr (sh s))].
      cbn [sh stab]. split; [reflexivity|]. split; [exact Ec|].
      split; [exact Er|]. right. split; [reflexivity|]. split; [lia|].
      reflexivity.
  - intros E.
    destruct (send_req_cases request cfg env async ctx areq s nc nr ret out s'
                Hc Hr Hcap Hon Hrd Hlen E)
      as [(He & Ho & Ec & Er & Et & _) |
          [(-> & Ho & Eh & Et & _) |
           (-> & k & ps & Ho & Hk & Ec & Er & Et & _)]].
    + left. split; [destruct He as [-> | ->]; vm_compute; discriminate|].
      tauto.
    + right. split; [reflexivity|].
      exists 0%nat, 0%nat, [], []. rewrite Eh. cbn [reserve_slots].
      split; [exact Ho|]. split; [reflexivity|]. split; [reflexivity|].
      left. tauto.
    + right. split; [reflexivity|].
      exists k, 1%nat, ps, [write (rdr (sh s))].
      split; [exact Ho|]. split; [exact Ec|]. split; [exact Er|].
      right. split; [reflexivity|]. split; [lia | exact Et].
Qed.

(** The send changes [cache_next] by the copy of the bytes set aside and
    in no other way, and leaves [cache] alone. *)
Ltac bufs :=
  cbn [sreq]; unfold unmap_cache;
  repeat match goal with
         | |- context [if ?b then _ else _] => destruct b
         end;
  reflexivity.

Lemma send_command_bufs (request : Type) cfg env (async : request) ctx
    len n first h t req data ret out s' :
  send_command cfg env async ctx len n first h t req data = (ret, out, s') ->
  (cache (sreq s'), cache_next (sreq s')) = (cache req, cache_next req).
Proof.
  unfold send_command.
  destruct (safexcel_context_control _ _ _ _ _ _) as [m data'].
  destruct (map_result_error env).
  - intros E. injection E as _ _ <-. bufs.
  - destruct (safexcel_add_rdesc _ _ _ _ _ _) as [[p | e] h'];
      intros E; injection E as _ _ <-; bufs.
Qed.

Lemma send_sg_bufs (request : Type) cfg env (async : request) ctx
    len queued n first h t req data ret out s' :
  send_sg cfg env async ctx len queued n first h t req data = (ret, out, s') ->
  (cache (sreq s'), cache_next (sreq s')) = (cache req, cache_next req).
Proof.
  unfold send_sg.
  destruct (nents _ =? 0).
  - intros E. injection E as _ _ <-. bufs.
  - destruct (sg_loop _ _ _ _ _ _ _ _) as [[[e n1] h1] | [[n1 f1] h1]].
    + intros E. injection E as _ _ <-. bufs.
    + intros E. apply send_command_bufs in E. exact E.
Qed.

Lemma send_req_bufs (request : Type) cfg env (async : request) ctx
    areq (s : send_state request) ret out s' :
  safexcel_ahash_send_req cfg env async ctx areq s = (ret, out, s') ->
  send_extra env (sreq s) <> 0 ->
  (cache (sreq s'), cache_next (sreq s')) =
  (cache (sreq s),
   buf_write (cache_next (sreq s)) 0
     (firstn (Z.to_nat (send_extra env (sreq s)))
        (skipn (Z.to_nat (u32 (nbytes areq - send_extra env (sreq s))))
           (src env)))).
Proof.
  intros E Hx. apply Z.eqb_neq in Hx.
  unfold safexcel_ahash_send_req in E. rewrite Hx in E. cbn [negb] in E.
  cbv iota in E.
  match type of E with
  | context [set_cache_next (sreq s) ?b] =>
      set (req1 := set_cache_next (sreq s) b) in *;
      change (buf_write (cache_next (sreq s)) 0
                (firstn (Z.to_nat (send_extra env (sreq s)))
                   (skipn (Z.to_nat (u32 (nbytes areq
                                          - send_extra env (sreq s))))
                      (src env))))
        with (cache_next req1);
      change (cache (sreq s)) with (cache req1)
  end.
  clearbody req1.
  destruct (true && _).
  { injection E as _ _ <-. reflexivity. }
  destruct (negb _).
  - destruct (map_cache_error env).
    { injection E as _ _ <-. reflexivity. }
    destruct (safexcel_add_cdesc _ _ _ _ _ _ _ _) as [[p | e] h1].
    + destruct (_ =? 0).
      * apply send_command_bufs in E. exact E.
      * apply send_sg_bufs in E. exact E.
    + injection E as _ _ <-. bufs.
  - apply send_sg_bufs in E. exact E.
Qed.

(** The ring part of result handling on a result that is not written
    during the polls, and on one that is there. *)
Lemma ring_part_retry cfg fuel dev h :
  (forall j, (j < 9)%nat ->
     dev_run dev 0 (S j) (dmem h) (read (rdr h) + own_offset cfg)
     <> EIP197_OWNERSHIP_MAGIC) ->
  Hash.safexcel_handle_req_result fuel cfg dev h
  = Some ((0, false, - ENOENT),
          mk_rings_mem (cdr h) (rdr h) (dev_run dev 0 9 (dmem h))).
Proof.
  intros Hno. unfold Hash.safexcel_handle_req_result, safexcel_rdr_next_rptr.
  cbn [EIP197_RD_OWN_WORD].
  rewrite (own_poll_fail EIP197_OWN_POLL_COUNT _ dev 0 (dmem h) Hno).
  reflexivity.
Qed.

Lemma ring_part_ready cfg fuel h c' :
  dmem h (read (rdr h) + own_offset cfg) = EIP197_OWNERSHIP_MAGIC ->
  Engine.safexcel_complete fuel cfg
    (store32 (dmem h) (read (rdr h) + own_offset cfg)
       (not32 EIP197_OWNERSHIP_MAGIC)) (cdr h) = Some c' ->
  exists h',
    Hash.safexcel_handle_req_result fuel cfg quiet h
    = Some ((1, true,
             Engine.safexcel_rdesc_check_errors cfg
               (store32 (dmem h) (read (rdr h) + own_offset cfg)
                  (not32 EIP197_OWNERSHIP_MAGIC)) (read (rdr h))), h') /\
    cdr h' = c'.
Proof.
  intros Hm Hc. unfold Hash.safexcel_handle_req_result.
  rewrite (rdr_read_completed cfg (rdr h) (read (rdr h)) (dmem h) Hm), Hc.
  eexists. split; reflexivity.
Qed.

(** X25.  [safexcel_handle_result] clears [needs_inv] before the result
    is read.  For a request with [needs_inv] set (the device needing
    invalidation): when the result is there and its command descriptors
    are acknowledged, the call clears the flag and handles the result of
    an invalidation: with [exit_inv] the context record goes back to its
    pool and the request is to be completed; without it the request is
    put on the queue of the selected ring again, the work of that ring is
    scheduled, and the request is not completed.  When the result is not
    written during the polls, the call returns 0 descriptors with
    [-ENOENT] and changes neither cursors nor queues, but the flag is
    cleared all the same; therefore the next call for this request is
    [safexcel_handle_req_result]: it enqueues nothing and frees nothing,
    and it asks for completion exactly when it handles a descriptor. *)
Theorem handle_result_needs_inv cfg exit_inv digestsize enq st :
  needs_inv (core (rs_req st)) = true ->
  let h := rs_mem st in
  let own := read (rdr h) + own_offset cfg in
  let m3 := store32 (dmem h) own (not32 EIP197_OWNERSHIP_MAGIC) in
  let status := Engine.safexcel_rdesc_check_errors cfg m3 (read (rdr h)) in
  (forall fuel c',
     dmem h own = EIP197_OWNERSHIP_MAGIC ->
     Engine.safexcel_complete fuel cfg m3 (cdr h) = Some c' ->
     exists ret st1,
       safexcel_handle_result cfg true exit_inv digestsize enq fuel quiet st
       = Out ((1, exit_inv, ret), st1) /\
       needs_inv (core (rs_req st1)) = false /\
       cdr (rs_mem st1) = c' /\
       if exit_inv
       then ret = status /\ rs_freed st1 = true /\ rs_drv st1 = rs_drv st
       else
         let ring := fst (safexcel_select_ring cfg (ring_used (rs_drv st))) in
         ret = (if enq ring =? - EINPROGRESS then status else enq ring) /\
         rs_freed st1 = rs_freed st /\
         actions (rs_drv st1)
           = actions (rs_drv st) ++ [ActEnqueue ring; ActQueueWork ring]) /\
  (forall fuel dev,
     (forall j, (j < 9)%nat ->
        dev_run dev 0 (S j) (dmem h) own <> EIP197_OWNERSHIP_MAGIC) ->
     exists st1,
       safexcel_handle_result cfg true exit_inv digestsize enq fuel dev st
       = Out ((0, false, - ENOENT), st1) /\
       needs_inv (core (rs_req st1)) = false /\
       cdr (rs_mem st1) = cdr h /\ rdr (rs_mem st1) = rdr h /\
       rs_drv st1 = rs_drv st /\ rs_freed st1 = rs_freed st /\
       (forall fuel' dev',
          safexcel_handle_result cfg true exit_inv digestsize enq fuel' dev' st1
          = safexcel_handle_req_result cfg digestsize fuel' dev' st1) /\
       (forall fuel' dev' out st2,
          safexcel_handle_result cfg true exit_inv digestsize enq fuel' dev' st1
          = Out (out, st2) ->
          rs_drv st2 = rs_drv st /\ rs_freed st2 = rs_freed st /\
          snd (fst out) = negb (fst (fst out) =? 0))).
Proof.
  intros Hinv h own m3 status. split.
  - intros fuel c' Hm Hc.
    destruct (ring_part_ready cfg fuel h c' Hm Hc) as (h' & E & Ec).
    unfold safexcel_handle_result. rewrite Hinv. cbn [negb andb].
    unfold safexcel_handle_inv_result. cbn [rs_mem rs_req rs_drv rs_freed].
    fold h. rewrite E. cbn [Z.eqb].
    destruct exit_inv.
    + eexists _, _. split; [reflexivity|].
      cbn [rs_req rs_mem rs_freed rs_drv core set_core needs_inv set_needs_inv].
      tauto.
    + destruct (safexcel_select_ring cfg (ring_used (rs_drv st)))
        as [ring used] eqn:Es.
      eexists _, _. split; [reflexivity|].
      cbn [rs_req rs_mem rs_freed rs_drv core set_core needs_inv set_needs_inv
           actions fst].
      split; [reflexivity|]. split; [exact Ec|].
      split; [destruct (enq ring =? - EINPROGRESS); reflexivity|].
      split; reflexivity.
  - intros fuel dev Hno.
    pose proof (ring_part_retry cfg fuel dev h Hno) as E.
    unfold safexcel_handle_result at 1. rewrite Hinv. cbn [negb andb].
    unfold safexcel_handle_inv_result. cbn [rs_mem rs_req rs_drv rs_freed].
    fold h. rewrite E. cbn [Z.eqb].
    eexists. split; [reflexivity|].
    cbn [rs_req rs_mem rs_freed rs_drv core set_core needs_inv set_needs_inv
         cdr rdr].
    split; [reflexivity|]. split; [reflexivity|]. split; [reflexivity|].
    split; [reflexivity|]. split; [reflexivity|].
    assert (Hpath : forall fuel' dev',
              safexcel_handle_result cfg true exit_inv digestsize enq fuel' dev'
                (mk_hs (mk_rings_mem (cdr h) (rdr h) (dev_run dev 0 9 (dmem h)))
                   (set_core (rs_req st)
                      (set_needs_inv (core (rs_req st)) false))
                   (rs_areq st) (rs_drv st) (rs_freed st))
              = safexcel_handle_req_result cfg digestsize fuel' dev'
                  (mk_hs (mk_rings_mem (cdr h) (rdr h)
                            (dev_run dev 0 9 (dmem h)))
                     (set_core (rs_req st)
                        (set_needs_inv (core (rs_req st)) false))
                     (rs_areq st) (rs_drv st) (rs_freed st))).
    { intros fuel' dev'. unfold safexcel_handle_result.
      cbn [rs_req core set_core needs_inv set_needs_inv negb andb].
      reflexivity. }
    split; [exact Hpath|].
    intros fuel' dev' out st2. rewrite Hpath.
    unfold safexcel_handle_req_result. cbn [rs_mem rs_req rs_drv rs_freed].
    destruct (Hash.safexcel_handle_req_result fuel' cfg dev' _)
      as [[[[nd sc] rt] h2]|]; [|discriminate].
    destruct (nd =? 0); intros Eo; injection Eo as <- <-;
      cbn [rs_drv rs_freed fst snd Z.eqb negb]; tauto.
Qed.

Lemma firstn_app_exact (l r : list Z) n :
  length l = n -> firstn n (l ++ r) = l.
Proof.
  intros <-. rewrite firstn_app, Nat.sub_diag, firstn_all. cbn [firstn].
  apply app_nil_r.
Qed.

(** What is left queued after a send that is not the last. *)
Lemma queued_after_send (request : Type) cfg env (async : request) ctx areq
    (s : send_state request) nc nr out s' j :
  0 < cd_offset cfg -> 0 < rd_offset cfg -> 1 <= ring_entries cfg ->
  on_slots (cd_offset cfg) (ring_entries cfg) (cdr (sh s)) nc ->
  on_slots (rd_offset cfg) (ring_entries cfg) (rdr (sh s)) nr ->
  Z.of_nat (length (sg env)) < 2 ^ 31 - 1 ->
  blocksize env = 2 ^ j -> 0 <= j <= 30 ->
  last_req (core (sreq s)) = false ->
  snd (len (core (sreq s))) = snd (processed (core (sreq s))) ->
  0 <= fst (processed (core (sreq s))) < fst (len (core (sreq s))) ->
  fst (len (core (sreq s))) < 2 ^ 64 ->
  safexcel_ahash_send_req cfg env async ctx areq s = (0, out, s') ->
  safexcel_queued_len (core (sreq s')) = send_extra env (sreq s) /\
  1 <= send_extra env (sreq s) <= 2 ^ j.
Proof.
  intros Hc Hr Hcap Hon Hrd Hlen Hb Hj Hlast Hhi Hlo Hl64 E.
  assert (Hp : 0 < 2 ^ j) by (apply Z.pow_pos_nonneg; lia).
  assert (Hq : safexcel_queued_len (core (sreq s))
               = fst (len (core (sreq s))) - fst (processed (core (sreq s)))).
  { unfold safexcel_queued_len. rewrite Hhi, Z.ltb_irrefl.
    apply u64_id. lia. }
  pose proof (send_extra_pow2 env (sreq s) j Hb Hj Hlast ltac:(lia)) as Hx.
  pose proof (Z.mod_pos_bound (safexcel_queued_len (core (sreq s))) (2 ^ j) Hp)
    as Hm.
  pose proof (Z.mod_le (safexcel_queued_len (core (sreq s))) (2 ^ j)
                ltac:(lia) Hp) as Hle.
  assert (Hex : 1 <= send_extra env (sreq s) <= 2 ^ j /\
                send_extra env (sreq s) <= safexcel_queued_len (core (sreq s))).
  { rewrite Hx.
    destruct (Z.eqb_spec (safexcel_queued_len (core (sreq s)) mod 2 ^ j) 0)
      as [E0 | E0]; [|lia].
    split; [lia|].
    pose proof (Z.div_mod (safexcel_queued_len (core (sreq s))) (2 ^ j)
                  ltac:(lia)) as Hd.
    assert (1 <= safexcel_queued_len (core (sreq s)) / 2 ^ j) by nia. nia. }
  destruct Hex as [Hex1 Hex2]. split; [|exact Hex1].
  assert (HL : send_len env (sreq s)
               = safexcel_queued_len (core (sreq s)) - send_extra env (sreq s)).
  { unfold send_len.
    destruct (Z.eqb_spec (send_extra env (sreq s)) 0); [lia|].
    apply u64_id. lia. }
  destruct (send_req_cases request cfg env async ctx areq s nc nr 0 out s'
              Hc Hr Hcap Hon Hrd Hlen E)
    as [([He | He] & _) | [(_ & _ & _ & _ & Eq & _ & _ & Hl0) |
        (_ & k & ps & _ & _ & _ & _ & _ & Eq)]];
    try (vm_compute in He; discriminate).
  - rewrite Eq. lia.
  - rewrite Eq. rewrite HL.
    set (L := safexcel_queued_len (core (sreq s)) - send_extra env (sreq s))
      in *.
    rewrite (u64_id (fst (processed (core (sreq s))) + L)) by lia.
    destruct (Z.ltb_spec (fst (processed (core (sreq s))) + L) L); [lia|].
    unfold safexcel_queued_len at 1. cbn [processed len set_processed fst snd].
    rewrite Hhi, Z.ltb_irrefl, u64_id by lia. lia.
Qed.

(** X26.  The bytes a send sets aside are the cache after its result.
    For a request that is not the last, with counters in order, something
    queued, a block size that is a power of two, and a source of [nbytes]
    bytes of which [extra] are set aside: after
    [safexcel_ahash_send_req] has returned 0, when the ring part of
    [safexcel_handle_req_result] handles the result, the call clears the
    three mappings of the request, leaves [extra] bytes queued, between 1
    and a block, and the first [extra] bytes of the cache are the last
    [extra] bytes of the source. *)
Theorem send_then_result_caches_tail (request : Type) cfg env
    (async : request) ctx areq (s : send_state request) nc nr out s' j
    digestsize fuel dev h2 h3 ret areq_r drv freed :
  0 < cd_offset cfg -> 0 < rd_offset cfg -> 1 <= ring_entries cfg ->
  on_slots (cd_offset cfg) (ring_entries cfg) (cdr (sh s)) nc ->
  on_slots (rd_offset cfg) (ring_entries cfg) (rdr (sh s)) nr ->
  Z.of_nat (length (sg env)) < 2 ^ 31 - 1 ->
  blocksize env = 2 ^ j -> 0 <= j <= 30 ->
  last_req (core (sreq s)) = false ->
  snd (len (core (sreq s))) = snd (processed (core (sreq s))) ->
  0 <= fst (processed (core (sreq s))) < fst (len (core (sreq s))) ->
  fst (len (core (sreq s))) < 2 ^ 64 ->
  send_extra env (sreq s) <= nbytes areq < 2 ^ 32 ->
  Z.of_nat (length (src env)) = nbytes areq ->
  safexcel_ahash_send_req cfg env async ctx areq s = (0, out, s') ->
  Hash.safexcel_handle_req_result fuel cfg dev h2 = Some ((1, true, ret), h3) ->
  exists st',
    safexcel_handle_req_result cfg digestsize fuel dev
      (mk_hs h2 (sreq s') areq_r drv freed) = Out ((1, true, ret), st') /\
    rs_mem st' = h3 /\
    1 <= send_extra env (sreq s) <= blocksize env /\
    safexcel_queued_len (core (rs_req st')) = send_extra env (sreq s) /\
    firstn (Z.to_nat (send_extra env (sreq s))) (cache (rs_req st'))
      = skipn (Z.to_nat (nbytes areq - send_extra env (sreq s))) (src env) /\
    nents (rs_req st') = 0 /\ result_dma (rs_req st') = 0 /\
    cache_dma (rs_req st') = 0.
Proof.
  intros Hc Hr Hcap Hon Hrd Hlen Hb Hj Hlast Hhi Hlo Hl64 Hnb Hsrc E Ering.
  destruct (queued_after_send request cfg env async ctx areq s nc nr out s' j
              Hc Hr Hcap Hon Hrd Hlen Hb Hj Hlast Hhi Hlo Hl64 E)
    as [Hq Hx].
  pose proof (send_req_bufs request cfg env async ctx areq s 0 out s' E
                ltac:(lia)) as Hbufs.
  apply pair_equal_spec in Hbufs. destruct Hbufs as [Hcache Hnext].
  set (x := send_extra env (sreq s)) in *.
  unfold safexcel_handle_req_result. cbn [rs_mem rs_req rs_areq rs_drv rs_freed].
  rewrite Ering. cbn [Z.eqb].
  set (r1 := if negb (nents (sreq s') =? 0) then set_nents (sreq s') 0
             else sreq s').
  set (r2 := if negb (result_dma r1 =? 0) then set_result_dma r1 0 else r1).
  set (r3 := if negb (cache_dma r2 =? 0) then set_cache_map r2 0 (cache_sz r2)
             else r2).
  assert (H1 : nents r1 = 0 /\ core r1 = core (sreq s') /\
               cache r1 = cache (sreq s') /\
               cache_next r1 = cache_next (sreq s')).
  { subst r1. destruct (Z.eqb_spec (nents (sreq s')) 0); cbn; tauto. }
  assert (H2 : nents r2 = 0 /\ result_dma r2 = 0 /\ core r2 = core (sreq s') /\
               cache r2 = cache (sreq s') /\
               cache_next r2 = cache_next (sreq s')).
  { subst r2. destruct (Z.eqb_spec (result_dma r1) 0); cbn; tauto. }
  assert (H3 : nents r3 = 0 /\ result_dma r3 = 0 /\ cache_dma r3 = 0 /\
               core r3 = core (sreq s') /\ cache r3 = cache (sreq s') /\
               cache_next r3 = cache_next (sreq s')).
  { subst r3. destruct (Z.eqb_spec (cache_dma r2) 0); cbn; tauto. }
  clearbody r3. clear r1 r2 H1 H2.
  destruct H3 as (Hn3 & Hr3 & Hd3 & Hc3 & Hca3 & Hcn3).
  rewrite Hc3, Hq.
  destruct (Z.eqb_spec x 0) as [Hx0 | _]; [lia|]. cbn [negb].
  eexists. split; [reflexivity|].
  cbn [rs_mem rs_req core set_cache cache nents result_dma cache_dma].
  split; [reflexivity|]. split; [lia|]. split; [rewrite Hc3; exact Hq|].
  split; [|tauto].
  rewrite Hcn3, Hnext. unfold memcpy, buf_write. cbn [firstn app Nat.add].
  rewrite u32_id by lia.
  assert (Hlen_tail : length (skipn (Z.to_nat (nbytes areq - x)) (src env))
                      = Z.to_nat x).
  { rewrite length_skipn. lia. }
  rewrite (firstn_all2 (n := Z.to_nat x)
             (skipn (Z.to_nat (nbytes areq - x)) (src env))) by lia.
  rewrite Hlen_tail.
  rewrite !(firstn_app_exact _ _ _ Hlen_tail). reflexivity.
Qed.

Lemma ahash_send_contract_witness :
  let s := mk_send send_rings (fun _ => None) (rs_req inv_state0)
             (repeat 0 160) in
  let r := safexcel_ahash_send cfg_eip send_env_ok 7%nat send_ctx
             (mk_areq 0 []) s in
  snd (fst r) = Some (1, 1) /\
  write (cdr (sh (snd r))) = write (cdr (sh s)) + cd_offset cfg_eip /\
  write (rdr (sh (snd r))) = write (rdr (sh s)) + rd_offset cfg_eip.
Proof.
  intros s r.
  destruct (ahash_send_contract nat cfg_eip send_env_ok 7%nat send_ctx
              (mk_areq 0 []) s 0 0 (fst (fst r)) (snd (fst r)) (snd r))
    as [(Hret & _) | (_ & c & k & cs & rs & Ho & _)].
  - vm_compute; reflexivity.
  - vm_compute; reflexivity.
  - vm_compute; discriminate.
  - apply send_rings_on_slots.
  - apply send_rings_on_slots.
  - vm_compute; reflexivity.
  - vm_compute; reflexivity.
  - exfalso. apply Hret. vm_compute. reflexivity.
  - vm_compute. repeat split.
Defined.

Lemma handle_result_needs_inv_witness :
  exists st1,
    safexcel_handle_result cfg_eip true false 20 enq_ex 1 quiet inv_state0
    = Out ((0, false, - ENOENT), st1) /\
    needs_inv (core (rs_req st1)) = false /\
    forall fuel dev,
      safexcel_handle_result cfg_eip true false 20 enq_ex fuel dev st1
      = safexcel_handle_req_result cfg_eip 20 fuel dev st1.
Proof.
  destruct (handle_result_needs_inv cfg_eip false 20 enq_ex inv_state0
              eq_refl) as [_ H].
  destruct (H 1%nat quiet) as (st1 & E & Hn & _ & _ & _ & _ & Hp & _).
  - intros j _.
    assert (Hq : forall n t x, dev_run quiet t n x = x).
    { induction n as [|n IHn]; intros t x; [reflexivity | apply IHn]. }
    rewrite Hq. vm_compute. discriminate.
  - exists st1. split; [exact E|]. split; [exact Hn | exact Hp].
Defined.

Lemma send_then_result_caches_tail_witness :
  let s := send_state0 false 228 in
  let r := safexcel_ahash_send_req cfg_eip send_env_ok 7%nat send_ctx
             (mk_areq 100 []) s in
  let h2 := mk_rings_mem (cdr (sh (snd r))) (rdr (sh (snd r)))
              (store32 (dmem (sh (snd r)))
                 (write (rdr (sh s)) + own_offset cfg_eip)
                 EIP197_OWNERSHIP_MAGIC) in
  exists st',
    safexcel_handle_req_result cfg_eip 20 2 quiet
      (mk_hs h2 (sreq (snd r)) (mk_areq 100 []) (mk_driver 0 []) false)
    = Out ((1, true, 0), st') /\
    safexcel_queued_len (core (rs_req st')) = 36 /\
    firstn 36 (cache (rs_req st')) = repeat 0x62 36.
Proof.
  intros s r h2.
  set (h3 := match Hash.safexcel_handle_req_result 2 cfg_eip quiet h2 with
             | Some (_, h) => h
             | None => h2
             end).
  destruct (send_then_result_caches_tail nat cfg_eip send_env_ok 7%nat
              send_ctx (mk_areq 100 []) s 0 0 (snd (fst r)) (snd r) 6 20%nat
              2%nat quiet h2 h3 0 (mk_areq 100 []) (mk_driver 0 []) false)
    as (st' & E & _ & _ & Hq & Hc & _).
  - vm_compute; reflexivity.
  - vm_compute; reflexivity.
  - vm_compute; discriminate.
  - apply send_rings_on_slots.
  - apply send_rings_on_slots.
  - vm_compute; reflexivity.
  - vm_compute; reflexivity.
  - lia.
  - reflexivity.
  - reflexivity.
  - vm_compute. split; [discriminate | reflexivity].
  - vm_compute; reflexivity.
  - vm_compute. split; [discriminate | reflexivity].
  - reflexivity.
  - vm_compute; reflexivity.
  - vm_compute; reflexivity.
  - exists st'. split; [exact E|]. split; [exact Hq | exact Hc].
Defined.

End CallbackFacts.
Module HmacFacts.
Import Hash HashState Send Hmac.

Lemma xor_bytes_firstn pad n v :
  (n <= length pad)%nat ->
  firstn n (xor_bytes pad n v) = map (fun b => Z.lxor b v) (firstn n pad) /\
  skipn n (xor_bytes pad n v) = skipn n pad.
Proof.
  intros H. unfold xor_bytes.
  assert (Hl : length (map (fun b => Z.lxor b v) (firstn n pad)) = n)
    by (rewrite length_map, length_firstn; lia).
  split.
  - rewrite firstn_app, Hl, Nat.sub_diag, firstn_all2 by lia.
    cbn [firstn]. apply app_nil_r.
  - rewrite skipn_app, Hl, Nat.sub_diag, skipn_all2 by lia. reflexivity.
Qed.

(** The padded key in the two buffers before the masks are applied. *)
Lemma pad_key K bs (ipad opad : list Z) :
  (length K <= bs)%nat -> (bs <= length ipad)%nat ->
  let ipad1 := buf_write (memcpy ipad K (length K)) (length K)
                 (repeat 0 (bs - length K)) in
  firstn bs ipad1 = K ++ repeat 0 (bs - length K) /\
  skipn bs ipad1 = skipn bs ipad /\
  firstn bs (memcpy opad ipad1 bs) = K ++ repeat 0 (bs - length K) /\
  skipn bs (memcpy opad ipad1 bs) = skipn bs opad /\
  (bs <= length ipad1)%nat.
Proof.
  intros HK Hi ipad1.
  assert (E : ipad1 = (K ++ repeat 0 (bs - length K)) ++ skipn bs ipad).
  { subst ipad1. unfold buf_write, memcpy.
    rewrite firstn_all, firstn_app, Nat.sub_diag, firstn_all.
    cbn [firstn]. rewrite app_nil_r, repeat_length.
    rewrite skipn_app, skipn_all2 by lia. cbn [app].
    rewrite skipn_skipn, <- app_assoc. do 3 f_equal. lia. }
  assert (Hl : length (K ++ repeat 0 (bs - length K)) = bs)
    by (rewrite length_app, repeat_length; lia).
  assert (H1 : firstn bs ipad1 = K ++ repeat 0 (bs - length K)).
  { rewrite E, firstn_app, Hl, Nat.sub_diag, firstn_all2 by lia.
    cbn [firstn]. apply app_nil_r. }
  split; [exact H1|]. split.
  { rewrite E, skipn_app, Hl, Nat.sub_diag, skipn_all2 by lia. reflexivity. }
  unfold memcpy. rewrite H1. split.
  { rewrite firstn_app, Hl, Nat.sub_diag, firstn_all2 by lia.
    cbn [firstn]. apply app_nil_r. }
  split.
  { rewrite skipn_app, Hl, Nat.sub_diag, skipn_all2 by lia. reflexivity. }
  rewrite E, length_app, Hl. lia.
Qed.

(** X27.  [safexcel_hmac_init_pad] builds the pads of HMAC.  With the key
    as long as [keylen] says, a digest of [digestsize] bytes, at most a
    block, and both buffers holding a block: a key that fits in a block
    never fails; and when the call returns 0, the first block of [ipad] is
    the key (or, for a key longer than a block, its digest) followed by
    zeros, each byte combined with 0x36 by exclusive or, the first block
    of [opad] is the same bytes combined with 0x5c, and the bytes after
    the first block of either buffer are untouched. *)
Theorem hmac_init_pad_pads kmemdup_ok dret rerr kd ds blocksize key keylen
    ipad opad :
  0 <= keylen -> length key = Z.to_nat keylen -> length kd = ds ->
  Z.of_nat ds <= blocksize < 2 ^ 32 ->
  (Z.to_nat blocksize <= length ipad)%nat ->
  (Z.to_nat blocksize <= length opad)%nat ->
  let out := safexcel_hmac_init_pad kmemdup_ok dret rerr kd ds blocksize key
               keylen ipad opad in
  let K := if keylen <=? blocksize then key else kd in
  let bs := Z.to_nat blocksize in
  (fst (fst out) <> 0 -> blocksize < keylen) /\
  (fst (fst out) = 0 ->
   firstn bs (snd (fst out))
     = map (fun b => Z.lxor b HMAC_IPAD_VALUE) (K ++ repeat 0 (bs - length K)) /\
   firstn bs (snd out)
     = map (fun b => Z.lxor b HMAC_OPAD_VALUE) (K ++ repeat 0 (bs - length K)) /\
   skipn bs (snd (fst out)) = skipn bs ipad /\
   skipn bs (snd out) = skipn bs opad).
Proof.
  intros Hk Hkey Hkd Hbs Hi Ho out K bs.
  assert (Hpads : forall K0 : list Z, (length K0 <= bs)%nat ->
            let ipad1 := buf_write (memcpy ipad K0 (length K0)) (length K0)
                           (repeat 0 (bs - length K0)) in
            firstn bs (xor_bytes ipad1 bs HMAC_IPAD_VALUE)
              = map (fun b => Z.lxor b HMAC_IPAD_VALUE)
                  (K0 ++ repeat 0 (bs - length K0)) /\
            firstn bs (xor_bytes (memcpy opad ipad1 bs) bs HMAC_OPAD_VALUE)
              = map (fun b => Z.lxor b HMAC_OPAD_VALUE)
                  (K0 ++ repeat 0 (bs - length K0)) /\
            skipn bs (xor_bytes ipad1 bs HMAC_IPAD_VALUE) = skipn bs ipad /\
            skipn bs (xor_bytes (memcpy opad ipad1 bs) bs HMAC_OPAD_VALUE)
              = skipn bs opad).
  { intros K0 HK0 ipad1.
    destruct (pad_key K0 bs ipad opad HK0 Hi) as (H1 & H2 & H3 & H4 & H5).
    fold ipad1 in H1, H2, H3, H4, H5.
    assert (H6 : (bs <= length (memcpy opad ipad1 bs))%nat).
    { unfold memcpy. rewrite length_app, length_firstn, length_skipn. lia. }
    destruct (xor_bytes_firstn ipad1 bs HMAC_IPAD_VALUE H5) as [A1 A2].
    destruct (xor_bytes_firstn (memcpy opad ipad1 bs) bs HMAC_OPAD_VALUE H6)
      as [B1 B2].
    rewrite A1, A2, B1, B2, H1, H2, H3, H4. tauto. }
  subst out K. unfold safexcel_hmac_init_pad.
  destruct (Z.leb_spec keylen blocksize) as [Hle | Hgt].
  - cbn [fst snd]. split; [intros H; contradiction H; reflexivity|].
    intros _.
    assert (Hc : Z.to_nat (u32 (blocksize - keylen)) = (bs - length key)%nat).
    { rewrite Hkey. unfold u32. rewrite Z.mod_small by lia. subst bs. lia. }
    rewrite Hc, <- Hkey. apply Hpads. subst bs. lia.
  - destruct (negb kmemdup_ok).
    { cbn [fst snd]. split; [intros _; exact Hgt|].
      intros H. vm_compute in H. discriminate. }
    set (ret := if (dret =? - EINPROGRESS) || (dret =? - EBUSY)
                then rerr else dret).
    destruct (Z.eqb_spec ret 0) as [E0 | E0]; cbn [negb fst snd].
    + split; [intros H; contradiction H; reflexivity|]. intros _.
      rewrite Nat2Z.id.
      assert (Hc : Z.to_nat (u32 (blocksize - Z.of_nat ds))
                   = (bs - length kd)%nat).
      { rewrite Hkd. unfold u32. rewrite Z.mod_small by lia. subst bs. lia. }
      rewrite Hc, <- Hkd. apply Hpads. subst bs. lia.
    + split; [intros _; exact Hgt|]. intros H. contradiction.
Qed.

Lemma memcpy_prefix_eq (dst src : list Z) n :
  (n <= length src)%nat -> (n <= length dst)%nat ->
  firstn n (memcpy dst src n) = firstn n src /\
  skipn n (memcpy dst src n) = skipn n dst /\
  length (memcpy dst src n) = length dst.
Proof.
  intros Hs Hd. unfold memcpy.
  assert (Hl : length (firstn n src) = n) by (rewrite length_firstn; lia).
  rewrite firstn_app, skipn_app, length_app, length_skipn, !Hl, Nat.sub_diag.
  rewrite (firstn_all2 (n := n) (firstn n src)) by (rewrite Hl; lia).
  rewrite (skipn_all2 (n := n) (firstn n src)) by (rewrite Hl; lia).
  cbn [firstn skipn app].
  rewrite app_nil_r. repeat split. lia.
Qed.

Lemma memcpy_idem (dst src : list Z) n :
  (n <= length src)%nat ->
  memcpy (memcpy dst src n) src n = memcpy dst src n.
Proof.
  intros Hs. unfold memcpy. f_equal.
  assert (Hl : length (firstn n src) = n) by (rewrite length_firstn; lia).
  rewrite skipn_app, Hl, Nat.sub_diag.
  rewrite (skipn_all2 (n := n) (firstn n src)) by (rewrite Hl; lia).
  reflexivity.
Qed.

Lemma firstn_le_eq (a b : list Z) n k :
  (k <= n)%nat -> firstn n a = firstn n b -> firstn k a = firstn k b.
Proof.
  intros Hk H.
  replace (firstn k a) with (firstn k (firstn n a))
    by (rewrite firstn_firstn; f_equal; lia).
  replace (firstn k b) with (firstn k (firstn n b))
    by (rewrite firstn_firstn; f_equal; lia).
  rewrite H. reflexivity.
Qed.

(** X28.  [safexcel_hmac_alg_setkey] asks for an invalidation only when
    the key material changes.  With the pads and states holding
    [state_sz] bytes: when [safexcel_hmac_setkey] fails the context is
    unchanged and the status returned; otherwise the call returns 0, the
    first [state_sz] bytes of the pads are those of the new states and the
    rest of the context is unchanged, except that [needs_inv] is never
    lowered and is raised only on a device that needs invalidation, with a
    context record, and a pad that differs from the new state; and setting
    the same key again changes nothing, so does not raise [needs_inv]. *)
Theorem hmac_setkey_invalidation need_inv ret istate ostate state_sz ctx :
  0 <= state_sz ->
  (Z.to_nat state_sz <= length istate)%nat ->
  (Z.to_nat state_sz <= length ostate)%nat ->
  (Z.to_nat state_sz <= length (ipad ctx))%nat ->
  (Z.to_nat state_sz <= length (opad ctx))%nat ->
  let out := safexcel_hmac_alg_setkey need_inv (ret, istate, ostate) state_sz
               ctx in
  let ctx' := snd out in
  let n := Z.to_nat state_sz in
  fst out = ret /\
  (ret <> 0 -> ctx' = ctx) /\
  (ret = 0 ->
   firstn n (ipad ctx') = firstn n istate /\
   firstn n (opad ctx') = firstn n ostate /\
   skipn n (ipad ctx') = skipn n (ipad ctx) /\
   skipn n (opad ctx') = skipn n (opad ctx) /\
   alg (hbase ctx') = alg (hbase ctx) /\
   ctxr (hbase ctx') = ctxr (hbase ctx) /\
   ctxr_dma ctx' = ctxr_dma ctx /\
   (base_needs_inv (hbase ctx) = true ->
    base_needs_inv (hbase ctx') = true) /\
   (base_needs_inv (hbase ctx') = true ->
    base_needs_inv (hbase ctx) = true \/
    (need_inv = true /\ ctxr (hbase ctx) <> 0 /\
     (firstn n (ipad ctx) <> firstn n istate \/
      firstn n (opad ctx) <> firstn n ostate))) /\
   safexcel_hmac_alg_setkey need_inv (0, istate, ostate) state_sz ctx'
     = (0, ctx')).
Proof.
  intros Hsz Hi Ho Hip Hop out ctx' n.
  destruct (Z.eqb_spec ret 0) as [-> | Hret].
  2:{ subst ctx' out. unfold safexcel_hmac_alg_setkey.
      apply Z.eqb_neq in Hret. rewrite Hret. cbn [negb fst snd].
      split; [reflexivity|]. split; [reflexivity|].
      apply Z.eqb_neq in Hret. intros H. contradiction. }
  set (w := (4 * Z.to_nat (state_sz / 4))%nat).
  assert (Hw : (w <= n)%nat).
  { subst w n. pose proof (Z.mul_div_le state_sz 4 ltac:(lia)).
    assert (0 <= state_sz / 4) by (apply Z.div_pos; lia). lia. }
  destruct (memcpy_prefix_eq (ipad ctx) istate n Hi Hip) as (I1 & I2 & I3).
  destruct (memcpy_prefix_eq (opad ctx) ostate n Ho Hop) as (O1 & O2 & O3).
  set (differs := if list_eq_dec Z.eq_dec (firstn w (ipad ctx)) (firstn w istate)
                  then if list_eq_dec Z.eq_dec (firstn w (opad ctx))
                            (firstn w ostate)
                       then false else true
                  else true).
  assert (Hdiff : differs = true ->
                  firstn n (ipad ctx) <> firstn n istate \/
                  firstn n (opad ctx) <> firstn n ostate).
  { subst differs.
    destruct (list_eq_dec Z.eq_dec (firstn w (ipad ctx)) (firstn w istate))
      as [E1 | E1].
    - destruct (list_eq_dec Z.eq_dec (firstn w (opad ctx)) (firstn w ostate))
        as [E2 | E2]; [discriminate|].
      intros _. right. intros E. apply E2. eapply firstn_le_eq; eassumption.
    - intros _. left. intros E. apply E1. eapply firstn_le_eq; eassumption. }
  set (base' := if need_inv && negb (ctxr (hbase ctx) =? 0) && differs
                then set_base_needs_inv (hbase ctx) true else hbase ctx).
  assert (Eout : out = (0, mk_hctx base' (ctxr_dma ctx)
                             (memcpy (ipad ctx) istate n)
                             (memcpy (opad ctx) ostate n)))
    by reflexivity.
  assert (Hb : alg base' = alg (hbase ctx) /\ ctxr base' = ctxr (hbase ctx) /\
               (base_needs_inv (hbase ctx) = true ->
                base_needs_inv base' = true) /\
               (base_needs_inv base' = true ->
                base_needs_inv (hbase ctx) = true \/
                (need_inv = true /\ ctxr (hbase ctx) <> 0 /\ differs = true))).
  { subst base'.
    destruct (need_inv && negb (ctxr (hbase ctx) =? 0) && differs) eqn:Ec.
    - apply andb_true_iff in Ec. destruct Ec as [Ec Ed].
      apply andb_true_iff in Ec. destruct Ec as [En Ex].
      apply negb_true_iff, Z.eqb_neq in Ex.
      cbn [alg ctxr base_needs_inv set_base_needs_inv]. tauto.
    - tauto. }
  destruct Hb as (Ha & Hx & Hup & Hdown).
  clearbody base' differs.
  subst ctx'. rewrite Eout. cbn [fst snd ipad opad hbase ctxr_dma].
  split; [reflexivity|]. split; [intros H; contradiction H; reflexivity|].
  intros _.
  split; [exact I1|]. split; [exact O1|]. split; [exact I2|].
  split; [exact O2|]. split; [exact Ha|]. split; [exact Hx|].
  split; [reflexivity|]. split; [exact Hup|].
  split; [intros H; destruct (Hdown H) as [H1 | (H1 & H2 & H3)];
          [left; exact H1 | right; split; [exact H1|]; split; [exact H2|];
           apply Hdiff, H3]|].
  (* the same key again *)
  unfold safexcel_hmac_alg_setkey. cbn [Z.eqb negb ipad opad hbase ctxr_dma].
  fold w. fold n.
  assert (J1 : firstn w (memcpy (ipad ctx) istate n) = firstn w istate)
    by (eapply firstn_le_eq; eassumption).
  assert (J2 : firstn w (memcpy (opad ctx) ostate n) = firstn w ostate)
    by (eapply firstn_le_eq; eassumption).
  destruct (list_eq_dec Z.eq_dec (firstn w (memcpy (ipad ctx) istate n))
              (firstn w istate)) as [_ | F]; [|contradiction].
  destruct (list_eq_dec Z.eq_dec (firstn w (memcpy (opad ctx) ostate n))
              (firstn w ostate)) as [_ | F]; [|contradiction].
  rewrite andb_false_r.
  f_equal. f_equal.
  - apply memcpy_idem; assumption.
  - apply memcpy_idem; assumption.
Qed.

Lemma hmac_init_pad_pads_witness :
  let out := safexcel_hmac_init_pad true 0 0 (repeat 0 20) 20 64
               (repeat 0x0b 20) 20 (repeat 0 64) (repeat 0 64) in
  fst (fst out) = 0 /\
  firstn 64 (snd (fst out)) = repeat 0x3d 20 ++ repeat 0x36 44 /\
  firstn 64 (snd out) = repeat 0x57 20 ++ repeat 0x5c 44.
Proof.
  intros out.
  destruct (hmac_init_pad_pads true 0 0 (repeat 0 20) 20%nat 64
              (repeat 0x0b 20) 20 (repeat 0 64) (repeat 0 64))
    as [_ H].
  - lia.
  - reflexivity.
  - reflexivity.
  - simpl; lia.
  - simpl; lia.
  - simpl; lia.
  - destruct (H eq_refl) as (A & B & _).
    split; [reflexivity|]. split; [exact A | exact B].
Defined.

Lemma hmac_setkey_invalidation_witness :
  let ctx := mk_hctx (mk_ctx CONTEXT_CONTROL_CRYPTO_ALG_SHA1 0x1000 false)
               0x2000 (repeat 0 64) (repeat 0 64) in
  let out := safexcel_hmac_alg_setkey true (0, repeat 1 64, repeat 2 64) 20
               ctx in
  base_needs_inv (hbase (snd out)) = true /\
  firstn 20 (ipad (snd out)) = repeat 1 20 /\
  safexcel_hmac_alg_setkey true (0, repeat 1 64, repeat 2 64) 20 (snd out)
    = (0, snd out).
Proof.
  intros ctx out.
  destruct (hmac_setkey_invalidation true 0 (repeat 1 64) (repeat 2 64) 20 ctx)
    as (_ & _ & H).
  - lia.
  - simpl; lia.
  - simpl; lia.
  - simpl; lia.
  - simpl; lia.
  - destruct (H eq_refl) as (A & _ & _ & _ & _ & _ & _ & _ & _ & B).
    split; [reflexivity|]. split; [exact A | exact B].
Defined.

End HmacFacts.
Module AlgFacts.
Import Hash HashState Desc DescFacts Send PacketFacts Algs.

Lemma or32_same m a v : or32 m a v a = u32 (Z.lor (m a) v).
Proof. unfold or32. apply store32_same. Qed.

Ltac control0 :=
  repeat first [ rewrite or32_same
               | rewrite or32_other by (offsets; lia) ].

Ltac const X := let v := eval vm_compute in X in change X with v.
Ltac consts :=
  const CONTEXT_CONTROL_DIGEST_PRECOMPUTED;
  const CONTEXT_CONTROL_DIGEST_HMAC;
  const CONTEXT_CONTROL_CRYPTO_ALG_MD5;
  const CONTEXT_CONTROL_CRYPTO_ALG_SHA1;
  const CONTEXT_CONTROL_CRYPTO_ALG_SHA224;
  const CONTEXT_CONTROL_CRYPTO_ALG_SHA256;
  const CONTEXT_CONTROL_CRYPTO_ALG_SHA384;
  const CONTEXT_CONTROL_CRYPTO_ALG_SHA512.

(** X29.  The context size in [control0] matches the state of every
    algorithm.  For a request as any of the twelve init functions leaves it
    (the same [state_sz] and [digest], with [ctx->alg] as the function sets
    it), [safexcel_context_control] called with digest size [state_sz] on
    cleared control words writes a [control0] whose size field (bits 8 to
    15) is the number of words of the state plus one for the block counter
    when the digest is precomputed and something was processed, twice the
    number of words of the state for an HMAC digest (inner and outer pad),
    and 0 for a precomputed digest with nothing processed; its algorithm
    and digest fields are [ctx->alg] and [req->digest], its type is
    [CONTEXT_CONTROL_TYPE_HASH_OUT], the restart bit is set exactly for a
    precomputed digest with nothing processed, and the no-finish bit
    exactly for a precomputed digest of a request that does not finish. *)
Theorem context_size_matches_state md5_h sha224_h sha256_h sha384_h sha512_h
    init old ctx data req c m :
  In init (ahash_inits md5_h sha224_h sha256_h sha384_h sha512_h) ->
  alg (hbase ctx) = snd (fst (init old)) ->
  state_sz req = state_sz (snd (init old)) ->
  digest (core req) = digest (core (snd (init old))) ->
  m (c + control0_ofs) = 0 ->
  let control0 :=
    fst (safexcel_context_control ctx data req c (state_sz req) m)
      (c + control0_ofs) in
  let started :=
    negb (fst (processed (core req)) =? 0) ||
    negb (snd (processed (core req)) =? 0) in
  fst (fst (init old)) = 0 /\
  Z.land (Z.shiftr control0 8) 0xff =
    (if digest (core req) =? CONTEXT_CONTROL_DIGEST_HMAC
     then 2 * (state_sz req / 4)
     else if started then state_sz req / 4 + 1 else 0) /\
  Z.land control0 (Z.shiftl 0x7 23) = alg (hbase ctx) /\
  Z.land control0 (Z.shiftl 0x3 21) = digest (core req) /\
  Z.land control0 0xf = CONTEXT_CONTROL_TYPE_HASH_OUT /\
  Z.testbit control0 4 =
    (digest (core req) =? CONTEXT_CONTROL_DIGEST_PRECOMPUTED) && negb started /\
  Z.testbit control0 5 =
    (digest (core req) =? CONTEXT_CONTROL_DIGEST_PRECOMPUTED) &&
    negb (finish (core req)).
Proof.
  intros Hin Halg Hsz Hdg Hm control0 started.
  subst control0. unfold safexcel_context_control.
  fold started.
  unfold ahash_inits in Hin. cbn [In] in Hin.
  repeat match type of Hin with
         | _ \/ _ => destruct Hin as [<- | Hin]
         | False => contradiction
         end;
    cbn in Halg, Hsz, Hdg; rewrite Halg, Hsz, Hdg;
    destruct started; destruct (finish (core req));
    consts; cbn [Z.eqb Pos.eqb negb orb andb];
    repeat match goal with
           | |- context [fst (if ?b then _ else _)] => destruct b
           end;
    cbn [fst snd]; control0; rewrite Hm; vm_compute; repeat split.
Qed.

Lemma context_size_matches_state_witness :
  let init := safexcel_sha224_init (repeat 0 32) in
  let old := send_req64 true 64 in
  let req := set_core (snd (init old))
               (set_processed (core (snd (init old))) (64, 0)) in
  let ctx := mk_hctx (mk_ctx CONTEXT_CONTROL_CRYPTO_ALG_SHA224 0 false) 0
               [] [] in
  let control0 :=
    fst (safexcel_context_control ctx (repeat 0 160) req 4096 (state_sz req)
           (fun _ => 0)) (4096 + control0_ofs) in
  Z.land (Z.shiftr control0 8) 0xff = 9 /\
  Z.land control0 (Z.shiftl 0x7 23) = CONTEXT_CONTROL_CRYPTO_ALG_SHA224.
Proof.
  intros init old req ctx control0.
  destruct (context_size_matches_state [] (repeat 0 32) [] [] [] init old ctx
              (repeat 0 160) req 4096 (fun _ => 0))
    as (_ & H1 & H2 & _).
  - unfold ahash_inits. cbn [In]. right. right. left. reflexivity.
  - reflexivity.
  - reflexivity.
  - reflexivity.
  - reflexivity.
  - split; [exact H1 | exact H2].
Defined.

End AlgFacts.
